(** * A shallow embedding of the write-back block cache (block_cache.c)

    The cache keeps 128 slots of 512 bytes.  Slots are threaded on three
    intrusive structures that live inside the slot array itself: a hash
    index of 257 bucket chains, a doubly linked recency list and a singly
    linked free list that re-uses the hash link.  C pointers into
    [s_cache] are modelled as optional array indices, the file-level
    statics as one record, and the block device underneath as an abstract
    state machine. *)

From Stdlib Require Import List ZArith Lia Bool Arith.
From Stdlib Require Import Strings.Byte.
Import ListNotations.

Set Implicit Arguments.

(** ** Constants and basic types *)

Definition BLOCK_SIZE : nat := 512.
Definition CACHE_SIZE : nat := 128.
Definition HASH_SIZE : nat := 257.

(** Drive numbers of diskio.c. *)
Definition DEV_SD : Z := 0.
Definition DEV_USB : Z := 1.

(** FatFs result codes (diskio.h). *)
Inductive DRESULT : Type :=
| RES_OK | RES_ERROR | RES_WRPRT | RES_NOTRDY | RES_PARERR.

Definition is_ok (r : DRESULT) : bool :=
  match r with RES_OK => true | _ => false end.

(** A [cache_entry *]: NULL or the index of a slot of [s_cache]. *)
Definition ptr : Type := option nat.

Definition ptr_eqb (a b : ptr) : bool :=
  match a, b with
  | None, None => true
  | Some x, Some y => Nat.eqb x y
  | _, _ => false
  end.

Definition block : Type := list byte.

(** [memcpy dst src n]: the first [n] bytes of [dst] are replaced. *)
Definition memcpy (dst src : block) (n : nat) : block :=
  firstn n src ++ skipn n dst.

Record cache_entry : Type := mkEntry {
  sector : Z;            (* LBA_t *)
  pdrv : Z;              (* BYTE *)
  dirty : bool;
  valid : bool;
  hash_next : ptr;
  lru_prev : ptr;
  lru_next : ptr;
  data : block
}.

Definition set_sector (v : Z) (x : cache_entry) : cache_entry :=
  mkEntry v (pdrv x) (dirty x) (valid x) (hash_next x) (lru_prev x) (lru_next x) (data x).
Definition set_pdrv (v : Z) (x : cache_entry) : cache_entry :=
  mkEntry (sector x) v (dirty x) (valid x) (hash_next x) (lru_prev x) (lru_next x) (data x).
Definition set_dirty (v : bool) (x : cache_entry) : cache_entry :=
  mkEntry (sector x) (pdrv x) v (valid x) (hash_next x) (lru_prev x) (lru_next x) (data x).
Definition set_valid (v : bool) (x : cache_entry) : cache_entry :=
  mkEntry (sector x) (pdrv x) (dirty x) v (hash_next x) (lru_prev x) (lru_next x) (data x).
Definition set_hash_next (v : ptr) (x : cache_entry) : cache_entry :=
  mkEntry (sector x) (pdrv x) (dirty x) (valid x) v (lru_prev x) (lru_next x) (data x).
Definition set_lru_prev (v : ptr) (x : cache_entry) : cache_entry :=
  mkEntry (sector x) (pdrv x) (dirty x) (valid x) (hash_next x) v (lru_next x) (data x).
Definition set_lru_next (v : ptr) (x : cache_entry) : cache_entry :=
  mkEntry (sector x) (pdrv x) (dirty x) (valid x) (hash_next x) (lru_prev x) v (data x).
Definition set_data (v : block) (x : cache_entry) : cache_entry :=
  mkEntry (sector x) (pdrv x) (dirty x) (valid x) (hash_next x) (lru_prev x) (lru_next x) v.

(** A zero-filled slot, as left by [memset] or by static initialisation. *)
Definition entry0 : cache_entry :=
  mkEntry 0 0 false false None None None (repeat x00 BLOCK_SIZE).

(** In-place update of one array element; nothing happens out of range
    (the program never forms such a pointer). *)
Fixpoint upd (A : Type) (i : nat) (f : A -> A) (l : list A) {struct l} : list A :=
  match l with
  | [] => []
  | x :: l' =>
      match i with
      | 0 => f x :: l'
      | S i' => x :: upd i' f l'
      end
  end.

(** The file-level statics of block_cache.c. *)
Record cache_state : Type := mkState {
  s_cache : list cache_entry;
  s_hash_table : list ptr;
  s_dirty_blocks : bool;
  s_lru_head : ptr;
  s_lru_tail : ptr;
  s_free_head : ptr;
  s_evict_error : DRESULT
}.

Definition set_cache (c : list cache_entry) (s : cache_state) : cache_state :=
  mkState c (s_hash_table s) (s_dirty_blocks s) (s_lru_head s) (s_lru_tail s)
          (s_free_head s) (s_evict_error s).
Definition set_hash_table (t : list ptr) (s : cache_state) : cache_state :=
  mkState (s_cache s) t (s_dirty_blocks s) (s_lru_head s) (s_lru_tail s)
          (s_free_head s) (s_evict_error s).
Definition set_dirty_blocks (b : bool) (s : cache_state) : cache_state :=
  mkState (s_cache s) (s_hash_table s) b (s_lru_head s) (s_lru_tail s)
          (s_free_head s) (s_evict_error s).
Definition set_lru_head (p : ptr) (s : cache_state) : cache_state :=
  mkState (s_cache s) (s_hash_table s) (s_dirty_blocks s) p (s_lru_tail s)
          (s_free_head s) (s_evict_error s).
Definition set_lru_tail (p : ptr) (s : cache_state) : cache_state :=
  mkState (s_cache s) (s_hash_table s) (s_dirty_blocks s) (s_lru_head s) p
          (s_free_head s) (s_evict_error s).
Definition set_free_head (p : ptr) (s : cache_state) : cache_state :=
  mkState (s_cache s) (s_hash_table s) (s_dirty_blocks s) (s_lru_head s) (s_lru_tail s)
          p (s_evict_error s).
Definition set_evict_error (r : DRESULT) (s : cache_state) : cache_state :=
  mkState (s_cache s) (s_hash_table s) (s_dirty_blocks s) (s_lru_head s) (s_lru_tail s)
          (s_free_head s) r.

(** [s_cache[i]] read through a pointer. *)
Definition entry (s : cache_state) (i : nat) : cache_entry :=
  nth i (s_cache s) entry0.

(** [e->field = ...] for the slot [i]. *)
Definition upd_entry (i : nat) (f : cache_entry -> cache_entry) (s : cache_state)
  : cache_state :=
  set_cache (upd i f (s_cache s)) s.

(** The statics as the C start-up code leaves them: zeroed arrays, NULL
    list heads, and [s_dirty_blocks] initialised to [true]. *)
Definition boot_state : cache_state :=
  mkState (repeat entry0 CACHE_SIZE) (repeat None HASH_SIZE) true None None None RES_OK.

(** ** Abstract views used by the proofs

    The recency list and the chains are described by plain lists of slot
    indices.  [next_of l i] is the element that follows [i] in [l]; the
    element before it is the one that follows it in [rev l]. *)

Fixpoint next_of (l : list nat) (i : nat) : option nat :=
  match l with
  | [] => None
  | x :: l' => if Nat.eqb x i then hd_error l' else next_of l' i
  end.

(** [l] without [e]. *)
Definition del (e : nat) (l : list nat) : list nat :=
  filter (fun x => negb (Nat.eqb x e)) l.

(** The list of slots met from [p] along [hash_next], when the walk ends
    within [fuel] steps. *)
Fixpoint chain_walk (fuel : nat) (c : list cache_entry) (p : ptr) : option (list nat) :=
  match p with
  | None => Some []
  | Some i =>
      match fuel with
      | 0 => None
      | S fuel' =>
          match chain_walk fuel' c (hash_next (nth i c entry0)) with
          | Some l => Some (i :: l)
          | None => None
          end
      end
  end.

(** ** LRU functions *)

Definition lru_remove (e : nat) (s : cache_state) : cache_state :=
  let s1 := match lru_prev (entry s e) with
            | Some p => upd_entry p (set_lru_next (lru_next (entry s e))) s
            | None => s
            end in
  let s2 := match lru_next (entry s1 e) with
            | Some n => upd_entry n (set_lru_prev (lru_prev (entry s1 e))) s1
            | None => s1
            end in
  let s3 := if ptr_eqb (s_lru_head s2) (Some e)
            then set_lru_head (lru_next (entry s2 e)) s2 else s2 in
  let s4 := if ptr_eqb (s_lru_tail s3) (Some e)
            then set_lru_tail (lru_prev (entry s3 e)) s3 else s3 in
  upd_entry e (fun x => set_lru_prev None (set_lru_next None x)) s4.

Definition lru_insert_front (e : nat) (s : cache_state) : cache_state :=
  let s1 := upd_entry e (set_lru_next (s_lru_head s)) s in
  let s2 := upd_entry e (set_lru_prev None) s1 in
  let s3 := match s_lru_head s2 with
            | Some h => upd_entry h (set_lru_prev (Some e)) s2
            | None => s2
            end in
  let s4 := set_lru_head (Some e) s3 in
  match s_lru_tail s4 with
  | None => set_lru_tail (Some e) s4
  | Some _ => s4
  end.

(** Move entry to front on page hit. *)
Definition lru_touch (e : nat) (s : cache_state) : cache_state :=
  if ptr_eqb (s_lru_head s) (Some e) then s
  else lru_insert_front e (lru_remove e s).

(** ** Free list (threaded through [hash_next]) *)

Definition free_get (s : cache_state) : ptr * cache_state :=
  match s_free_head s with
  | None => (None, s)
  | Some r => (Some r, set_free_head (hash_next (entry s r)) s)
  end.

Definition free_insert (e : nat) (s : cache_state) : cache_state :=
  let s1 := upd_entry e (set_valid false) s in
  let s2 := upd_entry e (set_hash_next (s_free_head s1)) s1 in
  set_free_head (Some e) s2.

(** ** Stand-ins for the device drivers

    A driver that always succeeds and one that always fails, over a
    device without state; a read leaves the buffer as it found it. *)

Definition good_read (d : unit) (buff : block) (sec : Z) : DRESULT * block * unit :=
  (RES_OK, buff, d).
Definition good_write (d : unit) (buff : block) (sec : Z) : DRESULT * unit :=
  (RES_OK, d).
Definition bad_read (d : unit) (buff : block) (sec : Z) : DRESULT * block * unit :=
  (RES_ERROR, buff, d).
Definition bad_write (d : unit) (buff : block) (sec : Z) : DRESULT * unit :=
  (RES_ERROR, d).

(** A 512-byte buffer filled with one byte. *)
Definition pattern (b : byte) : block := repeat b BLOCK_SIZE.

(** ** Hash index *)

Section Cache.

(** [FF_LBA64] comes from the FatFs configuration header, which is not
    part of the sources: it selects a 64-bit or a 32-bit [LBA_t]. *)
Variable FF_LBA64 : bool.

Definition u32 (z : Z) : Z := z mod 2 ^ 32.

(** [sizeof(BYTE)] is 1, so the drive number is shifted by 31 bits; the
    assignment to [uint32_t] and the unsigned product both wrap. *)
Definition hash_key (p sec : Z) : nat :=
  let value :=
    if FF_LBA64
    then u32 (Z.lxor (Z.lxor (Z.land sec 4294967295) (Z.shiftr sec 32)) (Z.shiftl p 31))
    else u32 (Z.lxor sec (Z.shiftl p 31)) in
  Z.to_nat (u32 (value * 2654435761) mod Z.of_nat HASH_SIZE).

(** The chain walks are loops over pointers.  Chains run through at most
    [CACHE_SIZE] slots unless they are cyclic, so a walk that has not
    finished after [LOOP_FUEL] steps never finishes: [None] stands for
    a loop that does not return. *)
Definition LOOP_FUEL : nat := S CACHE_SIZE.

Definition key_match (x : cache_entry) (p sec : Z) : bool :=
  valid x && (sector x =? sec)%Z && (pdrv x =? p)%Z.

Fixpoint hash_lookup_loop (fuel : nat) (s : cache_state) (e : ptr) (p sec : Z)
  : option ptr :=
  match e with
  | None => Some None
  | Some i =>
      match fuel with
      | 0 => None
      | S fuel' =>
          if key_match (entry s i) p sec then Some (Some i)
          else hash_lookup_loop fuel' s (hash_next (entry s i)) p sec
      end
  end.

Definition hash_lookup (s : cache_state) (p sec : Z) : option ptr :=
  hash_lookup_loop LOOP_FUEL s (nth (hash_key p sec) (s_hash_table s) None) p sec.

Definition hash_insert (e : nat) (s : cache_state) : cache_state :=
  let h := hash_key (pdrv (entry s e)) (sector (entry s e)) in
  let s1 := upd_entry e (set_hash_next (nth h (s_hash_table s) None)) s in
  set_hash_table (upd h (fun _ => Some e) (s_hash_table s1)) s1.

(** What the [cache_entry **pp] of [hash_remove] can point at: a bucket
    of [s_hash_table] or the [hash_next] field of a slot. *)
Inductive link : Type :=
| BucketLink (h : nat)
| NextLink (i : nat).

Definition load_link (s : cache_state) (pp : link) : ptr :=
  match pp with
  | BucketLink h => nth h (s_hash_table s) None
  | NextLink i => hash_next (entry s i)
  end.

Definition store_link (pp : link) (v : ptr) (s : cache_state) : cache_state :=
  match pp with
  | BucketLink h => set_hash_table (upd h (fun _ => v) (s_hash_table s)) s
  | NextLink i => upd_entry i (set_hash_next v) s
  end.

Fixpoint hash_remove_loop (fuel : nat) (s : cache_state) (pp : link) (e : nat)
  : option cache_state :=
  match load_link s pp with
  | None => Some s
  | Some i =>
      match fuel with
      | 0 => None
      | S fuel' =>
          if Nat.eqb i e then
            let s1 := store_link pp (hash_next (entry s e)) s in
            Some (upd_entry e (set_hash_next None) s1)
          else hash_remove_loop fuel' s (NextLink i) e
      end
  end.

Definition hash_remove (e : nat) (s : cache_state) : option cache_state :=
  let h := hash_key (pdrv (entry s e)) (sector (entry s e)) in
  hash_remove_loop LOOP_FUEL s (BucketLink h) e.

(** ** The block device and the public functions *)

(** The SD and USB drivers behind diskio.c are hardware code outside the
    sources.  A driver call takes the device state, the buffer and the
    sector; a read also returns what it left in the buffer. *)
Variable Dev : Type.
Variable sd_disk_read : Dev -> block -> Z -> DRESULT * block * Dev.
Variable sd_disk_write : Dev -> block -> Z -> DRESULT * Dev.
Variable usb_disk_read : Dev -> block -> Z -> DRESULT * block * Dev.
Variable usb_disk_write : Dev -> block -> Z -> DRESULT * Dev.
(** Whether the build has [MEDIUM == USB]. *)
Variable MEDIUM_USB : bool.

(** diskio.c, for a count of one sector. *)
Definition disk_read_no_cache (d : Dev) (p : Z) (buff : block) (sec : Z)
  : DRESULT * block * Dev :=
  if (p =? DEV_SD)%Z then sd_disk_read d buff sec
  else if MEDIUM_USB && (p =? DEV_USB)%Z then usb_disk_read d buff sec
  else (RES_PARERR, buff, d).

Definition disk_write_no_cache (d : Dev) (p : Z) (buff : block) (sec : Z)
  : DRESULT * Dev :=
  if (p =? DEV_SD)%Z then sd_disk_write d buff sec
  else if MEDIUM_USB && (p =? DEV_USB)%Z then usb_disk_write d buff sec
  else (RES_PARERR, d).

(** Device calls are recorded, with their result, in a ghost log. *)
Inductive io_event : Type :=
| IoRead (p sec : Z) (r : DRESULT)
| IoWrite (p sec : Z) (buff : block) (r : DRESULT).

Record world : Type := mkWorld {
  cache : cache_state;
  dev : Dev;
  io_log : list io_event
}.

Definition with_cache (f : cache_state -> cache_state) (w : world) : world :=
  mkWorld (f (cache w)) (dev w) (io_log w).

(** One logged [disk_write_no_cache] of the slot [i]. *)
Definition write_back (i : nat) (w : world) : DRESULT * world :=
  let x := entry (cache w) i in
  let '(r, d') := disk_write_no_cache (dev w) (pdrv x) (data x) (sector x) in
  (r, mkWorld (cache w) d' (io_log w ++ [IoWrite (pdrv x) (sector x) (data x) r])).

(** The second half of [evict_entry]: once [hash_remove] has unlinked the
    slot, it leaves the recency list and is marked invalid and clean. *)
Definition reclaimed (e : nat) (s1 : cache_state) : cache_state :=
  upd_entry e (set_dirty false) (upd_entry e (set_valid false) (lru_remove e s1)).

Definition evict_entry (w : world) : option (ptr * world) :=
  match s_lru_tail (cache w) with
  | None => Some (None, with_cache (set_evict_error RES_PARERR) w)
  | Some e =>
      let reclaim (w0 : world) : option (ptr * world) :=
        match hash_remove e (cache w0) with
        | None => None
        | Some s1 => Some (Some e, mkWorld (reclaimed e s1) (dev w0) (io_log w0))
        end in
      if valid (entry (cache w) e) && dirty (entry (cache w) e) then
        let '(r, w1) := write_back e w in
        let w2 := with_cache (set_evict_error r) w1 in
        if is_ok r then reclaim w2 else Some (None, w2)
      else reclaim w
  end.

Definition block_cache_init (s : cache_state) : cache_state :=
  let s1 := set_cache (repeat entry0 CACHE_SIZE) s in
  let s2 := set_hash_table (repeat None HASH_SIZE) s1 in
  let s3 := set_lru_tail None (set_lru_head None s2) in
  fold_left (fun acc i => if valid (entry acc i) then acc else free_insert i acc)
            (seq 0 CACHE_SIZE) s3.

(** The slot for a miss: the free list first, eviction otherwise. *)
Definition obtain_entry (w : world) : option (ptr * world) :=
  match free_get (cache w) with
  | (Some f, s1) => Some (Some f, mkWorld s1 (dev w) (io_log w))
  | (None, s1) => evict_entry (mkWorld s1 (dev w) (io_log w))
  end.

Definition copy_out (out_data : option block) (x : cache_entry) : option block :=
  match out_data with
  | Some buf => Some (memcpy buf (data x) BLOCK_SIZE)
  | None => None
  end.

(** What a read miss stores in the slot after a successful device read
    (the payload is already in place). *)
Definition read_fill (f : nat) (p sec : Z) (buf : block) (s : cache_state)
  : cache_state :=
  upd_entry f (set_valid true)
    (upd_entry f (set_dirty false)
       (upd_entry f (set_pdrv p)
          (upd_entry f (set_sector sec)
             (upd_entry f (set_data buf) s)))).

(** What a write miss stores in the slot. *)
Definition write_fill (f : nat) (p sec : Z) (in_data : block) (s : cache_state)
  : cache_state :=
  set_dirty_blocks true
    (upd_entry f (set_valid true)
       (upd_entry f (set_dirty true)
          (upd_entry f (set_pdrv p)
             (upd_entry f (set_sector sec)
                (upd_entry f (fun x => set_data (memcpy (data x) in_data BLOCK_SIZE) x)
                           s))))).

(** Add to hash + LRU. *)
Definition installed (f : nat) (sa : cache_state) : cache_state :=
  lru_insert_front f (hash_insert f sa).

Definition block_cache_read_block (p sec : Z) (out_data : option block) (w : world)
  : option (DRESULT * option block * world) :=
  match hash_lookup (cache w) p sec with
  | None => None
  | Some (Some e) =>
      let s1 := lru_touch e (cache w) in
      Some (RES_OK, copy_out out_data (entry s1 e), mkWorld s1 (dev w) (io_log w))
  | Some None =>
      match obtain_entry w with
      | None => None
      | Some (None, w1) => Some (s_evict_error (cache w1), out_data, w1)
      | Some (Some f, w1) =>
          let '(result, buf, d') :=
            disk_read_no_cache (dev w1) p (data (entry (cache w1) f)) sec in
          let log' := io_log w1 ++ [IoRead p sec result] in
          if is_ok result then
            let s7 := installed f (read_fill f p sec buf (cache w1)) in
            Some (RES_OK, copy_out out_data (entry s7 f), mkWorld s7 d' log')
          else
            Some (result, out_data,
                  mkWorld (upd_entry f (set_data buf) (cache w1)) d' log')
      end
  end.

Definition block_cache_write_block (p sec : Z) (in_data : block) (w : world)
  : option (DRESULT * world) :=
  match hash_lookup (cache w) p sec with
  | None => None
  | Some (Some e) =>
      let s1 := upd_entry e (fun x => set_data (memcpy (data x) in_data BLOCK_SIZE) x)
                          (cache w) in
      let s2 := upd_entry e (set_dirty true) s1 in
      let s3 := set_dirty_blocks true s2 in
      Some (RES_OK, mkWorld (lru_touch e s3) (dev w) (io_log w))
  | Some None =>
      match obtain_entry w with
      | None => None
      | Some (None, w1) => Some (s_evict_error (cache w1), w1)
      | Some (Some f, w1) =>
          Some (RES_OK,
                mkWorld (installed f (write_fill f p sec in_data (cache w1)))
                        (dev w1) (io_log w1))
      end
  end.

(** The scan of [block_cache_flush] over the pool positions [idx]:
    [Some r] is an early [return r], [None] means the loop ran to its
    end. *)
Fixpoint flush_loop (idx : list nat) (flush_all invalidate_all : bool) (w : world)
  : option DRESULT * world :=
  match idx with
  | [] => (None, w)
  | i :: rest =>
      let invalidate (w0 : world) : world :=
        if invalidate_all then with_cache (upd_entry i (set_valid false)) w0 else w0 in
      if valid (entry (cache w) i) && dirty (entry (cache w) i) then
        let '(result, w1) := write_back i w in
        if is_ok result then
          let w2 := with_cache (upd_entry i (set_dirty false)) w1 in
          if flush_all then flush_loop rest flush_all invalidate_all (invalidate w2)
          else (Some RES_OK, w2)
        else (Some result, w1)
      else flush_loop rest flush_all invalidate_all (invalidate w)
  end.

Definition block_cache_flush (flush_all invalidate_all : bool) (w : world)
  : DRESULT * world :=
  if s_dirty_blocks (cache w) then
    match flush_loop (seq 0 CACHE_SIZE) flush_all invalidate_all w with
    | (Some r, w1) => (r, w1)
    | (None, w1) => (RES_OK, with_cache (set_dirty_blocks false) w1)
    end
  else (RES_OK, w).

(** ** Sequences of calls of the public functions *)

Inductive op : Type :=
| OpInit
| OpRead (p sec : Z) (out_data : option block)
| OpWrite (p sec : Z) (in_data : block)
| OpFlush (flush_all invalidate_all : bool).

Definition exec (o : op) (w : world) : option (DRESULT * world) :=
  match o with
  | OpInit => Some (RES_OK, with_cache block_cache_init w)
  | OpRead p sec out_data =>
      match block_cache_read_block p sec out_data w with
      | Some (r, _, w') => Some (r, w')
      | None => None
      end
  | OpWrite p sec in_data => block_cache_write_block p sec in_data w
  | OpFlush fa ia => Some (block_cache_flush fa ia w)
  end.

Fixpoint run (ops : list op) (w : world) : option world :=
  match ops with
  | [] => Some w
  | o :: rest =>
      match exec o w with
      | Some (_, w') => run rest w'
      | None => None
      end
  end.



(** ** Representation of the intrusive lists *)

(** [chain c p l]: following [hash_next] from [p] visits exactly the slots
    of [l], in order, and then reaches NULL. *)
Fixpoint chain (c : list cache_entry) (p : ptr) (l : list nat) : Prop :=
  match l with
  | [] => p = None
  | i :: l' => p = Some i /\ i < length c /\ chain c (hash_next (nth i c entry0)) l'
  end.

(** [lru_rep s l]: the recency list of [s], from head to tail, is [l]. *)
Definition lru_rep (s : cache_state) (l : list nat) : Prop :=
  NoDup l /\
  (forall i, In i l -> i < length (s_cache s)) /\
  s_lru_head s = hd_error l /\
  s_lru_tail s = hd_error (rev l) /\
  forall i, In i l ->
    lru_next (entry s i) = next_of l i /\ lru_prev (entry s i) = next_of (rev l) i.

(** What the LRU functions leave alone: everything but the recency links. *)
Definition same_core (s s' : cache_state) : Prop :=
  length (s_cache s') = length (s_cache s) /\
  s_hash_table s' = s_hash_table s /\
  s_dirty_blocks s' = s_dirty_blocks s /\
  s_free_head s' = s_free_head s /\
  s_evict_error s' = s_evict_error s /\
  forall i,
    sector (entry s' i) = sector (entry s i) /\
    pdrv (entry s' i) = pdrv (entry s i) /\
    dirty (entry s' i) = dirty (entry s i) /\
    valid (entry s' i) = valid (entry s i) /\
    hash_next (entry s' i) = hash_next (entry s i) /\
    data (entry s' i) = data (entry s i).

Definition lru_setter (f : cache_entry -> cache_entry) : Prop :=
  forall x, sector (f x) = sector x /\ pdrv (f x) = pdrv x /\ dirty (f x) = dirty x /\
            valid (f x) = valid x /\ hash_next (f x) = hash_next x /\ data (f x) = data x.

(** ** Invariants, frames and cases used in the proofs *)

Definition hash_setter (f : cache_entry -> cache_entry) : Prop :=
  forall x, sector (f x) = sector x /\ pdrv (f x) = pdrv x /\ dirty (f x) = dirty x /\
            valid (f x) = valid x /\ lru_prev (f x) = lru_prev x /\
            lru_next (f x) = lru_next x /\ data (f x) = data x.

(** What the hash functions leave alone: everything but the hash links
    and the bucket table. *)
Definition same_but_hash (s s' : cache_state) : Prop :=
  length (s_cache s') = length (s_cache s) /\
  length (s_hash_table s') = length (s_hash_table s) /\
  s_dirty_blocks s' = s_dirty_blocks s /\
  s_lru_head s' = s_lru_head s /\
  s_lru_tail s' = s_lru_tail s /\
  s_free_head s' = s_free_head s /\
  s_evict_error s' = s_evict_error s /\
  forall i,
    sector (entry s' i) = sector (entry s i) /\
    pdrv (entry s' i) = pdrv (entry s i) /\
    dirty (entry s' i) = dirty (entry s i) /\
    valid (entry s' i) = valid (entry s i) /\
    lru_prev (entry s' i) = lru_prev (entry s i) /\
    lru_next (entry s' i) = lru_next (entry s i) /\
    data (entry s' i) = data (entry s i).

(** The bucket a slot belongs to, from the key it holds. *)
Definition hkey (s : cache_state) (i : nat) : nat :=
  hash_key (pdrv (entry s i)) (sector (entry s i)).

Definition set_bucket (h : nat) (l : list nat) (B : nat -> list nat) : nat -> list nat :=
  fun h' => if Nat.eqb h' h then l else B h'.

(** [cache_rep s F L B]: the free list of [s] is [F], its recency list is
    [L] and bucket [h] of its hash index is the chain [B h].  The slots
    of the chains are those of [L], each in the bucket of its key; free
    slots are not in [L]; valid slots are in [L], dirty slots are valid,
    and no two valid slots hold the same key. *)
Record cache_rep (s : cache_state) (F L : list nat) (B : nat -> list nat) : Prop := {
  rep_len : length (s_cache s) = CACHE_SIZE;
  rep_tlen : length (s_hash_table s) = HASH_SIZE;
  rep_free : chain (s_cache s) (s_free_head s) F;
  rep_lru : lru_rep s L;
  rep_bucket : forall h, h < HASH_SIZE ->
      chain (s_cache s) (nth h (s_hash_table s) None) (B h);
  rep_bucket_key : forall h i, In i (B h) -> hkey s i = h /\ In i L;
  rep_lru_bucket : forall i, In i L -> In i (B (hkey s i));
  rep_disj : forall i, In i F -> ~ In i L;
  rep_valid : forall i, i < CACHE_SIZE -> valid (entry s i) = true -> In i L;
  rep_dirty : forall i, dirty (entry s i) = true -> valid (entry s i) = true;
  rep_uniq : forall i j, i < CACHE_SIZE -> j < CACHE_SIZE ->
      valid (entry s i) = true -> valid (entry s j) = true ->
      sector (entry s i) = sector (entry s j) ->
      pdrv (entry s i) = pdrv (entry s j) -> i = j
}.

Definition cache_inv (s : cache_state) : Prop :=
  exists F L B, cache_rep s F L B.

(** What may change without touching any list: flags and payloads. *)
Definition same_links (s s' : cache_state) : Prop :=
  length (s_cache s') = length (s_cache s) /\
  s_hash_table s' = s_hash_table s /\
  s_lru_head s' = s_lru_head s /\
  s_lru_tail s' = s_lru_tail s /\
  s_free_head s' = s_free_head s /\
  forall i,
    sector (entry s' i) = sector (entry s i) /\
    pdrv (entry s' i) = pdrv (entry s i) /\
    hash_next (entry s' i) = hash_next (entry s i) /\
    lru_prev (entry s' i) = lru_prev (entry s i) /\
    lru_next (entry s' i) = lru_next (entry s i).

Definition flag_setter (f : cache_entry -> cache_entry) : Prop :=
  forall x, sector (f x) = sector x /\ pdrv (f x) = pdrv x /\
            hash_next (f x) = hash_next x /\ lru_prev (f x) = lru_prev x /\
            lru_next (f x) = lru_next x.

(** [rekeyed s s' f p sec]: [s'] is [s] with the slot [f] validated under
    the key [(p, sec)]; flags and payload of [f] and the two global flags
    may differ, no link does. *)
Definition rekeyed (s s' : cache_state) (f : nat) (p sec : Z) : Prop :=
  length (s_cache s') = length (s_cache s) /\
  s_hash_table s' = s_hash_table s /\
  s_lru_head s' = s_lru_head s /\
  s_lru_tail s' = s_lru_tail s /\
  s_free_head s' = s_free_head s /\
  (forall i, hash_next (entry s' i) = hash_next (entry s i) /\
             lru_prev (entry s' i) = lru_prev (entry s i) /\
             lru_next (entry s' i) = lru_next (entry s i)) /\
  (forall i, i <> f ->
             sector (entry s' i) = sector (entry s i) /\
             pdrv (entry s' i) = pdrv (entry s i) /\
             valid (entry s' i) = valid (entry s i) /\
             dirty (entry s' i) = dirty (entry s i) /\
             data (entry s' i) = data (entry s i)) /\
  sector (entry s' f) = sec /\ pdrv (entry s' f) = p /\ valid (entry s' f) = true.

(** A slot that is on none of the lists and holds no valid block. *)
Definition detached (s : cache_state) (F L : list nat) (f : nat) : Prop :=
  f < CACHE_SIZE /\ ~ In f F /\ ~ In f L /\ valid (entry s f) = false.

(** How the slot [f] was obtained: from the free list, or by evicting
    the tail of the recency list (after writing it back when dirty). *)
Definition obtained (w : world) (F L : list nat) (f : nat) (w1 : world)
           (F1 L1 : list nat) : Prop :=
  (F = f :: F1 /\ L1 = L /\ s_cache (cache w1) = s_cache (cache w) /\
   dev w1 = dev w /\ io_log w1 = io_log w)
  \/
  (F = [] /\ F1 = [] /\ L = L1 ++ [f] /\
   (forall i, valid (entry (cache w1) i) =
                (if Nat.eqb i f then false else valid (entry (cache w) i)) /\
              dirty (entry (cache w1) i) =
                (if Nat.eqb i f then false else dirty (entry (cache w) i))) /\
   if valid (entry (cache w) f) && dirty (entry (cache w) f)
   then (RES_OK, dev w1) =
          disk_write_no_cache (dev w) (pdrv (entry (cache w) f))
                              (data (entry (cache w) f)) (sector (entry (cache w) f)) /\
        io_log w1 = io_log w ++ [IoWrite (pdrv (entry (cache w) f))
                                         (sector (entry (cache w) f))
                                         (data (entry (cache w) f)) RES_OK]
   else dev w1 = dev w /\ io_log w1 = io_log w).

(** Why no slot could be obtained: nothing to evict, or the write-back of
    the tail failed. *)
Definition not_obtained (w : world) (F L : list nat) (w1 : world) : Prop :=
  F = [] /\
  s_cache (cache w1) = s_cache (cache w) /\
  s_hash_table (cache w1) = s_hash_table (cache w) /\
  s_dirty_blocks (cache w1) = s_dirty_blocks (cache w) /\
  s_lru_head (cache w1) = s_lru_head (cache w) /\
  s_lru_tail (cache w1) = s_lru_tail (cache w) /\
  s_free_head (cache w1) = s_free_head (cache w) /\
  is_ok (s_evict_error (cache w1)) = false /\
  ((L = [] /\ s_evict_error (cache w1) = RES_PARERR /\
    dev w1 = dev w /\ io_log w1 = io_log w)
   \/
   (exists e, s_lru_tail (cache w) = Some e /\
      valid (entry (cache w) e) = true /\ dirty (entry (cache w) e) = true /\
      (s_evict_error (cache w1), dev w1) =
        disk_write_no_cache (dev w) (pdrv (entry (cache w) e))
                            (data (entry (cache w) e)) (sector (entry (cache w) e)) /\
      io_log w1 = io_log w ++ [IoWrite (pdrv (entry (cache w) e))
                                       (sector (entry (cache w) e))
                                       (data (entry (cache w) e))
                                       (s_evict_error (cache w1))])).

Definition op_key (o : op) : option (Z * Z) :=
  match o with
  | OpRead p sec _ => Some (p, sec)
  | OpWrite p sec _ => Some (p, sec)
  | _ => None
  end.

Definition is_write_op (o : op) : bool :=
  match o with OpWrite _ _ _ => true | _ => false end.

(** Facts about the slots before and after a step. *)
Definition keys_kept (s s' : cache_state) : Prop :=
  forall i, sector (entry s' i) = sector (entry s i) /\
            pdrv (entry s' i) = pdrv (entry s i).

Definition flags_kept_except (s s' : cache_state) (f : nat) : Prop :=
  forall i, i <> f ->
            valid (entry s' i) = valid (entry s i) /\
            dirty (entry s' i) = dirty (entry s i).

Definition slots_kept_except (s s' : cache_state) (f : nat) : Prop :=
  forall i, i <> f ->
            sector (entry s' i) = sector (entry s i) /\
            pdrv (entry s' i) = pdrv (entry s i) /\
            valid (entry s' i) = valid (entry s i) /\
            dirty (entry s' i) = dirty (entry s i).

(** The access found its key in slot [e]. *)
Definition hit_case (o : op) (p sec : Z) (w : world) (F L : list nat)
           (B : nat -> list nat) : Prop :=
  exists e w',
    hash_lookup (cache w) p sec = Some (Some e) /\
    exec o w = Some (RES_OK, w') /\
    cache_rep (cache w') F (e :: del e L) B /\
    In e L /\ e < CACHE_SIZE /\
    sector (entry (cache w) e) = sec /\ pdrv (entry (cache w) e) = p /\
    valid (entry (cache w) e) = true /\
    dev w' = dev w /\ io_log w' = io_log w /\
    keys_kept (cache w) (cache w') /\
    flags_kept_except (cache w) (cache w') e /\
    valid (entry (cache w') e) = true /\
    dirty (entry (cache w') e) = (is_write_op o || dirty (entry (cache w) e)) /\
    s_dirty_blocks (cache w') = (is_write_op o || s_dirty_blocks (cache w)).

(** The access missed, obtained the slot [f] and filled it. *)
Definition fill_case (o : op) (p sec : Z) (w : world) (F L : list nat) : Prop :=
  exists f w1 w' F1 L1 B',
    hash_lookup (cache w) p sec = Some None /\
    obtain_entry w = Some (Some f, w1) /\
    obtained w F L f w1 F1 L1 /\
    keys_kept (cache w) (cache w1) /\
    flags_kept_except (cache w) (cache w1) f /\
    exec o w = Some (RES_OK, w') /\
    cache_rep (cache w') F1 (f :: L1) B' /\
    f < CACHE_SIZE /\ ~ In f F1 /\ ~ In f L1 /\
    slots_kept_except (cache w1) (cache w') f /\
    sector (entry (cache w') f) = sec /\ pdrv (entry (cache w') f) = p /\
    valid (entry (cache w') f) = true /\
    dirty (entry (cache w') f) = is_write_op o /\
    s_dirty_blocks (cache w') = (is_write_op o || s_dirty_blocks (cache w)) /\
    (if is_write_op o
     then dev w' = dev w1 /\ io_log w' = io_log w1
     else exists buf,
         disk_read_no_cache (dev w1) p (data (entry (cache w1) f)) sec
           = (RES_OK, buf, dev w') /\
         io_log w' = io_log w1 ++ [IoRead p sec RES_OK]).

(** The access missed and no slot could be obtained. *)
Definition stuck_case (o : op) (p sec : Z) (w : world) (F L : list nat)
           (B : nat -> list nat) : Prop :=
  exists w1,
    hash_lookup (cache w) p sec = Some None /\
    obtain_entry w = Some (None, w1) /\
    not_obtained w F L w1 /\
    exec o w = Some (s_evict_error (cache w1), w1) /\
    cache_rep (cache w1) F L B.

(** A read missed, obtained the slot [f], and the device read failed. *)
Definition read_failed_case (o : op) (p sec : Z) (w : world) (F L : list nat) : Prop :=
  exists f w1 w' F1 L1 B1 result buf,
    hash_lookup (cache w) p sec = Some None /\
    obtain_entry w = Some (Some f, w1) /\
    obtained w F L f w1 F1 L1 /\
    keys_kept (cache w) (cache w1) /\
    flags_kept_except (cache w) (cache w1) f /\
    is_write_op o = false /\
    disk_read_no_cache (dev w1) p (data (entry (cache w1) f)) sec
      = (result, buf, dev w') /\
    is_ok result = false /\
    exec o w = Some (result, w') /\
    cache w' = upd_entry f (set_data buf) (cache w1) /\
    io_log w' = io_log w1 ++ [IoRead p sec result] /\
    cache_rep (cache w') F1 L1 B1 /\
    detached (cache w') F1 L1 f.

(** The state during the loop of [block_cache_init], after [k] rounds. *)
Definition init_stage (s : cache_state) (k : nat) : Prop :=
  length (s_cache s) = CACHE_SIZE /\
  s_hash_table s = repeat None HASH_SIZE /\
  s_lru_head s = None /\ s_lru_tail s = None /\
  chain (s_cache s) (s_free_head s) (rev (seq 0 k)) /\
  forall i, valid (entry s i) = false /\ dirty (entry s i) = false.

(** Slot [i] holds a block that still has to be written back. *)
Definition needs_write_back (s : cache_state) (i : nat) : bool :=
  valid (entry s i) && dirty (entry s i).

(** When [s_dirty_blocks] is clear, no slot of the pool needs writing
    back. *)
Definition flag_inv (s : cache_state) : Prop :=
  s_dirty_blocks s = false ->
  forall i, i < CACHE_SIZE -> needs_write_back s i = false.

(** [s'] has no slot to write back that [s] had not, and the same flag. *)
Definition no_new_dirt (s s' : cache_state) : Prop :=
  s_dirty_blocks s' = s_dirty_blocks s /\
  forall j, needs_write_back s' j = true -> needs_write_back s j = true.

Definition is_init (o : op) : bool :=
  match o with OpInit => true | _ => false end.

(** A sequence of read, write and flush calls. *)
Definition no_init (ops : list op) : bool := forallb (fun o => negb (is_init o)) ops.

(** At most one valid slot per (drive, sector) key. *)
Definition unique_keys (s : cache_state) : Prop :=
  forall i j, i < CACHE_SIZE -> j < CACHE_SIZE ->
    valid (entry s i) = true -> valid (entry s j) = true ->
    sector (entry s i) = sector (entry s j) ->
    pdrv (entry s i) = pdrv (entry s j) -> i = j.

(** The log entry of a successful write-back of slot [i]. *)
Definition write_event (s : cache_state) (i : nat) : io_event :=
  IoWrite (pdrv (entry s i)) (sector (entry s i)) (data (entry s i)) RES_OK.

(** Every slot of the pool is on the free list or on the recency list. *)
Definition covered (F L : list nat) : Prop :=
  forall i, i < CACHE_SIZE -> In i F \/ In i L.

Definition all_valid (s : cache_state) (L : list nat) : Prop :=
  forall i, In i L -> valid (entry s i) = true.

(** A free slot: on the free list, invalid, on no chain and not on the
    recency list. *)
Definition slot_free (s : cache_state) (F L : list nat) (B : nat -> list nat)
           (i : nat) : Prop :=
  In i F /\ valid (entry s i) = false /\ ~ In i L /\ forall h, ~ In i (B h).

(** A linked slot: not free, on the recency list, and on the chain of
    the bucket of its key and on no other ([cache_rep] makes the lists
    duplicate-free, so it is there once). *)
Definition slot_linked (s : cache_state) (F L : list nat) (B : nat -> list nat)
           (i : nat) : Prop :=
  ~ In i F /\ In i L /\ forall h, In i (B h) <-> h = hkey s i.

(** A cached slot, as the specification describes it: linked and valid. *)
Definition slot_cached (s : cache_state) (F L : list nat) (B : nat -> list nat)
           (i : nat) : Prop :=
  valid (entry s i) = true /\ slot_linked s F L B i.

(** The invariant as the specification states it. *)
Definition spec_pool_inv (s : cache_state) : Prop :=
  exists F L B, cache_rep s F L B /\
    forall i, i < CACHE_SIZE -> slot_free s F L B i \/ slot_cached s F L B i.

(** The invariant the code keeps: a linked slot need not be valid (a
    flush with [invalidate_all] clears the valid bit and leaves the slot
    linked until it is evicted); a valid slot is always linked. *)
Definition pool_inv (s : cache_state) : Prop :=
  exists F L B, cache_rep s F L B /\
    forall i, i < CACHE_SIZE -> slot_free s F L B i \/ slot_linked s F L B i.

(** The key a slot holds: drive and sector. *)
Definition slot_key (s : cache_state) (i : nat) : Z * Z :=
  (pdrv (entry s i), sector (entry s i)).

Definition key_eqb (k k' : Z * Z) : bool :=
  Z.eqb (fst k) (fst k') && Z.eqb (snd k) (snd k').

(** The recency order as the specification describes it, on keys, most
    recently touched first: touching a key that is held moves it to the
    front; a new key enters at the front, and once [CACHE_SIZE] keys are
    held the last one leaves. *)
Definition touch (k : Z * Z) (ks : list (Z * Z)) : list (Z * Z) :=
  if existsb (key_eqb k) ks then k :: filter (fun k' => negb (key_eqb k k')) ks
  else if length ks <? CACHE_SIZE then k :: ks
  else k :: removelast ks.

Definition recency_from (ks : list (Z * Z)) (accs : list op) : list (Z * Z) :=
  fold_left (fun ks o => match op_key o with Some k => touch k ks | None => ks end)
            accs ks.

Definition recency (accs : list op) : list (Z * Z) := recency_from [] accs.

(** Calls that keep the slots that are cached: reads, writes, and the
    flush that does not invalidate. *)
Definition keeps_slots (o : op) : bool :=
  match o with
  | OpInit => false
  | OpFlush _ invalidate_all => negb invalidate_all
  | _ => true
  end.

(** A sequence of calls each of which returns [RES_OK]. *)
Fixpoint run_ok (ops : list op) (w : world) : option world :=
  match ops with
  | [] => Some w
  | o :: rest =>
      match exec o w with
      | Some (RES_OK, w') => run_ok rest w'
      | _ => None
      end
  end.

(** The recency list of the state holds the keys [ks], in this order,
    all of them valid, and every slot is free or on the recency list. *)
Definition lru_keys (s : cache_state) (ks : list (Z * Z)) : Prop :=
  exists F L B, cache_rep s F L B /\ covered F L /\ all_valid s L /\
                map (slot_key s) L = ks.


(** ** Notions used by the further properties *)

(** The slot [i] holds in [s'] what it held in [s]: flags, key and
    payload. *)
Definition slot_kept (s s' : cache_state) (i : nat) : Prop :=
  valid (entry s' i) = valid (entry s i) /\
  dirty (entry s' i) = dirty (entry s i) /\
  sector (entry s' i) = sector (entry s i) /\
  pdrv (entry s' i) = pdrv (entry s i) /\
  data (entry s' i) = data (entry s i).

(** The log [log'] is [log] followed by further device calls, among them
    the event [ev]. *)
Definition logged_since (log log' : list io_event) (ev : io_event) : Prop :=
  exists pre post, log' = log ++ pre ++ ev :: post.

(** A drive number that diskio.c passes to no driver. *)
Definition unsupported_drive (p : Z) : Prop :=
  (p =? DEV_SD)%Z = false /\ (MEDIUM_USB && (p =? DEV_USB)%Z) = false.

(** * The glue layer (diskio.c)

    diskio.c stands between FatFs and the drivers: single-sector
    transfers go through the cache, longer ones flush the cache and go
    to the driver.  The drivers take a sector count; [sd_disk_read] and
    the like above are these calls with a count of one, the only ones
    block_cache.c makes, and the entry points below with the suffix [_n]
    are the same drivers called with another count.  glue.h,
    usb_diskio.h and the FatFs headers are not part of the sources. *)
Section Glue.
Variable sd_disk_read_n : Dev -> block -> Z -> Z -> DRESULT * block * Dev.
Variable sd_disk_write_n : Dev -> block -> Z -> Z -> DRESULT * Dev.
Variable usb_disk_read_n : Dev -> block -> Z -> Z -> DRESULT * block * Dev.
Variable usb_disk_write_n : Dev -> block -> Z -> Z -> DRESULT * Dev.
(** [sd_disk_initialize] and [usb_disk_initialize] return a [DSTATUS]. *)
Variable sd_disk_initialize : Dev -> Z * Dev.
Variable usb_disk_initialize : Dev -> Z * Dev.
(** [sd_disk_ioctl (DEV_SD, cmd, buff)] and its USB counterpart. *)
Variable sd_disk_ioctl : Dev -> Z -> block -> DRESULT * block * Dev.
Variable usb_disk_ioctl : Dev -> Z -> block -> DRESULT * block * Dev.
(** The [DSTATUS] bit of FatFs for a drive that is not initialised. *)
Variable STA_NOINIT : Z.
(** diskio.c calls [block_cache_flush] with one argument, where
    block_cache.h declares two: what [invalidate_all] receives in these
    calls is left open, and everything below holds for either value. *)
Variable flush_invalidate_all : bool.

(** [disk_read_no_cache] and [disk_write_no_cache] with their [count]
    argument. *)
Definition disk_read_no_cache_n (d : Dev) (p : Z) (buff : block) (sec count : Z)
  : DRESULT * block * Dev :=
  if (p =? DEV_SD)%Z then sd_disk_read_n d buff sec count
  else if MEDIUM_USB && (p =? DEV_USB)%Z then usb_disk_read_n d buff sec count
  else (RES_PARERR, buff, d).

Definition disk_write_no_cache_n (d : Dev) (p : Z) (buff : block) (sec count : Z)
  : DRESULT * Dev :=
  if (p =? DEV_SD)%Z then sd_disk_write_n d buff sec count
  else if MEDIUM_USB && (p =? DEV_USB)%Z then usb_disk_write_n d buff sec count
  else (RES_PARERR, d).

(** [LBA_t] arithmetic wraps at 32 or 64 bits. *)
Definition lba_wrap (z : Z) : Z := z mod 2 ^ (if FF_LBA64 then 64 else 32).

(** The statics of diskio.c, with the cache and the device underneath. *)
Record disk_state : Type := mkDisk {
  bc : world;
  block_cache_initalized : bool;
  read_ahead : bool;
  last_pdrv : Z;
  last_sector : Z
}.

Definition set_bc (w : world) (g : disk_state) : disk_state :=
  mkDisk w (block_cache_initalized g) (read_ahead g) (last_pdrv g) (last_sector g).

(** The statics as the C start-up code leaves them. *)
Definition disk_boot (d : Dev) : disk_state :=
  mkDisk (mkWorld boot_state d []) false false 0 0.

Definition disk_init (g : disk_state) : disk_state :=
  if block_cache_initalized g then g
  else mkDisk (with_cache block_cache_init (bc g)) true
              (read_ahead g) (last_pdrv g) (last_sector g).

(** [disk_task]: one read-ahead if one is pending, else one incremental
    flush; the results of both calls are dropped. *)
Definition disk_task (g : disk_state) : option disk_state :=
  let more_work := true in
  let after_read_ahead : option (disk_state * bool) :=
    if read_ahead g && more_work then
      match block_cache_read_block (last_pdrv g) (lba_wrap (last_sector g + 1)) None
                                   (bc g) with
      | None => None
      | Some (_, _, w') =>
          Some (mkDisk w' (block_cache_initalized g) false (last_pdrv g) (last_sector g),
                false)
      end
    else Some (g, more_work) in
  match after_read_ahead with
  | None => None
  | Some (g1, more_work1) =>
      if more_work1
      then Some (set_bc (snd (block_cache_flush false flush_invalidate_all (bc g1))) g1)
      else Some g1
  end.

(** The device calls of the transfers that bypass the cache are not
    entered in the log, which records the one-sector transfers of the
    cache. *)
Definition disk_read (pdrv : Z) (buff : block) (sector count : Z) (g : disk_state)
  : option (DRESULT * block * disk_state) :=
  let transfer : option (DRESULT * block * disk_state) :=
    if (count =? 1)%Z then
      match block_cache_read_block pdrv sector (Some buff) (bc g) with
      | None => None
      | Some (result, out, w') =>
          Some (result, match out with Some b => b | None => buff end, set_bc w' g)
      end
    else
      let w1 := snd (block_cache_flush true flush_invalidate_all (bc g)) in
      let '(result, b, d') := disk_read_no_cache_n (dev w1) pdrv buff sector count in
      Some (result, b, set_bc (mkWorld (cache w1) d' (io_log w1)) g) in
  match transfer with
  | None => None
  | Some (result, b, g1) =>
      if is_ok result
      then Some (result, b, mkDisk (bc g1) (block_cache_initalized g1) true pdrv sector)
      else Some (result, b, g1)
  end.

Definition disk_write (pdrv : Z) (buff : block) (sector count : Z) (g : disk_state)
  : option (DRESULT * disk_state) :=
  if (count =? 1)%Z then
    match block_cache_write_block pdrv sector buff (bc g) with
    | None => None
    | Some (result, w') => Some (result, set_bc w' g)
    end
  else
    let w1 := snd (block_cache_flush true flush_invalidate_all (bc g)) in
    let '(result, d') := disk_write_no_cache_n (dev w1) pdrv buff sector count in
    Some (result, set_bc (mkWorld (cache w1) d' (io_log w1)) g).

(** [disk_initialize] and [disk_ioctl] flush the cache, drop the result
    of the flush, and call the driver. *)
Definition disk_initialize (pdrv : Z) (g : disk_state) : Z * disk_state :=
  let w1 := snd (block_cache_flush true flush_invalidate_all (bc g)) in
  let '(status, d') :=
    if (pdrv =? DEV_SD)%Z then sd_disk_initialize (dev w1)
    else if MEDIUM_USB && (pdrv =? DEV_USB)%Z then usb_disk_initialize (dev w1)
    else (STA_NOINIT, dev w1) in
  (status, set_bc (mkWorld (cache w1) d' (io_log w1)) g).

Definition disk_ioctl (pdrv cmd : Z) (buff : block) (g : disk_state)
  : DRESULT * block * disk_state :=
  let w1 := snd (block_cache_flush true flush_invalidate_all (bc g)) in
  let '(result, b, d') :=
    if (pdrv =? DEV_SD)%Z then sd_disk_ioctl (dev w1) cmd buff
    else if MEDIUM_USB && (pdrv =? DEV_USB)%Z then usb_disk_ioctl (dev w1) cmd buff
    else (RES_PARERR, buff, dev w1) in
  (result, b, set_bc (mkWorld (cache w1) d' (io_log w1)) g).

(** Sequences of calls of the entry points of diskio.c. *)
Inductive disk_call : Type :=
| CallInit
| CallTask
| CallRead (pdrv : Z) (buff : block) (sector count : Z)
| CallWrite (pdrv : Z) (buff : block) (sector count : Z)
| CallInitialize (pdrv : Z)
| CallIoctl (pdrv cmd : Z) (buff : block).

Definition disk_step (c : disk_call) (g : disk_state) : option disk_state :=
  match c with
  | CallInit => Some (disk_init g)
  | CallTask => disk_task g
  | CallRead pdrv buff sector count =>
      match disk_read pdrv buff sector count g with
      | Some (_, _, g') => Some g'
      | None => None
      end
  | CallWrite pdrv buff sector count =>
      match disk_write pdrv buff sector count g with
      | Some (_, g') => Some g'
      | None => None
      end
  | CallInitialize pdrv => Some (snd (disk_initialize pdrv g))
  | CallIoctl pdrv cmd buff => Some (snd (disk_ioctl pdrv cmd buff g))
  end.

Fixpoint disk_run (cs : list disk_call) (g : disk_state) : option disk_state :=
  match cs with
  | [] => Some g
  | c :: rest =>
      match disk_step c g with
      | Some g' => disk_run rest g'
      | None => None
      end
  end.

(** What the glue layer relies on: the structural invariant of the
    cache, the invariant of the dirty flag, and a free-list head that is
    still NULL as long as [block_cache_init] has not run. *)
Definition world_ok (w : world) : Prop :=
  cache_inv (cache w) /\ flag_inv (cache w).

Definition disk_ok (g : disk_state) : Prop :=
  world_ok (bc g) /\
  (block_cache_initalized g = false -> s_free_head (cache (bc g)) = None).

End Glue.

(** Stand-ins for the other driver entry points, over a device without
    state: transfers of several sectors, [disk_initialize] (status 0)
    and [disk_ioctl]. *)
Definition good_read_n (d : unit) (buff : block) (sec count : Z) : DRESULT * block * unit :=
  (RES_OK, buff, d).
Definition good_write_n (d : unit) (buff : block) (sec count : Z) : DRESULT * unit :=
  (RES_OK, d).
Definition good_initialize (d : unit) : Z * unit := (0%Z, d).
Definition good_ioctl (d : unit) (cmd : Z) (buff : block) : DRESULT * block * unit :=
  (RES_OK, buff, d).


(** * Proofs *)

#[local] Opaque CACHE_SIZE HASH_SIZE BLOCK_SIZE.

(** ** Arrays *)

Lemma upd_length (A : Type) (i : nat) (f : A -> A) (l : list A) :
  length (upd i f l) = length l.
Proof.
  revert i; induction l as [|x l IH]; intros [|i]; simpl; auto.
Qed.

Lemma nth_upd (A : Type) (i j : nat) (f : A -> A) (l : list A) (d : A) :
  nth j (upd i f l) d =
  if Nat.eqb j i && Nat.ltb i (length l) then f (nth j l d) else nth j l d.
Proof.
  revert i j; induction l as [|x l IH]; intros i j; simpl.
  - unfold Nat.ltb; simpl. rewrite andb_false_r. reflexivity.
  - destruct i as [|i], j as [|j]; simpl; auto.
Qed.

Lemma nth_upd_same (A : Type) (i : nat) (f : A -> A) (l : list A) (d : A) :
  i < length l -> nth i (upd i f l) d = f (nth i l d).
Proof.
  intros H. rewrite nth_upd, Nat.eqb_refl.
  apply Nat.ltb_lt in H. rewrite H. reflexivity.
Qed.

Lemma nth_upd_other (A : Type) (i j : nat) (f : A -> A) (l : list A) (d : A) :
  j <> i -> nth j (upd i f l) d = nth j l d.
Proof.
  intros H. rewrite nth_upd. apply Nat.eqb_neq in H. rewrite H. reflexivity.
Qed.

Lemma entry_upd_entry (i j : nat) (f : cache_entry -> cache_entry) (s : cache_state) :
  entry (upd_entry i f s) j =
  if Nat.eqb j i && Nat.ltb i (length (s_cache s)) then f (entry s j) else entry s j.
Proof. unfold entry, upd_entry; simpl. apply nth_upd. Qed.

Lemma entry_upd_same (i : nat) (f : cache_entry -> cache_entry) (s : cache_state) :
  i < length (s_cache s) -> entry (upd_entry i f s) i = f (entry s i).
Proof. intros H. unfold entry, upd_entry; simpl. apply nth_upd_same; assumption. Qed.

Lemma entry_upd_other (i j : nat) (f : cache_entry -> cache_entry) (s : cache_state) :
  j <> i -> entry (upd_entry i f s) j = entry s j.
Proof. intros H. unfold entry, upd_entry; simpl. apply nth_upd_other; assumption. Qed.

(** A field that [f] leaves alone is the same in every slot afterwards. *)
Lemma entry_upd_field (B : Type) (g : cache_entry -> B) (i j : nat)
      (f : cache_entry -> cache_entry) (s : cache_state) :
  (forall x, g (f x) = g x) -> g (entry (upd_entry i f s) j) = g (entry s j).
Proof.
  intros H. rewrite entry_upd_entry.
  destruct (Nat.eqb j i && Nat.ltb i (length (s_cache s))); auto.
Qed.

Lemma ptr_eqb_eq (a b : ptr) : ptr_eqb a b = true <-> a = b.
Proof.
  destruct a as [x|], b as [y|]; simpl; split; intros H;
    try discriminate; try reflexivity.
  - apply Nat.eqb_eq in H. congruence.
  - inversion H. apply Nat.eqb_refl.
Qed.

Lemma ptr_eqb_neq (a b : ptr) : ptr_eqb a b = false <-> a <> b.
Proof.
  split; intros H.
  - intros E. apply ptr_eqb_eq in E. congruence.
  - destruct (ptr_eqb a b) eqn:E; auto. apply ptr_eqb_eq in E. contradiction.
Qed.

(** ** Lists of slot indices *)

Lemma in_del (e x : nat) (l : list nat) : In x (del e l) <-> In x l /\ x <> e.
Proof.
  unfold del. rewrite filter_In. rewrite negb_true_iff, Nat.eqb_neq. tauto.
Qed.

Lemma NoDup_del (e : nat) (l : list nat) : NoDup l -> NoDup (del e l).
Proof. apply NoDup_filter. Qed.

Lemma del_notin (e : nat) (l : list nat) : ~ In e l -> del e l = l.
Proof.
  induction l as [|x l IH]; simpl; intros H; auto.
  destruct (Nat.eqb_spec x e) as [->|N]; simpl.
  - exfalso. apply H. now left.
  - f_equal. apply IH. tauto.
Qed.

Lemma del_cons_same (e : nat) (l : list nat) : ~ In e l -> del e (e :: l) = l.
Proof.
  intros H. unfold del; simpl. rewrite Nat.eqb_refl. simpl. now apply del_notin.
Qed.

Lemma del_rev (e : nat) (l : list nat) : del e (rev l) = rev (del e l).
Proof.
  unfold del. induction l as [|x l IH]; simpl; auto.
  rewrite filter_app, IH. simpl.
  destruct (negb (Nat.eqb x e)); simpl; auto. now rewrite app_nil_r.
Qed.

Lemma del_app (e : nat) (l1 l2 : list nat) : del e (l1 ++ l2) = del e l1 ++ del e l2.
Proof. apply filter_app. Qed.

Lemma del_length_in (e : nat) (l : list nat) :
  NoDup l -> In e l -> S (length (del e l)) = length l.
Proof.
  induction l as [|x l IH]; simpl; intros ND HI; [contradiction|].
  inversion ND as [|? ? Hx ND']; subst.
  destruct (Nat.eqb_spec x e) as [->|N]; simpl.
  - now rewrite del_notin.
  - destruct HI as [->|HI]; [congruence|]. f_equal. now apply IH.
Qed.

Lemma next_of_in (l : list nat) (i j : nat) :
  next_of l i = Some j -> In i l /\ In j l.
Proof.
  induction l as [|x l IH]; simpl; [discriminate|].
  destruct (Nat.eqb_spec x i) as [->|N]; intros H.
  - destruct l; simpl in *; [discriminate|]. inversion H; subst. auto.
  - apply IH in H. tauto.
Qed.

Lemma next_of_notin (l : list nat) (i : nat) : ~ In i l -> next_of l i = None.
Proof.
  intros H. destruct (next_of l i) eqn:E; auto.
  apply next_of_in in E. tauto.
Qed.

Lemma next_of_irrefl (l : list nat) (i : nat) : NoDup l -> next_of l i <> Some i.
Proof.
  induction l as [|x l IH]; simpl; intros ND; [discriminate|].
  inversion ND as [|? ? Hx ND']; subst.
  destruct (Nat.eqb_spec x i) as [->|N].
  - destruct l; simpl; [discriminate|]. intros H. inversion H; subst.
    apply Hx. now left.
  - now apply IH.
Qed.

Lemma hd_error_snoc (l : list nat) (x : nat) :
  hd_error (l ++ [x]) = match hd_error l with Some y => Some y | None => Some x end.
Proof. destruct l; reflexivity. Qed.

Lemma hd_error_in (l : list nat) (x : nat) : hd_error l = Some x -> In x l.
Proof. destruct l; simpl; intros H; inversion H; auto. Qed.

Lemma hd_error_rev_in (l : list nat) (x : nat) : hd_error (rev l) = Some x -> In x l.
Proof. intros H. apply in_rev. now apply hd_error_in. Qed.

Lemma next_of_hd (l : list nat) (e j : nat) :
  NoDup l -> hd_error l = Some e -> next_of l j <> Some e.
Proof.
  destruct l as [|x l]; simpl; intros ND H; inversion H; subst.
  inversion ND as [|? ? Hx ND']; subst.
  destruct (Nat.eqb_spec e j) as [->|N]; intros E.
  - apply hd_error_in in E. contradiction.
  - apply next_of_in in E. tauto.
Qed.

Lemma next_of_snoc (m : list nat) (e j : nat) :
  NoDup m ->
  next_of (m ++ [e]) j =
  if ptr_eqb (hd_error (rev m)) (Some j) then Some e else next_of m j.
Proof.
  induction m as [|x m IH]; intros ND.
  - simpl. destruct (Nat.eqb e j); reflexivity.
  - inversion ND as [|? ? Hx ND']; subst.
    change (next_of ((x :: m) ++ [e]) j)
      with (if Nat.eqb x j then hd_error (m ++ [e]) else next_of (m ++ [e]) j).
    change (next_of (x :: m) j) with (if Nat.eqb x j then hd_error m else next_of m j).
    change (rev (x :: m)) with (rev m ++ [x]).
    rewrite (hd_error_snoc (rev m) x), IH by assumption.
    destruct (Nat.eqb_spec x j) as [->|N].
    + rewrite (hd_error_snoc m e).
      destruct (hd_error (rev m)) as [y|] eqn:E.
      * assert (y <> j) as Hy by (intros ->; apply hd_error_rev_in in E; contradiction).
        assert (ptr_eqb (Some y) (Some j) = false) as -> by (apply ptr_eqb_neq; congruence).
        destruct m; [discriminate E|reflexivity].
      * simpl. rewrite Nat.eqb_refl.
        destruct m as [|z m]; [reflexivity|].
        simpl in E. destruct (rev m); discriminate E.
    + destruct (hd_error (rev m)) as [y|] eqn:E; [reflexivity|].
      assert (ptr_eqb (Some x) (Some j) = false) as -> by (apply ptr_eqb_neq; congruence).
      reflexivity.
Qed.

Lemma next_prev (l : list nat) (j e : nat) :
  NoDup l -> (next_of l j = Some e <-> next_of (rev l) e = Some j).
Proof.
  induction l as [|x l IH]; intros ND.
  - simpl. split; discriminate.
  - inversion ND as [|? ? Hx ND']; subst.
    change (rev (x :: l)) with (rev l ++ [x]).
    rewrite next_of_snoc by (apply NoDup_rev; assumption).
    rewrite rev_involutive. simpl.
    destruct (Nat.eqb_spec x j) as [->|N].
    + destruct (ptr_eqb (hd_error l) (Some e)) eqn:E.
      * apply ptr_eqb_eq in E. tauto.
      * apply ptr_eqb_neq in E. split; [contradiction|].
        intros H. apply next_of_in in H. rewrite <- !in_rev in H. tauto.
    + destruct (ptr_eqb (hd_error l) (Some e)) eqn:E.
      * apply ptr_eqb_eq in E. split.
        -- intros H. exfalso. revert H. now apply next_of_hd.
        -- intros H. congruence.
      * now apply IH.
Qed.

Lemma hd_del (l : list nat) (e : nat) :
  NoDup l ->
  hd_error (del e l) =
  if ptr_eqb (hd_error l) (Some e) then next_of l e else hd_error l.
Proof.
  destruct l as [|x l]; intros ND; [reflexivity|].
  inversion ND as [|? ? Hx ND']; subst.
  unfold del; simpl.
  destruct (Nat.eqb_spec x e) as [->|N]; simpl; [|reflexivity].
  fold (del e l). now rewrite del_notin.
Qed.

Lemma next_of_del (l : list nat) (e j : nat) :
  NoDup l -> j <> e ->
  next_of (del e l) j =
  if ptr_eqb (next_of l j) (Some e) then next_of l e else next_of l j.
Proof.
  induction l as [|x l IH]; intros ND Hj; [reflexivity|].
  inversion ND as [|? ? Hx ND']; subst.
  unfold del; simpl. fold (del e l).
  destruct (Nat.eqb_spec x e) as [->|N]; simpl.
  - rewrite del_notin by assumption.
    destruct (Nat.eqb_spec e j) as [->|N']; [congruence|].
    assert (ptr_eqb (next_of l j) (Some e) = false) as ->; [|reflexivity].
    apply ptr_eqb_neq. intros E. apply next_of_in in E. tauto.
  - destruct (Nat.eqb_spec x j) as [->|N'].
    + now apply hd_del.
    + now apply IH.
Qed.

Lemma NoDup_bounded_length (l : list nat) (n : nat) :
  NoDup l -> (forall i, In i l -> i < n) -> length l <= n.
Proof.
  intros ND Hb.
  assert (length l <= length (seq 0 n)) as H.
  { apply NoDup_incl_length; auto.
    intros i Hi. apply in_seq. specialize (Hb i Hi). lia. }
  now rewrite length_seq in H.
Qed.

(** ** The recency list *)

Lemma same_core_refl (s : cache_state) : same_core s s.
Proof. unfold same_core; intuition. Qed.

Lemma same_core_trans (s1 s2 s3 : cache_state) :
  same_core s1 s2 -> same_core s2 s3 -> same_core s1 s3.
Proof.
  unfold same_core. intros (A1 & A2 & A3 & A4 & A5 & A6) (B1 & B2 & B3 & B4 & B5 & B6).
  repeat split; try congruence;
    destruct (A6 i) as (? & ? & ? & ? & ? & ?);
    destruct (B6 i) as (? & ? & ? & ? & ? & ?); congruence.
Qed.

Lemma upd_entry_core (i : nat) (f : cache_entry -> cache_entry) (s : cache_state) :
  lru_setter f -> same_core s (upd_entry i f s).
Proof.
  intros Hf. unfold same_core. simpl. rewrite upd_length.
  repeat split; auto; rewrite entry_upd_entry;
    destruct (Nat.eqb i0 i && Nat.ltb i (length (s_cache s))); auto; apply Hf.
Qed.

Lemma lru_setter_next (v : ptr) : lru_setter (set_lru_next v).
Proof. intros x; simpl; auto 10. Qed.

Lemma lru_setter_prev (v : ptr) : lru_setter (set_lru_prev v).
Proof. intros x; simpl; auto 10. Qed.

Lemma lru_setter_both : lru_setter (fun x => set_lru_prev None (set_lru_next None x)).
Proof. intros x; simpl; auto 10. Qed.

Lemma lru_remove_core (e : nat) (s : cache_state) : same_core s (lru_remove e s).
Proof.
  unfold lru_remove.
  set (s1 := match lru_prev (entry s e) with Some _ => _ | None => _ end).
  set (s2 := match lru_next (entry s1 e) with Some _ => _ | None => _ end).
  set (s3 := if ptr_eqb (s_lru_head s2) (Some e) then _ else _).
  set (s4 := if ptr_eqb (s_lru_tail s3) (Some e) then _ else _).
  assert (same_core s s1) as H1.
  { subst s1. destruct (lru_prev (entry s e));
      [apply upd_entry_core, lru_setter_next|apply same_core_refl]. }
  assert (same_core s1 s2) as H2.
  { subst s2. destruct (lru_next (entry s1 e));
      [apply upd_entry_core, lru_setter_prev|apply same_core_refl]. }
  assert (same_core s2 s3) as H3.
  { subst s3. destruct (ptr_eqb (s_lru_head s2) (Some e));
      [unfold same_core; simpl; intuition|apply same_core_refl]. }
  assert (same_core s3 s4) as H4.
  { subst s4. destruct (ptr_eqb (s_lru_tail s3) (Some e));
      [unfold same_core; simpl; intuition|apply same_core_refl]. }
  eapply same_core_trans; [|apply upd_entry_core, lru_setter_both].
  eauto using same_core_trans.
Qed.

Lemma lru_insert_front_core (e : nat) (s : cache_state) :
  same_core s (lru_insert_front e s).
Proof.
  unfold lru_insert_front.
  set (s1 := upd_entry e (set_lru_next (s_lru_head s)) s).
  set (s2 := upd_entry e (set_lru_prev None) s1).
  set (s3 := match s_lru_head s2 with Some _ => _ | None => _ end).
  assert (same_core s s1) as H1 by apply upd_entry_core, lru_setter_next.
  assert (same_core s1 s2) as H2 by apply upd_entry_core, lru_setter_prev.
  assert (same_core s2 s3) as H3.
  { subst s3. destruct (s_lru_head s2);
      [apply upd_entry_core, lru_setter_prev|apply same_core_refl]. }
  assert (same_core s s3) as H by eauto using same_core_trans.
  destruct (s_lru_tail (set_lru_head (Some e) s3));
    (eapply same_core_trans; [exact H|]); unfold same_core; simpl; intuition.
Qed.

Lemma lru_touch_core (e : nat) (s : cache_state) : same_core s (lru_touch e s).
Proof.
  unfold lru_touch. destruct (ptr_eqb (s_lru_head s) (Some e)).
  - apply same_core_refl.
  - eapply same_core_trans; [apply lru_remove_core|apply lru_insert_front_core].
Qed.

Lemma length_upd_entry (i : nat) (f : cache_entry -> cache_entry) (s : cache_state) :
  length (s_cache (upd_entry i f s)) = length (s_cache s).
Proof. simpl. apply upd_length. Qed.

Ltac bool_cases :=
  repeat match goal with
  | |- context [Nat.eqb ?a ?b] => destruct (Nat.eqb_spec a b); subst; simpl
  | |- context [Nat.ltb ?a ?b] => destruct (Nat.ltb_spec a b); simpl
  | |- context [ptr_eqb ?a ?b] =>
      let E := fresh "E" in
      destruct (ptr_eqb a b) eqn:E;
      [apply ptr_eqb_eq in E|apply ptr_eqb_neq in E]; simpl
  end.

Lemma entry_upd_in (i j : nat) (f : cache_entry -> cache_entry) (s : cache_state) :
  i < length (s_cache s) ->
  entry (upd_entry i f s) j = if Nat.eqb j i then f (entry s j) else entry s j.
Proof.
  intros H. rewrite entry_upd_entry. apply Nat.ltb_lt in H. rewrite H.
  now rewrite andb_true_r.
Qed.

Lemma ptr_eqb_some (a b : nat) : ptr_eqb (Some a) (Some b) = Nat.eqb a b.
Proof. reflexivity. Qed.

Lemma lru_remove_fields (e : nat) (s : cache_state) (p n : ptr) :
  lru_prev (entry s e) = p -> lru_next (entry s e) = n ->
  p <> Some e -> n <> Some e ->
  e < length (s_cache s) ->
  (forall i, p = Some i -> i < length (s_cache s)) ->
  (forall i, n = Some i -> i < length (s_cache s)) ->
  s_lru_head (lru_remove e s) =
    (if ptr_eqb (s_lru_head s) (Some e) then n else s_lru_head s) /\
  s_lru_tail (lru_remove e s) =
    (if ptr_eqb (s_lru_tail s) (Some e) then p else s_lru_tail s) /\
  forall j,
    lru_next (entry (lru_remove e s) j) =
      (if Nat.eqb j e then None
       else if ptr_eqb p (Some j) then n else lru_next (entry s j)) /\
    lru_prev (entry (lru_remove e s) j) =
      (if Nat.eqb j e then None
       else if ptr_eqb n (Some j) then p else lru_prev (entry s j)).
Proof.
  intros Hp Hn Pe Ne He Pr Nr. unfold lru_remove.
  set (s1 := match lru_prev (entry s e) with Some _ => _ | None => _ end).
  assert (length (s_cache s1) = length (s_cache s) /\
          s_lru_head s1 = s_lru_head s /\ s_lru_tail s1 = s_lru_tail s /\
          forall j, lru_prev (entry s1 j) = lru_prev (entry s j) /\
                    lru_next (entry s1 j) =
                    if ptr_eqb p (Some j) then n else lru_next (entry s j))
    as (L1 & H1 & T1 & F1).
  { subst s1. rewrite Hp. destruct p as [pi|].
    - rewrite length_upd_entry. repeat split; auto.
      + now apply entry_upd_field.
      + rewrite entry_upd_in by auto. rewrite ptr_eqb_some, Hn, (Nat.eqb_sym pi j).
        destruct (Nat.eqb j pi); reflexivity.
    - repeat split; auto. }
  assert (lru_next (entry s1 e) = n) as Hn1.
  { destruct (F1 e) as [_ ->]. apply ptr_eqb_neq in Pe. now rewrite Pe. }
  assert (lru_prev (entry s1 e) = p) as Hp1 by (destruct (F1 e) as [-> _]; exact Hp).
  set (s2 := match lru_next (entry s1 e) with Some _ => _ | None => _ end).
  assert (length (s_cache s2) = length (s_cache s) /\
          s_lru_head s2 = s_lru_head s /\ s_lru_tail s2 = s_lru_tail s /\
          forall j, lru_next (entry s2 j) = lru_next (entry s1 j) /\
                    lru_prev (entry s2 j) =
                    if ptr_eqb n (Some j) then p else lru_prev (entry s j))
    as (L2 & H2 & T2 & F2).
  { subst s2. rewrite Hn1. destruct n as [ni|].
    - rewrite length_upd_entry. repeat split; auto.
      + now apply entry_upd_field.
      + rewrite entry_upd_in by (rewrite L1; auto).
        rewrite ptr_eqb_some, Hp1, (Nat.eqb_sym ni j).
        destruct (Nat.eqb j ni); [reflexivity|apply F1].
    - repeat split; auto. apply F1. }
  assert (lru_next (entry s2 e) = n) as Hn2 by (destruct (F2 e) as [-> _]; exact Hn1).
  assert (lru_prev (entry s2 e) = p) as Hp2.
  { destruct (F2 e) as [_ ->]. apply ptr_eqb_neq in Ne. now rewrite Ne. }
  set (s3 := if ptr_eqb (s_lru_head s2) (Some e) then _ else s2).
  assert (s_cache s3 = s_cache s2 /\ s_lru_tail s3 = s_lru_tail s /\
          s_lru_head s3 = if ptr_eqb (s_lru_head s) (Some e) then n else s_lru_head s)
    as (C3 & T3 & H3).
  { subst s3. rewrite H2, Hn2.
    destruct (ptr_eqb (s_lru_head s) (Some e)); simpl; auto. }
  assert (forall j, entry s3 j = entry s2 j) as E3
      by (intros j; unfold entry; now rewrite C3).
  set (s4 := if ptr_eqb (s_lru_tail s3) (Some e) then _ else s3).
  assert (s_cache s4 = s_cache s2 /\
          s_lru_tail s4 = (if ptr_eqb (s_lru_tail s) (Some e) then p else s_lru_tail s) /\
          s_lru_head s4 = if ptr_eqb (s_lru_head s) (Some e) then n else s_lru_head s)
    as (C4 & T4 & H4).
  { subst s4. rewrite T3, E3, Hp2.
    destruct (ptr_eqb (s_lru_tail s) (Some e)); simpl; auto. }
  assert (forall j, entry s4 j = entry s2 j) as E4
      by (intros j; unfold entry; now rewrite C4).
  split; [exact H4|]. split; [exact T4|].
  intros j. rewrite entry_upd_in by (rewrite C4, L2; exact He).
  rewrite E4. destruct (Nat.eqb j e); simpl; [auto|].
  destruct (F2 j) as [-> ->]. destruct (F1 j) as [_ ->]. auto.
Qed.

Lemma ptr_eqb_iff (a b c d : ptr) : (a = b <-> c = d) -> ptr_eqb a b = ptr_eqb c d.
Proof.
  intros H. destruct (ptr_eqb a b) eqn:E1, (ptr_eqb c d) eqn:E2; auto.
  - apply ptr_eqb_eq in E1. apply ptr_eqb_neq in E2. tauto.
  - apply ptr_eqb_neq in E1. apply ptr_eqb_eq in E2. tauto.
Qed.

Lemma lru_remove_rep (s : cache_state) (l : list nat) (e : nat) :
  lru_rep s l -> In e l -> lru_rep (lru_remove e s) (del e l).
Proof.
  intros (ND & Hb & Hh & Ht & Hf) He.
  destruct (Hf e He) as [Hn Hp].
  assert (NoDup (rev l)) as NDr by now apply NoDup_rev.
  destruct (@lru_remove_fields e s (next_of (rev l) e) (next_of l e))
    as (H1 & H2 & H3); auto.
  - now apply next_of_irrefl.
  - now apply next_of_irrefl.
  - intros i E. apply next_of_in in E. apply Hb. rewrite in_rev. tauto.
  - intros i E. apply next_of_in in E. apply Hb. tauto.
  - destruct (lru_remove_core e s) as (Hlen & _).
    split; [now apply NoDup_del|]. split; [|split; [|split]].
    + intros i Hi. apply in_del in Hi. rewrite Hlen. apply Hb. tauto.
    + rewrite H1, Hh. symmetry. now apply hd_del.
    + rewrite H2, Ht, <- del_rev. symmetry. now apply hd_del.
    + intros j Hj. apply in_del in Hj. destruct Hj as [Hj Hne].
      destruct (H3 j) as [-> ->]. destruct (Hf j Hj) as [-> ->].
      apply Nat.eqb_neq in Hne. rewrite Hne. apply Nat.eqb_neq in Hne.
      rewrite <- del_rev, !next_of_del by assumption.
      rewrite (@ptr_eqb_iff (next_of (rev l) e) (Some j) (next_of l j) (Some e))
        by (symmetry; now apply next_prev).
      rewrite (@ptr_eqb_iff (next_of l e) (Some j) (next_of (rev l) j) (Some e))
        by (now apply next_prev).
      auto.
Qed.

Lemma tail_fixup (e : nat) (s : cache_state) :
  s_lru_tail (match s_lru_tail s with
              | None => set_lru_tail (Some e) s
              | Some _ => s
              end) =
  match s_lru_tail s with Some t => Some t | None => Some e end.
Proof. destruct (s_lru_tail s) eqn:E; simpl; auto. Qed.

Lemma lru_insert_front_fields (e : nat) (s : cache_state) :
  e < length (s_cache s) ->
  s_lru_head s <> Some e ->
  (forall h, s_lru_head s = Some h -> h < length (s_cache s)) ->
  s_lru_head (lru_insert_front e s) = Some e /\
  s_lru_tail (lru_insert_front e s) =
    match s_lru_tail s with Some t => Some t | None => Some e end /\
  forall j,
    lru_next (entry (lru_insert_front e s) j) =
      (if Nat.eqb j e then s_lru_head s else lru_next (entry s j)) /\
    lru_prev (entry (lru_insert_front e s) j) =
      (if ptr_eqb (s_lru_head s) (Some j) then Some e
       else if Nat.eqb j e then None else lru_prev (entry s j)).
Proof.
  intros He Hne Hr. unfold lru_insert_front.
  set (s1 := upd_entry e (set_lru_next (s_lru_head s)) s).
  set (s2 := upd_entry e (set_lru_prev None) s1).
  assert (length (s_cache s2) = length (s_cache s)) as L2
      by (subst s2 s1; now rewrite !length_upd_entry).
  assert (forall j, lru_next (entry s2 j) =
                    (if Nat.eqb j e then s_lru_head s else lru_next (entry s j)) /\
                    lru_prev (entry s2 j) =
                    (if Nat.eqb j e then None else lru_prev (entry s j))) as F2.
  { intros j. subst s2 s1.
    rewrite !entry_upd_in by (rewrite ?length_upd_entry; exact He).
    destruct (Nat.eqb j e); simpl; auto. }
  assert (s_lru_head s2 = s_lru_head s) as H2 by reflexivity.
  assert (s_lru_tail s2 = s_lru_tail s) as T2 by reflexivity.
  set (s3 := match s_lru_head s2 with Some _ => _ | None => _ end).
  assert (s_lru_tail s3 = s_lru_tail s /\
          forall j, lru_next (entry s3 j) = lru_next (entry s2 j) /\
                    lru_prev (entry s3 j) =
                    if ptr_eqb (s_lru_head s) (Some j) then Some e
                    else lru_prev (entry s2 j)) as (T3 & F3).
  { subst s3. rewrite H2. destruct (s_lru_head s) as [h|] eqn:Eh.
    - split; [reflexivity|]. intros j. split.
      + now apply entry_upd_field.
      + rewrite entry_upd_in by (rewrite L2; auto).
        rewrite ptr_eqb_some, (Nat.eqb_sym h j). destruct (Nat.eqb j h); reflexivity.
    - split; auto. }
  split; [|split].
  - destruct (s_lru_tail (set_lru_head (Some e) s3)); reflexivity.
  - rewrite tail_fixup.
    change (s_lru_tail (set_lru_head (Some e) s3)) with (s_lru_tail s3).
    now rewrite T3.
  - intros j.
    assert (entry (match s_lru_tail (set_lru_head (Some e) s3) with
                   | Some _ => set_lru_head (Some e) s3
                   | None => set_lru_tail (Some e) (set_lru_head (Some e) s3)
                   end) j = entry s3 j) as ->
        by (destruct (s_lru_tail (set_lru_head (Some e) s3)); reflexivity).
    destruct (F3 j) as [-> ->]. destruct (F2 j) as [-> ->]. auto.
Qed.

Lemma lru_insert_front_rep (s : cache_state) (l : list nat) (e : nat) :
  lru_rep s l -> ~ In e l -> e < length (s_cache s) ->
  lru_rep (lru_insert_front e s) (e :: l).
Proof.
  intros (ND & Hb & Hh & Ht & Hf) He Hlt.
  destruct (@lru_insert_front_fields e s) as (H1 & H2 & H3); auto.
  - rewrite Hh. intros E. apply hd_error_in in E. contradiction.
  - intros h E. rewrite Hh in E. apply hd_error_in in E. auto.
  - destruct (lru_insert_front_core e s) as (Hlen & _).
    split; [now constructor|]. split; [|split; [|split]].
    + intros i [<-|Hi]; rewrite Hlen; auto.
    + exact H1.
    + rewrite H2, Ht. change (rev (e :: l)) with (rev l ++ [e]).
      now rewrite hd_error_snoc.
    + intros j Hj. destruct (H3 j) as [-> ->].
      change (rev (e :: l)) with (rev l ++ [e]).
      rewrite next_of_snoc by now apply NoDup_rev.
      rewrite rev_involutive, <- Hh. simpl. rewrite (Nat.eqb_sym e j).
      destruct (Nat.eqb_spec j e) as [->|Hne].
      * split; [exact Hh|].
        destruct (ptr_eqb (s_lru_head s) (Some e)); [reflexivity|].
        symmetry. apply next_of_notin. now rewrite <- in_rev.
      * destruct Hj as [Hj|Hj]; [congruence|].
        destruct (Hf j Hj) as [-> ->]. auto.
Qed.

Lemma lru_touch_rep (s : cache_state) (l : list nat) (e : nat) :
  lru_rep s l -> In e l -> lru_rep (lru_touch e s) (e :: del e l).
Proof.
  intros R He. unfold lru_touch.
  destruct (ptr_eqb (s_lru_head s) (Some e)) eqn:E.
  - apply ptr_eqb_eq in E. destruct R as (ND & Hb & Hh & Ht & Hf).
    assert (e :: del e l = l) as ->; [|repeat split; auto; apply Hf; auto].
    rewrite Hh in E. destruct l as [|x l]; simpl in E; inversion E; subst.
    inversion ND; subst. now rewrite del_cons_same.
  - apply lru_insert_front_rep.
    + now apply lru_remove_rep.
    + intros H. apply in_del in H. tauto.
    + destruct (lru_remove_core e s) as (-> & _).
      destruct R as (_ & Hb & _). auto.
Qed.


(** ** Chains *)

Lemma chain_frame (c c' : list cache_entry) (p : ptr) (l : list nat) :
  length c' = length c ->
  (forall i, In i l -> hash_next (nth i c' entry0) = hash_next (nth i c entry0)) ->
  chain c p l -> chain c' p l.
Proof.
  intros Hlen. revert p. induction l as [|x l IH]; simpl; intros p Hf H; auto.
  destruct H as (-> & Hx & H). repeat split; [congruence|].
  rewrite Hf by auto. apply IH; auto.
Qed.

Lemma chain_inj (c : list cache_entry) (p : ptr) (l1 l2 : list nat) :
  chain c p l1 -> chain c p l2 -> l1 = l2.
Proof.
  revert p l2. induction l1 as [|x l1 IH]; intros p [|y l2]; simpl; auto.
  - intros -> (H & _). discriminate.
  - intros (-> & _) H. discriminate.
  - intros (-> & _ & H1) (E & _ & H2). inversion E; subst.
    f_equal. eapply IH; eauto.
Qed.

Lemma chain_bound (c : list cache_entry) (p : ptr) (l : list nat) (i : nat) :
  chain c p l -> In i l -> i < length c.
Proof.
  revert p. induction l as [|x l IH]; simpl; intros p H Hi; [contradiction|].
  destruct H as (_ & Hx & H). destruct Hi as [<-|Hi]; eauto.
Qed.

Lemma chain_suffix (c : list cache_entry) (p : ptr) (a b : list nat) (i : nat) :
  chain c p (a ++ i :: b) -> chain c (hash_next (nth i c entry0)) b.
Proof.
  revert p. induction a as [|x a IH]; simpl; intros p H.
  - tauto.
  - destruct H as (_ & _ & H). eauto.
Qed.

Lemma chain_NoDup (c : list cache_entry) (p : ptr) (l : list nat) :
  chain c p l -> NoDup l.
Proof.
  revert p. induction l as [|x l IH]; intros p H; [constructor|].
  destruct H as (_ & _ & H). constructor; [|eauto].
  intros Hi. apply in_split in Hi. destruct Hi as (a & b & ->).
  pose proof (@chain_suffix c _ a b x H) as H'.
  pose proof (@chain_inj c _ _ _ H H') as E.
  apply (f_equal (@length nat)) in E. rewrite length_app in E. simpl in E. lia.
Qed.

Lemma chain_walk_spec (c : list cache_entry) (p : ptr) (l : list nat) (fuel : nat) :
  chain c p l -> length l <= fuel -> chain_walk fuel c p = Some l.
Proof.
  revert p fuel. induction l as [|x l IH]; simpl; intros p fuel H Hf.
  - subst p. destruct fuel; reflexivity.
  - destruct H as (-> & _ & H). destruct fuel as [|fuel]; [lia|].
    simpl. rewrite (IH _ fuel H) by lia. reflexivity.
Qed.

Lemma chain_length (c : list cache_entry) (p : ptr) (l : list nat) :
  chain c p l -> length l <= length c.
Proof.
  intros H. apply NoDup_bounded_length.
  - eapply chain_NoDup; eauto.
  - intros i. eapply chain_bound; eauto.
Qed.

Lemma hash_lookup_loop_spec (s : cache_state) (e : ptr) (l : list nat)
      (fuel : nat) (p sec : Z) :
  chain (s_cache s) e l -> length l <= fuel ->
  hash_lookup_loop fuel s e p sec =
  Some (find (fun i => key_match (entry s i) p sec) l).
Proof.
  revert e fuel. induction l as [|x l IH]; simpl; intros e fuel H Hf.
  - subst e. destruct fuel; reflexivity.
  - destruct H as (-> & _ & H). destruct fuel as [|fuel]; [lia|].
    simpl. destruct (key_match (entry s x) p sec); [reflexivity|].
    apply IH; [exact H|lia].
Qed.

(** Unlinking [e] from a chain: the link before it takes its successor. *)
Lemma chain_unlink (c c' : list cache_entry) (e : nat) (l2 : list nat) (n : ptr) :
  length c' = length c ->
  n = hash_next (nth e c entry0) ->
  forall (l1 : list nat) (p : ptr),
  chain c p (l1 ++ e :: l2) -> NoDup (l1 ++ e :: l2) ->
  (forall i, In i (l1 ++ l2) ->
     hash_next (nth i c' entry0) =
     if ptr_eqb (hd_error (rev l1)) (Some i) then n else hash_next (nth i c entry0)) ->
  chain c' (match l1 with [] => n | _ :: _ => p end) (l1 ++ l2).
Proof.
  intros Hlen Hn. induction l1 as [|x l1 IH]; intros p H ND Hf.
  - simpl in *. destruct H as (_ & _ & H). subst n.
    apply chain_frame with (c := c); auto.
  - simpl in H. destruct H as (-> & Hx & H).
    inversion ND as [|? ? Hnx ND']; subst.
    change ((x :: l1) ++ l2) with (x :: (l1 ++ l2)) in *.
    simpl. repeat split; [congruence|].
    assert (forall i, In i (l1 ++ l2) -> i <> x) as Hne.
    { intros i Hi ->. apply Hnx. rewrite in_app_iff in *. simpl. tauto. }
    destruct l1 as [|y l1].
    + rewrite (Hf x) by (now left). simpl. rewrite Nat.eqb_refl.
      apply (IH (hash_next (nth x c entry0))); auto.
      intros i Hi. rewrite Hf by (now right). simpl.
      destruct (Nat.eqb_spec x i) as [->|]; [|reflexivity].
      exfalso. now apply (Hne i).
    + assert (hd_error (rev (x :: y :: l1)) = hd_error (rev (y :: l1))) as Elast.
      { change (rev (x :: y :: l1)) with (rev (y :: l1) ++ [x]).
        rewrite hd_error_snoc. simpl.
        destruct (rev l1 ++ [y]) eqn:E; [|reflexivity].
        destruct (rev l1); discriminate E. }
      rewrite (Hf x) by (now left). rewrite Elast.
      assert (ptr_eqb (hd_error (rev (y :: l1))) (Some x) = false) as ->.
      { apply ptr_eqb_neq. intros E. apply hd_error_rev_in in E.
        apply Hnx. rewrite in_app_iff. now left. }
      apply (IH (hash_next (nth x c entry0))); auto.
      intros i Hi. rewrite Hf by (now right). now rewrite Elast.
Qed.


Lemma CACHE_SIZE_eq : CACHE_SIZE = 128.
Proof. reflexivity. Qed.

Lemma HASH_SIZE_eq : HASH_SIZE = 257.
Proof. reflexivity. Qed.

Lemma hash_key_lt (p sec : Z) : hash_key p sec < HASH_SIZE.
Proof.
  unfold hash_key. rewrite HASH_SIZE_eq.
  match goal with |- Z.to_nat (?a mod ?b) < _ =>
    pose proof (Z.mod_pos_bound a b) as H end.
  change (Z.of_nat 257) with 257%Z in *. lia.
Qed.

(** ** The hash index *)


Lemma same_but_hash_refl (s : cache_state) : same_but_hash s s.
Proof. unfold same_but_hash; intuition. Qed.

Lemma same_but_hash_trans (s1 s2 s3 : cache_state) :
  same_but_hash s1 s2 -> same_but_hash s2 s3 -> same_but_hash s1 s3.
Proof.
  unfold same_but_hash.
  intros (A1 & A2 & A3 & A4 & A5 & A6 & A7 & A8) (B1 & B2 & B3 & B4 & B5 & B6 & B7 & B8).
  repeat split; try congruence;
    destruct (A8 i) as (? & ? & ? & ? & ? & ? & ?);
    destruct (B8 i) as (? & ? & ? & ? & ? & ? & ?); congruence.
Qed.

Lemma upd_entry_but_hash (i : nat) (f : cache_entry -> cache_entry) (s : cache_state) :
  hash_setter f -> same_but_hash s (upd_entry i f s).
Proof.
  intros Hf. unfold same_but_hash. simpl. rewrite upd_length.
  repeat split; auto; rewrite entry_upd_entry;
    destruct (Nat.eqb i0 i && Nat.ltb i (length (s_cache s))); auto; apply Hf.
Qed.

Lemma set_hash_table_but_hash (t : list ptr) (s : cache_state) :
  length t = length (s_hash_table s) -> same_but_hash s (set_hash_table t s).
Proof. intros H. unfold same_but_hash; simpl; intuition. Qed.

Lemma hash_setter_next (v : ptr) : hash_setter (set_hash_next v).
Proof. intros x; simpl; auto 10. Qed.

Lemma hash_insert_fields (e : nat) (s : cache_state) :
  e < length (s_cache s) ->
  hash_key (pdrv (entry s e)) (sector (entry s e)) < length (s_hash_table s) ->
  same_but_hash s (hash_insert e s) /\
  (forall h, nth h (s_hash_table (hash_insert e s)) None =
             if Nat.eqb h (hash_key (pdrv (entry s e)) (sector (entry s e)))
             then Some e else nth h (s_hash_table s) None) /\
  (forall j, hash_next (entry (hash_insert e s) j) =
             if Nat.eqb j e
             then nth (hash_key (pdrv (entry s e)) (sector (entry s e)))
                      (s_hash_table s) None
             else hash_next (entry s j)).
Proof.
  intros He Hh. unfold hash_insert.
  remember (hash_key (pdrv (entry s e)) (sector (entry s e))) as h eqn:Eh.
  clear Eh.
  remember (upd_entry e (set_hash_next (nth h (s_hash_table s) None)) s) as s1 eqn:E1.
  split; [|split].
  - eapply same_but_hash_trans; [|apply set_hash_table_but_hash; now rewrite upd_length].
    subst s1. apply upd_entry_but_hash, hash_setter_next.
  - intros h'. subst s1. cbn [s_hash_table set_hash_table upd_entry set_cache].
    rewrite nth_upd.
    match goal with |- context [Nat.ltb ?a ?b] => destruct (Nat.ltb_spec a b) end;
      [now rewrite andb_true_r|exfalso; unfold ptr in *; lia].
  - intros j. change (entry (set_hash_table _ s1) j) with (entry s1 j).
    subst s1. rewrite entry_upd_in by exact He.
    destruct (Nat.eqb j e); reflexivity.
Qed.

Lemma hash_remove_loop_found (s : cache_state) (e : nat) (l2 : list nat) :
  forall (l1 : list nat) (pp : link) (fuel : nat),
  chain (s_cache s) (load_link s pp) (l1 ++ e :: l2) ->
  ~ In e l1 -> length l1 < fuel ->
  hash_remove_loop fuel s pp e =
  Some (upd_entry e (set_hash_next None)
          (store_link (match rev l1 with [] => pp | j :: _ => NextLink j end)
                      (hash_next (entry s e)) s)).
Proof.
  induction l1 as [|x l1 IH]; intros pp fuel H Hn Hf.
  - destruct H as (E & _). destruct fuel as [|fuel]; [lia|].
    simpl. rewrite E, Nat.eqb_refl. reflexivity.
  - destruct H as (E & _ & H). destruct fuel as [|fuel]; [simpl in Hf; lia|].
    simpl. rewrite E.
    assert (x <> e) as Hx by (intros ->; apply Hn; now left).
    apply Nat.eqb_neq in Hx. rewrite Hx.
    rewrite (IH (NextLink x) fuel); [| exact H | intros Hi; apply Hn; now right
                                     | simpl in Hf; lia].
    destruct (rev l1) as [|j r]; reflexivity.
Qed.

Lemma hash_remove_loop_absent (s : cache_state) (e : nat) :
  forall (l : list nat) (pp : link) (fuel : nat),
  chain (s_cache s) (load_link s pp) l ->
  ~ In e l -> length l <= fuel ->
  hash_remove_loop fuel s pp e = Some s.
Proof.
  induction l as [|x l IH]; intros pp fuel H Hn Hf.
  - simpl in H. destruct fuel; simpl; rewrite H; reflexivity.
  - destruct H as (E & _ & H). destruct fuel as [|fuel]; [simpl in Hf; lia|].
    simpl. rewrite E.
    assert (x <> e) as Hx by (intros ->; apply Hn; now left).
    apply Nat.eqb_neq in Hx. rewrite Hx.
    apply IH; [exact H | intros Hi; apply Hn; now right | simpl in Hf; lia].
Qed.


Lemma split_at (l : list nat) (e : nat) :
  NoDup l -> In e l ->
  exists l1 l2, l = l1 ++ e :: l2 /\ ~ In e l1 /\ ~ In e l2 /\ del e l = l1 ++ l2.
Proof.
  intros ND He. apply in_split in He. destruct He as (l1 & l2 & ->).
  exists l1, l2. pose proof (NoDup_remove_2 _ _ _ ND) as H.
  rewrite in_app_iff in H.
  repeat split; try tauto.
  rewrite del_app, del_cons_same, del_notin; tauto.
Qed.

Lemma hash_remove_spec (s : cache_state) (e : nat) (l : list nat) :
  length (s_cache s) = CACHE_SIZE ->
  hash_key (pdrv (entry s e)) (sector (entry s e)) < length (s_hash_table s) ->
  chain (s_cache s)
        (nth (hash_key (pdrv (entry s e)) (sector (entry s e))) (s_hash_table s) None) l ->
  In e l ->
  exists s',
    hash_remove e s = Some s' /\
    same_but_hash s s' /\
    chain (s_cache s')
          (nth (hash_key (pdrv (entry s e)) (sector (entry s e))) (s_hash_table s') None)
          (del e l) /\
    (forall h, h <> hash_key (pdrv (entry s e)) (sector (entry s e)) ->
               nth h (s_hash_table s') None = nth h (s_hash_table s) None) /\
    (forall j, ~ In j l -> hash_next (entry s' j) = hash_next (entry s j)).
Proof.
  intros Hlen Hh Hc He. unfold hash_remove.
  remember (hash_key (pdrv (entry s e)) (sector (entry s e))) as h eqn:Eh. clear Eh.
  pose proof (@chain_NoDup _ _ _ Hc) as ND.
  pose proof (@chain_length _ _ _ Hc) as Hl.
  assert (e < length (s_cache s)) as Hlt by (eapply chain_bound; eauto).
  destruct (@split_at _ _ ND He) as (l1 & l2 & -> & N1 & N2 & ->).
  rewrite (@hash_remove_loop_found s e l2 l1 (BucketLink h) LOOP_FUEL); auto.
  2:{ rewrite length_app in Hl. simpl in Hl. unfold LOOP_FUEL. lia. }
  eexists. split; [reflexivity|].
  set (n := hash_next (entry s e)).
  assert (forall j, hd_error (rev l1) = Some j -> j <> e /\ j < length (s_cache s)) as Hj.
  { intros j E. apply hd_error_rev_in in E. split; [congruence|].
    eapply chain_bound; eauto. rewrite in_app_iff. now left. }
  set (s' := upd_entry e (set_hash_next None) _).
  assert (same_but_hash s s' /\
          (forall h', nth h' (s_hash_table s') None =
                      if Nat.eqb h' h && match l1 with [] => true | _ => false end
                      then n else nth h' (s_hash_table s) None) /\
          (forall j, hash_next (entry s' j) =
                     if Nat.eqb j e then None
                     else if ptr_eqb (hd_error (rev l1)) (Some j) then n
                          else hash_next (entry s j))) as (F1 & F2 & F3).
  { subst s'. destruct (rev l1) as [|j r] eqn:Er.
    - assert (l1 = []) as -> by (destruct l1; [reflexivity|];
                                 simpl in Er; destruct (rev l1); discriminate Er).
      unfold store_link. split; [|split].
      + eapply same_but_hash_trans;
          [apply set_hash_table_but_hash; now rewrite upd_length
          |apply upd_entry_but_hash, hash_setter_next].
      + intros h'. cbn [s_hash_table set_hash_table upd_entry set_cache].
        rewrite nth_upd, andb_true_r.
        match goal with |- context [Nat.ltb ?a ?b] => destruct (Nat.ltb_spec a b) end;
          [now rewrite andb_true_r|exfalso; unfold ptr in *; lia].
      + intros j. rewrite entry_upd_in by exact Hlt. simpl.
        destruct (Nat.eqb j e); reflexivity.
    - destruct (Hj j eq_refl) as [Hje Hjl].
      assert (l1 <> []) as Hne by (intros ->; discriminate Er).
      unfold store_link. split; [|split].
      + eapply same_but_hash_trans; apply upd_entry_but_hash, hash_setter_next.
      + intros h'. cbn [s_hash_table set_hash_table upd_entry set_cache].
        destruct l1; [congruence|]. now rewrite andb_false_r.
      + intros k. rewrite entry_upd_in by (rewrite length_upd_entry; exact Hlt).
        rewrite entry_upd_in by exact Hjl. simpl. rewrite (Nat.eqb_sym j k).
        destruct (Nat.eqb k e), (Nat.eqb k j); reflexivity. }
  split; [exact F1|]. split; [|split].
  - rewrite F2, Nat.eqb_refl. simpl.
    assert (length (s_cache s') = length (s_cache s)) as Hlen' by apply F1.
    pose proof (@chain_unlink (s_cache s) (s_cache s') e l2 n Hlen' eq_refl l1 _ Hc ND)
      as U.
    destruct l1; apply U; intros i Hi; fold (entry s' i); fold (entry s i);
      rewrite F3;
      (destruct (Nat.eqb_spec i e) as [->|]; [|reflexivity]);
      exfalso; rewrite in_app_iff in Hi; tauto.
  - intros h' Hh'. rewrite F2. apply Nat.eqb_neq in Hh'. now rewrite Hh'.
  - intros j Hj'. rewrite F3.
    destruct (Nat.eqb_spec j e) as [->|]; [exfalso; apply Hj'; apply in_elt|].
    destruct (ptr_eqb (hd_error (rev l1)) (Some j)) eqn:E; [|reflexivity].
    apply ptr_eqb_eq in E. apply hd_error_rev_in in E.
    exfalso. apply Hj'. rewrite in_app_iff. now left.
Qed.

Lemma hash_lookup_spec (s : cache_state) (l : list nat) (p sec : Z) :
  length (s_cache s) = CACHE_SIZE ->
  chain (s_cache s) (nth (hash_key p sec) (s_hash_table s) None) l ->
  hash_lookup s p sec = Some (find (fun i => key_match (entry s i) p sec) l).
Proof.
  intros Hlen H. unfold hash_lookup. apply hash_lookup_loop_spec; auto.
  pose proof (@chain_length _ _ _ H). unfold LOOP_FUEL. lia.
Qed.


(** ** The structural invariant *)


Lemma hkey_lt (s : cache_state) (i : nat) : hkey s i < HASH_SIZE.
Proof. apply hash_key_lt. Qed.

Lemma lru_rep_frame (s s' : cache_state) (l : list nat) :
  length (s_cache s') = length (s_cache s) ->
  s_lru_head s' = s_lru_head s -> s_lru_tail s' = s_lru_tail s ->
  (forall i, In i l -> lru_prev (entry s' i) = lru_prev (entry s i) /\
                       lru_next (entry s' i) = lru_next (entry s i)) ->
  lru_rep s l -> lru_rep s' l.
Proof.
  intros Hlen Hh Ht Hf (ND & Hb & H1 & H2 & H3).
  repeat split; try congruence.
  - intros i Hi. rewrite Hlen. auto.
  - destruct (Hf i H) as [_ ->]. now apply H3.
  - destruct (Hf i H) as [-> _]. now apply H3.
Qed.

Lemma lru_rep_in_bound (s : cache_state) (l : list nat) (i : nat) :
  lru_rep s l -> In i l -> i < length (s_cache s).
Proof. intros (_ & Hb & _) Hi. auto. Qed.

(** Moving slots around inside the recency list. *)
Lemma rep_relink (s s' : cache_state) (F L L' : list nat) (B : nat -> list nat) :
  cache_rep s F L B -> same_core s s' -> lru_rep s' L' ->
  (forall i, In i L' <-> In i L) ->
  cache_rep s' F L' B.
Proof.
  intros R (Hlen & Ht & Hd & Hfh & He & Hf) RL Hin.
  assert (forall i, hkey s' i = hkey s i) as Hk.
  { intros i. unfold hkey. destruct (Hf i) as (-> & -> & _). reflexivity. }
  constructor.
  - rewrite Hlen. apply R.
  - rewrite Ht. apply R.
  - rewrite Hfh. apply chain_frame with (c := s_cache s); auto; [|apply R].
    intros i _. apply (Hf i).
  - exact RL.
  - intros h Hh. rewrite Ht. apply chain_frame with (c := s_cache s); auto.
    + intros i _. apply (Hf i).
    + now apply R.
  - intros h i Hi. rewrite Hk, Hin. now apply R.
  - intros i Hi. rewrite Hk. apply R. now apply Hin.
  - intros i Hi. rewrite Hin. now apply R.
  - intros i Hi Hv. apply Hin. apply R; auto.
    destruct (Hf i) as (_ & _ & _ & <- & _). exact Hv.
  - intros i. destruct (Hf i) as (_ & _ & -> & -> & _). apply R.
  - intros i j Hi Hj.
    destruct (Hf i) as (-> & -> & _ & -> & _).
    destruct (Hf j) as (-> & -> & _ & -> & _). now apply R.
Qed.

Lemma rep_lru_touch (s : cache_state) (F L : list nat) (B : nat -> list nat) (e : nat) :
  cache_rep s F L B -> In e L ->
  cache_rep (lru_touch e s) F (e :: del e L) B.
Proof.
  intros R He. eapply rep_relink; eauto.
  - apply lru_touch_core.
  - apply lru_touch_rep; auto. apply R.
  - intros i. simpl. rewrite in_del.
    destruct (Nat.eq_dec e i) as [->|]; intuition.
Qed.


Lemma same_links_refl (s : cache_state) : same_links s s.
Proof. unfold same_links; intuition. Qed.

Lemma same_links_trans (s1 s2 s3 : cache_state) :
  same_links s1 s2 -> same_links s2 s3 -> same_links s1 s3.
Proof.
  unfold same_links.
  intros (A1 & A2 & A3 & A4 & A5 & A6) (B1 & B2 & B3 & B4 & B5 & B6).
  repeat split; try congruence;
    destruct (A6 i) as (? & ? & ? & ? & ?);
    destruct (B6 i) as (? & ? & ? & ? & ?); congruence.
Qed.


Lemma upd_entry_links (i : nat) (f : cache_entry -> cache_entry) (s : cache_state) :
  flag_setter f -> same_links s (upd_entry i f s).
Proof.
  intros Hf. unfold same_links. simpl. rewrite upd_length.
  repeat split; auto; rewrite entry_upd_entry;
    destruct (Nat.eqb i0 i && Nat.ltb i (length (s_cache s))); auto; apply Hf.
Qed.

Lemma rep_flags (s s' : cache_state) (F L : list nat) (B : nat -> list nat) :
  cache_rep s F L B -> same_links s s' ->
  (forall i, valid (entry s' i) = true -> valid (entry s i) = true) ->
  (forall i, dirty (entry s' i) = true -> valid (entry s' i) = true) ->
  cache_rep s' F L B.
Proof.
  intros R (Hlen & Ht & Hh & Htl & Hfh & Hf) Hv Hd.
  assert (forall i, hkey s' i = hkey s i) as Hk.
  { intros i. unfold hkey. destruct (Hf i) as (-> & -> & _). reflexivity. }
  constructor.
  - rewrite Hlen. apply R.
  - rewrite Ht. apply R.
  - rewrite Hfh. apply chain_frame with (c := s_cache s); auto; [|apply R].
    intros i _. apply (Hf i).
  - apply lru_rep_frame with (s := s); auto; [|apply R].
    intros i _. destruct (Hf i) as (_ & _ & _ & -> & ->). auto.
  - intros h Hlt. rewrite Ht. apply chain_frame with (c := s_cache s); auto.
    + intros i _. apply (Hf i).
    + now apply R.
  - intros h i Hi. rewrite Hk. now apply R.
  - intros i Hi. rewrite Hk. now apply R.
  - apply R.
  - intros i Hi Hvi. apply R; auto.
  - exact Hd.
  - intros i j Hi Hj Hvi Hvj.
    destruct (Hf i) as (-> & -> & _). destruct (Hf j) as (-> & -> & _).
    apply R; auto.
Qed.


Lemma rep_free_get_nil (s : cache_state) (L : list nat) (B : nat -> list nat) :
  cache_rep s [] L B -> free_get s = (None, s).
Proof.
  intros R. unfold free_get. pose proof (rep_free R) as H. simpl in H.
  now rewrite H.
Qed.

Lemma rep_free_get_cons (s : cache_state) (f : nat) (F L : list nat)
      (B : nat -> list nat) :
  cache_rep s (f :: F) L B ->
  free_get s = (Some f, set_free_head (hash_next (entry s f)) s) /\
  cache_rep (set_free_head (hash_next (entry s f)) s) F L B /\
  f < CACHE_SIZE /\ ~ In f F /\ ~ In f L /\ valid (entry s f) = false.
Proof.
  intros R. pose proof (rep_free R) as H. destruct H as (Hh & Hlt & Hc).
  pose proof (@chain_NoDup _ _ _ (rep_free R)) as ND. inversion ND; subst.
  rewrite (rep_len R) in Hlt.
  assert (~ In f L) as HL by (apply (rep_disj R); now left).
  split; [|split; [|repeat split; auto]].
  - unfold free_get. now rewrite Hh.
  - constructor; try apply R; simpl; auto.
    intros i Hi. apply (rep_disj R). now right.
  - destruct (valid (entry s f)) eqn:E; [|reflexivity].
    exfalso. apply HL. now apply (rep_valid R).
Qed.


Lemma rep_install (s sa : cache_state) (F L : list nat) (B : nat -> list nat)
      (f : nat) (p sec : Z) :
  cache_rep s F L B ->
  f < CACHE_SIZE -> ~ In f F -> ~ In f L ->
  rekeyed s sa f p sec ->
  (forall i, i < CACHE_SIZE -> valid (entry s i) = true ->
             sector (entry s i) = sec -> pdrv (entry s i) = p -> i = f) ->
  cache_rep (lru_insert_front f (hash_insert f sa)) F (f :: L)
            (set_bucket (hash_key p sec) (f :: B (hash_key p sec)) B).
Proof.
  intros R Hf NF NL (Hlen & Ht & Hh & Htl & Hfh & Hlk & Hoth & Hs & Hp & Hv) Hnew.
  assert (f < length (s_cache sa)) as Hfa by (rewrite Hlen, (rep_len R); exact Hf).
  assert (hash_key (pdrv (entry sa f)) (sector (entry sa f)) = hash_key p sec) as Hkey
      by (now rewrite Hs, Hp).
  destruct (@hash_insert_fields f sa Hfa) as (SB & TB & NB).
  { rewrite Hkey, Ht, (rep_tlen R). apply hash_key_lt. }
  rewrite Hkey in TB, NB.
  set (sb := hash_insert f sa) in *.
  destruct SB as (B1 & B2 & B3 & B4 & B5 & B6 & B7 & B8).
  pose proof (lru_insert_front_core f sb) as (C1 & C2 & C3 & C4 & C5 & C6).
  set (sc := lru_insert_front f sb) in *.
  set (h := hash_key p sec) in *.
  assert (forall i, In i L -> i <> f) as NL' by (intros i Hi ->; contradiction).
  assert (forall h' i, In i (B h') -> i <> f) as NB'.
  { intros h' i Hi. apply NL'. eapply (rep_bucket_key R); eauto. }
  assert (forall i, i <> f -> hkey sc i = hkey s i) as Hk.
  { intros i Hi. unfold hkey.
    destruct (C6 i) as (-> & -> & _). destruct (B8 i) as (-> & -> & _).
    destruct (Hoth i Hi) as (-> & -> & _). reflexivity. }
  assert (hkey sc f = h) as Hkf.
  { unfold hkey. destruct (C6 f) as (-> & -> & _). destruct (B8 f) as (-> & -> & _).
    exact Hkey. }
  assert (forall i, i <> f ->
            hash_next (nth i (s_cache sc) entry0) = hash_next (nth i (s_cache s) entry0))
    as Hn.
  { intros i Hi. fold (entry sc i). fold (entry s i).
    destruct (C6 i) as (_ & _ & _ & _ & -> & _). rewrite NB.
    apply Nat.eqb_neq in Hi. rewrite Hi. apply Hlk. }
  assert (length (s_cache sc) = length (s_cache s)) as Hlc by congruence.
  assert (forall i, i <> f -> valid (entry sc i) = valid (entry s i)) as Hvo.
  { intros i Hi. destruct (C6 i) as (_ & _ & _ & -> & _).
    destruct (B8 i) as (_ & _ & _ & -> & _). apply (Hoth i Hi). }
  assert (valid (entry sc f) = true) as Hvf.
  { destruct (C6 f) as (_ & _ & _ & -> & _).
    destruct (B8 f) as (_ & _ & _ & -> & _). exact Hv. }
  constructor.
  - rewrite Hlc. apply R.
  - rewrite C2, B2, Ht. apply R.
  - rewrite C4, B6, Hfh. apply chain_frame with (c := s_cache s); auto; [|apply R].
    intros i Hi. apply Hn. intros ->. contradiction.
  - apply lru_insert_front_rep; auto; [|congruence].
    apply lru_rep_frame with (s := s); try congruence; [|apply R].
    intros i _. destruct (B8 i) as (_ & _ & _ & _ & -> & -> & _).
    destruct (Hlk i) as (_ & -> & ->). auto.
  - intros h' Hh'. rewrite C2, TB. unfold set_bucket.
    destruct (Nat.eqb_spec h' h) as [->|Hne].
    + simpl. repeat split; [congruence|].
      fold (entry sc f). destruct (C6 f) as (_ & _ & _ & _ & -> & _).
      rewrite NB, Nat.eqb_refl, Ht.
      apply chain_frame with (c := s_cache s); auto; [|now apply R].
      intros i Hi. apply Hn. eapply NB'; eauto.
    + rewrite Ht. apply chain_frame with (c := s_cache s); auto; [|now apply R].
      intros i Hi. apply Hn. eapply NB'; eauto.
  - intros h' i. unfold set_bucket.
    destruct (Nat.eqb_spec h' h) as [->|Hne]; intros Hi.
    + destruct Hi as [<-|Hi]; [split; [exact Hkf|now left]|].
      rewrite Hk by (eapply NB'; eauto).
      destruct (rep_bucket_key R _ _ Hi). split; [assumption|now right].
    + rewrite Hk by (eapply NB'; eauto).
      destruct (rep_bucket_key R _ _ Hi). split; [assumption|now right].
  - intros i [<-|Hi]; unfold set_bucket.
    + rewrite Hkf, Nat.eqb_refl. now left.
    + rewrite Hk by auto. pose proof (rep_lru_bucket R _ Hi) as Hb.
      destruct (Nat.eqb_spec (hkey s i) h) as [E|]; [|exact Hb].
      right. now rewrite <- E.
  - intros i Hi [<-|Hl]; [contradiction|]. revert Hl. now apply (rep_disj R).
  - intros i Hi Hvi. destruct (Nat.eq_dec i f) as [->|Hne]; [now left|].
    right. apply (rep_valid R); auto. now rewrite <- Hvo.
  - intros i Hd. destruct (Nat.eq_dec i f) as [->|Hne]; [exact Hvf|].
    rewrite Hvo by auto. apply (rep_dirty R).
    destruct (Hoth i Hne) as (_ & _ & _ & <- & _).
    destruct (B8 i) as (_ & _ & <- & _). destruct (C6 i) as (_ & _ & <- & _).
    exact Hd.
  - assert (forall i, sector (entry sc i) = sector (entry sa i) /\
                      pdrv (entry sc i) = pdrv (entry sa i)) as Hsa.
    { intros i. destruct (C6 i) as (-> & -> & _). destruct (B8 i) as (-> & -> & _).
      auto. }
    intros i j Hi Hj Hvi Hvj Es Ep.
    destruct (Hsa i) as [Esi Epi]. destruct (Hsa j) as [Esj Epj].
    rewrite Esi, Esj in Es. rewrite Epi, Epj in Ep.
    destruct (Nat.eq_dec i f) as [->|Hni], (Nat.eq_dec j f) as [->|Hnj]; auto.
    + symmetry. apply Hnew; auto.
      * now rewrite <- Hvo.
      * destruct (Hoth j Hnj) as (<- & _). congruence.
      * destruct (Hoth j Hnj) as (_ & <- & _). congruence.
    + apply Hnew; auto.
      * now rewrite <- Hvo.
      * destruct (Hoth i Hni) as (<- & _). congruence.
      * destruct (Hoth i Hni) as (_ & <- & _). congruence.
    + rewrite Hvo in Hvi, Hvj by auto.
      destruct (Hoth i Hni) as (Ei1 & Ei2 & _).
      destruct (Hoth j Hnj) as (Ej1 & Ej2 & _).
      apply (rep_uniq R); auto; congruence.
Qed.


Lemma flag_setter_valid (v : bool) : flag_setter (set_valid v).
Proof. intros x; simpl; auto 10. Qed.

Lemma flag_setter_dirty (v : bool) : flag_setter (set_dirty v).
Proof. intros x; simpl; auto 10. Qed.

Lemma flag_setter_data (v : block) : flag_setter (set_data v).
Proof. intros x; simpl; auto 10. Qed.

Lemma rep_reclaim (s : cache_state) (F L : list nat) (B : nat -> list nat) (e : nat) :
  cache_rep s F L B -> In e L ->
  exists s1,
    hash_remove e s = Some s1 /\
    cache_rep (reclaimed e s1) F (del e L)
              (set_bucket (hkey s e) (del e (B (hkey s e))) B) /\
    e < CACHE_SIZE /\
    s_dirty_blocks (reclaimed e s1) = s_dirty_blocks s /\
    s_evict_error (reclaimed e s1) = s_evict_error s /\
    (forall i, sector (entry (reclaimed e s1) i) = sector (entry s i) /\
               pdrv (entry (reclaimed e s1) i) = pdrv (entry s i) /\
               data (entry (reclaimed e s1) i) = data (entry s i) /\
               valid (entry (reclaimed e s1) i) =
                 (if Nat.eqb i e then false else valid (entry s i)) /\
               dirty (entry (reclaimed e s1) i) =
                 (if Nat.eqb i e then false else dirty (entry s i))).
Proof.
  intros R He.
  pose proof (rep_lru_bucket R _ He) as Hb.
  assert (e < length (s_cache s)) as Hlt by (apply (@lru_rep_in_bound s L e (rep_lru R) He)).
  destruct (@hash_remove_spec s e (B (hkey s e))) as (s1 & E1 & SB & Hc & Ht & Hn); auto.
  { apply R. }
  { rewrite (rep_tlen R). apply hash_key_lt. }
  { apply (rep_bucket R). apply hkey_lt. }
  fold (hkey s e) in Hc, Ht.
  exists s1. split; [exact E1|].
  destruct SB as (B1 & B2 & B3 & B4 & B5 & B6 & B7 & B8).
  assert (lru_rep s1 L) as RL1.
  { apply lru_rep_frame with (s := s); auto; [|apply R].
    intros i _. destruct (B8 i) as (_ & _ & _ & _ & -> & -> & _). auto. }
  pose proof (@lru_remove_rep _ _ _ RL1 He) as RL2.
  pose proof (lru_remove_core e s1) as (C1 & C2 & C3 & C4 & C5 & C6).
  set (s2 := lru_remove e s1) in *.
  assert (same_links s2 (reclaimed e s1)) as SL.
  { unfold reclaimed. fold s2. eapply same_links_trans; apply upd_entry_links.
    - apply flag_setter_valid.
    - apply flag_setter_dirty. }
  assert (forall i, sector (entry (reclaimed e s1) i) = sector (entry s i) /\
               pdrv (entry (reclaimed e s1) i) = pdrv (entry s i) /\
               data (entry (reclaimed e s1) i) = data (entry s i) /\
               valid (entry (reclaimed e s1) i) =
                 (if Nat.eqb i e then false else valid (entry s i)) /\
               dirty (entry (reclaimed e s1) i) =
                 (if Nat.eqb i e then false else dirty (entry s i))) as FF.
  { intros i. unfold reclaimed. fold s2.
    rewrite !entry_upd_in by (rewrite ?length_upd_entry; congruence).
    destruct (C6 i) as (D1 & D2 & D3 & D4 & _ & D6).
    destruct (B8 i) as (E2 & E3 & E4 & E5 & _ & _ & E8).
    destruct (Nat.eqb i e); simpl; repeat split; congruence. }
  assert (s_dirty_blocks (reclaimed e s1) = s_dirty_blocks s) as HD.
  { unfold reclaimed. cbn [s_dirty_blocks upd_entry set_cache]. fold s2. congruence. }
  assert (s_evict_error (reclaimed e s1) = s_evict_error s) as HE.
  { unfold reclaimed. cbn [s_evict_error upd_entry set_cache]. fold s2. congruence. }
  set (s4 := reclaimed e s1) in *.
  destruct SL as (L1 & L2 & L3 & L4 & L5 & L6).
  assert (length (s_cache s4) = length (s_cache s)) as Hlen4 by congruence.
  assert (forall i, hkey s4 i = hkey s i) as Hk.
  { intros i. unfold hkey. destruct (FF i) as (-> & -> & _). reflexivity. }
  assert (forall i, hash_next (nth i (s_cache s4) entry0) =
                    hash_next (nth i (s_cache s1) entry0)) as Hn4.
  { intros i. fold (entry s4 i). fold (entry s1 i).
    destruct (L6 i) as (_ & _ & -> & _). apply (C6 i). }
  assert (forall i, In i (B (hkey s e)) -> In i L) as HBL
      by (intros i Hi; eapply (rep_bucket_key R); eauto).
  split; [|split; [rewrite <- (rep_len R); exact Hlt|auto]].
  constructor.
  - rewrite Hlen4. apply R.
  - rewrite L2, C2, B2. apply R.
  - rewrite L5, C4, B6.
    apply chain_frame with (c := s_cache s); auto; [|apply R].
    intros i Hi. rewrite Hn4. apply Hn. intros Hi'.
    apply (rep_disj R _ Hi). auto.
  - apply lru_rep_frame with (s := s2); auto.
    intros i _. destruct (L6 i) as (_ & _ & _ & -> & ->). auto.
  - intros h Hh. rewrite L2, C2. unfold set_bucket.
    destruct (Nat.eqb_spec h (hkey s e)) as [->|Hne].
    + apply chain_frame with (c := s_cache s1); auto. congruence.
    + rewrite Ht by exact Hne.
      apply chain_frame with (c := s_cache s); auto; [|now apply R].
      intros i Hi. rewrite Hn4. apply Hn. intros Hi'.
      destruct (rep_bucket_key R _ _ Hi) as [K1 _].
      destruct (rep_bucket_key R _ _ Hi') as [K2 _]. congruence.
  - intros h i. rewrite Hk, in_del. unfold set_bucket.
    destruct (Nat.eqb_spec h (hkey s e)) as [->|Hne]; intros Hi.
    + apply in_del in Hi. destruct Hi as [Hi Hie].
      destruct (rep_bucket_key R _ _ Hi). tauto.
    + destruct (rep_bucket_key R _ _ Hi) as [K1 K2].
      repeat split; auto. intros ->. congruence.
  - intros i Hi. apply in_del in Hi. destruct Hi as [Hi Hie].
    rewrite Hk. unfold set_bucket. pose proof (rep_lru_bucket R _ Hi) as Hbi.
    destruct (Nat.eqb_spec (hkey s i) (hkey s e)) as [E|]; [|exact Hbi].
    apply in_del. split; [|exact Hie]. now rewrite <- E.
  - intros i Hi Hl. apply in_del in Hl. revert Hl. intros [Hl _]. revert Hl.
    now apply (rep_disj R).
  - intros i Hi Hv. destruct (FF i) as (_ & _ & _ & Ev & _). rewrite Ev in Hv.
    apply in_del. destruct (Nat.eqb_spec i e); [discriminate|].
    split; auto. now apply (rep_valid R).
  - intros i Hd. destruct (FF i) as (_ & _ & _ & -> & Ed). rewrite Ed in Hd.
    destruct (Nat.eqb i e); [discriminate|]. now apply (rep_dirty R).
  - intros i j Hi Hj Hvi Hvj.
    destruct (FF i) as (-> & -> & _ & Evi & _). destruct (FF j) as (-> & -> & _ & Evj & _).
    rewrite Evi in Hvi. rewrite Evj in Hvj.
    destruct (Nat.eqb i e); [discriminate|]. destruct (Nat.eqb j e); [discriminate|].
    now apply (rep_uniq R).
Qed.


(** ** Lookup under the invariant *)

Lemma key_match_true (x : cache_entry) (p sec : Z) :
  key_match x p sec = true <-> valid x = true /\ sector x = sec /\ pdrv x = p.
Proof.
  unfold key_match. rewrite !andb_true_iff, !Z.eqb_eq. tauto.
Qed.

Lemma rep_lookup (s : cache_state) (F L : list nat) (B : nat -> list nat) (p sec : Z) :
  cache_rep s F L B ->
  hash_lookup s p sec =
  Some (find (fun i => key_match (entry s i) p sec) (B (hash_key p sec))).
Proof.
  intros R. apply hash_lookup_spec; [apply R|].
  apply (rep_bucket R). apply hash_key_lt.
Qed.

Lemma rep_lookup_hit (s : cache_state) (F L : list nat) (B : nat -> list nat)
      (p sec : Z) (e : nat) :
  cache_rep s F L B -> hash_lookup s p sec = Some (Some e) ->
  In e L /\ e < CACHE_SIZE /\ valid (entry s e) = true /\
  sector (entry s e) = sec /\ pdrv (entry s e) = p.
Proof.
  intros R H. rewrite (rep_lookup p sec R) in H. inversion H as [H'].
  apply find_some in H'. destruct H' as [Hi Hm].
  apply key_match_true in Hm.
  destruct (rep_bucket_key R _ _ Hi) as [_ HL].
  repeat split; try tauto.
  rewrite <- (rep_len R). apply (@lru_rep_in_bound s L e (rep_lru R) HL).
Qed.

Lemma rep_lookup_miss (s : cache_state) (F L : list nat) (B : nat -> list nat)
      (p sec : Z) :
  cache_rep s F L B -> hash_lookup s p sec = Some None ->
  forall i, i < CACHE_SIZE -> valid (entry s i) = true ->
            sector (entry s i) = sec -> pdrv (entry s i) = p -> False.
Proof.
  intros R H i Hi Hv Hs Hp. rewrite (rep_lookup p sec R) in H. inversion H as [H'].
  pose proof (rep_lru_bucket R _ (rep_valid R Hi Hv)) as Hb.
  unfold hkey in Hb. rewrite Hs, Hp in Hb.
  pose proof (find_none _ _ H' _ Hb) as Hm. simpl in Hm.
  assert (key_match (entry s i) p sec = true) by (apply key_match_true; auto).
  congruence.
Qed.

(** When the key is cached, the lookup finds its slot. *)
Lemma rep_lookup_cached (s : cache_state) (F L : list nat) (B : nat -> list nat)
      (i : nat) :
  cache_rep s F L B -> i < CACHE_SIZE -> valid (entry s i) = true ->
  hash_lookup s (pdrv (entry s i)) (sector (entry s i)) = Some (Some i).
Proof.
  intros R Hi Hv. rewrite (rep_lookup _ _ R).
  destruct (find _ _) as [j|] eqn:E.
  - apply find_some in E. destruct E as [Hj Hm]. apply key_match_true in Hm.
    destruct Hm as (Hvj & Hs & Hp). do 2 f_equal.
    apply (rep_uniq R); auto.
    destruct (rep_bucket_key R _ _ Hj) as [_ HL].
    rewrite <- (rep_len R). apply (@lru_rep_in_bound s L j (rep_lru R) HL).
  - exfalso. pose proof (rep_lru_bucket R _ (rep_valid R Hi Hv)) as Hb.
    pose proof (find_none _ _ E _ Hb) as Hm. simpl in Hm.
    assert (key_match (entry s i) (pdrv (entry s i)) (sector (entry s i)) = true)
      by (apply key_match_true; auto).
    congruence.
Qed.

(** ** Obtaining a slot *)

Lemma world_eta (w : world) : mkWorld (cache w) (dev w) (io_log w) = w.
Proof. destruct w; reflexivity. Qed.

Lemma rep_set_evict_error (s : cache_state) (F L : list nat) (B : nat -> list nat)
      (r : DRESULT) :
  cache_rep s F L B -> cache_rep (set_evict_error r s) F L B.
Proof. intros R. constructor; apply R. Qed.

Lemma rep_set_dirty_blocks (s : cache_state) (F L : list nat) (B : nat -> list nat)
      (b : bool) :
  cache_rep s F L B -> cache_rep (set_dirty_blocks b s) F L B.
Proof. intros R. constructor; apply R. Qed.

Lemma obtain_free (w : world) (f : nat) (F L : list nat) (B : nat -> list nat) :
  cache_rep (cache w) (f :: F) L B ->
  obtain_entry w =
  Some (Some f, mkWorld (set_free_head (hash_next (entry (cache w) f)) (cache w))
                        (dev w) (io_log w)).
Proof.
  intros R. unfold obtain_entry.
  destruct (rep_free_get_cons R) as (-> & _). reflexivity.
Qed.

Lemma obtain_evict (w : world) (L : list nat) (B : nat -> list nat) :
  cache_rep (cache w) [] L B -> obtain_entry w = evict_entry w.
Proof.
  intros R. unfold obtain_entry. rewrite (rep_free_get_nil R), world_eta. reflexivity.
Qed.

Lemma rep_tail (s : cache_state) (F L : list nat) (B : nat -> list nat) :
  cache_rep s F L B -> s_lru_tail s = hd_error (rev L).
Proof. intros R. apply (rep_lru R). Qed.

Lemma evict_empty (w : world) :
  s_lru_tail (cache w) = None ->
  evict_entry w = Some (None, with_cache (set_evict_error RES_PARERR) w).
Proof. intros H. unfold evict_entry. now rewrite H. Qed.

Lemma evict_fail (w w1 : world) (e : nat) (r : DRESULT) :
  s_lru_tail (cache w) = Some e ->
  valid (entry (cache w) e) && dirty (entry (cache w) e) = true ->
  write_back e w = (r, w1) -> is_ok r = false ->
  evict_entry w = Some (None, with_cache (set_evict_error r) w1).
Proof.
  intros Ht Hd Hw Hr. unfold evict_entry. rewrite Ht, Hd, Hw, Hr. reflexivity.
Qed.

Lemma evict_clean (w : world) (e : nat) (s1 : cache_state) :
  s_lru_tail (cache w) = Some e ->
  valid (entry (cache w) e) && dirty (entry (cache w) e) = false ->
  hash_remove e (cache w) = Some s1 ->
  evict_entry w = Some (Some e, mkWorld (reclaimed e s1) (dev w) (io_log w)).
Proof.
  intros Ht Hd Hr. unfold evict_entry. rewrite Ht, Hd, Hr. reflexivity.
Qed.

Lemma evict_dirty (w w1 : world) (e : nat) (r : DRESULT) (s1 : cache_state) :
  s_lru_tail (cache w) = Some e ->
  valid (entry (cache w) e) && dirty (entry (cache w) e) = true ->
  write_back e w = (r, w1) -> is_ok r = true ->
  hash_remove e (set_evict_error r (cache w1)) = Some s1 ->
  evict_entry w = Some (Some e, mkWorld (reclaimed e s1) (dev w1) (io_log w1)).
Proof.
  intros Ht Hd Hw Hr Hh. unfold evict_entry. rewrite Ht, Hd, Hw, Hr.
  unfold with_cache. simpl. rewrite Hh. reflexivity.
Qed.

Lemma write_back_cache (i : nat) (w w1 : world) (r : DRESULT) :
  write_back i w = (r, w1) ->
  cache w1 = cache w /\
  (r, dev w1) = disk_write_no_cache (dev w) (pdrv (entry (cache w) i))
                                    (data (entry (cache w) i))
                                    (sector (entry (cache w) i)) /\
  io_log w1 = io_log w ++ [IoWrite (pdrv (entry (cache w) i)) (sector (entry (cache w) i))
                                   (data (entry (cache w) i)) r].
Proof.
  unfold write_back. destruct (disk_write_no_cache _ _ _ _) as [r' d'].
  intros H. inversion H; subst. simpl. auto.
Qed.


Lemma del_last (l : list nat) (e : nat) : NoDup (l ++ [e]) -> del e (l ++ [e]) = l.
Proof.
  intros ND. rewrite del_app.
  assert (del e [e] = []) as -> by (unfold del; simpl; now rewrite Nat.eqb_refl).
  rewrite app_nil_r. apply del_notin.
  intros H. apply NoDup_remove_2 in ND. apply ND. rewrite app_nil_r. exact H.
Qed.

Lemma rev_cons_last (l r : list nat) (e : nat) : rev l = e :: r -> l = rev r ++ [e].
Proof.
  intros H. rewrite <- (rev_involutive l), H. reflexivity.
Qed.


Lemma obtain_free_spec (w : world) (f : nat) (F L : list nat) (B : nat -> list nat) :
  cache_rep (cache w) (f :: F) L B ->
  exists w1,
    obtain_entry w = Some (Some f, w1) /\
    cache_rep (cache w1) F L B /\ detached (cache w1) F L f /\
    s_cache (cache w1) = s_cache (cache w) /\
    s_dirty_blocks (cache w1) = s_dirty_blocks (cache w) /\
    dev w1 = dev w /\ io_log w1 = io_log w.
Proof.
  intros R. rewrite (@obtain_free _ _ _ _ _ R).
  destruct (@rep_free_get_cons _ _ _ _ _ R) as (_ & R1 & H1 & H2 & H3 & H4).
  eexists. split; [reflexivity|]. simpl. unfold detached. auto 10.
Qed.

Lemma obtain_none_spec (w : world) (B : nat -> list nat) :
  cache_rep (cache w) [] [] B ->
  obtain_entry w = Some (None, with_cache (set_evict_error RES_PARERR) w).
Proof.
  intros R. rewrite (@obtain_evict _ _ _ R). apply evict_empty.
  rewrite (@rep_tail _ _ _ _ R). reflexivity.
Qed.

Lemma obtain_evict_spec (w : world) (L0 : list nat) (e : nat) (B : nat -> list nat)
      (r : DRESULT) (w0 : world) :
  cache_rep (cache w) [] (L0 ++ [e]) B ->
  (if valid (entry (cache w) e) && dirty (entry (cache w) e)
   then write_back e w else (RES_OK, w)) = (r, w0) ->
  if is_ok r then
    exists w1,
      obtain_entry w = Some (Some e, w1) /\
      cache_rep (cache w1) [] L0
                (set_bucket (hkey (cache w) e) (del e (B (hkey (cache w) e))) B) /\
      detached (cache w1) [] L0 e /\
      s_dirty_blocks (cache w1) = s_dirty_blocks (cache w) /\
      dev w1 = dev w0 /\ io_log w1 = io_log w0 /\
      (forall i, sector (entry (cache w1) i) = sector (entry (cache w) i) /\
                 pdrv (entry (cache w1) i) = pdrv (entry (cache w) i) /\
                 data (entry (cache w1) i) = data (entry (cache w) i) /\
                 valid (entry (cache w1) i) =
                   (if Nat.eqb i e then false else valid (entry (cache w) i)) /\
                 dirty (entry (cache w1) i) =
                   (if Nat.eqb i e then false else dirty (entry (cache w) i)))
  else
    obtain_entry w = Some (None, with_cache (set_evict_error r) w0).
Proof.
  intros R Hw. rewrite (@obtain_evict _ _ _ R).
  assert (s_lru_tail (cache w) = Some e) as Ht.
  { rewrite (@rep_tail _ _ _ _ R), rev_app_distr. reflexivity. }
  assert (NoDup (L0 ++ [e])) as ND by apply (rep_lru R).
  assert (In e (L0 ++ [e])) as He by (rewrite in_app_iff; simpl; auto).
  destruct (valid (entry (cache w) e) && dirty (entry (cache w) e)) eqn:Ed.
  - destruct (@write_back_cache _ _ _ _ Hw) as (Ec & _ & _).
    destruct (is_ok r) eqn:Er.
    + assert (cache_rep (set_evict_error r (cache w0)) [] (L0 ++ [e]) B) as R'.
      { rewrite Ec. now apply rep_set_evict_error. }
      destruct (@rep_reclaim _ _ _ _ _ R' He) as (s1 & E1 & R1 & Hlt & HD & HE & FF).
      rewrite (@evict_dirty _ _ _ _ _ Ht Ed Hw Er E1).
      eexists. split; [reflexivity|]. cbn [cache dev io_log].
      rewrite del_last in R1 by exact ND.
      assert (hkey (set_evict_error r (cache w0)) e = hkey (cache w) e) as Hk
          by (rewrite Ec; reflexivity).
      rewrite Hk in R1.
      split; [exact R1|]. split; [|split; [|split; [|split]]]; auto.
      * unfold detached. repeat split; auto.
        -- intros Hi. apply NoDup_remove_2 in ND. rewrite app_nil_r in ND. auto.
        -- destruct (FF e) as (_ & _ & _ & -> & _). now rewrite Nat.eqb_refl.
      * rewrite HD, Ec. reflexivity.
      * intros i. destruct (FF i) as (F1 & F2 & F3 & F4 & F5).
        rewrite F1, F2, F3, F4, F5, Ec. auto.
    + eapply evict_fail; eauto.
  - inversion Hw; subst. simpl.
    destruct (@rep_reclaim _ _ _ _ _ R He) as (s1 & E1 & R1 & Hlt & HD & HE & FF).
    rewrite (@evict_clean _ _ _ Ht Ed E1).
    eexists. split; [reflexivity|]. cbn [cache dev io_log].
    rewrite del_last in R1 by exact ND.
    split; [exact R1|]. split; [|split; [|split; [|split]]]; auto.
    unfold detached. repeat split; auto.
    + intros Hi. apply NoDup_remove_2 in ND. rewrite app_nil_r in ND. auto.
    + destruct (FF e) as (_ & _ & _ & -> & _). now rewrite Nat.eqb_refl.
Qed.


Lemma hash_insert_but_hash (e : nat) (s : cache_state) : same_but_hash s (hash_insert e s).
Proof.
  unfold hash_insert.
  eapply same_but_hash_trans; [apply upd_entry_but_hash, hash_setter_next|].
  apply set_hash_table_but_hash. now rewrite upd_length.
Qed.

Lemma store_link_but_hash (pp : link) (v : ptr) (s : cache_state) :
  same_but_hash s (store_link pp v s).
Proof.
  destruct pp; simpl.
  - apply set_hash_table_but_hash. now rewrite upd_length.
  - apply upd_entry_but_hash, hash_setter_next.
Qed.

Lemma hash_remove_loop_but_hash (fuel : nat) (s s' : cache_state) (pp : link) (e : nat) :
  hash_remove_loop fuel s pp e = Some s' -> same_but_hash s s'.
Proof.
  revert pp. induction fuel as [|fuel IH]; intros pp; simpl.
  - destruct (load_link s pp); [discriminate|].
    intros H; inversion H; subst. apply same_but_hash_refl.
  - destruct (load_link s pp) as [i|].
    + destruct (Nat.eqb i e).
      * intros H; inversion H; subst.
        eapply same_but_hash_trans; [apply store_link_but_hash|].
        apply upd_entry_but_hash, hash_setter_next.
      * apply IH.
    + intros H; inversion H; subst. apply same_but_hash_refl.
Qed.

Lemma hash_remove_but_hash (e : nat) (s s' : cache_state) :
  hash_remove e s = Some s' -> same_but_hash s s'.
Proof. apply hash_remove_loop_but_hash. Qed.

Lemma write_fill_entry (f : nat) (p sec : Z) (in_data : block) (s : cache_state) (i : nat) :
  f < length (s_cache s) ->
  entry (write_fill f p sec in_data s) i =
  if Nat.eqb i f
  then mkEntry sec p true true (hash_next (entry s f)) (lru_prev (entry s f))
               (lru_next (entry s f)) (memcpy (data (entry s f)) in_data BLOCK_SIZE)
  else entry s i.
Proof.
  intros Hf. unfold write_fill.
  change (entry (set_dirty_blocks true ?s) i) with (entry s i).
  rewrite !entry_upd_in by (rewrite ?length_upd_entry; exact Hf).
  destruct (Nat.eqb_spec i f) as [->|]; reflexivity.
Qed.

Lemma read_fill_entry (f : nat) (p sec : Z) (buf : block) (s : cache_state) (i : nat) :
  f < length (s_cache s) ->
  entry (read_fill f p sec buf s) i =
  if Nat.eqb i f
  then mkEntry sec p false true (hash_next (entry s f)) (lru_prev (entry s f))
               (lru_next (entry s f)) buf
  else entry s i.
Proof.
  intros Hf. unfold read_fill.
  rewrite !entry_upd_in by (rewrite ?length_upd_entry; exact Hf).
  destruct (Nat.eqb_spec i f) as [->|]; reflexivity.
Qed.

Lemma rekeyed_intro (s s' : cache_state) (f : nat) (p sec : Z) (d : bool) (b : block) :
  length (s_cache s') = length (s_cache s) ->
  s_hash_table s' = s_hash_table s ->
  s_lru_head s' = s_lru_head s ->
  s_lru_tail s' = s_lru_tail s ->
  s_free_head s' = s_free_head s ->
  (forall i, entry s' i =
             if Nat.eqb i f
             then mkEntry sec p d true (hash_next (entry s f)) (lru_prev (entry s f))
                          (lru_next (entry s f)) b
             else entry s i) ->
  rekeyed s s' f p sec.
Proof.
  intros H1 H2 H3 H4 H5 H6. unfold rekeyed.
  repeat split; auto.
  - rewrite H6. destruct (Nat.eqb_spec i f) as [->|]; reflexivity.
  - rewrite H6. destruct (Nat.eqb_spec i f) as [->|]; reflexivity.
  - rewrite H6. destruct (Nat.eqb_spec i f) as [->|]; reflexivity.
  - rewrite H6. apply Nat.eqb_neq in H. now rewrite H.
  - rewrite H6. apply Nat.eqb_neq in H. now rewrite H.
  - rewrite H6. apply Nat.eqb_neq in H. now rewrite H.
  - rewrite H6. apply Nat.eqb_neq in H. now rewrite H.
  - rewrite H6. apply Nat.eqb_neq in H. now rewrite H.
  - rewrite H6, Nat.eqb_refl. reflexivity.
  - rewrite H6, Nat.eqb_refl. reflexivity.
  - rewrite H6, Nat.eqb_refl. reflexivity.
Qed.

Lemma write_fill_rekeyed (f : nat) (p sec : Z) (in_data : block) (s : cache_state) :
  f < length (s_cache s) -> rekeyed s (write_fill f p sec in_data s) f p sec.
Proof.
  intros Hf. eapply rekeyed_intro; try reflexivity.
  - unfold write_fill. simpl. now rewrite !upd_length.
  - intros i. now apply write_fill_entry.
Qed.

Lemma read_fill_rekeyed (f : nat) (p sec : Z) (buf : block) (s : cache_state) :
  f < length (s_cache s) -> rekeyed s (read_fill f p sec buf s) f p sec.
Proof.
  intros Hf. eapply rekeyed_intro; try reflexivity.
  - unfold read_fill. simpl. now rewrite !upd_length.
  - intros i. now apply read_fill_entry.
Qed.

Lemma installed_fields (f : nat) (sa : cache_state) :
  s_dirty_blocks (installed f sa) = s_dirty_blocks sa /\
  s_evict_error (installed f sa) = s_evict_error sa /\
  length (s_cache (installed f sa)) = length (s_cache sa) /\
  forall i, sector (entry (installed f sa) i) = sector (entry sa i) /\
            pdrv (entry (installed f sa) i) = pdrv (entry sa i) /\
            valid (entry (installed f sa) i) = valid (entry sa i) /\
            dirty (entry (installed f sa) i) = dirty (entry sa i) /\
            data (entry (installed f sa) i) = data (entry sa i).
Proof.
  unfold installed.
  destruct (hash_insert_but_hash f sa) as (B1 & B2 & B3 & B4 & B5 & B6 & B7 & B8).
  destruct (lru_insert_front_core f (hash_insert f sa)) as (C1 & C2 & C3 & C4 & C5 & C6).
  repeat split; try congruence;
    destruct (B8 i) as (? & ? & ? & ? & ? & ? & ?);
    destruct (C6 i) as (? & ? & ? & ? & ? & ?); congruence.
Qed.

(** ** The public functions, case by case *)

Lemma write_hit_eq (p sec : Z) (in_data : block) (w : world) (e : nat) :
  hash_lookup (cache w) p sec = Some (Some e) ->
  block_cache_write_block p sec in_data w =
  Some (RES_OK,
        mkWorld (lru_touch e
                   (set_dirty_blocks true
                      (upd_entry e (set_dirty true)
                         (upd_entry e
                            (fun x => set_data (memcpy (data x) in_data BLOCK_SIZE) x)
                            (cache w)))))
                (dev w) (io_log w)).
Proof. intros H. unfold block_cache_write_block. rewrite H. reflexivity. Qed.

Lemma write_miss_eq (p sec : Z) (in_data : block) (w w1 : world) (f : nat) :
  hash_lookup (cache w) p sec = Some None ->
  obtain_entry w = Some (Some f, w1) ->
  block_cache_write_block p sec in_data w =
  Some (RES_OK,
        mkWorld (installed f (write_fill f p sec in_data (cache w1))) (dev w1) (io_log w1)).
Proof. intros H1 H2. unfold block_cache_write_block. rewrite H1, H2. reflexivity. Qed.

Lemma write_fail_eq (p sec : Z) (in_data : block) (w w1 : world) :
  hash_lookup (cache w) p sec = Some None ->
  obtain_entry w = Some (None, w1) ->
  block_cache_write_block p sec in_data w = Some (s_evict_error (cache w1), w1).
Proof. intros H1 H2. unfold block_cache_write_block. rewrite H1, H2. reflexivity. Qed.

Lemma read_hit_eq (p sec : Z) (out_data : option block) (w : world) (e : nat) :
  hash_lookup (cache w) p sec = Some (Some e) ->
  block_cache_read_block p sec out_data w =
  Some (RES_OK, copy_out out_data (entry (lru_touch e (cache w)) e),
        mkWorld (lru_touch e (cache w)) (dev w) (io_log w)).
Proof. intros H. unfold block_cache_read_block. rewrite H. reflexivity. Qed.

Lemma read_fail_eq (p sec : Z) (out_data : option block) (w w1 : world) :
  hash_lookup (cache w) p sec = Some None ->
  obtain_entry w = Some (None, w1) ->
  block_cache_read_block p sec out_data w =
  Some (s_evict_error (cache w1), out_data, w1).
Proof. intros H1 H2. unfold block_cache_read_block. rewrite H1, H2. reflexivity. Qed.

Lemma read_miss_eq (p sec : Z) (out_data : option block) (w w1 : world) (f : nat)
      (result : DRESULT) (buf : block) (d' : Dev) :
  hash_lookup (cache w) p sec = Some None ->
  obtain_entry w = Some (Some f, w1) ->
  disk_read_no_cache (dev w1) p (data (entry (cache w1) f)) sec = (result, buf, d') ->
  block_cache_read_block p sec out_data w =
  if is_ok result then
    Some (RES_OK,
          copy_out out_data (entry (installed f (read_fill f p sec buf (cache w1))) f),
          mkWorld (installed f (read_fill f p sec buf (cache w1))) d'
                  (io_log w1 ++ [IoRead p sec result]))
  else
    Some (result, out_data,
          mkWorld (upd_entry f (set_data buf) (cache w1)) d'
                  (io_log w1 ++ [IoRead p sec result])).
Proof.
  intros H1 H2 H3. unfold block_cache_read_block. rewrite H1, H2, H3.
  destruct (is_ok result); reflexivity.
Qed.


Lemma is_ok_true (r : DRESULT) : is_ok r = true <-> r = RES_OK.
Proof. destruct r; simpl; split; intros H; try discriminate; reflexivity. Qed.

Lemma list_last_cases (l : list nat) : l = [] \/ exists l0 e, l = l0 ++ [e].
Proof.
  destruct (rev l) as [|e r] eqn:E.
  - left. apply (f_equal (@rev nat)) in E. now rewrite rev_involutive in E.
  - right. exists (rev r), e. now apply rev_cons_last.
Qed.


Lemma obtain_cases (w : world) (F L : list nat) (B : nat -> list nat) :
  cache_rep (cache w) F L B ->
  (exists f w1 F1 L1 B1,
      obtain_entry w = Some (Some f, w1) /\
      cache_rep (cache w1) F1 L1 B1 /\ detached (cache w1) F1 L1 f /\
      s_dirty_blocks (cache w1) = s_dirty_blocks (cache w) /\
      (forall i, sector (entry (cache w1) i) = sector (entry (cache w) i) /\
                 pdrv (entry (cache w1) i) = pdrv (entry (cache w) i) /\
                 data (entry (cache w1) i) = data (entry (cache w) i)) /\
      (forall i, i <> f ->
                 valid (entry (cache w1) i) = valid (entry (cache w) i) /\
                 dirty (entry (cache w1) i) = dirty (entry (cache w) i)) /\
      obtained w F L f w1 F1 L1)
  \/
  (exists w1, obtain_entry w = Some (None, w1) /\ not_obtained w F L w1).
Proof.
  intros R. destruct F as [|f F].
  - destruct (list_last_cases L) as [->|(L0 & e & ->)].
    + right. eexists. split; [now apply (@obtain_none_spec w B)|].
      unfold not_obtained, with_cache. cbn [cache dev io_log s_cache s_hash_table
        s_dirty_blocks s_lru_head s_lru_tail s_free_head s_evict_error set_evict_error is_ok].
      repeat split; auto.
    + destruct (if valid (entry (cache w) e) && dirty (entry (cache w) e)
                then write_back e w else (RES_OK, w)) as [r w0] eqn:Hw.
      pose proof (@obtain_evict_spec w L0 e B r w0 R Hw) as H.
      destruct (is_ok r) eqn:Er.
      * left. destruct H as (w1 & E1 & R1 & D1 & HD & Hdev & Hlog & FF).
        exists e, w1, [], L0. eexists. split; [exact E1|]. split; [exact R1|].
        split; [exact D1|]. split; [exact HD|].
        split; [intros i; destruct (FF i) as (? & ? & ? & _); auto|].
        split.
        { intros i Hi. destruct (FF i) as (_ & _ & _ & -> & ->).
          apply Nat.eqb_neq in Hi. rewrite Hi. auto. }
        right. split; [reflexivity|]. split; [reflexivity|]. split; [reflexivity|].
        split; [intros i; destruct (FF i) as (_ & _ & _ & ? & ?); auto|].
        apply is_ok_true in Er. subst r.
        destruct (valid (entry (cache w) e) && dirty (entry (cache w) e)).
        -- destruct (@write_back_cache _ _ _ _ Hw) as (_ & Hd & Hl).
           rewrite Hdev, Hlog. auto.
        -- inversion Hw; subst. auto.
      * right. eexists. split; [exact H|].
        destruct (valid (entry (cache w) e) && dirty (entry (cache w) e)) eqn:Ed;
          [|inversion Hw; subst; discriminate Er].
        destruct (@write_back_cache _ _ _ _ Hw) as (Ec & Hd & Hl).
        unfold not_obtained, with_cache. cbn [cache dev io_log s_cache s_hash_table
          s_dirty_blocks s_lru_head s_lru_tail s_free_head s_evict_error set_evict_error].
        rewrite Ec.
        repeat split; auto. right. exists e.
        apply andb_true_iff in Ed. destruct Ed as [Ev Ed].
        repeat split; auto.
        rewrite (@rep_tail _ _ _ _ R), rev_app_distr. reflexivity.
  - left. destruct (@obtain_free_spec w f F L B R)
      as (w1 & E1 & R1 & D1 & Hc & HD & Hdev & Hlog).
    exists f, w1, F, L, B. split; [exact E1|]. split; [exact R1|].
    split; [exact D1|]. split; [exact HD|].
    assert (forall i, entry (cache w1) i = entry (cache w) i) as He
        by (intros i; unfold entry; now rewrite Hc).
    split; [intros i; now rewrite He|]. split; [intros i _; now rewrite He|].
    left. auto.
Qed.


(** ** One access, case by case *)


Lemma installed_fill_fields (s1 sa : cache_state) (f : nat) (p sec : Z) (d : bool)
      (b : block) :
  (forall i, entry sa i =
             if Nat.eqb i f
             then mkEntry sec p d true (hash_next (entry s1 f)) (lru_prev (entry s1 f))
                          (lru_next (entry s1 f)) b
             else entry s1 i) ->
  slots_kept_except s1 (installed f sa) f /\
  sector (entry (installed f sa) f) = sec /\ pdrv (entry (installed f sa) f) = p /\
  valid (entry (installed f sa) f) = true /\ dirty (entry (installed f sa) f) = d.
Proof.
  intros He. destruct (installed_fields f sa) as (_ & _ & _ & FF).
  split; [|pose proof (He f) as Hf; rewrite Nat.eqb_refl in Hf;
           destruct (FF f) as (-> & -> & -> & -> & _); rewrite Hf; auto].
  intros i Hi. destruct (FF i) as (-> & -> & -> & -> & _).
  rewrite He. apply Nat.eqb_neq in Hi. rewrite Hi. auto.
Qed.

Lemma install_step (s1 sa : cache_state) (F1 L1 : list nat) (B1 : nat -> list nat)
      (f : nat) (p sec : Z) :
  cache_rep s1 F1 L1 B1 -> detached s1 F1 L1 f -> rekeyed s1 sa f p sec ->
  (forall i, i < CACHE_SIZE -> valid (entry s1 i) = true ->
             sector (entry s1 i) = sec -> pdrv (entry s1 i) = p -> False) ->
  cache_rep (installed f sa) F1 (f :: L1)
            (set_bucket (hash_key p sec) (f :: B1 (hash_key p sec)) B1).
Proof.
  intros R1 (D1 & D2 & D3 & D4) Hr Hnew.
  apply rep_install with (s := s1); auto.
  intros i Hi Hv Hs Hp. exfalso. eauto.
Qed.

(** After a miss, no valid slot holds the key in the state the slot was
    obtained in either. *)
Lemma miss_after_obtain (w w1 : world) (F L F1 L1 : list nat) (B : nat -> list nat)
      (f : nat) (p sec : Z) :
  cache_rep (cache w) F L B ->
  hash_lookup (cache w) p sec = Some None ->
  detached (cache w1) F1 L1 f ->
  keys_kept (cache w) (cache w1) ->
  flags_kept_except (cache w) (cache w1) f ->
  forall i, i < CACHE_SIZE -> valid (entry (cache w1) i) = true ->
            sector (entry (cache w1) i) = sec -> pdrv (entry (cache w1) i) = p -> False.
Proof.
  intros R Hl (D1 & D2 & D3 & D4) Hk Hf i Hi Hv Hs Hp.
  destruct (Nat.eq_dec i f) as [->|Hne]; [congruence|].
  destruct (Hk i) as [Ks Kp]. destruct (Hf i Hne) as [Kv _].
  apply (@rep_lookup_miss _ _ _ _ _ _ R Hl i); auto; congruence.
Qed.

Lemma access_cases (o : op) (p sec : Z) (w : world) (F L : list nat)
      (B : nat -> list nat) :
  cache_rep (cache w) F L B -> op_key o = Some (p, sec) ->
  hit_case o p sec w F L B \/ fill_case o p sec w F L \/
  stuck_case o p sec w F L B \/ read_failed_case o p sec w F L.
Proof.
  intros R Hk.
  destruct (hash_lookup (cache w) p sec) as [[e|]|] eqn:Hl;
    [| |rewrite (@rep_lookup _ _ _ _ p sec R) in Hl; discriminate Hl].
  - (* hit *)
    left. destruct (@rep_lookup_hit _ _ _ _ _ _ _ R Hl) as (HeL & Hlt & Hv & Hs & Hp).
    destruct o as [|p' sec' out|p' sec' d|fa ia]; simpl in Hk; inversion Hk; subst p' sec'.
    + pose proof (lru_touch_core e (cache w)) as (C1 & C2 & C3 & C4 & C5 & C6).
      exists e, (mkWorld (lru_touch e (cache w)) (dev w) (io_log w)).
      split; [exact Hl|]. split; [simpl; now rewrite (@read_hit_eq p sec out w e Hl)|].
      cbn [cache dev io_log is_write_op orb].
      split; [now apply rep_lru_touch|].
      repeat split; auto.
      * apply (C6 i).
      * apply (C6 i).
      * destruct (C6 i) as (_ & _ & _ & -> & _). reflexivity.
      * destruct (C6 i) as (_ & _ & -> & _). reflexivity.
      * destruct (C6 e) as (_ & _ & _ & -> & _). exact Hv.
      * apply (C6 e).
    + set (sa := set_dirty_blocks true
                   (upd_entry e (set_dirty true)
                      (upd_entry e
                         (fun x => set_data (memcpy (data x) d BLOCK_SIZE) x) (cache w)))).
      assert (e < length (s_cache (cache w))) as Hlen by (rewrite (rep_len R); exact Hlt).
      assert (forall i, entry sa i =
                        if Nat.eqb i e
                        then set_dirty true
                               (set_data (memcpy (data (entry (cache w) i)) d BLOCK_SIZE)
                                         (entry (cache w) i))
                        else entry (cache w) i) as Ea.
      { intros i. unfold sa.
        change (entry (set_dirty_blocks true ?s) i) with (entry s i).
        rewrite !entry_upd_in by (rewrite ?length_upd_entry; exact Hlen).
        destruct (Nat.eqb i e); reflexivity. }
      assert (cache_rep sa F L B) as Ra.
      { apply rep_flags with (s := cache w); auto.
        - unfold same_links. unfold sa. simpl. rewrite !upd_length.
          repeat split; auto; fold sa; rewrite Ea; destruct (Nat.eqb i e); reflexivity.
        - intros i. rewrite Ea. destruct (Nat.eqb i e); auto.
        - intros i. rewrite Ea. destruct (Nat.eqb_spec i e) as [->|]; simpl.
          + intros _. exact Hv.
          + apply (rep_dirty R). }
      pose proof (lru_touch_core e sa) as (C1 & C2 & C3 & C4 & C5 & C6).
      exists e, (mkWorld (lru_touch e sa) (dev w) (io_log w)).
      split; [exact Hl|]. split; [simpl; now rewrite (@write_hit_eq p sec d w e Hl)|].
      cbn [cache dev io_log is_write_op orb].
      split; [now apply rep_lru_touch|].
      repeat split; auto.
      * destruct (C6 i) as (-> & _). rewrite Ea. destruct (Nat.eqb i e); reflexivity.
      * destruct (C6 i) as (_ & -> & _). rewrite Ea. destruct (Nat.eqb i e); reflexivity.
      * destruct (C6 i) as (_ & _ & _ & -> & _). rewrite Ea.
        apply Nat.eqb_neq in H. now rewrite H.
      * destruct (C6 i) as (_ & _ & -> & _). rewrite Ea.
        apply Nat.eqb_neq in H. now rewrite H.
      * destruct (C6 e) as (_ & _ & _ & -> & _). rewrite Ea, Nat.eqb_refl. exact Hv.
      * destruct (C6 e) as (_ & _ & -> & _). rewrite Ea, Nat.eqb_refl. reflexivity.
  - (* miss *)
    right.
    destruct (@obtain_cases w F L B R)
      as [(f & w1 & F1 & L1 & B1 & E1 & R1 & D1 & HD & Hkeys & Hflags & Hob)
         |(w1 & E1 & Hn)].
    + assert (keys_kept (cache w) (cache w1)) as KK
          by (intros i; destruct (Hkeys i) as (? & ? & _); auto).
      pose proof (@miss_after_obtain w w1 F L F1 L1 B f p sec R Hl D1 KK Hflags) as Hnew.
      assert (f < length (s_cache (cache w1))) as Hlen
          by (rewrite (rep_len R1); apply D1).
      destruct o as [|p' sec' out|p' sec' d|fa ia]; simpl in Hk; inversion Hk; subst p' sec'.
      * destruct (disk_read_no_cache (dev w1) p (data (entry (cache w1) f)) sec)
          as [[result buf] d'] eqn:Hrd.
        pose proof (@read_miss_eq p sec out w w1 f result buf d' Hl E1 Hrd) as Heq.
        destruct (is_ok result) eqn:Er.
        -- left. apply is_ok_true in Er. subst result.
           destruct (@installed_fill_fields (cache w1) (read_fill f p sec buf (cache w1))
                       f p sec false buf) as (K1 & K2 & K3 & K4 & K5).
           { intros i. now apply read_fill_entry. }
           exists f, w1, (mkWorld (installed f (read_fill f p sec buf (cache w1))) d'
                                  (io_log w1 ++ [IoRead p sec RES_OK])), F1, L1.
           eexists. split; [exact Hl|]. split; [exact E1|]. split; [exact Hob|].
           split; [exact KK|]. split; [exact Hflags|].
           split; [simpl; now rewrite Heq|].
           cbn [cache dev io_log is_write_op orb].
           split; [apply install_step with (s1 := cache w1) (B1 := B1);
                   [exact R1|exact D1|now apply read_fill_rekeyed|exact Hnew]|].
           destruct D1 as (D1 & D2 & D3 & D4).
           split; [exact D1|]. split; [exact D2|]. split; [exact D3|].
           split; [exact K1|]. split; [exact K2|]. split; [exact K3|].
           split; [exact K4|]. split; [exact K5|]. split.
           ++ destruct (installed_fields f (read_fill f p sec buf (cache w1))) as (-> & _).
              exact HD.
           ++ exists buf. auto.
        -- right. right.
           exists f, w1, (mkWorld (upd_entry f (set_data buf) (cache w1)) d'
                                  (io_log w1 ++ [IoRead p sec result])), F1, L1, B1,
                  result, buf.
           split; [exact Hl|]. split; [exact E1|]. split; [exact Hob|].
           split; [exact KK|]. split; [exact Hflags|]. split; [reflexivity|].
           split; [exact Hrd|]. split; [exact Er|].
           split; [simpl; now rewrite Heq|].
           cbn [cache dev io_log]. split; [reflexivity|]. split; [reflexivity|].
           assert (forall i, valid (entry (upd_entry f (set_data buf) (cache w1)) i) =
                             valid (entry (cache w1) i) /\
                             dirty (entry (upd_entry f (set_data buf) (cache w1)) i) =
                             dirty (entry (cache w1) i)) as Hvd.
           { intros i. split; now apply entry_upd_field. }
           split.
           ++ apply rep_flags with (s := cache w1); auto.
              ** apply upd_entry_links, flag_setter_data.
              ** intros i. destruct (Hvd i) as [-> _]. auto.
              ** intros i. destruct (Hvd i) as [-> ->]. apply (rep_dirty R1).
           ++ destruct D1 as (D1 & D2 & D3 & D4). unfold detached.
              destruct (Hvd f) as [-> _]. auto.
      * left.
        destruct (@installed_fill_fields (cache w1) (write_fill f p sec d (cache w1))
                    f p sec true (memcpy (data (entry (cache w1) f)) d BLOCK_SIZE))
          as (K1 & K2 & K3 & K4 & K5).
        { intros i. now apply write_fill_entry. }
        exists f, w1, (mkWorld (installed f (write_fill f p sec d (cache w1)))
                               (dev w1) (io_log w1)), F1, L1.
        eexists. split; [exact Hl|]. split; [exact E1|]. split; [exact Hob|].
        split; [exact KK|]. split; [exact Hflags|].
        split; [simpl; now rewrite (@write_miss_eq p sec d w w1 f Hl E1)|].
        cbn [cache dev io_log is_write_op orb].
        split; [apply install_step with (s1 := cache w1) (B1 := B1);
                [exact R1|exact D1|now apply write_fill_rekeyed|exact Hnew]|].
        destruct D1 as (D1 & D2 & D3 & D4).
        split; [exact D1|]. split; [exact D2|]. split; [exact D3|].
        split; [exact K1|]. split; [exact K2|]. split; [exact K3|].
        split; [exact K4|]. split; [exact K5|]. split; [|auto].
        destruct (installed_fields f (write_fill f p sec d (cache w1))) as (-> & _).
        reflexivity.
    + right. left. exists w1.
      split; [exact Hl|]. split; [exact E1|]. split; [exact Hn|].
      split.
      * destruct o as [|p' sec' out|p' sec' d|fa ia]; simpl in Hk; inversion Hk;
          subst p' sec'; simpl.
        -- now rewrite (@read_fail_eq p sec out w w1 Hl E1).
        -- now rewrite (@write_fail_eq p sec d w w1 Hl E1).
      * destruct Hn as (N0 & N1 & N2 & N3 & N4 & N5 & N6 & _).
        assert (forall i, entry (cache w1) i = entry (cache w) i) as He
            by (intros i; unfold entry; now rewrite N1).
        apply rep_flags with (s := cache w); auto.
        -- unfold same_links. rewrite N1, N2, N4, N5, N6.
           repeat split; auto; now rewrite He.
        -- intros i. now rewrite He.
        -- intros i. rewrite He. apply (rep_dirty R).
Qed.


(** ** Initialisation *)

Lemma entry_repeat0 (s : cache_state) (n i : nat) :
  s_cache s = repeat entry0 n -> entry s i = entry0.
Proof.
  intros H. unfold entry. rewrite H.
  destruct (Nat.lt_ge_cases i n) as [Hlt|Hge].
  - now apply nth_repeat_lt.
  - apply nth_overflow. now rewrite repeat_length.
Qed.


Lemma free_insert_stage (s : cache_state) (k : nat) :
  init_stage s k -> k < CACHE_SIZE -> init_stage (free_insert k s) (S k).
Proof.
  intros (Hlen & Ht & Hh & Htl & Hc & Hv) Hk.
  assert (length (s_cache (free_insert k s)) = length (s_cache s)) as L2
      by (unfold free_insert; simpl; now rewrite !upd_length).
  assert (forall i, hash_next (entry (free_insert k s) i) =
                    (if Nat.eqb i k then s_free_head s else hash_next (entry s i)) /\
                    valid (entry (free_insert k s) i) = false /\
                    dirty (entry (free_insert k s) i) = false) as E2.
  { intros i. unfold free_insert.
    change (entry (set_free_head ?p ?x) i) with (entry x i).
    rewrite !entry_upd_in by (rewrite ?length_upd_entry; lia).
    destruct (Hv i) as [V D].
    destruct (Nat.eqb i k); simpl; auto. }
  unfold init_stage.
  split; [congruence|]. split; [exact Ht|]. split; [exact Hh|]. split; [exact Htl|].
  split; [|intros i; apply E2].
  rewrite seq_S, rev_app_distr.
  change (rev [0 + k] ++ rev (seq 0 k)) with (k :: rev (seq 0 k)).
  cbn [chain]. split; [reflexivity|]. split; [lia|].
  fold (entry (free_insert k s) k).
  destruct (E2 k) as [-> _]. rewrite Nat.eqb_refl.
  apply chain_frame with (c := s_cache s); [exact L2| |exact Hc].
  intros i Hi. apply in_rev, in_seq in Hi.
  fold (entry (free_insert k s) i). fold (entry s i).
  destruct (E2 i) as [-> _].
  destruct (Nat.eqb_spec i k); [lia|reflexivity].
Qed.

Lemma init_loop_stage (n : nat) (s : cache_state) :
  n <= CACHE_SIZE -> init_stage s 0 ->
  init_stage (fold_left (fun acc i => if valid (entry acc i) then acc
                                      else free_insert i acc) (seq 0 n) s) n.
Proof.
  intros Hn H0. induction n as [|n IH]; [exact H0|].
  rewrite seq_S, fold_left_app. simpl.
  specialize (IH ltac:(lia)).
  destruct IH as (Hlen & Ht & Hh & Htl & Hc & Hv).
  destruct (Hv n) as [-> _].
  apply free_insert_stage; [|lia]. unfold init_stage. auto 10.
Qed.

Lemma init_stage_rep (s : cache_state) (k : nat) :
  init_stage s k -> cache_rep s (rev (seq 0 k)) [] (fun _ => []).
Proof.
  intros (Hlen & Ht & Hh & Htl & Hc & Hv). constructor.
  - exact Hlen.
  - rewrite Ht. apply repeat_length.
  - exact Hc.
  - unfold lru_rep. simpl. repeat split; auto; try contradiction. constructor.
  - intros h Hlt. rewrite Ht, nth_repeat_lt by exact Hlt. reflexivity.
  - intros h i [].
  - intros i [].
  - intros i _ [].
  - intros i Hi Hvi. destruct (Hv i). congruence.
  - intros i Hd. destruct (Hv i). congruence.
  - intros i j Hi Hj Hvi. destruct (Hv i). congruence.
Qed.

(** [block_cache_init] on a state whose free-list head is NULL, as at
    start-up: every slot ends on the free list. *)
Lemma init_rep (s : cache_state) :
  s_free_head s = None ->
  cache_rep (block_cache_init s) (rev (seq 0 CACHE_SIZE)) [] (fun _ => []).
Proof.
  intros Hf. apply init_stage_rep. unfold block_cache_init.
  apply init_loop_stage; [lia|].
  unfold init_stage. simpl. rewrite repeat_length.
  repeat split; auto;
    rewrite (@entry_repeat0 _ CACHE_SIZE i) by reflexivity; reflexivity.
Qed.

Lemma init_dirty_blocks (s : cache_state) :
  s_dirty_blocks (block_cache_init s) = s_dirty_blocks s.
Proof.
  unfold block_cache_init.
  match goal with |- s_dirty_blocks (fold_left ?f ?l ?a) = _ =>
    assert (forall l' a', s_dirty_blocks (fold_left f l' a') = s_dirty_blocks a') as H
  end.
  { induction l' as [|x l' IH]; intros a'; simpl; [reflexivity|].
    rewrite IH. destruct (valid (entry a' x)); reflexivity. }
  rewrite H. reflexivity.
Qed.

Lemma init_clean (s : cache_state) (i : nat) :
  dirty (entry (block_cache_init s) i) = false.
Proof.
  unfold block_cache_init.
  match goal with |- dirty (entry (fold_left ?f ?l ?a) i) = _ =>
    assert (forall l' a', (forall j, dirty (entry a' j) = false) ->
                          dirty (entry (fold_left f l' a') i) = false) as H
  end.
  { induction l' as [|x l' IH]; intros a' Ha; simpl; [apply Ha|].
    apply IH. intros j. destruct (valid (entry a' x)); [apply Ha|].
    unfold free_insert.
    change (entry (set_free_head ?p ?s) j) with (entry s j).
    rewrite !(@entry_upd_field bool dirty) by reflexivity. apply Ha. }
  apply H. intros j. rewrite (@entry_repeat0 _ CACHE_SIZE j) by reflexivity.
  reflexivity.
Qed.


(** ** Flushing *)


Lemma entry_overflow (s : cache_state) (i : nat) :
  length (s_cache s) <= i -> entry s i = entry0.
Proof. intros H. unfold entry. now apply nth_overflow. Qed.

Lemma valid_in_range (s : cache_state) (i : nat) :
  valid (entry s i) = true -> i < length (s_cache s).
Proof.
  intros H. destruct (Nat.lt_ge_cases i (length (s_cache s))) as [|Hge]; auto.
  rewrite (entry_overflow _ Hge) in H. discriminate H.
Qed.

Lemma rep_set_dirty_false (s : cache_state) (F L : list nat) (B : nat -> list nat)
      (i : nat) :
  cache_rep s F L B -> cache_rep (upd_entry i (set_dirty false) s) F L B.
Proof.
  intros R. apply rep_flags with (s := s); auto.
  - apply upd_entry_links, flag_setter_dirty.
  - intros j. rewrite (@entry_upd_field bool valid) by reflexivity. auto.
  - intros j. rewrite (@entry_upd_field bool valid) by reflexivity.
    rewrite entry_upd_entry.
    destruct (Nat.eqb j i && Nat.ltb i (length (s_cache s))); [discriminate|].
    apply (rep_dirty R).
Qed.

Lemma rep_set_valid_false (s : cache_state) (F L : list nat) (B : nat -> list nat)
      (i : nat) :
  cache_rep s F L B -> dirty (entry s i) = false ->
  cache_rep (upd_entry i (set_valid false) s) F L B.
Proof.
  intros R Hd. apply rep_flags with (s := s); auto.
  - apply upd_entry_links, flag_setter_valid.
  - intros j. rewrite entry_upd_entry.
    destruct (Nat.eqb j i && Nat.ltb i (length (s_cache s))); [discriminate|auto].
  - intros j. rewrite (@entry_upd_field bool dirty) by reflexivity.
    rewrite entry_upd_entry.
    destruct (Nat.eqb_spec j i) as [->|]; simpl; [congruence|].
    apply (rep_dirty R).
Qed.

Lemma write_back_cache_eq (i : nat) (w : world) :
  cache (snd (write_back i w)) = cache w.
Proof.
  unfold write_back. destruct (disk_write_no_cache _ _ _ _). reflexivity.
Qed.

Lemma flush_loop_rep (idx : list nat) (fa ia : bool) (F L : list nat)
      (B : nat -> list nat) :
  forall w, cache_rep (cache w) F L B ->
            cache_rep (cache (snd (flush_loop idx fa ia w))) F L B.
Proof.
  induction idx as [|i idx IH]; intros w R; [exact R|].
  simpl. destruct (valid (entry (cache w) i) && dirty (entry (cache w) i)) eqn:Ed.
  - pose proof (write_back_cache_eq i w) as Ec.
    destruct (write_back i w) as [result w1]. simpl in Ec.
    assert (cache_rep (cache w1) F L B) as R1 by (now rewrite Ec).
    destruct (is_ok result); [|exact R1].
    assert (cache_rep (upd_entry i (set_dirty false) (cache w1)) F L B) as R2
        by now apply rep_set_dirty_false.
    destruct fa; [|exact R2].
    apply IH. destruct ia; [|exact R2].
    unfold with_cache; cbn [cache].
    apply rep_set_valid_false; [exact R2|].
    rewrite entry_upd_same; [reflexivity|].
    rewrite Ec. apply valid_in_range. apply andb_true_iff in Ed. tauto.
  - apply IH. destruct ia; [|exact R].
    unfold with_cache; cbn [cache].
    apply rep_set_valid_false; [exact R|].
    destruct (dirty (entry (cache w) i)) eqn:E; [|reflexivity].
    rewrite (rep_dirty R _ E) in Ed. discriminate Ed.
Qed.

Lemma rep_flush (fa ia : bool) (w : world) (F L : list nat) (B : nat -> list nat) :
  cache_rep (cache w) F L B ->
  cache_rep (cache (snd (block_cache_flush fa ia w))) F L B.
Proof.
  intros R. unfold block_cache_flush.
  destruct (s_dirty_blocks (cache w)); [|exact R].
  pose proof (@flush_loop_rep (seq 0 CACHE_SIZE) fa ia F L B w R) as H.
  destruct (flush_loop (seq 0 CACHE_SIZE) fa ia w) as [[r|] w1]; simpl in *; [exact H|].
  now apply rep_set_dirty_blocks.
Qed.

Lemma nwb_clear_dirty (s : cache_state) (i j : nat) :
  needs_write_back (upd_entry i (set_dirty false) s) j =
  if Nat.eqb j i then false else needs_write_back s j.
Proof.
  unfold needs_write_back. rewrite entry_upd_entry.
  destruct (Nat.eqb_spec j i) as [->|]; [|reflexivity].
  destruct (Nat.ltb_spec i (length (s_cache s))); simpl.
  - apply andb_false_r.
  - now rewrite entry_overflow.
Qed.

Lemma nwb_clear_valid (s : cache_state) (i j : nat) :
  needs_write_back (upd_entry i (set_valid false) s) j =
  if Nat.eqb j i then false else needs_write_back s j.
Proof.
  unfold needs_write_back. rewrite entry_upd_entry.
  destruct (Nat.eqb_spec j i) as [->|]; [|reflexivity].
  destruct (Nat.ltb_spec i (length (s_cache s))); simpl.
  - reflexivity.
  - now rewrite entry_overflow.
Qed.

(** One round of the scan at slot [i], after the write-back if any. *)
Lemma nwb_invalidate (ia : bool) (i j : nat) (w : world) :
  needs_write_back
    (cache (if ia then with_cache (upd_entry i (set_valid false)) w else w)) j = true ->
  needs_write_back (cache w) j = true.
Proof.
  destruct ia; [|auto]. unfold with_cache; cbn [cache].
  rewrite nwb_clear_valid. destruct (Nat.eqb j i); [discriminate|auto].
Qed.

(** A flush never makes a slot dirty or valid, whatever the state. *)
Lemma flush_loop_mono (idx : list nat) (fa ia : bool) :
  forall w j,
    needs_write_back (cache (snd (flush_loop idx fa ia w))) j = true ->
    needs_write_back (cache w) j = true.
Proof.
  induction idx as [|i idx IH]; intros w j; [auto|].
  simpl. fold (needs_write_back (cache w) i).
  destruct (needs_write_back (cache w) i) eqn:Ed.
  - pose proof (write_back_cache_eq i w) as Ec.
    destruct (write_back i w) as [result w1]. simpl in Ec.
    destruct (is_ok result); [|simpl; now rewrite Ec].
    assert (needs_write_back (upd_entry i (set_dirty false) (cache w1)) j = true ->
            needs_write_back (cache w) j = true) as Hd.
    { rewrite nwb_clear_dirty, Ec. destruct (Nat.eqb j i); [discriminate|auto]. }
    destruct fa; [|exact Hd].
    intros H. apply IH in H. apply nwb_invalidate in H. now apply Hd.
  - intros H. apply IH in H. now apply nwb_invalidate in H.
Qed.

(** When the scan runs to its end, no scanned slot needs writing back. *)
Lemma flush_loop_done (idx : list nat) (fa ia : bool) :
  forall w, fst (flush_loop idx fa ia w) = None ->
            forall j, In j idx ->
                      needs_write_back (cache (snd (flush_loop idx fa ia w))) j = false.
Proof.
  induction idx as [|i idx IH]; intros w Hn j Hj; [contradiction|].
  destruct (needs_write_back (cache (snd (flush_loop (i :: idx) fa ia w))) j) eqn:E;
    [|reflexivity].
  exfalso. revert Hn E. simpl. fold (needs_write_back (cache w) i).
  destruct (needs_write_back (cache w) i) eqn:Ed.
  - pose proof (write_back_cache_eq i w) as Ec.
    destruct (write_back i w) as [result w1]. simpl in Ec.
    destruct (is_ok result); [|discriminate].
    destruct fa; [|discriminate].
    intros Hn E. destruct Hj as [<-|Hj].
    + apply flush_loop_mono, nwb_invalidate in E.
      unfold with_cache in E; cbn [cache] in E.
      rewrite nwb_clear_dirty, Nat.eqb_refl in E. discriminate.
    + rewrite (IH _ Hn j Hj) in E. discriminate.
  - intros Hn E. destruct Hj as [<-|Hj].
    + apply flush_loop_mono, nwb_invalidate in E. congruence.
    + rewrite (IH _ Hn j Hj) in E. discriminate.
Qed.


(** ** The global dirty flag *)


Lemma no_new_dirt_refl (s : cache_state) : no_new_dirt s s.
Proof. split; auto. Qed.

Lemma no_new_dirt_trans (s1 s2 s3 : cache_state) :
  no_new_dirt s1 s2 -> no_new_dirt s2 s3 -> no_new_dirt s1 s3.
Proof. intros [A1 A2] [B1 B2]. split; [congruence|auto]. Qed.

Lemma no_new_dirt_inv (s s' : cache_state) :
  no_new_dirt s s' -> flag_inv s -> flag_inv s'.
Proof.
  intros [H1 H2] Hi Hf i Hlt. rewrite H1 in Hf.
  destruct (needs_write_back s' i) eqn:E; [|reflexivity].
  apply H2 in E. rewrite (Hi Hf i Hlt) in E. discriminate.
Qed.

Lemma same_core_no_new_dirt (s s' : cache_state) : same_core s s' -> no_new_dirt s s'.
Proof.
  intros (_ & _ & Hd & _ & _ & Hf). split; [exact Hd|].
  intros j. unfold needs_write_back.
  destruct (Hf j) as (_ & _ & -> & -> & _). auto.
Qed.

Lemma same_but_hash_no_new_dirt (s s' : cache_state) :
  same_but_hash s s' -> no_new_dirt s s'.
Proof.
  intros (_ & _ & Hd & _ & _ & _ & _ & Hf). split; [exact Hd|].
  intros j. unfold needs_write_back.
  destruct (Hf j) as (_ & _ & -> & -> & _). auto.
Qed.

Lemma installed_no_new_dirt (f : nat) (sa : cache_state) : no_new_dirt sa (installed f sa).
Proof.
  destruct (installed_fields f sa) as (Hd & _ & _ & Hf). split; [exact Hd|].
  intros j. unfold needs_write_back.
  destruct (Hf j) as (_ & _ & -> & -> & _). auto.
Qed.

Lemma reclaimed_no_new_dirt (e : nat) (s s1 : cache_state) :
  hash_remove e s = Some s1 -> no_new_dirt s (reclaimed e s1).
Proof.
  intros H. apply hash_remove_but_hash, same_but_hash_no_new_dirt in H.
  eapply no_new_dirt_trans; [exact H|].
  eapply no_new_dirt_trans; [apply same_core_no_new_dirt, (lru_remove_core e)|].
  unfold reclaimed. split; [reflexivity|].
  intros j. rewrite nwb_clear_dirty.
  destruct (Nat.eqb j e); [discriminate|].
  rewrite nwb_clear_valid. destruct (Nat.eqb j e); [discriminate|auto].
Qed.

Lemma evict_no_new_dirt (w w1 : world) (r : ptr) :
  evict_entry w = Some (r, w1) -> no_new_dirt (cache w) (cache w1).
Proof.
  unfold evict_entry. destruct (s_lru_tail (cache w)) as [e|].
  - destruct (valid (entry (cache w) e) && dirty (entry (cache w) e)).
    + pose proof (write_back_cache_eq e w) as Ec.
      destruct (write_back e w) as [res w0]. simpl in Ec.
      destruct (is_ok res).
      * unfold with_cache; cbn [cache dev io_log].
        destruct (hash_remove e (set_evict_error res (cache w0))) as [s1|] eqn:E;
          [|discriminate].
        intros H; inversion H; subst. cbn [cache].
        apply reclaimed_no_new_dirt in E. rewrite Ec in E. exact E.
      * intros H; inversion H; subst. unfold with_cache; cbn [cache].
        rewrite Ec. split; [reflexivity|auto].
    + destruct (hash_remove e (cache w)) as [s1|] eqn:E; [|discriminate].
      intros H; inversion H; subst. cbn [cache].
      now apply reclaimed_no_new_dirt in E.
  - intros H; inversion H; subst. split; [reflexivity|auto].
Qed.

Lemma obtain_no_new_dirt (w w1 : world) (r : ptr) :
  obtain_entry w = Some (r, w1) -> no_new_dirt (cache w) (cache w1).
Proof.
  unfold obtain_entry, free_get. destruct (s_free_head (cache w)) as [f|].
  - intros H; inversion H; subst. split; [reflexivity|auto].
  - rewrite world_eta. apply evict_no_new_dirt.
Qed.

Lemma upd_entry_overflow (i : nat) (f : cache_entry -> cache_entry) (s : cache_state)
      (j : nat) :
  length (s_cache s) <= i -> entry (upd_entry i f s) j = entry s j.
Proof.
  intros H. rewrite entry_upd_entry.
  destruct (Nat.ltb_spec i (length (s_cache s))); [lia|].
  now rewrite andb_false_r.
Qed.

Lemma read_fill_no_new_dirt (f : nat) (p sec : Z) (buf : block) (s : cache_state) :
  no_new_dirt s (read_fill f p sec buf s).
Proof.
  split; [reflexivity|]. intros j. unfold needs_write_back.
  destruct (Nat.lt_ge_cases f (length (s_cache s))) as [Hlt|Hge].
  - rewrite read_fill_entry by exact Hlt.
    destruct (Nat.eqb j f); simpl; [discriminate|auto].
  - unfold read_fill.
    rewrite !upd_entry_overflow by (rewrite ?length_upd_entry; exact Hge). auto.
Qed.

Lemma read_no_new_dirt (p sec : Z) (out_data : option block) (w w' : world)
      (r : DRESULT) (out' : option block) :
  block_cache_read_block p sec out_data w = Some (r, out', w') ->
  no_new_dirt (cache w) (cache w').
Proof.
  unfold block_cache_read_block.
  destruct (hash_lookup (cache w) p sec) as [[e|]|]; [| |discriminate].
  - intros H; inversion H; subst. cbn [cache].
    apply same_core_no_new_dirt, lru_touch_core.
  - destruct (obtain_entry w) as [[[f|] w1]|] eqn:Eo; [| |discriminate].
    + apply obtain_no_new_dirt in Eo.
      destruct (disk_read_no_cache (dev w1) p (data (entry (cache w1) f)) sec)
        as [[result buf] d'].
      destruct (is_ok result); intros H; inversion H; subst; cbn [cache];
        (eapply no_new_dirt_trans; [exact Eo|]).
      * eapply no_new_dirt_trans; [apply read_fill_no_new_dirt|].
        apply installed_no_new_dirt.
      * split; [reflexivity|]. intros j. unfold needs_write_back.
        rewrite (@entry_upd_field bool valid), (@entry_upd_field bool dirty)
          by reflexivity. auto.
    + apply obtain_no_new_dirt in Eo. intros H; inversion H; subst. exact Eo.
Qed.

Lemma write_flag_inv (p sec : Z) (in_data : block) (w w' : world) (r : DRESULT) :
  flag_inv (cache w) ->
  block_cache_write_block p sec in_data w = Some (r, w') ->
  flag_inv (cache w').
Proof.
  intros Hi. unfold block_cache_write_block.
  destruct (hash_lookup (cache w) p sec) as [[e|]|]; [| |discriminate].
  - intros H; inversion H; subst. cbn [cache]. intros Hf. exfalso.
    match type of Hf with s_dirty_blocks (lru_touch e ?s) = _ =>
      destruct (lru_touch_core e s) as (_ & _ & Hd & _) end.
    rewrite Hd in Hf. discriminate Hf.
  - destruct (obtain_entry w) as [[[f|] w1]|] eqn:Eo; [| |discriminate].
    + intros H; inversion H; subst. cbn [cache]. intros Hf. exfalso.
      destruct (installed_fields f (write_fill f p sec in_data (cache w1))) as (Hd & _).
      rewrite Hd in Hf. discriminate Hf.
    + apply obtain_no_new_dirt in Eo. intros H; inversion H; subst.
      eapply no_new_dirt_inv; eauto.
Qed.

Lemma flush_flag_inv (fa ia : bool) (w : world) :
  flag_inv (cache w) -> flag_inv (cache (snd (block_cache_flush fa ia w))).
Proof.
  intros Hi. unfold block_cache_flush.
  destruct (s_dirty_blocks (cache w)) eqn:Ed; [|exact Hi].
  pose proof (@flush_loop_done (seq 0 CACHE_SIZE) fa ia w) as Hdone.
  pose proof (@flush_loop_mono (seq 0 CACHE_SIZE) fa ia w) as Hmono.
  assert (s_dirty_blocks (cache (snd (flush_loop (seq 0 CACHE_SIZE) fa ia w))) = true)
    as Hflag.
  { clear Hdone Hmono Hi. revert w Ed.
    induction (seq 0 CACHE_SIZE) as [|i idx IH]; intros w Ed; [exact Ed|].
    simpl. destruct (valid (entry (cache w) i) && dirty (entry (cache w) i)).
    - pose proof (write_back_cache_eq i w) as Ec.
      destruct (write_back i w) as [result w1]. simpl in Ec.
      destruct (is_ok result); [|simpl; congruence].
      destruct fa; [|simpl; congruence].
      apply IH. destruct ia; simpl; congruence.
    - apply IH. destruct ia; simpl; congruence. }
  destruct (flush_loop (seq 0 CACHE_SIZE) fa ia w) as [[r|] w1]; cbn [fst snd] in *.
  - intros Hf. rewrite Hflag in Hf. discriminate Hf.
  - intros _ i Hlt. unfold with_cache; cbn [cache].
    change (needs_write_back (set_dirty_blocks false (cache w1)) i)
      with (needs_write_back (cache w1) i).
    apply Hdone; [reflexivity|]. apply in_seq. lia.
Qed.

Lemma init_flag_inv (s : cache_state) : flag_inv (block_cache_init s).
Proof.
  intros _ i _. unfold needs_write_back. rewrite init_clean. apply andb_false_r.
Qed.


(** ** Every call keeps the structural invariant *)


Lemma access_inv (o : op) (p sec : Z) (w : world) :
  cache_inv (cache w) -> op_key o = Some (p, sec) ->
  exists r w', exec o w = Some (r, w') /\ cache_inv (cache w').
Proof.
  intros (F & L & B & R) Hk.
  destruct (@access_cases o p sec w F L B R Hk) as [H|[H|[H|H]]].
  - destruct H as (e & w' & _ & He & R' & _). exists RES_OK, w'.
    split; [exact He|]. now exists F, (e :: del e L), B.
  - destruct H as (f & w1 & w' & F1 & L1 & B' & _ & _ & _ & _ & _ & He & R' & _).
    exists RES_OK, w'. split; [exact He|]. now exists F1, (f :: L1), B'.
  - destruct H as (w1 & _ & _ & _ & He & R'). eexists _, w1.
    split; [exact He|]. now exists F, L, B.
  - destruct H as (f & w1 & w' & F1 & L1 & B1 & result & buf &
                   _ & _ & _ & _ & _ & _ & _ & _ & He & _ & _ & R' & _).
    exists result, w'. split; [exact He|]. now exists F1, L1, B1.
Qed.

Lemma exec_inv (o : op) (w : world) :
  cache_inv (cache w) -> is_init o = false ->
  exists r w', exec o w = Some (r, w') /\ cache_inv (cache w').
Proof.
  intros Hi Hn. destruct o as [|p sec out|p sec d|fa ia]; [discriminate| | |].
  - now apply access_inv with (p := p) (sec := sec).
  - now apply access_inv with (p := p) (sec := sec).
  - simpl. destruct Hi as (F & L & B & R).
    pose proof (@rep_flush fa ia w F L B R) as R'.
    destruct (block_cache_flush fa ia w) as [r w']. exists r, w'.
    split; [reflexivity|]. now exists F, L, B.
Qed.

Lemma run_inv (ops : list op) :
  forall w, cache_inv (cache w) -> no_init ops = true ->
            exists w', run ops w = Some w' /\ cache_inv (cache w').
Proof.
  induction ops as [|o ops IH]; intros w Hi Hn.
  - exists w. auto.
  - simpl in Hn. apply andb_true_iff in Hn. destruct Hn as [Ho Hn].
    apply negb_true_iff in Ho.
    destruct (@exec_inv o w Hi Ho) as (r & w1 & E & Hi1).
    simpl. rewrite E. now apply IH.
Qed.

Lemma boot_init_inv (w : world) :
  s_free_head (cache w) = None -> cache_inv (cache (with_cache block_cache_init w)).
Proof.
  intros H. unfold with_cache; cbn [cache].
  eexists _, _, _. apply init_rep. exact H.
Qed.

Lemma run_cons (o : op) (ops : list op) (w : world) :
  run (o :: ops) w =
  match exec o w with Some (_, w') => run ops w' | None => None end.
Proof. reflexivity. Qed.

Lemma run_init_first (ops : list op) (w0 : world) :
  s_free_head (cache w0) = None -> no_init ops = true ->
  exists w, run (OpInit :: ops) w0 = Some w /\ cache_inv (cache w).
Proof.
  intros Hf Hn. rewrite run_cons.
  change (exec OpInit w0) with (Some (RES_OK, with_cache block_cache_init w0)).
  cbv beta iota. apply run_inv; [|exact Hn]. now apply boot_init_inv.
Qed.

(** C1 (as amended): on the start-up state, after the one call of
    [block_cache_init], every sequence of read, write and flush calls
    runs to its end and leaves at most one valid slot per (drive, sector)
    key.  Every prefix of such a sequence is such a sequence, so this
    holds at every point between two calls. *)
Theorem C1_unique_slot_per_key (d : Dev) (log : list io_event) (ops : list op) :
  no_init ops = true ->
  exists w, run (OpInit :: ops) (mkWorld boot_state d log) = Some w /\
            unique_keys (cache w).
Proof.
  intros Hn.
  destruct (@run_init_first ops (mkWorld boot_state d log) eq_refl Hn)
    as (w & E & (F & L & B & R)).
  exists w. split; [exact E|]. exact (rep_uniq R).
Qed.

Lemma exec_flag_inv (o : op) (w w' : world) (r : DRESULT) :
  flag_inv (cache w) -> exec o w = Some (r, w') -> flag_inv (cache w').
Proof.
  intros Hi. destruct o as [|p sec out|p sec d|fa ia]; simpl.
  - intros H; inversion H; subst. apply init_flag_inv.
  - destruct (block_cache_read_block p sec out w) as [[[r' out'] w1]|] eqn:E;
      [|discriminate].
    intros H; inversion H; subst.
    eapply no_new_dirt_inv; [|exact Hi]. eapply read_no_new_dirt; eauto.
  - now apply write_flag_inv.
  - intros H. pose proof (@flush_flag_inv fa ia w Hi) as Hf.
    destruct (block_cache_flush fa ia w). inversion H; subst. exact Hf.
Qed.

(** C10: whatever the state, a call of a public function that starts
    with "flag clear implies no valid dirty slot" ends with it; on the
    states the cache can be in after start-up the call does return; and
    so a flush that returns at once because the flag is clear leaves no
    slot that needed writing back. *)
Theorem C10_dirty_flag_invariant (o : op) (w : world) :
  flag_inv (cache w) ->
  (forall r w', exec o w = Some (r, w') -> flag_inv (cache w')) /\
  (cache_inv (cache w) \/ is_init o = true -> exists r w', exec o w = Some (r, w')) /\
  (s_dirty_blocks (cache w) = false ->
   forall fa ia, block_cache_flush fa ia w = (RES_OK, w) /\
                 forall i, i < CACHE_SIZE -> needs_write_back (cache w) i = false).
Proof.
  intros Hi. split; [|split].
  - intros r w' E. eapply exec_flag_inv; eauto.
  - intros [Hc|Ho].
    + destruct (is_init o) eqn:Ho.
      * destruct o; try discriminate. simpl. eauto.
      * destruct (@exec_inv o w Hc Ho) as (r & w' & E & _). eauto.
    + destruct o; try discriminate. simpl. eauto.
  - intros Hf fa ia. split; [|now apply Hi].
    unfold block_cache_flush. now rewrite Hf.
Qed.


(** ** Failure of the write-back during eviction *)

(** C2: when a miss finds the free list empty and the write-back of the
    dirty tail slot [e] fails with [r], the call returns [r] and leaves
    the slot array, the bucket table, the two ends of the recency list
    and the free list as they were: [e] is still valid and dirty, on the
    same chain under the same key and at the same place of the recency
    list. *)
Theorem C2_failed_write_back_keeps_slot (o : op) (p sec : Z) (w : world) (e : nat)
        (r : DRESULT) (d' : Dev) :
  op_key o = Some (p, sec) ->
  hash_lookup (cache w) p sec = Some None ->
  s_free_head (cache w) = None ->
  s_lru_tail (cache w) = Some e ->
  valid (entry (cache w) e) = true ->
  dirty (entry (cache w) e) = true ->
  disk_write_no_cache (dev w) (pdrv (entry (cache w) e)) (data (entry (cache w) e))
                      (sector (entry (cache w) e)) = (r, d') ->
  r <> RES_OK ->
  exists w',
    exec o w = Some (r, w') /\
    s_cache (cache w') = s_cache (cache w) /\
    s_hash_table (cache w') = s_hash_table (cache w) /\
    s_lru_head (cache w') = s_lru_head (cache w) /\
    s_lru_tail (cache w') = s_lru_tail (cache w) /\
    s_free_head (cache w') = s_free_head (cache w) /\
    valid (entry (cache w') e) = true /\ dirty (entry (cache w') e) = true /\
    sector (entry (cache w') e) = sector (entry (cache w) e) /\
    pdrv (entry (cache w') e) = pdrv (entry (cache w) e).
Proof.
  intros Hk Hl Hf Ht Hv Hd Hw Hr.
  assert (is_ok r = false) as Hok by (destruct r; auto; congruence).
  set (w1 := mkWorld (cache w) d'
                     (io_log w ++ [IoWrite (pdrv (entry (cache w) e))
                                           (sector (entry (cache w) e))
                                           (data (entry (cache w) e)) r])).
  assert (obtain_entry w = Some (None, with_cache (set_evict_error r) w1)) as Ho.
  { unfold obtain_entry, free_get. rewrite Hf, world_eta.
    apply evict_fail with (e := e); auto.
    - now rewrite Hv, Hd.
    - unfold write_back. now rewrite Hw. }
  exists (with_cache (set_evict_error r) w1).
  split; [|unfold with_cache, w1; cbn [cache]; repeat split; auto].
  destruct o as [|p' sec' out|p' sec' d|fa ia]; simpl in Hk; inversion Hk; subst p' sec'.
  - simpl. now rewrite (@read_fail_eq p sec out w _ Hl Ho).
  - simpl. now rewrite (@write_fail_eq p sec d w _ Hl Ho).
Qed.

(** ** Removing a slot that is not in its chain *)

(** C9 (as amended): when the slot is not on the chain of the bucket of
    its key, [hash_remove] walks the chain to its end and returns with
    the state unchanged; there is no failure of any kind. *)
Theorem C9_hash_remove_absent_is_silent (s : cache_state) (e : nat) (l : list nat) :
  length (s_cache s) = CACHE_SIZE ->
  chain (s_cache s) (nth (hkey s e) (s_hash_table s) None) l ->
  ~ In e l ->
  hash_remove e s = Some s.
Proof.
  intros Hlen Hc Hn. unfold hash_remove.
  apply hash_remove_loop_absent with (l := l); auto.
  pose proof (@chain_length _ _ _ Hc). unfold LOOP_FUEL. lia.
Qed.


(** ** A write followed by a read of the same key *)

Lemma memcpy_round_trip (dst src out : block) (n : nat) :
  length src = n -> length out = n ->
  memcpy out (memcpy dst src n) n = src.
Proof.
  intros Hs Ho. unfold memcpy. subst n.
  rewrite firstn_all, firstn_app, firstn_all, Nat.sub_diag.
  rewrite <- Ho at 2. rewrite skipn_all. simpl. now rewrite !app_nil_r.
Qed.

(** C6 (as amended): from any state the cache can be in after start-up,
    a write returns.  It returns [RES_OK] exactly when its key is
    cached, or the free list is not empty, or the recency list has a
    tail whose block needs no write-back or whose write-back the device
    accepts.  Whenever it returns [RES_OK], the read of the same key
    that follows returns [RES_OK], copies out exactly the buffer that
    was written, and leaves the device and the log of device calls
    untouched. *)
Theorem C6_read_after_write (p sec : Z) (in_data out : block) (w : world) :
  cache_inv (cache w) ->
  length in_data = BLOCK_SIZE -> length out = BLOCK_SIZE ->
  exists r w1,
    block_cache_write_block p sec in_data w = Some (r, w1) /\
    (r = RES_OK <->
     ((exists e, hash_lookup (cache w) p sec = Some (Some e)) \/
      s_free_head (cache w) <> None \/
      (exists e, s_lru_tail (cache w) = Some e /\
                 (needs_write_back (cache w) e = true ->
                  is_ok (fst (disk_write_no_cache (dev w) (pdrv (entry (cache w) e))
                                                  (data (entry (cache w) e))
                                                  (sector (entry (cache w) e)))) = true)))) /\
    (r = RES_OK ->
     exists w2,
       block_cache_read_block p sec (Some out) w1 = Some (RES_OK, Some in_data, w2) /\
       dev w2 = dev w1 /\ io_log w2 = io_log w1).
Proof.
  intros (F & L & B & R) Hin Hout.
  destruct (@access_cases (OpWrite p sec in_data) p sec w F L B R eq_refl)
    as [H|[H|[H|H]]].
  - destruct H as (e & w' & Hl & He & R' & HeL & Hlt & Hs & Hp & Hv & Hdev & Hlog &
                   KK & FK & Hv' & _).
    simpl in He. exists RES_OK, w'. split; [exact He|].
    split; [split; [intros _; left; now exists e|reflexivity]|]. intros _.
    pose proof (@write_hit_eq p sec in_data w e Hl) as Heq.
    rewrite He in Heq.
    match type of Heq with Some (_, _) = Some (_, ?x) =>
      assert (w' = x) as Hw' by congruence end.
    clear Heq.
    assert (hash_lookup (cache w') p sec = Some (Some e)) as Hl'.
    { pose proof (@rep_lookup_cached _ _ _ _ e R' Hlt Hv') as H.
      destruct (KK e) as [Ks Kp]. rewrite Ks, Kp, Hs, Hp in H. exact H. }
    rewrite (@read_hit_eq p sec (Some out) w' e Hl').
    exists (mkWorld (lru_touch e (cache w')) (dev w') (io_log w')).
    split; [|split; reflexivity].
    match goal with |- Some (_, ?c, _) = _ =>
      assert (c = Some in_data) as ->; [|reflexivity] end.
    unfold copy_out. f_equal.
    destruct (lru_touch_core e (cache w')) as (_ & _ & _ & _ & _ & C6).
    destruct (C6 e) as (_ & _ & _ & _ & _ & ->).
    rewrite Hw'. cbn [cache].
    match goal with |- context [lru_touch e ?s] =>
      destruct (lru_touch_core e s) as (_ & _ & _ & _ & _ & C6') end.
    destruct (C6' e) as (_ & _ & _ & _ & _ & ->).
    change (entry (set_dirty_blocks true ?s) e) with (entry s e).
    rewrite !entry_upd_same
      by (rewrite ?length_upd_entry, (rep_len R); exact Hlt).
    simpl. now apply memcpy_round_trip.
  - destruct H as (f & w1 & w' & F1 & L1 & B' & Hl & Eo & Hob & KK & FK & He & R' &
                   Hlt & _ & _ & SK & Hs & Hp & Hv' & _).
    simpl in He. exists RES_OK, w'. split; [exact He|].
    split.
    { split; [intros _|reflexivity]. right.
      destruct Hob as [(HF & _)|(_ & _ & HL & _ & Hwb)].
      - left. pose proof (rep_free R) as Hc. rewrite HF in Hc.
        destruct Hc as [Hh _]. rewrite Hh. discriminate.
      - right. exists f. split.
        + rewrite (@rep_tail _ _ _ _ R), HL, rev_app_distr. reflexivity.
        + unfold needs_write_back. intros Hn. rewrite Hn in Hwb.
          destruct Hwb as [Hwb _]. rewrite <- Hwb. reflexivity. }
    intros _.
    pose proof (@write_miss_eq p sec in_data w w1 f Hl Eo) as Heq.
    rewrite He in Heq.
    match type of Heq with Some (_, _) = Some (_, ?x) =>
      assert (w' = x) as Hw' by congruence end.
    clear Heq.
    assert (hash_lookup (cache w') p sec = Some (Some f)) as Hl'.
    { pose proof (@rep_lookup_cached _ _ _ _ f R' Hlt Hv') as H.
      rewrite Hs, Hp in H. exact H. }
    rewrite (@read_hit_eq p sec (Some out) w' f Hl').
    exists (mkWorld (lru_touch f (cache w')) (dev w') (io_log w')).
    split; [|split; reflexivity].
    match goal with |- Some (_, ?c, _) = _ =>
      assert (c = Some in_data) as ->; [|reflexivity] end.
    unfold copy_out. f_equal.
    destruct (lru_touch_core f (cache w')) as (_ & _ & _ & _ & _ & C6).
    destruct (C6 f) as (_ & _ & _ & _ & _ & ->).
    rewrite Hw'. cbn [cache].
    assert (length (s_cache (cache w1)) = CACHE_SIZE) as Hlen.
    { destruct (installed_fields f (write_fill f p sec in_data (cache w1)))
        as (_ & _ & Hlen & _).
      rewrite <- (rep_len R'), Hw'. cbn [cache]. rewrite Hlen.
      unfold write_fill. simpl. now rewrite !upd_length. }
    destruct (installed_fields f (write_fill f p sec in_data (cache w1)))
      as (_ & _ & _ & FF).
    destruct (FF f) as (_ & _ & _ & _ & ->).
    rewrite write_fill_entry, Nat.eqb_refl by (rewrite Hlen; exact Hlt).
    simpl. now apply memcpy_round_trip.
  - destruct H as (w1 & Hl & Eo & Hn & He & R').
    simpl in He. exists (s_evict_error (cache w1)), w1.
    split; [exact He|].
    destruct Hn as (HF & _ & _ & _ & _ & _ & _ & Hok & Hwhy).
    assert (s_evict_error (cache w1) <> RES_OK) as Hne
        by (intros E; rewrite E in Hok; discriminate Hok).
    split; [|intros E; contradiction].
    split; [intros E; contradiction|].
    intros [(e & Hhit)|[Hfree|(e & Ht & Hacc)]]; exfalso.
    + congruence.
    + apply Hfree. pose proof (rep_free R) as Hc. rewrite HF in Hc. exact Hc.
    + destruct Hwhy as [(HL & _)|(e' & Ht' & Hv & Hd & Hw & _)].
      * rewrite (@rep_tail _ _ _ _ R), HL in Ht. discriminate Ht.
      * assert (e' = e) as -> by congruence.
        rewrite <- Hw in Hacc. cbn [fst] in Hacc.
        rewrite Hacc in Hok; [discriminate Hok|].
        unfold needs_write_back. now rewrite Hv, Hd.
  - destruct H as (f & w1 & w' & F1 & L1 & B1 & result & buf & _ & _ & _ & _ & _ & Hw & _).
    discriminate Hw.
Qed.


(** ** Flushing one slot, flushing everything *)

Lemma flush_loop_skip (l1 rest : list nat) (fa : bool) :
  forall w, (forall j, In j l1 -> needs_write_back (cache w) j = false) ->
            flush_loop (l1 ++ rest) fa false w = flush_loop rest fa false w.
Proof.
  induction l1 as [|i l1 IH]; intros w H; [reflexivity|].
  simpl. fold (needs_write_back (cache w) i).
  rewrite (H i) by (now left). apply IH. intros j Hj. apply H. now right.
Qed.

Lemma flush_loop_clean (idx : list nat) (fa : bool) (w : world) :
  (forall j, In j idx -> needs_write_back (cache w) j = false) ->
  flush_loop idx fa false w = (None, w).
Proof.
  intros H. rewrite <- (app_nil_r idx). now rewrite flush_loop_skip.
Qed.

Lemma seq_split (i n : nat) :
  i < n -> seq 0 n = seq 0 i ++ i :: seq (S i) (n - S i).
Proof.
  intros H. replace n with (i + S (n - S i)) at 1 by lia.
  rewrite seq_app. reflexivity.
Qed.


(** C7: with exactly one slot to write back and a device that accepts
    it, [block_cache_flush (false, false)] issues that one write, clears
    the slot's dirty bit and returns [RES_OK]; called again at once it
    returns [RES_OK] without any device call. *)
Theorem C7_incremental_flush (w : world) (i : nat) (d1 : Dev) :
  flag_inv (cache w) ->
  i < CACHE_SIZE ->
  needs_write_back (cache w) i = true ->
  (forall j, j < CACHE_SIZE -> j <> i -> needs_write_back (cache w) j = false) ->
  disk_write_no_cache (dev w) (pdrv (entry (cache w) i)) (data (entry (cache w) i))
                      (sector (entry (cache w) i)) = (RES_OK, d1) ->
  exists w1 w2,
    block_cache_flush false false w = (RES_OK, w1) /\
    io_log w1 = io_log w ++ [write_event (cache w) i] /\
    dev w1 = d1 /\
    dirty (entry (cache w1) i) = false /\
    block_cache_flush false false w1 = (RES_OK, w2) /\
    io_log w2 = io_log w1 /\ dev w2 = dev w1.
Proof.
  intros Hinv Hi Hd Hothers Hw.
  assert (s_dirty_blocks (cache w) = true) as Hflag.
  { destruct (s_dirty_blocks (cache w)) eqn:E; [reflexivity|].
    rewrite (Hinv E i Hi) in Hd. discriminate Hd. }
  set (w1 := with_cache (upd_entry i (set_dirty false))
               (mkWorld (cache w) d1 (io_log w ++ [write_event (cache w) i]))).
  assert (flush_loop (seq 0 CACHE_SIZE) false false w = (Some RES_OK, w1)) as Hloop.
  { rewrite (seq_split Hi), flush_loop_skip.
    - simpl. fold (needs_write_back (cache w) i). rewrite Hd.
      unfold write_back. rewrite Hw. reflexivity.
    - intros j Hj. apply in_seq in Hj. apply Hothers; lia. }
  assert (forall j, In j (seq 0 CACHE_SIZE) -> needs_write_back (cache w1) j = false)
    as Hclean.
  { intros j Hj. apply in_seq in Hj. unfold w1, with_cache. cbn [cache].
    rewrite nwb_clear_dirty. destruct (Nat.eqb_spec j i); [reflexivity|].
    apply Hothers; lia. }
  exists w1, (with_cache (set_dirty_blocks false) w1).
  split; [unfold block_cache_flush; now rewrite Hflag, Hloop|].
  split; [reflexivity|]. split; [reflexivity|]. split.
  - unfold w1, with_cache. cbn [cache].
    rewrite entry_upd_same; [reflexivity|].
    apply valid_in_range. unfold needs_write_back in Hd.
    apply andb_true_iff in Hd. tauto.
  - split; [|split; reflexivity].
    unfold block_cache_flush.
    assert (s_dirty_blocks (cache w1) = true) as -> by exact Hflag.
    now rewrite flush_loop_clean.
Qed.

Lemma flush_loop_valid_mono (idx : list nat) (fa ia : bool) :
  forall w j,
    valid (entry (cache (snd (flush_loop idx fa ia w))) j) = true ->
    valid (entry (cache w) j) = true.
Proof.
  assert (forall i j w,
             valid (entry (cache (if ia then with_cache (upd_entry i (set_valid false)) w
                                  else w)) j) = true ->
             valid (entry (cache w) j) = true) as Hinval.
  { intros i j w. destruct ia; [|auto]. unfold with_cache; cbn [cache].
    rewrite entry_upd_entry.
    destruct (Nat.eqb j i && Nat.ltb i _); [discriminate|auto]. }
  induction idx as [|i idx IH]; intros w j; [auto|].
  simpl. destruct (valid (entry (cache w) i) && dirty (entry (cache w) i)).
  - pose proof (write_back_cache_eq i w) as Ec.
    destruct (write_back i w) as [result w1]. simpl in Ec.
    assert (valid (entry (upd_entry i (set_dirty false) (cache w1)) j) = true ->
            valid (entry (cache w) j) = true) as Hd.
    { rewrite (@entry_upd_field bool valid) by reflexivity. now rewrite Ec. }
    destruct (is_ok result); [|simpl; now rewrite Ec].
    destruct fa; [|exact Hd].
    intros H. apply IH, Hinval in H. now apply Hd.
  - intros H. now apply IH, Hinval in H.
Qed.

Lemma flush_loop_invalidated (idx : list nat) (fa : bool) :
  forall w, fst (flush_loop idx fa true w) = None ->
            forall j, In j idx ->
                      valid (entry (cache (snd (flush_loop idx fa true w))) j) = false.
Proof.
  assert (forall i w, valid (entry (cache (with_cache (upd_entry i (set_valid false)) w))
                                   i) = false) as Hinval.
  { intros i w. unfold with_cache; cbn [cache]. rewrite entry_upd_entry.
    rewrite Nat.eqb_refl.
    destruct (Nat.ltb_spec i (length (s_cache (cache w)))); simpl; [reflexivity|].
    now rewrite entry_overflow. }
  induction idx as [|i idx IH]; intros w Hn j Hj; [contradiction|].
  destruct (valid (entry (cache (snd (flush_loop (i :: idx) fa true w))) j)) eqn:E;
    [|reflexivity].
  exfalso. revert Hn E. simpl.
  destruct (valid (entry (cache w) i) && dirty (entry (cache w) i)).
  - destruct (write_back i w) as [result w1].
    destruct (is_ok result); [|discriminate].
    destruct fa; [|discriminate].
    intros Hn E. destruct Hj as [<-|Hj].
    + apply flush_loop_valid_mono in E. rewrite Hinval in E. discriminate.
    + rewrite (IH _ Hn j Hj) in E. discriminate.
  - intros Hn E. destruct Hj as [<-|Hj].
    + apply flush_loop_valid_mono in E. rewrite Hinval in E. discriminate.
    + rewrite (IH _ Hn j Hj) in E. discriminate.
Qed.

Lemma flush_all_log (ia : bool) (idx : list nat) :
  NoDup idx ->
  forall w,
    (forall i d, In i idx -> needs_write_back (cache w) i = true ->
                 is_ok (fst (disk_write_no_cache d (pdrv (entry (cache w) i))
                                                 (data (entry (cache w) i))
                                                 (sector (entry (cache w) i)))) = true) ->
    fst (flush_loop idx true ia w) = None /\
    io_log (snd (flush_loop idx true ia w)) =
    io_log w ++ map (write_event (cache w)) (filter (needs_write_back (cache w)) idx).
Proof.
  intros ND. induction ND as [|i idx Hni ND IH]; intros w Hdev.
  - simpl. now rewrite app_nil_r.
  - assert (forall w2, (forall j, j <> i -> entry (cache w2) j = entry (cache w) j) ->
                       fst (flush_loop idx true ia w2) = None /\
                       io_log (snd (flush_loop idx true ia w2)) =
                       io_log w2 ++ map (write_event (cache w))
                                        (filter (needs_write_back (cache w)) idx)) as Hrest.
    { intros w2 Hsame.
      assert (forall j, In j idx -> entry (cache w2) j = entry (cache w) j) as Hin
          by (intros j Hj; apply Hsame; intros ->; contradiction).
      destruct (IH w2) as [H1 H2].
      - intros j d Hj. unfold needs_write_back. rewrite (Hin j Hj).
        intros Hd. apply Hdev; [now right|exact Hd].
      - split; [exact H1|]. rewrite H2. f_equal.
        rewrite (@filter_ext_in _ (needs_write_back (cache w2))
                                (needs_write_back (cache w)))
          by (intros j Hj; unfold needs_write_back; now rewrite (Hin j Hj)).
        apply map_ext_in. intros j Hj. apply filter_In in Hj.
        unfold write_event. now rewrite (Hin j (proj1 Hj)). }
    assert (forall w0, cache w0 = cache w ->
              forall j, j <> i ->
                entry (cache (if ia then with_cache (upd_entry i (set_valid false)) w0
                              else w0)) j = entry (cache w) j) as Hinv.
    { intros w0 Ec j Hj. destruct ia; unfold with_cache; cbn [cache];
        rewrite ?entry_upd_other by exact Hj; now rewrite Ec. }
    cbn [flush_loop filter]. fold (needs_write_back (cache w) i).
    destruct (needs_write_back (cache w) i) eqn:Ed.
    + pose proof (Hdev i (dev w) (or_introl eq_refl) Ed) as Hok.
      unfold write_back.
      destruct (disk_write_no_cache (dev w) (pdrv (entry (cache w) i))
                                    (data (entry (cache w) i))
                                    (sector (entry (cache w) i))) as [r d'].
      simpl in Hok. rewrite Hok. apply is_ok_true in Hok. subst r.
      match goal with |- context [flush_loop idx true ia ?w2] =>
        destruct (Hrest w2) as [H1 H2] end.
      { intros j Hj. destruct ia; unfold with_cache; cbn [cache];
          rewrite !entry_upd_other by exact Hj; reflexivity. }
      split; [exact H1|]. rewrite H2.
      destruct ia; unfold with_cache; cbn [io_log map]; now rewrite <- app_assoc.
    + match goal with |- context [flush_loop idx true ia ?w2] =>
        destruct (Hrest w2) as [H1 H2] end.
      { intros j Hj. exact (Hinv w eq_refl j Hj). }
      split; [exact H1|]. rewrite H2.
      destruct ia; reflexivity.
Qed.


Lemma find_all_false (A : Type) (f : A -> bool) (l : list A) :
  (forall x, In x l -> f x = false) -> find f l = None.
Proof.
  induction l as [|x l IH]; intros H; [reflexivity|].
  simpl. rewrite (H x) by (now left). apply IH. intros y Hy. apply H. now right.
Qed.



(** ** The states of a slot *)


Lemma covered_slots (s : cache_state) (F L : list nat) (B : nat -> list nat) :
  cache_rep s F L B ->
  (covered F L <->
   forall i, i < CACHE_SIZE -> slot_free s F L B i \/ slot_linked s F L B i).
Proof.
  intros R. split.
  - intros Hc i Hi. destruct (Hc i Hi) as [HF|HL].
    + left. pose proof (rep_disj R _ HF) as HnL. repeat split; auto.
      * destruct (valid (entry s i)) eqn:E; [|reflexivity].
        exfalso. apply HnL. now apply (rep_valid R).
      * intros h Hh. apply HnL. eapply (rep_bucket_key R); eauto.
    + right. repeat split; auto.
      * intros HF. now apply (rep_disj R _ HF).
      * intros Hh. symmetry. eapply (rep_bucket_key R); eauto.
      * intros ->. now apply (rep_lru_bucket R).
  - intros H i Hi. destruct (H i Hi) as [(HF & _)|(_ & HL & _)]; auto.
Qed.

(** The device calls that obtaining a slot costs: none, or the
    write-back of the victim. *)
Lemma obtained_log (w : world) (F L : list nat) (f : nat) (w1 : world)
      (F1 L1 : list nat) :
  obtained w F L f w1 F1 L1 -> exists wb, io_log w1 = io_log w ++ wb.
Proof.
  intros [(_ & _ & _ & _ & Hl)|(_ & _ & _ & _ & H)].
  - exists []. rewrite app_nil_r. exact Hl.
  - destruct (valid (entry (cache w) f) && dirty (entry (cache w) f)).
    + destruct H as [_ Hl]. eexists. exact Hl.
    + destruct H as [_ Hl]. exists []. rewrite app_nil_r. exact Hl.
Qed.

(** A read or write returns.  Either it leaves lists that still cover
    the pool, or it is a read that returns the error of the device read
    it issued, the last device call in the log. *)
Lemma access_lists (o : op) (p sec : Z) (w : world) (F L : list nat)
      (B : nat -> list nat) :
  cache_rep (cache w) F L B -> op_key o = Some (p, sec) ->
  exists r w',
    exec o w = Some (r, w') /\
    ((exists F' L' B',
         cache_rep (cache w') F' L' B' /\
         (covered F L -> covered F' L') /\
         (all_valid (cache w) L -> all_valid (cache w') L'))
     \/
     (is_write_op o = false /\ is_ok r = false /\
      exists wb, io_log w' = io_log w ++ wb ++ [IoRead p sec r])).
Proof.
  intros R Hk.
  destruct (@access_cases o p sec w F L B R Hk) as [H|[H|[H|H]]].
  - destruct H as (e & w' & _ & He & R' & HeL & Hlt & _ & _ & Hv & _ & _ &
                   _ & FK & Hv' & _).
    exists RES_OK, w'. split; [exact He|]. left.
    exists F, (e :: del e L), B. split; [exact R'|]. split.
    + intros Hc i Hi. destruct (Hc i Hi) as [|HL]; [now left|]. right.
      destruct (Nat.eq_dec i e) as [->|]; [now left|]. right. now apply in_del.
    + intros Ha i [<-|Hi]; [exact Hv'|].
      apply in_del in Hi. destruct Hi as [Hi Hne].
      destruct (FK i Hne) as [-> _]. now apply Ha.
  - destruct H as (f & w1 & w' & F1 & L1 & B' & _ & _ & Hob & _ & FK & He & R' &
                   Hlt & _ & HnL & SK & _ & _ & Hv' & _).
    exists RES_OK, w'. split; [exact He|]. left.
    exists F1, (f :: L1), B'. split; [exact R'|].
    assert (forall i, In i L1 -> In i L) as Hsub.
    { destruct Hob as [(_ & -> & _)|(_ & _ & -> & _)]; auto.
      intros i Hi. rewrite in_app_iff. now left. }
    split.
    + intros Hc i Hi. destruct (Nat.eq_dec i f) as [->|Hne]; [right; now left|].
      destruct Hob as [(-> & -> & _)|(-> & -> & -> & _)].
      * destruct (Hc i Hi) as [[|HF]|HL]; [congruence|now left|right; now right].
      * destruct (Hc i Hi) as [[]|HL]. right. right.
        apply in_app_iff in HL. destruct HL as [|[|[]]]; [assumption|congruence].
    + intros Ha i [<-|Hi]; [exact Hv'|].
      assert (i <> f) as Hne by (intros ->; contradiction).
      destruct (SK i Hne) as (_ & _ & -> & _). destruct (FK i Hne) as [-> _].
      apply Ha. now apply Hsub.
  - destruct H as (w1 & _ & _ & Hn & He & R').
    exists (s_evict_error (cache w1)), w1. split; [exact He|]. left.
    exists F, L, B. split; [exact R'|]. split; [auto|].
    intros Ha i Hi. destruct Hn as (_ & Hc & _).
    unfold entry. rewrite Hc. now apply Ha.
  - destruct H as (f & w1 & w' & F1 & L1 & B1 & result & buf &
                   _ & _ & Hob & _ & _ & Hw & _ & Hbad & He & _ & Hlog & _).
    exists result, w'. split; [exact He|]. right.
    split; [exact Hw|]. split; [exact Hbad|].
    destruct (obtained_log Hob) as (wb & Hl1).
    exists wb. rewrite Hlog, Hl1. symmetry. apply app_assoc.
Qed.

Lemma flush_lists (fa ia : bool) (w : world) (F L : list nat) (B : nat -> list nat) :
  cache_rep (cache w) F L B ->
  exists r w', exec (OpFlush fa ia) w = Some (r, w') /\ cache_rep (cache w') F L B.
Proof.
  intros R. simpl. pose proof (@rep_flush fa ia w F L B R) as R'.
  destruct (block_cache_flush fa ia w) as [r w']. now exists r, w'.
Qed.

Lemma init_covered : covered (rev (seq 0 CACHE_SIZE)) [].
Proof. intros i Hi. left. rewrite <- in_rev. apply in_seq. lia. Qed.

(** C4 (as amended): [block_cache_init] on the start-up state (free-list
    head NULL) establishes, and every call of
    [block_cache_write_block], of [block_cache_flush] with any flags and
    of [block_cache_read_block] returns and preserves: every slot of the
    pool is either free or linked (and every valid slot is linked).  The
    one exception is a read whose device read fails: it returns the
    error of that read, the last device call in the log.  So the
    invariant holds after every call all of whose device reads
    succeeded. *)
Theorem C4_pool_invariant (o : op) (w : world) :
  (if is_init o then s_free_head (cache w) = None else pool_inv (cache w)) ->
  exists r w',
    exec o w = Some (r, w') /\
    (pool_inv (cache w') \/
     exists p sec out wb,
       o = OpRead p sec out /\ is_ok r = false /\
       io_log w' = io_log w ++ wb ++ [IoRead p sec r]) /\
    (forall evs,
        io_log w' = io_log w ++ evs ->
        (forall p sec r', In (IoRead p sec r') evs -> r' = RES_OK) ->
        pool_inv (cache w')).
Proof.
  intros Hpre.
  assert (exists r w',
             exec o w = Some (r, w') /\
             (pool_inv (cache w') \/
              exists p sec out wb,
                o = OpRead p sec out /\ is_ok r = false /\
                io_log w' = io_log w ++ wb ++ [IoRead p sec r])) as H.
  { destruct o as [|p sec out|p sec d|fa ia]; simpl in Hpre.
    - exists RES_OK, (with_cache block_cache_init w). split; [reflexivity|]. left.
      unfold with_cache; cbn [cache].
      pose proof (init_rep _ Hpre) as R.
      eexists _, _, _. split; [exact R|].
      apply (covered_slots R), init_covered.
    - destruct Hpre as (F & L & B & R & Hs).
      destruct (@access_lists (OpRead p sec out) p sec w F L B R eq_refl)
        as (r & w' & He & [(F' & L' & B' & R' & Hc & _)|(_ & Hbad & wb & Hlog)]);
        exists r, w'; (split; [exact He|]).
      + left. exists F', L', B'. split; [exact R'|].
        apply (covered_slots R'), Hc, (covered_slots R), Hs.
      + right. now exists p, sec, out, wb.
    - destruct Hpre as (F & L & B & R & Hs).
      destruct (@access_lists (OpWrite p sec d) p sec w F L B R eq_refl)
        as (r & w' & He & [(F' & L' & B' & R' & Hc & _)|(Hw & _)]);
        [|discriminate Hw].
      exists r, w'. split; [exact He|]. left. exists F', L', B'. split; [exact R'|].
      apply (covered_slots R'), Hc, (covered_slots R), Hs.
    - destruct Hpre as (F & L & B & R & Hs).
      destruct (@flush_lists fa ia w F L B R) as (r & w' & He & R').
      exists r, w'. split; [exact He|]. left. exists F, L, B. split; [exact R'|].
      apply (covered_slots R'), (covered_slots R), Hs. }
  destruct H as (r & w' & He & Hd).
  exists r, w'. split; [exact He|]. split; [exact Hd|].
  intros evs Hlog Hok.
  destruct Hd as [Hp|(p & sec & out & wb & _ & Hbad & Hl)]; [exact Hp|].
  exfalso. rewrite Hl in Hlog. apply app_inv_head in Hlog. subst evs.
  assert (r = RES_OK) as E.
  { apply (Hok p sec). apply in_or_app. right. now left. }
  rewrite E in Hbad. discriminate Hbad.
Qed.

(** The invariant of the specification does hold after initialisation
    and is kept by writes; it is the invalidating flush that breaks it. *)
Lemma spec_pool_inv_intro (s : cache_state) (F L : list nat) (B : nat -> list nat) :
  cache_rep s F L B -> covered F L -> all_valid s L -> spec_pool_inv s.
Proof.
  intros R Hc Ha. exists F, L, B. split; [exact R|].
  intros i Hi. destruct (proj1 (covered_slots R) Hc i Hi) as [H|H]; [now left|].
  right. split; [|exact H]. apply Ha. apply H.
Qed.

Lemma spec_pool_inv_elim (s : cache_state) :
  spec_pool_inv s ->
  exists F L B, cache_rep s F L B /\ covered F L /\ all_valid s L.
Proof.
  intros (F & L & B & R & Hs). exists F, L, B. split; [exact R|]. split.
  - intros i Hi. destruct (Hs i Hi) as [(HF & _)|(_ & _ & HL & _)]; auto.
  - intros i Hi.
    assert (i < CACHE_SIZE) as Hlt
        by (rewrite <- (rep_len R); apply (@lru_rep_in_bound s L i (rep_lru R) Hi)).
    destruct (Hs i Hlt) as [(_ & _ & HnL & _)|(Hv & _)]; [contradiction|exact Hv].
Qed.

Lemma init_spec_pool_inv (s : cache_state) :
  s_free_head s = None -> spec_pool_inv (block_cache_init s).
Proof.
  intros H. apply spec_pool_inv_intro with (1 := init_rep _ H).
  - apply init_covered.
  - intros i [].
Qed.

Lemma write_spec_pool_inv (p sec : Z) (d : block) (w : world) :
  spec_pool_inv (cache w) ->
  exists r w', exec (OpWrite p sec d) w = Some (r, w') /\ spec_pool_inv (cache w').
Proof.
  intros H. destruct (spec_pool_inv_elim H) as (F & L & B & R & Hc & Ha).
  destruct (@access_lists (OpWrite p sec d) p sec w F L B R eq_refl)
    as (r & w' & He & [(F' & L' & B' & R' & Hc' & Ha')|(Hw & _)]);
    [|discriminate Hw].
  exists r, w'. split; [exact He|]. eapply spec_pool_inv_intro; eauto.
Qed.


(** A property of every slot of the pool, checked by running through it. *)
Lemma forall_below (P : nat -> bool) (n : nat) :
  forallb P (seq 0 n) = true -> forall i, i < n -> P i = true.
Proof.
  intros H i Hi. rewrite forallb_forall in H. apply H. apply in_seq. lia.
Qed.


(** ** Recency order and eviction *)


Lemma key_eqb_eq (k k' : Z * Z) : key_eqb k k' = true <-> k = k'.
Proof.
  destruct k as [a b], k' as [a' b']. unfold key_eqb; cbn [fst snd].
  rewrite andb_true_iff, !Z.eqb_eq. split.
  - intros [-> ->]. reflexivity.
  - intros H. inversion H. auto.
Qed.

Lemma map_del_filter (f : nat -> Z * Z) (k : Z * Z) (e : nat) (l : list nat) :
  (forall i, In i l -> (f i = k <-> i = e)) ->
  map f (del e l) = filter (fun k' => negb (key_eqb k k')) (map f l).
Proof.
  induction l as [|x l IH]; intros H; [reflexivity|].
  unfold del in *. cbn [filter map].
  assert (negb (x =? e) = negb (key_eqb k (f x))) as ->.
  { f_equal. destruct (Nat.eqb_spec x e) as [E|E].
    - symmetry. apply key_eqb_eq. symmetry. apply H; [now left|exact E].
    - destruct (key_eqb k (f x)) eqn:K; [|reflexivity].
      exfalso. apply E. apply H; [now left|]. symmetry. now apply key_eqb_eq. }
  destruct (negb (key_eqb k (f x))); cbn [map]; rewrite IH; auto.
  - intros i Hi. apply H. now right.
  - intros i Hi. apply H. now right.
Qed.

Lemma existsb_key_in (k : Z * Z) (ks : list (Z * Z)) :
  In k ks -> existsb (key_eqb k) ks = true.
Proof.
  intros H. apply existsb_exists. exists k. split; [exact H|]. now apply key_eqb_eq.
Qed.

Lemma existsb_key_out (k : Z * Z) (ks : list (Z * Z)) :
  ~ In k ks -> existsb (key_eqb k) ks = false.
Proof.
  intros H. destruct (existsb (key_eqb k) ks) eqn:E; [|reflexivity].
  exfalso. apply existsb_exists in E. destruct E as (k' & Hk & E).
  apply key_eqb_eq in E. subst k'. contradiction.
Qed.

Lemma slot_key_kept (s s' : cache_state) (i : nat) :
  keys_kept s s' -> slot_key s' i = slot_key s i.
Proof. intros H. unfold slot_key. destruct (H i) as [-> ->]. reflexivity. Qed.

Lemma rep_L_bound (s : cache_state) (F L : list nat) (B : nat -> list nat) (i : nat) :
  cache_rep s F L B -> In i L -> i < CACHE_SIZE.
Proof.
  intros R Hi. rewrite <- (rep_len R). apply (@lru_rep_in_bound s L i (rep_lru R) Hi).
Qed.

Lemma rep_L_NoDup (s : cache_state) (F L : list nat) (B : nat -> list nat) :
  cache_rep s F L B -> NoDup L.
Proof. intros R. apply (rep_lru R). Qed.

(** Among valid slots of the recency list a key names its slot. *)
Lemma slot_key_inj (s : cache_state) (F L : list nat) (B : nat -> list nat) (i j : nat) :
  cache_rep s F L B -> all_valid s L -> In i L -> In j L ->
  slot_key s i = slot_key s j -> i = j.
Proof.
  intros R Ha Hi Hj E. unfold slot_key in E. inversion E as [[Ep Es]].
  apply (rep_uniq R); auto; eapply rep_L_bound; eauto.
Qed.

(** The recency list is full exactly when the free list is empty. *)
Lemma full_length (L : list nat) : covered [] L -> CACHE_SIZE <= length L.
Proof.
  intros Hc. rewrite <- (length_seq CACHE_SIZE 0).
  apply NoDup_incl_length; [apply seq_NoDup|].
  intros i Hi. apply in_seq in Hi. destruct (Hc i) as [[]|H]; [lia|exact H].
Qed.

Lemma room_length (s : cache_state) (F L : list nat) (B : nat -> list nat) (f : nat) :
  cache_rep s F L B -> f < CACHE_SIZE -> ~ In f L -> length L < CACHE_SIZE.
Proof.
  intros R Hf Hn.
  assert (length (f :: L) <= CACHE_SIZE) as H.
  { apply NoDup_bounded_length.
    - constructor; [exact Hn|apply (@rep_L_NoDup _ _ _ _ R)].
    - intros i [<-|Hi]; [exact Hf|apply (@rep_L_bound _ _ _ _ _ R Hi)]. }
  simpl in H. lia.
Qed.

Lemma full_all (s : cache_state) (F L : list nat) (B : nat -> list nat) :
  cache_rep s F L B -> length L = CACHE_SIZE -> forall i, i < CACHE_SIZE -> In i L.
Proof.
  intros R Hl i Hi.
  destruct (in_dec Nat.eq_dec i L) as [H|H]; [exact H|].
  pose proof (@room_length _ _ _ _ _ R Hi H). lia.
Qed.

(** No valid slot holds a key that the lookup misses. *)
Lemma miss_not_held (s : cache_state) (F L : list nat) (B : nat -> list nat) (p sec : Z) :
  cache_rep s F L B -> all_valid s L -> hash_lookup s p sec = Some None ->
  ~ In (p, sec) (map (slot_key s) L).
Proof.
  intros R Ha Hl H. apply in_map_iff in H. destruct H as (i & E & Hi).
  unfold slot_key in E. inversion E.
  apply (@rep_lookup_miss _ _ _ _ _ _ R Hl i); auto.
  apply (@rep_L_bound _ _ _ _ _ R Hi).
Qed.

(** A held key is found in its slot. *)
Lemma held_lookup (s : cache_state) (F L : list nat) (B : nat -> list nat) (i : nat) :
  cache_rep s F L B -> all_valid s L -> In i L ->
  hash_lookup s (fst (slot_key s i)) (snd (slot_key s i)) = Some (Some i).
Proof.
  intros R Ha Hi. unfold slot_key; cbn [fst snd].
  apply (@rep_lookup_cached _ _ _ _ _ R); [apply (@rep_L_bound _ _ _ _ _ R Hi)|now apply Ha].
Qed.

(** A key that no slot of the recency list holds is missed. *)
Lemma not_held_miss (s : cache_state) (F L : list nat) (B : nat -> list nat) (p sec : Z) :
  cache_rep s F L B -> ~ In (p, sec) (map (slot_key s) L) ->
  hash_lookup s p sec = Some None.
Proof.
  intros R Hn. destruct (hash_lookup s p sec) as [[j|]|] eqn:Hl.
  - exfalso. destruct (@rep_lookup_hit _ _ _ _ _ _ _ R Hl) as (Hj & _ & _ & Hs & Hp).
    apply Hn. apply in_map_iff. exists j. split; [|exact Hj].
    unfold slot_key. now rewrite Hs, Hp.
  - reflexivity.
  - rewrite (rep_lookup p sec R) in Hl. discriminate Hl.
Qed.

(** One successful read or write moves the recency list of the code as
    [touch] moves the list of keys. *)
Lemma touch_step (o : op) (p sec : Z) (w w' : world) (ks : list (Z * Z)) :
  lru_keys (cache w) ks -> op_key o = Some (p, sec) ->
  exec o w = Some (RES_OK, w') ->
  lru_keys (cache w') (touch (p, sec) ks).
Proof.
  intros (F & L & B & R & Hc & Ha & Hm) Hk Hex.
  destruct (@access_cases o p sec w F L B R Hk) as [H|[H|[H|H]]].
  - destruct H as (e & w0 & Hl & He & R' & HeL & Hlt & Hs & Hp & Hv & _ & _ &
                   KK & FK & Hv' & _).
    assert (w0 = w') as -> by congruence.
    assert (slot_key (cache w) e = (p, sec)) as Hke
        by (unfold slot_key; now rewrite Hs, Hp).
    unfold touch. rewrite existsb_key_in
      by (rewrite <- Hm; apply in_map_iff; exists e; auto).
    exists F, (e :: del e L), B. split; [exact R'|]. split; [|split].
    + intros i Hi. destruct (Hc i Hi) as [|HL]; [now left|]. right.
      destruct (Nat.eq_dec i e) as [->|]; [now left|]. right. now apply in_del.
    + intros i [<-|Hi]; [exact Hv'|].
      apply in_del in Hi. destruct Hi as [Hi Hne].
      destruct (FK i Hne) as [-> _]. now apply Ha.
    + cbn [map]. rewrite (@slot_key_kept _ _ e KK), Hke. f_equal.
      rewrite (map_ext _ (slot_key (cache w)))
        by (intros i; apply (@slot_key_kept _ _ i KK)).
      rewrite <- Hm. apply map_del_filter.
      intros i Hi. split.
      * intros E. apply (@slot_key_inj _ _ _ _ _ _ R Ha Hi HeL). congruence.
      * intros ->. exact Hke.
  - destruct H as (f & w1 & w0 & F1 & L1 & B' & Hl & _ & Hob & KK & FK & He & R' &
                   Hlt & _ & HnL & SK & Hs & Hp & Hv' & _).
    assert (w0 = w') as -> by congruence.
    assert (forall i, In i L1 -> In i L) as Hsub.
    { destruct Hob as [(_ & -> & _)|(_ & _ & -> & _)]; auto.
      intros i Hi. rewrite in_app_iff. now left. }
    assert (map (slot_key (cache w')) (f :: L1)
            = (p, sec) :: map (slot_key (cache w)) L1) as Hmap.
    { cbn [map]. f_equal; [unfold slot_key; now rewrite Hs, Hp|].
      apply map_ext_in. intros i Hi.
      assert (i <> f) as Hne by (intros ->; contradiction).
      unfold slot_key. destruct (SK i Hne) as (-> & -> & _).
      destruct (KK i) as [-> ->]. reflexivity. }
    unfold touch. rewrite existsb_key_out
      by (rewrite <- Hm; apply (@miss_not_held _ _ _ _ _ _ R Ha Hl)).
    exists F1, (f :: L1), B'. split; [exact R'|]. split; [|split].
    + intros i Hi. destruct (Nat.eq_dec i f) as [->|Hne]; [right; now left|].
      destruct Hob as [(-> & -> & _)|(-> & -> & -> & _)].
      * destruct (Hc i Hi) as [[|HF]|HL]; [congruence|now left|right; now right].
      * destruct (Hc i Hi) as [[]|HL]. right. right.
        apply in_app_iff in HL. destruct HL as [|[|[]]]; [assumption|congruence].
    + intros i [<-|Hi]; [exact Hv'|].
      assert (i <> f) as Hne by (intros ->; contradiction).
      destruct (SK i Hne) as (_ & _ & -> & _). destruct (FK i Hne) as [-> _].
      apply Ha. now apply Hsub.
    + rewrite Hmap. rewrite <- Hm. rewrite length_map.
      destruct Hob as [(-> & -> & _)|(-> & -> & -> & _)].
      * pose proof (@room_length _ _ _ _ _ R Hlt HnL) as Hroom.
        apply Nat.ltb_lt in Hroom. rewrite Hroom. reflexivity.
      * pose proof (@full_length _ Hc) as Hfull.
        apply Nat.ltb_ge in Hfull. rewrite Hfull.
        rewrite map_app. cbn [map]. now rewrite removelast_last.
  - exfalso. destruct H as (w1 & _ & _ & (_ & _ & _ & _ & _ & _ & _ & Hbad & _) & He & _).
    rewrite He in Hex. inversion Hex as [[E1 E2]]. rewrite E1 in Hbad. discriminate Hbad.
  - exfalso. destruct H as (f & w1 & w0 & F1 & L1 & B1 & result & buf &
                            _ & _ & _ & _ & _ & _ & _ & Hbad & He & _).
    rewrite He in Hex. inversion Hex as [[E1 E2]]. rewrite E1 in Hbad. discriminate Hbad.
Qed.

(** The flush that does not invalidate leaves keys and valid bits alone. *)
Lemma flush_loop_keeps (idx : list nat) (fa : bool) :
  forall w j,
    valid (entry (cache (snd (flush_loop idx fa false w))) j) = valid (entry (cache w) j) /\
    sector (entry (cache (snd (flush_loop idx fa false w))) j)
      = sector (entry (cache w) j) /\
    pdrv (entry (cache (snd (flush_loop idx fa false w))) j) = pdrv (entry (cache w) j).
Proof.
  induction idx as [|i idx IH]; intros w j; [auto|].
  simpl. destruct (valid (entry (cache w) i) && dirty (entry (cache w) i)).
  - pose proof (write_back_cache_eq i w) as Ec.
    destruct (write_back i w) as [result w1]. simpl in Ec.
    destruct (is_ok result); [|simpl; now rewrite Ec].
    assert (valid (entry (upd_entry i (set_dirty false) (cache w1)) j)
              = valid (entry (cache w) j) /\
            sector (entry (upd_entry i (set_dirty false) (cache w1)) j)
              = sector (entry (cache w) j) /\
            pdrv (entry (upd_entry i (set_dirty false) (cache w1)) j)
              = pdrv (entry (cache w) j)) as Hd.
    { rewrite (@entry_upd_field bool valid) by reflexivity.
      rewrite (@entry_upd_field Z sector) by reflexivity.
      rewrite (@entry_upd_field Z pdrv) by reflexivity.
      now rewrite Ec. }
    destruct fa; [|exact Hd].
    destruct (IH (with_cache (upd_entry i (set_dirty false)) w1) j) as (-> & -> & ->).
    exact Hd.
  - apply IH.
Qed.

Lemma flush_keeps (fa : bool) (w : world) (ks : list (Z * Z)) :
  lru_keys (cache w) ks ->
  lru_keys (cache (snd (block_cache_flush fa false w))) ks.
Proof.
  intros (F & L & B & R & Hc & Ha & Hm).
  pose proof (@rep_flush fa false w F L B R) as R'.
  assert (forall j,
             valid (entry (cache (snd (block_cache_flush fa false w))) j)
               = valid (entry (cache w) j) /\
             slot_key (cache (snd (block_cache_flush fa false w))) j
               = slot_key (cache w) j) as Hk.
  { intros j. unfold block_cache_flush, slot_key.
    destruct (s_dirty_blocks (cache w)); [|auto].
    pose proof (@flush_loop_keeps (seq 0 CACHE_SIZE) fa w j) as H.
    destruct (flush_loop (seq 0 CACHE_SIZE) fa false w) as [[r|] w1]; cbn [snd fst] in *.
    - destruct H as (-> & -> & ->); auto.
    - unfold with_cache; cbn [cache].
      change (entry (set_dirty_blocks false (cache w1)) j) with (entry (cache w1) j).
      destruct H as (-> & -> & ->); auto. }
  exists F, L, B. split; [exact R'|]. split; [exact Hc|]. split.
  - intros i Hi. destruct (Hk i) as [-> _]. now apply Ha.
  - rewrite <- Hm. apply map_ext. intros i. apply Hk.
Qed.

Lemma run_ok_cons (o : op) (ops : list op) (w : world) :
  run_ok (o :: ops) w =
  match exec o w with Some (RES_OK, w') => run_ok ops w' | _ => None end.
Proof. reflexivity. Qed.

(** The recency list of the code follows the recency order on keys
    along every run of successful calls. *)
Lemma run_ok_keys (accs : list op) :
  forall w w' ks,
    forallb keeps_slots accs = true -> lru_keys (cache w) ks ->
    run_ok accs w = Some w' ->
    lru_keys (cache w') (recency_from ks accs).
Proof.
  induction accs as [|o accs IH]; intros w w' ks Hf Hi Hr.
  - inversion Hr; subst. exact Hi.
  - cbn [forallb] in Hf. apply andb_true_iff in Hf. destruct Hf as [Ho Hf].
    rewrite run_ok_cons in Hr.
    destruct (exec o w) as [[r w1]|] eqn:He; [|discriminate Hr].
    destruct r; try discriminate Hr.
    unfold recency_from. cbn [fold_left].
    apply (IH w1 w' _ Hf); [|exact Hr].
    destruct o as [|p sec out|p sec d|fa ia]; cbn [op_key].
    + discriminate Ho.
    + apply (@touch_step (OpRead p sec out) p sec w w1 ks Hi eq_refl He).
    + apply (@touch_step (OpWrite p sec d) p sec w w1 ks Hi eq_refl He).
    + cbn [keeps_slots] in Ho. apply negb_true_iff in Ho. subst ia.
      cbn [exec] in He. inversion He as [He'].
      pose proof (@flush_keeps fa w ks Hi) as H. rewrite He' in H. exact H.
Qed.

Lemma init_lru_keys (s : cache_state) :
  s_free_head s = None -> lru_keys (block_cache_init s) [].
Proof.
  intros H. exists (rev (seq 0 CACHE_SIZE)), [], (fun _ => []).
  split; [now apply init_rep|]. split; [apply init_covered|].
  split; [intros i []|reflexivity].
Qed.

Lemma history_keys (accs : list op) (w0 w : world) :
  s_free_head (cache w0) = None ->
  forallb keeps_slots accs = true ->
  run_ok (OpInit :: accs) w0 = Some w ->
  lru_keys (cache w) (recency accs).
Proof.
  intros H0 Hf Hr. rewrite run_ok_cons in Hr.
  change (exec OpInit w0) with (Some (RES_OK, with_cache block_cache_init w0)) in Hr.
  cbv beta iota in Hr.
  apply (@run_ok_keys accs (with_cache block_cache_init w0) w [] Hf); [|exact Hr].
  unfold with_cache; cbn [cache]. now apply init_lru_keys.
Qed.


(** Filling the pool with distinct keys: the recency order is then the
    order of the calls, latest first, so the key that leaves next is the
    first one written or read. *)
Lemma recency_from_distinct (accs : list op) :
  forall ks ks0,
    map op_key accs = map Some ks -> NoDup (rev ks0 ++ ks) ->
    length (ks0 ++ ks) <= CACHE_SIZE ->
    recency_from ks0 accs = rev ks ++ ks0.
Proof.
  induction accs as [|o accs IH]; intros ks ks0 Hm Hn Hl.
  - destruct ks; [reflexivity|discriminate Hm].
  - destruct ks as [|k ks]; [discriminate Hm|].
    cbn [map] in Hm. inversion Hm as [[Ho Hm']].
    unfold recency_from. cbn [fold_left]. rewrite Ho.
    assert (touch k ks0 = k :: ks0) as ->.
    { unfold touch. rewrite existsb_key_out.
      - rewrite length_app in Hl. cbn [length] in Hl.
        assert (length ks0 < CACHE_SIZE) as Hlt by lia.
        apply Nat.ltb_lt in Hlt. now rewrite Hlt.
      - intros Hin. apply NoDup_remove_2 in Hn. apply Hn.
        apply in_app_iff. left. now apply in_rev in Hin. }
    change (recency_from (k :: ks0) accs = rev (k :: ks) ++ ks0).
    rewrite (IH ks (k :: ks0) Hm').
    + cbn [rev]. now rewrite <- app_assoc.
    + cbn [rev]. now rewrite <- app_assoc.
    + rewrite length_app in *. cbn [length] in *. lia.
Qed.

Lemma recency_distinct (accs : list op) (ks : list (Z * Z)) :
  map op_key accs = map Some ks -> NoDup ks -> length ks <= CACHE_SIZE ->
  recency accs = rev ks.
Proof.
  intros Hm Hn Hl. unfold recency.
  rewrite (@recency_from_distinct accs ks [] Hm Hn Hl). apply app_nil_r.
Qed.

Lemma not_in_key (k : Z * Z) (ks : list (Z * Z)) :
  existsb (key_eqb k) ks = false -> ~ In k ks.
Proof.
  intros H Hin. rewrite (@existsb_key_in k ks Hin) in H. discriminate H.
Qed.

(** What an access that obtained its slot [f] by eviction leaves behind:
    [f] was the tail [e] of the recency list, the device log has grown
    by the write-back of [e] exactly when [e] needed one, the key that
    [e] held is missed, and the other keys are still found. *)
Lemma after_eviction (w w1 w' : world) (F F1 L0 L1 L' : list nat) (e f : nat)
      (B B' : nat -> list nat) :
  cache_rep (cache w) F (L0 ++ [e]) B -> all_valid (cache w) (L0 ++ [e]) ->
  length (L0 ++ [e]) = CACHE_SIZE ->
  obtained w F (L0 ++ [e]) f w1 F1 L1 ->
  f < CACHE_SIZE -> ~ In f L1 ->
  keys_kept (cache w) (cache w1) -> flags_kept_except (cache w) (cache w1) f ->
  slots_kept_except (cache w1) (cache w') f ->
  cache_rep (cache w') F1 L' B' ->
  (forall j, In j L1 -> In j L') ->
  (forall j, In j L' -> In j L1 \/ slot_key (cache w') j <> slot_key (cache w) e) ->
  f = e /\
  io_log w1 = io_log w ++ (if needs_write_back (cache w) e
                           then [write_event (cache w) e] else []) /\
  hash_lookup (cache w') (pdrv (entry (cache w) e)) (sector (entry (cache w) e))
    = Some None /\
  forall k, In k (map (slot_key (cache w)) (L0 ++ [e])) -> k <> slot_key (cache w) e ->
            exists j, hash_lookup (cache w') (fst k) (snd k) = Some (Some j).
Proof.
  intros R Ha HL Hob Hlt HnL KK FK SK R' Hsub HL'.
  assert (In e (L0 ++ [e])) as HeL by (apply in_app_iff; right; now left).
  destruct Hob as [(_ & -> & _)|(_ & _ & HLeq & _ & Hwb)].
  { exfalso. apply HnL. apply (@full_all _ _ _ _ R HL f Hlt). }
  apply app_inj_tail in HLeq. destruct HLeq as [EL Ee]. subst L1 f.
  assert (forall j, In j L0 ->
                    j <> e /\ slot_key (cache w') j = slot_key (cache w) j /\
                    valid (entry (cache w') j) = true) as Hkeep.
  { intros j Hj.
    assert (j <> e) as Hne by (intros ->; contradiction).
    split; [exact Hne|].
    destruct (SK j Hne) as (Es & Ep & Ev & _). destruct (KK j) as [Ks Kp].
    destruct (FK j Hne) as [Kv _].
    split; [unfold slot_key; congruence|].
    rewrite Ev, Kv. apply Ha. apply in_app_iff. now left. }
  split; [reflexivity|]. split; [|split].
  - unfold needs_write_back, write_event.
    destruct (valid (entry (cache w) e) && dirty (entry (cache w) e));
      destruct Hwb as [_ ->]; [reflexivity|now rewrite app_nil_r].
  - apply (@not_held_miss _ _ _ _ _ _ R'). intros Hin.
    apply in_map_iff in Hin. destruct Hin as (j & Ej & Hj).
    destruct (HL' j Hj) as [HjL|Hne]; [|apply Hne; exact Ej].
    destruct (Hkeep j HjL) as (Hne & Ekey & _). apply Hne.
    apply (@slot_key_inj _ _ _ _ _ _ R Ha); [apply in_app_iff; now left|exact HeL|].
    rewrite <- Ekey. exact Ej.
  - intros k Hin Hnk. apply in_map_iff in Hin.
    destruct Hin as (j & Ej & Hj). apply in_app_iff in Hj.
    destruct Hj as [Hj|[<-|[]]]; [|congruence].
    destruct (Hkeep j Hj) as (Hne & Ekey & Hvj).
    exists j. subst k. rewrite <- Ekey. unfold slot_key; cbn [fst snd].
    apply (@rep_lookup_cached _ _ _ _ j R'); [|exact Hvj].
    apply (@rep_L_bound _ _ _ _ j R). apply in_app_iff. now left.
Qed.

(** C8: on the start-up state, after [block_cache_init], let [accs] be
    reads, writes and non-invalidating flushes that all returned [RES_OK]
    and after which [CACHE_SIZE] keys are held, and let [o] be a read or
    write of a key that is not held.  The slot [e] at [s_lru_tail] holds
    the key that is last in the recency order of [accs], and the call
    returns.  When the device accepts the write-back of [e], should [e]
    need one, the call has issued one device write, of the block of [e],
    exactly when [e] was dirty, ahead of the device read that fills the
    slot; afterwards the key of [e] is missed and every other key that
    was held is still found; a write returns [RES_OK], and when the call
    returns [RES_OK] the new key is found in slot [e]. *)
Theorem C8_lru_eviction (accs : list op) (o : op) (p sec : Z) (w0 w : world) :
  s_free_head (cache w0) = None ->
  forallb keeps_slots accs = true ->
  run_ok (OpInit :: accs) w0 = Some w ->
  length (recency accs) = CACHE_SIZE ->
  op_key o = Some (p, sec) ->
  ~ In (p, sec) (recency accs) ->
  exists e r w',
    s_lru_tail (cache w) = Some e /\
    slot_key (cache w) e = last (recency accs) (0, 0)%Z /\
    hash_lookup (cache w) (pdrv (entry (cache w) e)) (sector (entry (cache w) e))
      = Some (Some e) /\
    exec o w = Some (r, w') /\
    ((needs_write_back (cache w) e = true ->
      is_ok (fst (disk_write_no_cache (dev w) (pdrv (entry (cache w) e))
                                      (data (entry (cache w) e))
                                      (sector (entry (cache w) e)))) = true) ->
     io_log w' =
       io_log w
       ++ (if needs_write_back (cache w) e then [write_event (cache w) e] else [])
       ++ (if is_write_op o then [] else [IoRead p sec r]) /\
     hash_lookup (cache w') (pdrv (entry (cache w) e)) (sector (entry (cache w) e))
       = Some None /\
     (forall k, In k (recency accs) -> k <> slot_key (cache w) e ->
                exists j, hash_lookup (cache w') (fst k) (snd k) = Some (Some j)) /\
     (is_write_op o = true -> r = RES_OK) /\
     (r = RES_OK -> hash_lookup (cache w') p sec = Some (Some e))).
Proof.
  intros H0 Hf Hr Hlen Hk Hnew.
  destruct (@history_keys accs w0 w H0 Hf Hr) as (F & L & B & R & Hc & Ha & Hm).
  assert (length L = CACHE_SIZE) as HL by (rewrite <- Hlen, <- Hm, length_map; reflexivity).
  destruct (list_last_cases L) as [->|(L0 & e & ->)].
  { exfalso. cbn [length] in HL. rewrite CACHE_SIZE_eq in HL. discriminate HL. }
  assert (In e (L0 ++ [e])) as HeL by (apply in_app_iff; right; now left).
  assert (s_lru_tail (cache w) = Some e) as Htail
      by (rewrite (@rep_tail _ _ _ _ R), rev_app_distr; reflexivity).
  assert (slot_key (cache w) e = last (recency accs) (0, 0)%Z) as Hvk
      by (rewrite <- Hm, map_app; cbn [map]; now rewrite last_last).
  assert (hash_lookup (cache w) (pdrv (entry (cache w) e)) (sector (entry (cache w) e))
          = Some (Some e)) as Hheld
      by (apply (@held_lookup _ _ _ _ e R Ha HeL)).
  assert (hash_lookup (cache w) p sec = Some None) as Hmiss
      by (apply (@not_held_miss _ _ _ _ _ _ R); rewrite Hm; exact Hnew).
  assert (slot_key (cache w) e <> (p, sec)) as Hother.
  { intros E. apply Hnew. rewrite <- Hm. apply in_map_iff. exists e. auto. }
  exists e.
  destruct (@access_cases o p sec w F (L0 ++ [e]) B R Hk) as [H|[H|[H|H]]].
  - exfalso. destruct H as (e0 & w' & Hl & _). congruence.
  - destruct H as (f & w1 & w' & F1 & L1 & B' & _ & _ & Hob & KK & FK & He & R' &
                   Hlt & _ & HnL & SK & Hs & Hp & Hv' & _ & _ & Hio).
    exists RES_OK, w'.
    split; [exact Htail|]. split; [exact Hvk|]. split; [exact Hheld|].
    split; [exact He|]. intros _.
    assert (slot_key (cache w') f = (p, sec)) as Hnewkey
        by (unfold slot_key; now rewrite Hs, Hp).
    destruct (@after_eviction w w1 w' F F1 L0 L1 (f :: L1) e f B B'
                R Ha HL Hob Hlt HnL KK FK SK R') as (Ef & Hlog1 & Hgone & Hrest).
    { intros j Hj. now right. }
    { intros j [<-|Hj]; [right|now left]. rewrite Hnewkey. congruence. }
    subst f. split; [|split; [exact Hgone|split; [|split]]].
    + assert (io_log w' = io_log w1 ++ (if is_write_op o then []
                                         else [IoRead p sec RES_OK])) as Hlog2.
      { destruct (is_write_op o).
        - destruct Hio as [_ ->]. now rewrite app_nil_r.
        - destruct Hio as (buf & _ & ->). reflexivity. }
      rewrite Hlog2, Hlog1. symmetry. apply app_assoc.
    + intros k Hin. apply Hrest. now rewrite Hm.
    + reflexivity.
    + intros _. pose proof (@rep_lookup_cached _ _ _ _ e R' Hlt Hv') as H.
      now rewrite Hs, Hp in H.
  - destruct H as (w1 & _ & _ & Hn & He & _).
    exists (s_evict_error (cache w1)), w1.
    split; [exact Htail|]. split; [exact Hvk|]. split; [exact Hheld|].
    split; [exact He|].
    destruct Hn as (_ & _ & _ & _ & _ & _ & _ & Hbad & Hwhy).
    intros Hacc. exfalso.
    destruct Hwhy as [(HLnil & _)|(e' & Ht & Hv & Hd & Hw & _)].
    + destruct L0; discriminate HLnil.
    + assert (e' = e) as -> by congruence.
      rewrite <- Hw in Hacc. cbn [fst] in Hacc.
      rewrite Hacc in Hbad; [discriminate Hbad|].
      unfold needs_write_back. now rewrite Hv, Hd.
  - destruct H as (f & w1 & w' & F1 & L1 & B1 & result & buf &
                   _ & _ & Hob & KK & FK & Hwop & _ & Hbad & He & Hcache & Hlog & R' &
                   (Hlt & _ & HnL & _)).
    exists result, w'.
    split; [exact Htail|]. split; [exact Hvk|]. split; [exact Hheld|].
    split; [exact He|]. intros _.
    assert (slots_kept_except (cache w1) (cache w') f) as SK.
    { intros j _. rewrite Hcache.
      rewrite (@entry_upd_field Z sector) by reflexivity.
      rewrite (@entry_upd_field Z pdrv) by reflexivity.
      rewrite (@entry_upd_field bool valid) by reflexivity.
      rewrite (@entry_upd_field bool dirty) by reflexivity. auto. }
    destruct (@after_eviction w w1 w' F F1 L0 L1 L1 e f B B1
                R Ha HL Hob Hlt HnL KK FK SK R') as (Ef & Hlog1 & Hgone & Hrest).
    { auto. }
    { intros j Hj. now left. }
    split; [|split; [exact Hgone|split; [|split]]].
    + rewrite Hwop, Hlog, Hlog1. symmetry. apply app_assoc.
    + intros k Hin. apply Hrest. now rewrite Hm.
    + intros Hw. congruence.
    + intros E. rewrite E in Hbad. discriminate Hbad.
Qed.


(** * Further properties of the cache code *)

(** ** The list primitives *)

(** X1: [lru_touch] moves the slot to the head of the recency list and
    keeps the order of the other slots; nothing but recency links
    changes (keys, flags, payloads, hash links and the other statics stay
    as they were). *)
Theorem X1_lru_touch_moves_to_front (s : cache_state) (l : list nat) (e : nat) :
  lru_rep s l -> In e l ->
  lru_rep (lru_touch e s) (e :: del e l) /\ same_core s (lru_touch e s).
Proof.
  intros H He. split; [now apply lru_touch_rep|apply lru_touch_core].
Qed.

(** X2: [lru_insert_front] of a slot that is not on the recency list
    puts it at the head, and [lru_remove] of that slot gives the list
    back as it was. *)
Theorem X2_lru_insert_then_remove (s : cache_state) (l : list nat) (e : nat) :
  lru_rep s l -> ~ In e l -> e < length (s_cache s) ->
  lru_rep (lru_insert_front e s) (e :: l) /\
  lru_rep (lru_remove e (lru_insert_front e s)) l /\
  same_core s (lru_remove e (lru_insert_front e s)).
Proof.
  intros H Hn He.
  pose proof (@lru_insert_front_rep s l e H Hn He) as H1.
  split; [exact H1|]. split.
  - rewrite <- (@del_cons_same e l Hn). apply lru_remove_rep; [exact H1|now left].
  - pose proof (lru_insert_front_core e s) as (A1 & A2 & A3 & A4 & A5 & A6).
    pose proof (lru_remove_core e (lru_insert_front e s)) as (B1 & B2 & B3 & B4 & B5 & B6).
    unfold same_core. rewrite B1, B2, B3, B4, B5, A1, A2, A3, A4, A5.
    repeat split; destruct (A6 i) as (? & ? & ? & ? & ? & ?);
      destruct (B6 i) as (? & ? & ? & ? & ? & ?); congruence.
Qed.

(** X3: the free list is a stack threaded through [hash_next]:
    [free_insert] marks the slot invalid and pushes it, and the
    [free_get] that follows hands out that same slot and leaves the list
    as it was before the push. *)
Theorem X3_free_list_is_lifo (s : cache_state) (F : list nat) (e : nat) :
  chain (s_cache s) (s_free_head s) F -> e < length (s_cache s) -> ~ In e F ->
  chain (s_cache (free_insert e s)) (s_free_head (free_insert e s)) (e :: F) /\
  valid (entry (free_insert e s) e) = false /\
  exists s',
    free_get (free_insert e s) = (Some e, s') /\
    s_free_head s' = s_free_head s /\
    chain (s_cache s') (s_free_head s') F.
Proof.
  intros Hc He Hn.
  assert (length (s_cache (upd_entry e (set_valid false) s)) = length (s_cache s)) as L1
      by (unfold upd_entry; cbn [s_cache set_cache]; apply upd_length).
  assert (forall j, hash_next (entry (free_insert e s) j) =
                    if Nat.eqb j e then s_free_head s else hash_next (entry s j)) as Hnext.
  { intros j. unfold free_insert.
    change (entry (set_free_head (Some e) ?x) j) with (entry x j).
    rewrite entry_upd_in by (rewrite L1; exact He).
    destruct (Nat.eqb j e); [reflexivity|].
    now rewrite (@entry_upd_field ptr hash_next) by reflexivity. }
  assert (length (s_cache (free_insert e s)) = length (s_cache s)) as L2.
  { unfold free_insert, upd_entry; cbn [s_cache set_cache set_free_head].
    now rewrite !upd_length. }
  assert (chain (s_cache (free_insert e s)) (s_free_head s) F) as Hc'.
  { apply chain_frame with (c := s_cache s); [exact L2| |exact Hc].
    intros i Hi. fold (entry (free_insert e s) i). fold (entry s i).
    rewrite Hnext. destruct (Nat.eqb_spec i e) as [->|]; [contradiction|reflexivity]. }
  assert (s_free_head (free_insert e s) = Some e) as Hh by reflexivity.
  split; [|split].
  - rewrite Hh. cbn [chain]. split; [reflexivity|]. split; [now rewrite L2|].
    fold (entry (free_insert e s) e). rewrite Hnext, Nat.eqb_refl. exact Hc'.
  - unfold free_insert.
    change (entry (set_free_head (Some e) ?x) e) with (entry x e).
    rewrite (@entry_upd_field bool valid) by reflexivity.
    now rewrite entry_upd_same.
  - unfold free_get. rewrite Hh. eexists. split; [reflexivity|].
    cbn [s_free_head set_free_head s_cache]. rewrite Hnext, Nat.eqb_refl.
    split; [reflexivity|exact Hc'].
Qed.

Lemma find_key_ext (s s' : cache_state) (p sec : Z) (l : list nat) :
  (forall i, valid (entry s' i) = valid (entry s i) /\
             sector (entry s' i) = sector (entry s i) /\
             pdrv (entry s' i) = pdrv (entry s i)) ->
  find (fun i => key_match (entry s' i) p sec) l =
  find (fun i => key_match (entry s i) p sec) l.
Proof.
  intros H. induction l as [|x l IH]; [reflexivity|].
  cbn [find]. unfold key_match at 1 3.
  destruct (H x) as (-> & -> & ->). now rewrite IH.
Qed.

(** X4: [hash_insert] followed by [hash_lookup].  When every bucket of
    the table heads a well-formed chain and the valid slot [e] is on
    none of them, then after [hash_insert] the lookup of the key of [e]
    finds [e], and the lookup of every key that [e] does not hold gives
    what it gave before. *)
Theorem X4_hash_insert_then_lookup (s : cache_state) (B : nat -> list nat) (e : nat) :
  length (s_cache s) = CACHE_SIZE -> length (s_hash_table s) = HASH_SIZE ->
  (forall h, h < HASH_SIZE -> chain (s_cache s) (nth h (s_hash_table s) None) (B h)) ->
  (forall h, ~ In e (B h)) ->
  e < CACHE_SIZE -> valid (entry s e) = true ->
  hash_lookup (hash_insert e s) (pdrv (entry s e)) (sector (entry s e)) = Some (Some e) /\
  forall p sec, key_match (entry s e) p sec = false ->
                hash_lookup (hash_insert e s) p sec = hash_lookup s p sec.
Proof.
  intros Hlen Htl Hch Hne He Hv.
  assert (hkey s e < length (s_hash_table s)) as Hk by (rewrite Htl; apply hkey_lt).
  destruct (@hash_insert_fields e s) as (Hsame & Htab & Hnext);
    [now rewrite Hlen|exact Hk|].
  fold (hkey s e) in Htab, Hnext.
  destruct Hsame as (L1 & L2 & _ & _ & _ & _ & _ & Hf).
  assert (forall i, valid (entry (hash_insert e s) i) = valid (entry s i) /\
                    sector (entry (hash_insert e s) i) = sector (entry s i) /\
                    pdrv (entry (hash_insert e s) i) = pdrv (entry s i)) as Hkeys.
  { intros i. destruct (Hf i) as (? & ? & _ & ? & _). auto. }
  assert (forall h, h < HASH_SIZE ->
            chain (s_cache (hash_insert e s))
                  (nth h (s_hash_table (hash_insert e s)) None)
                  (if Nat.eqb h (hkey s e) then e :: B h else B h)) as Hch'.
  { intros h Hh.
    assert (chain (s_cache (hash_insert e s)) (nth h (s_hash_table s) None) (B h)) as Hold.
    { apply chain_frame with (c := s_cache s); [exact L1| |now apply Hch].
      intros i Hi. fold (entry (hash_insert e s) i). fold (entry s i).
      rewrite Hnext. destruct (Nat.eqb_spec i e) as [->|]; [|reflexivity].
      exfalso. exact (Hne h Hi). }
    rewrite Htab. destruct (Nat.eqb_spec h (hkey s e)) as [->|]; [|exact Hold].
    cbn [chain]. split; [reflexivity|]. split; [rewrite L1, Hlen; exact He|].
    fold (entry (hash_insert e s) e). rewrite Hnext, Nat.eqb_refl. exact Hold. }
  assert (length (s_cache (hash_insert e s)) = CACHE_SIZE) as Hlen' by congruence.
  assert (forall p sec,
            hash_lookup (hash_insert e s) p sec =
            Some (find (fun i => key_match (entry s i) p sec)
                       (if Nat.eqb (hash_key p sec) (hkey s e)
                        then e :: B (hash_key p sec) else B (hash_key p sec)))) as Hlk.
  { intros p sec.
    rewrite (@hash_lookup_spec (hash_insert e s) _ p sec Hlen'
               (Hch' (hash_key p sec) (hash_key_lt p sec))).
    now rewrite (@find_key_ext s (hash_insert e s) p sec _ Hkeys). }
  split.
  - rewrite Hlk. fold (hkey s e). rewrite Nat.eqb_refl.
    cbn [find]. unfold key_match. now rewrite Hv, !Z.eqb_refl.
  - intros p sec Hm. rewrite Hlk.
    rewrite (@hash_lookup_spec s _ p sec Hlen (Hch (hash_key p sec) (hash_key_lt p sec))).
    destruct (Nat.eqb (hash_key p sec) (hkey s e)); [|reflexivity].
    cbn [find]. now rewrite Hm.
Qed.

(** X5: [hash_insert] followed by [hash_remove] of the same slot puts
    the bucket back: the chain of the bucket is the one it was, the other
    buckets and the links of the other slots are untouched, the slot's
    own link is NULL, and nothing else has changed. *)
Theorem X5_hash_insert_then_remove (s : cache_state) (l : list nat) (e : nat) :
  length (s_cache s) = CACHE_SIZE -> length (s_hash_table s) = HASH_SIZE ->
  chain (s_cache s) (nth (hkey s e) (s_hash_table s) None) l ->
  ~ In e l -> e < CACHE_SIZE ->
  exists s',
    hash_remove e (hash_insert e s) = Some s' /\
    chain (s_cache s') (nth (hkey s e) (s_hash_table s') None) l /\
    (forall h, nth h (s_hash_table s') None = nth h (s_hash_table s) None) /\
    (forall j, j <> e -> hash_next (entry s' j) = hash_next (entry s j)) /\
    hash_next (entry s' e) = None /\
    same_but_hash s s'.
Proof.
  intros Hlen Htl Hch Hne He.
  assert (hkey s e < length (s_hash_table s)) as Hk by (rewrite Htl; apply hkey_lt).
  destruct (@hash_insert_fields e s) as (Hsame & Htab & Hnext);
    [now rewrite Hlen|exact Hk|].
  fold (hkey s e) in Htab, Hnext.
  pose proof Hsame as (L1 & L2 & D1 & D2 & D3 & D4 & D5 & Hf).
  set (s1 := hash_insert e s) in *.
  assert (hkey s1 e = hkey s e) as Hkey.
  { unfold hkey. destruct (Hf e) as (-> & -> & _). reflexivity. }
  assert (e < length (s_cache s1)) as He1 by (rewrite L1, Hlen; exact He).
  assert (hash_next (entry s1 e) = nth (hkey s e) (s_hash_table s) None) as Hne1
      by (now rewrite Hnext, Nat.eqb_refl).
  assert (hash_remove e s1 =
          Some (upd_entry e (set_hash_next None)
                  (store_link (BucketLink (hkey s e)) (hash_next (entry s1 e)) s1))) as Hrm.
  { unfold hash_remove. fold (hkey s1 e). rewrite Hkey.
    apply (@hash_remove_loop_found s1 e l [] (BucketLink (hkey s e)) LOOP_FUEL).
    - cbn [load_link app]. rewrite Htab, Nat.eqb_refl. cbn [chain].
      split; [reflexivity|]. split; [exact He1|].
      fold (entry s1 e). rewrite Hne1.
      apply chain_frame with (c := s_cache s); [exact L1| |exact Hch].
      intros i Hi. fold (entry s1 i). fold (entry s i).
      rewrite Hnext. destruct (Nat.eqb_spec i e) as [->|]; [contradiction|reflexivity].
    - intros [].
    - unfold LOOP_FUEL. cbn [length]. lia. }
  rewrite Hne1 in Hrm. cbn [store_link] in Hrm.
  set (s2 := set_hash_table _ s1) in Hrm.
  assert (length (s_cache s2) = length (s_cache s)) as L3 by exact L1.
  assert (forall j, entry s2 j = entry s1 j) as E2 by reflexivity.
  eexists. split; [exact Hrm|].
  assert (forall j, hash_next (entry (upd_entry e (set_hash_next None) s2) j) =
                    if Nat.eqb j e then None else hash_next (entry s j)) as Hn2.
  { intros j. rewrite entry_upd_in by (rewrite L3, Hlen; exact He).
    destruct (Nat.eqb_spec j e) as [->|Hj]; [reflexivity|].
    rewrite E2, Hnext. apply Nat.eqb_neq in Hj. now rewrite Hj. }
  assert (forall h, nth h (s_hash_table (upd_entry e (set_hash_next None) s2)) None =
                    nth h (s_hash_table s) None) as Ht2.
  { intros h. unfold upd_entry, s2. cbn [s_hash_table set_cache set_hash_table].
    assert (Nat.ltb (hkey s e) (length (s_hash_table s1)) = true) as Hlt
        by (apply Nat.ltb_lt; rewrite L2; exact Hk).
    rewrite nth_upd, Hlt, andb_true_r, Htab.
    destruct (Nat.eqb_spec h (hkey s e)) as [->|Hh]; reflexivity. }
  assert (length (s_cache (upd_entry e (set_hash_next None) s2)) = length (s_cache s)) as L4.
  { unfold upd_entry. cbn [s_cache set_cache]. now rewrite upd_length. }
  split; [|split; [exact Ht2|split; [|split]]].
  - rewrite Ht2. apply chain_frame with (c := s_cache s); [exact L4| |exact Hch].
    intros i Hi. fold (entry (upd_entry e (set_hash_next None) s2) i). fold (entry s i).
    rewrite Hn2. destruct (Nat.eqb_spec i e) as [->|]; [contradiction|reflexivity].
  - intros j Hj. rewrite Hn2. apply Nat.eqb_neq in Hj. now rewrite Hj.
  - now rewrite Hn2, Nat.eqb_refl.
  - unfold same_but_hash. split; [exact L4|]. split.
    { unfold upd_entry, s2. cbn [s_hash_table set_cache set_hash_table].
      now rewrite upd_length. }
    split; [exact D1|]. split; [exact D2|]. split; [exact D3|]. split; [exact D4|].
    split; [exact D5|].
    intros i. destruct (Hf i) as (F1 & F2 & F3 & F4 & F5 & F6 & F7).
    rewrite (@entry_upd_field Z sector) by reflexivity.
    rewrite (@entry_upd_field Z pdrv) by reflexivity.
    rewrite (@entry_upd_field bool dirty) by reflexivity.
    rewrite (@entry_upd_field bool valid) by reflexivity.
    rewrite (@entry_upd_field ptr lru_prev) by reflexivity.
    rewrite (@entry_upd_field ptr lru_next) by reflexivity.
    rewrite (@entry_upd_field block data) by reflexivity.
    rewrite !E2. auto.
Qed.

(** ** The public functions *)

(** The statics as the C start-up code leaves them satisfy the
    invariant, with both lists empty. *)
Lemma boot_rep : cache_rep boot_state [] [] (fun _ => []).
Proof.
  assert (forall i, entry boot_state i = entry0) as He
      by (intros i; now apply (@entry_repeat0 boot_state CACHE_SIZE)).
  constructor.
  - apply repeat_length.
  - apply repeat_length.
  - reflexivity.
  - unfold lru_rep. split; [constructor|]. split; [intros i []|].
    split; [reflexivity|]. split; [reflexivity|]. intros i [].
  - intros h Hh. cbn [chain boot_state s_hash_table].
    destruct (Nat.lt_ge_cases h HASH_SIZE) as [Hlt|Hge].
    + now apply nth_repeat_lt.
    + apply nth_overflow. now rewrite repeat_length.
  - intros h i [].
  - intros i [].
  - intros i [].
  - intros i _ Hv. rewrite He in Hv. discriminate Hv.
  - intros i Hd. rewrite He in Hd. discriminate Hd.
  - intros i j _ _ Hv. rewrite He in Hv. discriminate Hv.
Qed.

(** X6: [block_cache_init], called while the free-list head is NULL,
    leaves an empty cache whatever the pool held: every lookup misses,
    no slot is valid or dirty, the recency list is empty and the free
    list holds all the slots, slot 127 first; [s_dirty_blocks] is not
    touched. *)
Theorem X6_init_empties_the_cache (s : cache_state) :
  s_free_head s = None ->
  (forall p sec, hash_lookup (block_cache_init s) p sec = Some None) /\
  (forall i, valid (entry (block_cache_init s) i) = false /\
             dirty (entry (block_cache_init s) i) = false) /\
  chain_walk LOOP_FUEL (s_cache (block_cache_init s)) (s_free_head (block_cache_init s))
    = Some (rev (seq 0 CACHE_SIZE)) /\
  s_lru_head (block_cache_init s) = None /\ s_lru_tail (block_cache_init s) = None /\
  s_dirty_blocks (block_cache_init s) = s_dirty_blocks s.
Proof.
  intros H. pose proof (init_rep s H) as R.
  split; [|split; [|split; [|split; [|split]]]].
  - intros p sec. apply (@not_held_miss _ _ _ _ p sec R). intros [].
  - intros i. split; [|apply init_clean].
    destruct (valid (entry (block_cache_init s) i)) eqn:E; [|reflexivity].
    exfalso. apply (@rep_valid _ _ _ _ R i); [|exact E].
    rewrite <- (rep_len R). now apply valid_in_range.
  - apply chain_walk_spec; [apply (rep_free R)|].
    rewrite length_rev, length_seq. unfold LOOP_FUEL. lia.
  - destruct (rep_lru R) as (_ & _ & Hh & _). exact Hh.
  - destruct (rep_lru R) as (_ & _ & _ & Ht & _). exact Ht.
  - apply init_dirty_blocks.
Qed.

(** X7: with the free list and the recency list both empty (the cache
    before [block_cache_init], or a pool that has lost all its slots) a
    read or write cannot obtain a slot: it returns [RES_PARERR] without a
    device call and changes nothing but [s_evict_error]. *)
Theorem X7_nothing_to_evict (o : op) (p sec : Z) (w : world) (B : nat -> list nat) :
  cache_rep (cache w) [] [] B -> op_key o = Some (p, sec) ->
  exec o w = Some (RES_PARERR, with_cache (set_evict_error RES_PARERR) w).
Proof.
  intros R Hk.
  assert (hash_lookup (cache w) p sec = Some None) as Hl
      by (apply (@not_held_miss _ _ _ _ p sec R); intros []).
  pose proof (@obtain_none_spec w B R) as Ho.
  destruct o as [|p' sec' out|p' sec' d|fa ia]; cbn [op_key] in Hk;
    inversion Hk; subst p' sec'; cbn [exec].
  - now rewrite (@read_fail_eq p sec out w _ Hl Ho).
  - now rewrite (@write_fail_eq p sec d w _ Hl Ho).
Qed.

(** After a read or write that returned [RES_OK] its key is cached. *)
Lemma access_ok_cached (o : op) (p sec : Z) (w w' : world) (F L : list nat)
      (B : nat -> list nat) :
  cache_rep (cache w) F L B -> op_key o = Some (p, sec) ->
  exec o w = Some (RES_OK, w') ->
  exists F' L' B' e,
    cache_rep (cache w') F' L' B' /\ e < CACHE_SIZE /\
    hash_lookup (cache w') p sec = Some (Some e).
Proof.
  intros R Hk Hex.
  destruct (@access_cases o p sec w F L B R Hk) as [H|[H|[H|H]]].
  - destruct H as (e & w0 & Hl & He & R' & HeL & Hlt & Hs & Hp & Hv & _ & _ &
                   KK & FK & Hv' & _).
    assert (w0 = w') as -> by congruence.
    exists F, (e :: del e L), B, e. split; [exact R'|]. split; [exact Hlt|].
    pose proof (@rep_lookup_cached _ _ _ _ e R' Hlt Hv') as H.
    destruct (KK e) as [Ks Kp]. rewrite Ks, Kp, Hs, Hp in H. exact H.
  - destruct H as (f & w1 & w0 & F1 & L1 & B' & _ & _ & _ & _ & _ & He & R' &
                   Hlt & _ & _ & _ & Hs & Hp & Hv' & _).
    assert (w0 = w') as -> by congruence.
    exists F1, (f :: L1), B', f. split; [exact R'|]. split; [exact Hlt|].
    pose proof (@rep_lookup_cached _ _ _ _ f R' Hlt Hv') as H.
    now rewrite Hs, Hp in H.
  - exfalso. destruct H as (w1 & _ & _ & (_ & _ & _ & _ & _ & _ & _ & Hbad & _) & He & _).
    rewrite He in Hex. inversion Hex as [[E1 E2]]. rewrite E1 in Hbad. discriminate Hbad.
  - exfalso. destruct H as (f & w1 & w0 & F1 & L1 & B1 & result & buf &
                            _ & _ & _ & _ & _ & _ & _ & Hbad & He & _).
    rewrite He in Hex. inversion Hex as [[E1 E2]]. rewrite E1 in Hbad. discriminate Hbad.
Qed.

Lemma copy_out_data (out : option block) (x y : cache_entry) :
  data x = data y -> copy_out out x = copy_out out y.
Proof. intros H. unfold copy_out. now rewrite H. Qed.

Lemma lru_touch_data (e i : nat) (s : cache_state) :
  data (entry (lru_touch e s) i) = data (entry s i).
Proof.
  destruct (lru_touch_core e s) as (_ & _ & _ & _ & _ & C).
  now destruct (C i) as (_ & _ & _ & _ & _ & ->).
Qed.

(** A hit returns the payload of the slot, and costs no device call. *)
Lemma read_hit_output (p sec : Z) (out : option block) (w : world) (e : nat) :
  hash_lookup (cache w) p sec = Some (Some e) ->
  exists w',
    block_cache_read_block p sec out w = Some (RES_OK, copy_out out (entry (cache w) e), w') /\
    dev w' = dev w /\ io_log w' = io_log w /\ cache w' = lru_touch e (cache w).
Proof.
  intros Hl. rewrite (@read_hit_eq p sec out w e Hl). eexists. split.
  - do 2 f_equal. f_equal. apply copy_out_data, lru_touch_data.
  - cbn [dev io_log cache]. auto.
Qed.

(** What a successful read hands back is the payload of the slot that
    holds the key afterwards. *)
Lemma read_ok_output (p sec : Z) (out b : option block) (w w1 : world) (e : nat)
      (F L : list nat) (B : nat -> list nat) :
  cache_rep (cache w) F L B ->
  block_cache_read_block p sec out w = Some (RES_OK, b, w1) ->
  hash_lookup (cache w1) p sec = Some (Some e) ->
  b = copy_out out (entry (cache w1) e).
Proof.
  intros R Hrd Hl1.
  destruct (hash_lookup (cache w) p sec) as [[e0|]|] eqn:Hl.
  - destruct (@read_hit_output p sec out w e0 Hl) as (w' & Hr & _ & _ & Hc).
    rewrite Hr in Hrd. inversion Hrd as [[Hb Hw]]. subst w'.
    destruct (@rep_lookup_hit _ _ _ _ _ _ _ R Hl) as (HeL & _).
    pose proof (@rep_lru_touch _ _ _ _ e0 R HeL) as R'. rewrite <- Hc in R'.
    assert (e = e0) as ->.
    { destruct (@rep_lookup_hit _ _ _ _ _ _ _ R' Hl1) as (_ & He & Hv & Hs & Hp).
      destruct (@rep_lookup_hit _ _ _ _ _ _ _ R Hl) as (_ & He0 & Hv0 & Hs0 & Hp0).
      destruct (lru_touch_core e0 (cache w)) as (_ & _ & _ & _ & _ & C).
      rewrite Hc in Hv, Hs, Hp.
      destruct (C e) as (Cs & Cp & _ & Cv & _).
      apply (rep_uniq R); auto; congruence. }
    apply copy_out_data. rewrite Hc. symmetry. apply lru_touch_data.
  - destruct (@access_cases (OpRead p sec out) p sec w F L B R eq_refl) as [H|[H|[H|H]]].
    + destruct H as (e0 & w' & Hl' & _). congruence.
    + destruct H as (f & w0 & w' & F1 & L1 & B' & _ & Eo & _ & _ & _ & He & R' &
                     Hlt & _ & _ & _ & Hs & Hp & Hv' & _ & _ & (buf & Hdr & _)).
      pose proof (@read_miss_eq p sec out w w0 f RES_OK buf (dev w') Hl Eo Hdr) as Heq.
      cbn [is_ok] in Heq. rewrite Hrd in Heq. injection Heq as Hb Hw.
      assert (w' = w1) as ->.
      { cbn [exec] in He. rewrite Hrd in He. congruence. }
      assert (e = f) as ->.
      { pose proof (@rep_lookup_cached _ _ _ _ f R' Hlt Hv') as H.
        rewrite Hs, Hp in H. congruence. }
      rewrite Hb. apply copy_out_data. rewrite Hw. cbn [cache]. reflexivity.
    + exfalso. destruct H as (w0 & _ & _ & (_ & _ & _ & _ & _ & _ & _ & Hbad & _) & He & _).
      cbn [exec] in He. rewrite Hrd in He. inversion He as [[E1 E2]].
      rewrite <- E1 in Hbad. discriminate Hbad.
    + exfalso. destruct H as (f & w0 & w' & F1 & L1 & B1 & result & buf &
                              _ & _ & _ & _ & _ & _ & _ & Hbad & He & _).
      cbn [exec] in He. rewrite Hrd in He. inversion He as [[E1 E2]].
      rewrite <- E1 in Hbad. discriminate Hbad.
  - rewrite (@rep_lookup _ _ _ _ p sec R) in Hl. discriminate Hl.
Qed.

(** X8: once [block_cache_read_block] has returned [RES_OK] for a key,
    reading that key again is served from the cache: it returns [RES_OK]
    without any device call, and both reads copy out the payload of the
    same slot.  The first read may have had a NULL buffer (the read-ahead
    of [disk_task]). *)
Theorem X8_read_again_is_served_from_cache (p sec : Z) (out1 out2 b1 : option block)
        (w w1 : world) :
  cache_inv (cache w) ->
  block_cache_read_block p sec out1 w = Some (RES_OK, b1, w1) ->
  exists e w2,
    hash_lookup (cache w1) p sec = Some (Some e) /\
    b1 = copy_out out1 (entry (cache w1) e) /\
    block_cache_read_block p sec out2 w1
      = Some (RES_OK, copy_out out2 (entry (cache w1) e), w2) /\
    dev w2 = dev w1 /\ io_log w2 = io_log w1.
Proof.
  intros (F & L & B & R) Hrd.
  assert (exec (OpRead p sec out1) w = Some (RES_OK, w1)) as Hex
      by (cbn [exec]; now rewrite Hrd).
  destruct (@access_ok_cached (OpRead p sec out1) p sec w w1 F L B R eq_refl Hex)
    as (F' & L' & B' & e & R' & Hlt & Hl1).
  destruct (@read_hit_output p sec out2 w1 e Hl1) as (w2 & Hr2 & Hd & Hlog & _).
  exists e, w2. split; [exact Hl1|].
  split; [exact (@read_ok_output p sec out1 b1 w w1 e F L B R Hrd Hl1)|].
  split; [exact Hr2|]. split; [exact Hd|exact Hlog].
Qed.

(** A write that hits, and the read of the same key that follows. *)
Lemma write_hit_then_read (p sec : Z) (in_data out : block) (w : world) (e : nat)
      (F L : list nat) (B : nat -> list nat) :
  cache_rep (cache w) F L B ->
  hash_lookup (cache w) p sec = Some (Some e) ->
  length in_data = BLOCK_SIZE -> length out = BLOCK_SIZE ->
  exists w1 w2,
    block_cache_write_block p sec in_data w = Some (RES_OK, w1) /\
    dev w1 = dev w /\ io_log w1 = io_log w /\
    block_cache_read_block p sec (Some out) w1 = Some (RES_OK, Some in_data, w2) /\
    dev w2 = dev w /\ io_log w2 = io_log w.
Proof.
  intros R Hl Hin Hout.
  destruct (@access_cases (OpWrite p sec in_data) p sec w F L B R eq_refl)
    as [H|[H|[H|H]]].
  - destruct H as (e0 & w' & Hl0 & He & R' & HeL & Hlt & Hs & Hp & Hv & Hdev & Hlog &
                   KK & FK & Hv' & _).
    assert (e0 = e) as -> by congruence.
    cbn [exec] in He.
    pose proof (@write_hit_eq p sec in_data w e Hl) as Heq.
    rewrite He in Heq.
    match type of Heq with Some (_, _) = Some (_, ?x) =>
      assert (w' = x) as Hw' by congruence end.
    clear Heq.
    assert (hash_lookup (cache w') p sec = Some (Some e)) as Hl'.
    { pose proof (@rep_lookup_cached _ _ _ _ e R' Hlt Hv') as H.
      destruct (KK e) as [Ks Kp]. rewrite Ks, Kp, Hs, Hp in H. exact H. }
    destruct (@read_hit_output p sec (Some out) w' e Hl') as (w2 & Hr & Hd2 & Hlog2 & _).
    exists w', w2. split; [exact He|]. split; [exact Hdev|]. split; [exact Hlog|].
    split; [|split; congruence].
    rewrite Hr. do 2 f_equal. f_equal. unfold copy_out. f_equal.
    rewrite Hw'. cbn [cache]. rewrite lru_touch_data.
    change (entry (set_dirty_blocks true ?s) e) with (entry s e).
    rewrite !entry_upd_same
      by (rewrite ?length_upd_entry, (rep_len R); exact Hlt).
    cbn [data set_dirty set_data]. now apply memcpy_round_trip.
  - destruct H as (f & w1 & w' & F1 & L1 & B' & Hl0 & _). congruence.
  - destruct H as (w1 & Hl0 & _). congruence.
  - destruct H as (f & w1 & w' & F1 & L1 & B1 & result & buf & Hl0 & _). congruence.
Qed.

(** X9: the last write wins.  After a write of a key has returned
    [RES_OK], a second write of that key always returns [RES_OK] and
    costs no device call, and the read that follows copies out exactly
    the second buffer, again without a device call. *)
Theorem X9_last_write_wins (p sec : Z) (d1 d2 out : block) (w w1 : world) :
  cache_inv (cache w) ->
  block_cache_write_block p sec d1 w = Some (RES_OK, w1) ->
  length d2 = BLOCK_SIZE -> length out = BLOCK_SIZE ->
  exists w2 w3,
    block_cache_write_block p sec d2 w1 = Some (RES_OK, w2) /\
    dev w2 = dev w1 /\ io_log w2 = io_log w1 /\
    block_cache_read_block p sec (Some out) w2 = Some (RES_OK, Some d2, w3) /\
    dev w3 = dev w1 /\ io_log w3 = io_log w1.
Proof.
  intros (F & L & B & R) Hw Hd2 Hout.
  destruct (@access_ok_cached (OpWrite p sec d1) p sec w w1 F L B R eq_refl Hw)
    as (F' & L' & B' & e & R' & Hlt & Hl1).
  exact (@write_hit_then_read p sec d2 out w1 e F' L' B' R' Hl1 Hd2 Hout).
Qed.

(** ** Dirty blocks reach the device *)

Lemma slot_kept_refl (s : cache_state) (i : nat) : slot_kept s s i.
Proof. unfold slot_kept. auto. Qed.

Lemma slot_kept_trans (s1 s2 s3 : cache_state) (i : nat) :
  slot_kept s1 s2 i -> slot_kept s2 s3 i -> slot_kept s1 s3 i.
Proof. unfold slot_kept. intuition congruence. Qed.

Lemma slot_kept_entry (s s' : cache_state) (i : nat) :
  entry s' i = entry s i -> slot_kept s s' i.
Proof. intros H. unfold slot_kept. rewrite H. auto. Qed.

Lemma slot_kept_cache (s s' : cache_state) (i : nat) :
  s_cache s' = s_cache s -> slot_kept s s' i.
Proof. intros H. apply slot_kept_entry. unfold entry. now rewrite H. Qed.

Lemma slot_kept_facts (s s' : cache_state) (i : nat) :
  slot_kept s s' i ->
  needs_write_back s' i = needs_write_back s i /\
  slot_key s' i = slot_key s i /\
  write_event s' i = write_event s i.
Proof.
  intros (Hv & Hd & Hs & Hp & Hb).
  unfold needs_write_back, slot_key, write_event. now rewrite Hv, Hd, Hs, Hp, Hb.
Qed.

Lemma slot_kept_lru_touch (e i : nat) (s : cache_state) : slot_kept s (lru_touch e s) i.
Proof.
  destruct (lru_touch_core e s) as (_ & _ & _ & _ & _ & C).
  destruct (C i) as (? & ? & ? & ? & _ & ?). unfold slot_kept. auto.
Qed.

Lemma slot_kept_installed (f i : nat) (sa : cache_state) : slot_kept sa (installed f sa) i.
Proof.
  destruct (installed_fields f sa) as (_ & _ & _ & C).
  destruct (C i) as (? & ? & ? & ? & ?). unfold slot_kept. auto.
Qed.

Lemma slot_kept_upd_other (f i : nat) (g : cache_entry -> cache_entry) (s : cache_state) :
  i <> f -> slot_kept s (upd_entry f g s) i.
Proof. intros H. apply slot_kept_entry. now apply entry_upd_other. Qed.

Lemma logged_since_here (log post : list io_event) (ev : io_event) :
  logged_since log (log ++ ev :: post) ev.
Proof. exists [], post. reflexivity. Qed.

Lemma logged_since_later (log more log' : list io_event) (ev : io_event) :
  logged_since (log ++ more) log' ev -> logged_since log log' ev.
Proof.
  intros (pre & post & ->). exists (more ++ pre), post. now rewrite <- !app_assoc.
Qed.

Lemma logged_since_more (log log' more : list io_event) (ev : io_event) :
  logged_since log log' ev -> logged_since log (log' ++ more) ev.
Proof.
  intros (pre & post & ->). exists pre, (post ++ more).
  now rewrite <- !app_assoc, <- app_comm_cons.
Qed.

(** The scan of [block_cache_flush] only appends to the log. *)
Lemma flush_loop_log_ext (idx : list nat) (fa ia : bool) :
  forall w, exists more, io_log (snd (flush_loop idx fa ia w)) = io_log w ++ more.
Proof.
  induction idx as [|j idx IH]; intros w; [exists []; now rewrite app_nil_r|].
  assert (forall w0, io_log (if ia then with_cache (upd_entry j (set_valid false)) w0
                             else w0) = io_log w0) as Hinv by (intros w0; now destruct ia).
  cbn [flush_loop].
  destruct (valid (entry (cache w) j) && dirty (entry (cache w) j)).
  - destruct (write_back j w) as [result w1] eqn:Hw.
    destruct (@write_back_cache _ _ _ _ Hw) as (_ & _ & Hl).
    destruct (is_ok result); [|cbn [snd]; rewrite Hl; now eexists].
    destruct fa; [|cbn [snd io_log with_cache]; rewrite Hl; now eexists].
    match goal with |- context [flush_loop idx true ia ?x] =>
      destruct (IH x) as (more & ->); rewrite (Hinv _) end.
    cbn [io_log with_cache]. rewrite Hl, <- app_assoc. now eexists.
  - match goal with |- context [flush_loop idx fa ia ?x] =>
      destruct (IH x) as (more & ->); rewrite (Hinv _) end.
    now eexists.
Qed.

(** A slot that needed writing back before the scan either still holds
    what it held, or its write-back is in the log, with result [RES_OK]. *)
Lemma flush_loop_durable (idx : list nat) (fa ia : bool) :
  forall w i,
    needs_write_back (cache w) i = true ->
    slot_kept (cache w) (cache (snd (flush_loop idx fa ia w))) i \/
    logged_since (io_log w) (io_log (snd (flush_loop idx fa ia w)))
                 (write_event (cache w) i).
Proof.
  induction idx as [|j idx IH]; intros w i Hi; [left; apply slot_kept_refl|].
  assert (forall w0, io_log (if ia then with_cache (upd_entry j (set_valid false)) w0
                             else w0) = io_log w0) as Hinvl
      by (intros w0; now destruct ia).
  assert (forall w0, i <> j ->
            slot_kept (cache w0)
                      (cache (if ia then with_cache (upd_entry j (set_valid false)) w0
                              else w0)) i) as Hinvk.
  { intros w0 Hne. destruct ia; [|apply slot_kept_refl].
    unfold with_cache; cbn [cache]. now apply slot_kept_upd_other. }
  cbn [flush_loop]. fold (needs_write_back (cache w) j).
  destruct (needs_write_back (cache w) j) eqn:Hj.
  - destruct (write_back j w) as [result w1] eqn:Hw.
    destruct (@write_back_cache _ _ _ _ Hw) as (Hc & _ & Hl).
    destruct (is_ok result) eqn:Hok; [|left; cbn [snd]; rewrite Hc; apply slot_kept_refl].
    apply is_ok_true in Hok. subst result.
    fold (write_event (cache w) j) in Hl.
    destruct (Nat.eq_dec i j) as [->|Hne].
    + right. destruct fa.
      * match goal with |- context [flush_loop idx true ia ?x] =>
          destruct (flush_loop_log_ext idx true ia x) as (more & ->);
          rewrite (Hinvl _) end.
        cbn [io_log with_cache]. rewrite Hl, <- app_assoc. apply logged_since_here.
      * cbn [snd io_log with_cache]. rewrite Hl. apply logged_since_here.
    + assert (slot_kept (cache w) (cache (with_cache (upd_entry j (set_dirty false)) w1)) i)
        as K1.
      { unfold with_cache; cbn [cache]. rewrite Hc. now apply slot_kept_upd_other. }
      destruct fa; [|left; exact K1].
      set (w3 := if ia then _ else _).
      assert (slot_kept (cache w) (cache w3) i) as K3
          by (eapply slot_kept_trans; [exact K1|now apply Hinvk]).
      destruct (slot_kept_facts K3) as (N3 & _ & E3).
      destruct (IH w3 i) as [K|Lg]; [congruence| |].
      * left. eapply slot_kept_trans; eauto.
      * right. rewrite E3 in Lg. apply logged_since_later with (more := [write_event (cache w) j]).
        replace (io_log w ++ [write_event (cache w) j]) with (io_log w3); [exact Lg|].
        unfold w3. rewrite (Hinvl _). cbn [io_log with_cache]. exact Hl.
  - assert (i <> j) as Hne by (intros ->; congruence).
    set (w3 := if ia then _ else _).
    assert (slot_kept (cache w) (cache w3) i) as K3 by (now apply Hinvk).
    destruct (slot_kept_facts K3) as (N3 & _ & E3).
    destruct (IH w3 i) as [K|Lg]; [congruence| |].
    + left. eapply slot_kept_trans; eauto.
    + right. rewrite E3 in Lg. unfold w3 in Lg at 1. rewrite (Hinvl _) in Lg. exact Lg.
Qed.

Lemma flush_durable (fa ia : bool) (w : world) (i : nat) :
  needs_write_back (cache w) i = true ->
  slot_kept (cache w) (cache (snd (block_cache_flush fa ia w))) i \/
  logged_since (io_log w) (io_log (snd (block_cache_flush fa ia w)))
               (write_event (cache w) i).
Proof.
  intros Hi. unfold block_cache_flush.
  destruct (s_dirty_blocks (cache w)); [|left; apply slot_kept_refl].
  pose proof (@flush_loop_durable (seq 0 CACHE_SIZE) fa ia w i Hi) as H.
  destruct (flush_loop (seq 0 CACHE_SIZE) fa ia w) as [[r|] w1]; cbn [snd] in *;
    exact H.
Qed.

(** What a read or write does to a slot that needed writing back: the
    slot still holds it, or the call is a write of its key, or its
    write-back is in the log. *)
Lemma access_durable (o : op) (p sec : Z) (w w' : world) (r : DRESULT) (i : nat)
      (F L : list nat) (B : nat -> list nat) :
  cache_rep (cache w) F L B -> op_key o = Some (p, sec) ->
  exec o w = Some (r, w') ->
  needs_write_back (cache w) i = true ->
  slot_kept (cache w) (cache w') i \/
  (is_write_op o = true /\ slot_key (cache w) i = (p, sec) /\
   needs_write_back (cache w') i = true /\ slot_key (cache w') i = (p, sec)) \/
  logged_since (io_log w) (io_log w') (write_event (cache w) i).
Proof.
  intros R Hk Hex Hi.
  assert (valid (entry (cache w) i) = true /\ dirty (entry (cache w) i) = true) as [Hv Hd]
      by (apply andb_true_iff; exact Hi).
  destruct (hash_lookup (cache w) p sec) as [[e|]|] eqn:Hl;
    [| |rewrite (@rep_lookup _ _ _ _ p sec R) in Hl; discriminate Hl].
  - (* the key is cached *)
    destruct (@rep_lookup_hit _ _ _ _ _ _ _ R Hl) as (_ & Hlt & _ & Hs & Hp).
    destruct o as [|p' sec' out|p' sec' d|fa ia]; cbn [op_key] in Hk;
      inversion Hk; subst p' sec'; cbn [exec] in Hex.
    + rewrite (@read_hit_eq p sec out w e Hl) in Hex. injection Hex as _ Hw'.
      left. rewrite <- Hw'. cbn [cache]. apply slot_kept_lru_touch.
    + rewrite (@write_hit_eq p sec d w e Hl) in Hex. injection Hex as _ Hw'.
      rewrite <- Hw'. cbn [cache].
      destruct (Nat.eq_dec i e) as [->|Hne].
      * right. left. split; [reflexivity|].
        assert (slot_key (cache w) e = (p, sec)) as Hkey
            by (unfold slot_key; now rewrite Hs, Hp).
        split; [exact Hkey|].
        match goal with |- context [lru_touch e ?s] =>
          destruct (slot_kept_facts (slot_kept_lru_touch e e s)) as (-> & -> & _) end.
        unfold needs_write_back, slot_key.
        change (entry (set_dirty_blocks true ?s) e) with (entry s e).
        rewrite (@entry_upd_field bool valid) by reflexivity.
        rewrite (@entry_upd_field bool valid) by reflexivity.
        rewrite (@entry_upd_field Z pdrv) by reflexivity.
        rewrite (@entry_upd_field Z pdrv) by reflexivity.
        rewrite (@entry_upd_field Z sector) by reflexivity.
        rewrite (@entry_upd_field Z sector) by reflexivity.
        rewrite entry_upd_same
          by (rewrite ?length_upd_entry, (rep_len R); exact Hlt).
        cbn [dirty set_dirty]. rewrite Hv, Hs, Hp. auto.
      * left. eapply slot_kept_trans; [|apply slot_kept_lru_touch].
        apply slot_kept_entry.
        change (entry (set_dirty_blocks true ?s) i) with (entry s i).
        now rewrite !entry_upd_other.
  - (* a miss *)
    destruct (@obtain_cases w F L B R) as
        [(f & w1 & F1 & L1 & B1 & Eo & R1 & (Hlt & _ & _ & Hvf) & _ & Hkd & Hfl & Hob)
        |(w1 & Eo & Hn)].
    + assert (f < length (s_cache (cache w1))) as Hlen by (rewrite (rep_len R1); exact Hlt).
      assert (i <> f -> slot_kept (cache w) (cache w1) i) as K1.
      { intros Hne. destruct (Hkd i) as (? & ? & ?). destruct (Hfl i Hne) as (? & ?).
        unfold slot_kept. auto. }
      assert (i = f -> logged_since (io_log w) (io_log w1) (write_event (cache w) i)) as Lf.
      { intros ->. destruct Hob as [(_ & _ & Hc & _)|(_ & _ & _ & _ & Hwb)].
        - exfalso. unfold entry in Hvf, Hv. rewrite Hc in Hvf. congruence.
        - rewrite Hv, Hd in Hwb. cbn [andb] in Hwb. destruct Hwb as [_ ->].
          apply logged_since_here. }
      destruct o as [|p' sec' out|p' sec' d|fa ia]; cbn [op_key] in Hk;
        inversion Hk; subst p' sec'; cbn [exec] in Hex.
      * destruct (disk_read_no_cache (dev w1) p (data (entry (cache w1) f)) sec)
          as [[result buf] d'] eqn:Hdr.
        rewrite (@read_miss_eq p sec out w w1 f result buf d' Hl Eo Hdr) in Hex.
        destruct (Nat.eq_dec i f) as [E|Hne].
        { right. right.
          destruct (is_ok result); injection Hex as _ Hw'; rewrite <- Hw';
            cbn [io_log]; apply logged_since_more; now apply Lf. }
        left. eapply slot_kept_trans; [now apply K1|].
        destruct (is_ok result); injection Hex as _ Hw'; rewrite <- Hw'; cbn [cache].
        -- eapply slot_kept_trans; [|apply slot_kept_installed].
           apply slot_kept_entry. rewrite read_fill_entry by exact Hlen.
           apply Nat.eqb_neq in Hne. now rewrite Hne.
        -- now apply slot_kept_upd_other.
      * rewrite (@write_miss_eq p sec d w w1 f Hl Eo) in Hex. injection Hex as _ Hw'.
        rewrite <- Hw'. cbn [cache io_log].
        destruct (Nat.eq_dec i f) as [E|Hne]; [right; right; now apply Lf|].
        left. eapply slot_kept_trans; [now apply K1|].
        eapply slot_kept_trans; [|apply slot_kept_installed].
        apply slot_kept_entry. rewrite write_fill_entry by exact Hlen.
        apply Nat.eqb_neq in Hne. now rewrite Hne.
    + left. destruct Hn as (_ & Hc & _).
      destruct o as [|p' sec' out|p' sec' d|fa ia]; cbn [op_key] in Hk;
        inversion Hk; subst p' sec'; cbn [exec] in Hex.
      * rewrite (@read_fail_eq p sec out w w1 Hl Eo) in Hex. injection Hex as _ Hw'.
        rewrite <- Hw'. now apply slot_kept_cache.
      * rewrite (@write_fail_eq p sec d w w1 Hl Eo) in Hex. injection Hex as _ Hw'.
        rewrite <- Hw'. now apply slot_kept_cache.
Qed.

(** X10: no dirty block is dropped.  From any state that satisfies the
    invariant, whatever a read, a write or a flush (with any flags)
    returns, a slot that was valid and dirty before the call is
    afterwards either still valid and dirty with the same key, holding
    the same payload unless the call was a write of that very key, or
    the log of device calls has grown by a write of that key and payload
    that the device accepted. *)
Theorem X10_dirty_blocks_are_not_lost (o : op) (w w' : world) (r : DRESULT) (i : nat) :
  cache_inv (cache w) -> is_init o = false ->
  exec o w = Some (r, w') ->
  needs_write_back (cache w) i = true ->
  (needs_write_back (cache w') i = true /\
   slot_key (cache w') i = slot_key (cache w) i /\
   (data (entry (cache w') i) = data (entry (cache w) i) \/
    (is_write_op o = true /\ op_key o = Some (slot_key (cache w) i))))
  \/
  (exists pre post, io_log w' = io_log w ++ pre ++ write_event (cache w) i :: post).
Proof.
  intros (F & L & B & R) Hni Hex Hi.
  assert (slot_kept (cache w) (cache w') i ->
          needs_write_back (cache w') i = true /\
          slot_key (cache w') i = slot_key (cache w) i /\
          (data (entry (cache w') i) = data (entry (cache w) i) \/
           (is_write_op o = true /\ op_key o = Some (slot_key (cache w) i)))) as Hkept.
  { intros K. destruct (slot_kept_facts K) as (N & S & _).
    split; [congruence|]. split; [exact S|]. left. apply K. }
  destruct o as [|p sec out|p sec d|fa ia]; [discriminate Hni| | |].
  - destruct (@access_durable (OpRead p sec out) p sec w w' r i F L B R eq_refl Hex Hi)
      as [K|[(Hw & _)|Lg]]; [left; now apply Hkept|discriminate Hw|right; exact Lg].
  - destruct (@access_durable (OpWrite p sec d) p sec w w' r i F L B R eq_refl Hex Hi)
      as [K|[(_ & K1 & N & K2)|Lg]]; [left; now apply Hkept| |right; exact Lg].
    left. split; [exact N|]. split; [congruence|]. right.
    split; [reflexivity|]. cbn [op_key]. now rewrite K1.
  - cbn [exec] in Hex. injection Hex as Hex.
    pose proof (@flush_durable fa ia w i Hi) as H. rewrite Hex in H. cbn [snd] in H.
    destruct H as [K|Lg]; [left; now apply Hkept|right; exact Lg].
Qed.

(** ** More on flushing *)

Lemma invalidate_fields (ia : bool) (j : nat) (w0 : world) :
  let w3 := if ia then with_cache (upd_entry j (set_valid false)) w0 else w0 in
  s_dirty_blocks (cache w3) = s_dirty_blocks (cache w0) /\
  io_log w3 = io_log w0 /\ dev w3 = dev w0 /\
  (forall i, sector (entry (cache w3) i) = sector (entry (cache w0) i) /\
             pdrv (entry (cache w3) i) = pdrv (entry (cache w0) i) /\
             dirty (entry (cache w3) i) = dirty (entry (cache w0) i) /\
             data (entry (cache w3) i) = data (entry (cache w0) i)) /\
  (forall i, i <> j -> entry (cache w3) i = entry (cache w0) i) /\
  (ia = false -> w3 = w0).
Proof.
  destruct ia; cbn zeta; [|repeat split; auto].
  unfold with_cache; cbn [cache io_log dev].
  split; [reflexivity|]. split; [reflexivity|]. split; [reflexivity|]. split.
  - intros i.
    rewrite (@entry_upd_field Z sector) by reflexivity.
    rewrite (@entry_upd_field Z pdrv) by reflexivity.
    rewrite (@entry_upd_field bool dirty) by reflexivity.
    rewrite (@entry_upd_field block data) by reflexivity. auto.
  - split; [|discriminate]. intros i Hi. now apply entry_upd_other.
Qed.

(** The scan never touches [s_dirty_blocks], keys or payloads. *)
Lemma flush_loop_payload (idx : list nat) (fa ia : bool) :
  forall w,
    s_dirty_blocks (cache (snd (flush_loop idx fa ia w))) = s_dirty_blocks (cache w) /\
    forall i,
      sector (entry (cache (snd (flush_loop idx fa ia w))) i) = sector (entry (cache w) i) /\
      pdrv (entry (cache (snd (flush_loop idx fa ia w))) i) = pdrv (entry (cache w) i) /\
      data (entry (cache (snd (flush_loop idx fa ia w))) i) = data (entry (cache w) i).
Proof.
  induction idx as [|j idx IH]; intros w; [auto|].
  cbn [flush_loop].
  destruct (valid (entry (cache w) j) && dirty (entry (cache w) j)).
  - pose proof (write_back_cache_eq j w) as Ec.
    destruct (write_back j w) as [result w1]. cbn [snd] in Ec.
    destruct (is_ok result); [|cbn [snd]; rewrite Ec; auto].
    assert (s_dirty_blocks (cache (with_cache (upd_entry j (set_dirty false)) w1))
            = s_dirty_blocks (cache w) /\
            forall i,
              sector (entry (cache (with_cache (upd_entry j (set_dirty false)) w1)) i)
                = sector (entry (cache w) i) /\
              pdrv (entry (cache (with_cache (upd_entry j (set_dirty false)) w1)) i)
                = pdrv (entry (cache w) i) /\
              data (entry (cache (with_cache (upd_entry j (set_dirty false)) w1)) i)
                = data (entry (cache w) i)) as [D2 K2].
    { unfold with_cache; cbn [cache]. rewrite <- Ec. split; [reflexivity|]. intros i.
      rewrite (@entry_upd_field Z sector) by reflexivity.
      rewrite (@entry_upd_field Z pdrv) by reflexivity.
      rewrite (@entry_upd_field block data) by reflexivity. auto. }
    destruct fa; [|cbn [snd]; auto].
    match goal with |- context [flush_loop idx true ia ?x] =>
      destruct (IH x) as [D3 K3] end.
    destruct (invalidate_fields ia j (with_cache (upd_entry j (set_dirty false)) w1))
      as (D4 & _ & _ & K4 & _).
    split; [congruence|]. intros i.
    destruct (K3 i) as (-> & -> & ->). destruct (K4 i) as (-> & -> & _ & ->). apply K2.
  - match goal with |- context [flush_loop idx fa ia ?x] =>
      destruct (IH x) as [D3 K3] end.
    destruct (invalidate_fields ia j w) as (D4 & _ & _ & K4 & _).
    split; [congruence|]. intros i.
    destruct (K3 i) as (-> & -> & ->). destruct (K4 i) as (-> & -> & _ & ->). auto.
Qed.

(** A scan of all slots that stops early stopped on a failed write. *)
Lemma flush_loop_all_stops (idx : list nat) (ia : bool) :
  forall w r, fst (flush_loop idx true ia w) = Some r -> is_ok r = false.
Proof.
  induction idx as [|j idx IH]; intros w r; [discriminate|].
  cbn [flush_loop].
  destruct (valid (entry (cache w) j) && dirty (entry (cache w) j)).
  - destruct (write_back j w) as [result w1].
    destruct (is_ok result) eqn:Hok; [apply IH|].
    cbn [fst]. intros H. injection H as <-. exact Hok.
  - apply IH.
Qed.

(** Where a scan stops on a failed write: the slot still holds its
    block, and the failed write is the last entry of the log. *)
Lemma flush_loop_failed (idx : list nat) (fa ia : bool) :
  forall w r,
    fst (flush_loop idx fa ia w) = Some r -> is_ok r = false ->
    exists i log0,
      In i idx /\ needs_write_back (cache w) i = true /\
      slot_kept (cache w) (cache (snd (flush_loop idx fa ia w))) i /\
      io_log (snd (flush_loop idx fa ia w)) =
        log0 ++ [IoWrite (pdrv (entry (cache w) i)) (sector (entry (cache w) i))
                         (data (entry (cache w) i)) r].
Proof.
  induction idx as [|j idx IH]; intros w r; [discriminate|].
  cbn [flush_loop]. fold (needs_write_back (cache w) j).
  assert (forall w0, (forall i, i <> j -> entry (cache w0) i = entry (cache w) i) ->
            needs_write_back (cache w0) j = false ->
            fst (flush_loop idx fa ia w0) = Some r -> is_ok r = false ->
            exists i log0,
              In i (j :: idx) /\ needs_write_back (cache w) i = true /\
              slot_kept (cache w) (cache (snd (flush_loop idx fa ia w0))) i /\
              io_log (snd (flush_loop idx fa ia w0)) =
                log0 ++ [IoWrite (pdrv (entry (cache w) i)) (sector (entry (cache w) i))
                                 (data (entry (cache w) i)) r]) as Hrest.
  { intros w0 Hsame Hclean Hf Hr.
    destruct (IH w0 r Hf Hr) as (i & log0 & Hin & Hn & K & Hl).
    assert (i <> j) as Hne by (intros ->; congruence).
    pose proof (Hsame i Hne) as E.
    exists i, log0. split; [now right|].
    split; [unfold needs_write_back in *; now rewrite <- E|].
    split; [eapply slot_kept_trans; [apply slot_kept_entry; exact E|exact K]|].
    rewrite Hl. now rewrite E. }
  destruct (needs_write_back (cache w) j) eqn:Hj.
  - destruct (write_back j w) as [result w1] eqn:Hw.
    destruct (@write_back_cache _ _ _ _ Hw) as (Hc & _ & Hl).
    destruct (is_ok result) eqn:Hok.
    + destruct fa; [|cbn [fst]; intros H Hr; injection H as <-; discriminate Hr].
      apply Hrest.
      * intros i Hi.
        destruct (invalidate_fields ia j (with_cache (upd_entry j (set_dirty false)) w1))
          as (_ & _ & _ & _ & K4 & _).
        rewrite (K4 i Hi). unfold with_cache; cbn [cache].
        rewrite entry_upd_other by exact Hi. now rewrite Hc.
      * destruct (invalidate_fields ia j (with_cache (upd_entry j (set_dirty false)) w1))
          as (_ & _ & _ & K4 & _).
        unfold needs_write_back. destruct (K4 j) as (_ & _ & -> & _).
        unfold with_cache; cbn [cache].
        apply andb_true_iff in Hj. destruct Hj as [Hv _].
        rewrite entry_upd_same by (rewrite Hc; now apply valid_in_range).
        apply andb_false_r.
    + cbn [fst snd]. intros H _. injection H as <-.
      exists j, (io_log w). split; [now left|]. split; [exact Hj|].
      split; [rewrite Hc; apply slot_kept_refl|exact Hl].
  - apply Hrest.
    + intros i Hi. destruct (invalidate_fields ia j w) as (_ & _ & _ & _ & K4 & _).
      exact (K4 i Hi).
    + destruct ia; [|exact Hj]. unfold with_cache, needs_write_back; cbn [cache].
      rewrite (@entry_upd_field bool dirty) by reflexivity.
      unfold needs_write_back in Hj.
      destruct (dirty (entry (cache w) j)); [|apply andb_false_r].
      rewrite andb_true_r in Hj |- *. rewrite entry_upd_entry.
      destruct (Nat.eqb j j && Nat.ltb j (length (s_cache (cache w)))); [reflexivity|exact Hj].
Qed.

(** X11: a flush that fails loses nothing.  When [block_cache_flush]
    returns an error, with any flags, [s_dirty_blocks] is still set, the
    error is the result of the device write logged last, and the slot
    that write was for is still valid and dirty with the key and payload
    it had, so a later flush tries it again. *)
Theorem X11_failed_flush_keeps_the_block_dirty (fa ia : bool) (w w' : world)
        (r : DRESULT) :
  block_cache_flush fa ia w = (r, w') -> r <> RES_OK ->
  s_dirty_blocks (cache w') = true /\
  exists i log0,
    i < CACHE_SIZE /\
    needs_write_back (cache w) i = true /\
    needs_write_back (cache w') i = true /\
    slot_key (cache w') i = slot_key (cache w) i /\
    data (entry (cache w') i) = data (entry (cache w) i) /\
    io_log w' = log0 ++ [IoWrite (pdrv (entry (cache w) i)) (sector (entry (cache w) i))
                                 (data (entry (cache w) i)) r].
Proof.
  unfold block_cache_flush. intros H Hr.
  destruct (s_dirty_blocks (cache w)) eqn:Hf; [|injection H as <-; congruence].
  destruct (flush_loop (seq 0 CACHE_SIZE) fa ia w) as [[r1|] w1] eqn:Hloop;
    [|injection H as <-; congruence].
  injection H as -> ->.
  assert (is_ok r = false) as Hbad by (destruct r; [congruence|reflexivity..]).
  destruct (flush_loop_payload (seq 0 CACHE_SIZE) fa ia w) as [D _].
  destruct (@flush_loop_failed (seq 0 CACHE_SIZE) fa ia w r) as (i & log0 & Hin & Hn & K & Hl);
    [now rewrite Hloop|exact Hbad|].
  rewrite Hloop in D, K, Hl. cbn [snd] in D, K, Hl.
  split; [congruence|]. exists i, log0.
  destruct (slot_kept_facts K) as (N & S & _).
  apply in_seq in Hin.
  split; [lia|]. split; [exact Hn|]. split; [congruence|]. split; [exact S|].
  split; [apply K|exact Hl].
Qed.

Lemma filter_all_false (A : Type) (f : A -> bool) (l : list A) :
  (forall x, In x l -> f x = false) -> filter f l = [].
Proof.
  induction l as [|x l IH]; intros H; [reflexivity|].
  cbn [filter]. rewrite (H x) by (now left). apply IH. intros y Hy. apply H. now right.
Qed.

(** The log of a scan of all slots that ran to its end. *)
Lemma flush_loop_complete_log (ia : bool) (idx : list nat) :
  NoDup idx ->
  forall w,
    fst (flush_loop idx true ia w) = None ->
    io_log (snd (flush_loop idx true ia w)) =
    io_log w ++ map (write_event (cache w)) (filter (needs_write_back (cache w)) idx).
Proof.
  intros ND. induction ND as [|i idx Hni ND IH]; intros w Hn.
  - cbn [flush_loop snd filter map]. now rewrite app_nil_r.
  - assert (forall w2, (forall j, j <> i -> entry (cache w2) j = entry (cache w) j) ->
                       fst (flush_loop idx true ia w2) = None ->
                       io_log (snd (flush_loop idx true ia w2)) =
                       io_log w2 ++ map (write_event (cache w))
                                        (filter (needs_write_back (cache w)) idx)) as Hrest.
    { intros w2 Hsame Hn2.
      assert (forall j, In j idx -> entry (cache w2) j = entry (cache w) j) as Hin
          by (intros j Hj; apply Hsame; intros ->; contradiction).
      rewrite (IH w2 Hn2). f_equal.
      rewrite (@filter_ext_in _ (needs_write_back (cache w2))
                              (needs_write_back (cache w)))
        by (intros j Hj; unfold needs_write_back; now rewrite (Hin j Hj)).
      apply map_ext_in. intros j Hj. apply filter_In in Hj.
      unfold write_event. now rewrite (Hin j (proj1 Hj)). }
    revert Hn. cbn [flush_loop filter]. fold (needs_write_back (cache w) i).
    destruct (needs_write_back (cache w) i) eqn:Ed.
    + destruct (write_back i w) as [result w1] eqn:Hw.
      destruct (@write_back_cache _ _ _ _ Hw) as (Hc & _ & Hl).
      destruct (is_ok result) eqn:Hok; [|discriminate].
      apply is_ok_true in Hok. subst result. intros Hn.
      destruct (invalidate_fields ia i (with_cache (upd_entry i (set_dirty false)) w1))
        as (_ & L4 & _ & _ & K4 & _).
      rewrite Hrest; [| |exact Hn].
      * rewrite L4. cbn [io_log with_cache map]. rewrite Hl, <- app_assoc. reflexivity.
      * intros j Hj. rewrite (K4 j Hj). unfold with_cache; cbn [cache].
        rewrite entry_upd_other by exact Hj. now rewrite Hc.
    + intros Hn. destruct (invalidate_fields ia i w) as (_ & L4 & _ & _ & K4 & _).
      rewrite Hrest; [|exact K4|exact Hn]. now rewrite L4.
Qed.

(** X12: a full flush without invalidation keeps the cache warm.  When
    [block_cache_flush (true, false)] returns [RES_OK], no slot is dirty
    and [s_dirty_blocks] is clear; every slot has the valid bit, key and
    payload it had, so every lookup gives what it gave before; and the
    device calls made are exactly one accepted write for each slot that
    was valid and dirty, in pool order. *)
Theorem X12_full_flush_keeps_the_cache_warm (w w' : world) :
  cache_inv (cache w) -> flag_inv (cache w) ->
  block_cache_flush true false w = (RES_OK, w') ->
  s_dirty_blocks (cache w') = false /\
  (forall i, dirty (entry (cache w') i) = false) /\
  (forall i, valid (entry (cache w') i) = valid (entry (cache w) i) /\
             slot_key (cache w') i = slot_key (cache w) i /\
             data (entry (cache w') i) = data (entry (cache w) i)) /\
  (forall p sec, hash_lookup (cache w') p sec = hash_lookup (cache w) p sec) /\
  io_log w' = io_log w ++ map (write_event (cache w))
                              (filter (needs_write_back (cache w)) (seq 0 CACHE_SIZE)).
Proof.
  intros (F & L & B & R) Hfi Hfl.
  pose proof (@rep_flush true false w F L B R) as R'. rewrite Hfl in R'. cbn [snd] in R'.
  assert (s_dirty_blocks (cache w') = false /\
          (forall j, j < CACHE_SIZE -> needs_write_back (cache w') j = false) /\
          (forall i, valid (entry (cache w') i) = valid (entry (cache w) i) /\
                     sector (entry (cache w') i) = sector (entry (cache w) i) /\
                     pdrv (entry (cache w') i) = pdrv (entry (cache w) i) /\
                     data (entry (cache w') i) = data (entry (cache w) i)) /\
          io_log w' = io_log w ++ map (write_event (cache w))
                                      (filter (needs_write_back (cache w))
                                              (seq 0 CACHE_SIZE))) as (H1 & H2 & H3 & H4).
  { unfold block_cache_flush in Hfl.
    destruct (s_dirty_blocks (cache w)) eqn:Hf.
    - destruct (flush_loop (seq 0 CACHE_SIZE) true false w) as [[r1|] w1] eqn:Hloop.
      + exfalso. injection Hfl as -> _.
        pose proof (@flush_loop_all_stops (seq 0 CACHE_SIZE) false w RES_OK) as Hs.
        rewrite Hloop in Hs. discriminate (Hs eq_refl).
      + injection Hfl as <-. unfold with_cache; cbn [cache io_log s_dirty_blocks].
        split; [reflexivity|].
        change (entry (set_dirty_blocks false (cache w1))) with (entry (cache w1)).
        unfold needs_write_back.
        change (entry (set_dirty_blocks false (cache w1))) with (entry (cache w1)).
        fold (needs_write_back (cache w1)).
        pose proof (@flush_loop_done (seq 0 CACHE_SIZE) true false w) as Hd.
        pose proof (@flush_loop_keeps (seq 0 CACHE_SIZE) true w) as Hk.
        destruct (flush_loop_payload (seq 0 CACHE_SIZE) true false w) as [_ Hp].
        pose proof (@flush_loop_complete_log false (seq 0 CACHE_SIZE) (seq_NoDup _ _) w)
          as Hlog.
        rewrite Hloop in Hd, Hk, Hp, Hlog. cbn [fst snd] in Hd, Hk, Hp, Hlog.
        split; [intros j Hj; apply (Hd eq_refl); apply in_seq; lia|].
        split; [|exact (Hlog eq_refl)].
        intros i. destruct (Hk i) as (Kv & _). destruct (Hp i) as (Ks & Kp & Kd). auto.
    - injection Hfl as <-. split; [exact Hf|]. split; [exact (Hfi Hf)|].
      split; [auto|].
      rewrite filter_all_false; [cbn [map]; now rewrite app_nil_r|].
      intros j Hj. apply in_seq in Hj. apply (Hfi Hf). lia. }
  split; [exact H1|]. split; [|split; [|split; [|exact H4]]].
  - intros i. destruct (dirty (entry (cache w') i)) eqn:Ed; [|reflexivity].
    exfalso. pose proof (rep_dirty R' _ Ed) as Hv.
    assert (i < CACHE_SIZE) as Hi by (rewrite <- (rep_len R'); now apply valid_in_range).
    pose proof (H2 i Hi) as Hn. unfold needs_write_back in Hn. rewrite Hv, Ed in Hn.
    discriminate Hn.
  - intros i. destruct (H3 i) as (Hv & Hs & Hp & Hd).
    split; [exact Hv|]. split; [unfold slot_key; congruence|exact Hd].
  - intros p sec. rewrite (@rep_lookup _ _ _ _ p sec R'), (@rep_lookup _ _ _ _ p sec R).
    f_equal. apply find_key_ext. intros i. destruct (H3 i) as (Hv & Hs & Hp & _). auto.
Qed.

(** What the scan does at the first slot that needs writing back, when
    nothing is invalidated. *)
Lemma flush_first_dirty (fa : bool) (w : world) (i : nat) :
  i < CACHE_SIZE -> needs_write_back (cache w) i = true ->
  (forall j, j < i -> needs_write_back (cache w) j = false) ->
  flush_loop (seq 0 CACHE_SIZE) fa false w =
  let '(result, w1) := write_back i w in
  if is_ok result then
    let w2 := with_cache (upd_entry i (set_dirty false)) w1 in
    if fa then flush_loop (seq (S i) (CACHE_SIZE - S i)) fa false w2
    else (Some RES_OK, w2)
  else (Some result, w1).
Proof.
  intros Hi Hd Hfirst.
  rewrite (seq_split Hi), flush_loop_skip
    by (intros j Hj; apply in_seq in Hj; apply Hfirst; lia).
  cbn [flush_loop]. fold (needs_write_back (cache w) i). rewrite Hd. reflexivity.
Qed.

(** X13: the flush that does not invalidate starts with the first slot,
    in pool order, that is valid and dirty.  If the device refuses its
    write, the flush returns that error, with any [flush_all], and the
    cache is exactly as it was.  If the device accepts it, the
    incremental flush clears the dirty bit of that slot and of no other,
    returns [RES_OK], and leaves [s_dirty_blocks] set. *)
Theorem X13_flush_starts_at_the_first_dirty_slot (w : world) (i : nat) (r : DRESULT)
        (d1 : Dev) :
  s_dirty_blocks (cache w) = true ->
  i < CACHE_SIZE -> needs_write_back (cache w) i = true ->
  (forall j, j < i -> needs_write_back (cache w) j = false) ->
  disk_write_no_cache (dev w) (pdrv (entry (cache w) i)) (data (entry (cache w) i))
                      (sector (entry (cache w) i)) = (r, d1) ->
  (is_ok r = false ->
   forall fa,
     block_cache_flush fa false w =
     (r, mkWorld (cache w) d1
                 (io_log w ++ [IoWrite (pdrv (entry (cache w) i)) (sector (entry (cache w) i))
                                       (data (entry (cache w) i)) r]))) /\
  (is_ok r = true ->
   block_cache_flush false false w =
   (RES_OK, mkWorld (upd_entry i (set_dirty false) (cache w)) d1
                    (io_log w ++ [write_event (cache w) i])) /\
   s_dirty_blocks (upd_entry i (set_dirty false) (cache w)) = true).
Proof.
  intros Hf Hi Hd Hfirst Hw. split.
  - intros Hbad fa. unfold block_cache_flush. rewrite Hf.
    rewrite (@flush_first_dirty fa w i Hi Hd Hfirst).
    unfold write_back. rewrite Hw, Hbad. reflexivity.
  - intros Hok. split; [|exact Hf]. unfold block_cache_flush. rewrite Hf.
    rewrite (@flush_first_dirty false w i Hi Hd Hfirst).
    unfold write_back. rewrite Hw, Hok. apply is_ok_true in Hok. subst r. reflexivity.
Qed.

(** The device calls of one read or write: at most one write, of the
    tail of the recency list, then at most one read. *)
Lemma access_device_calls (o : op) (p sec : Z) (w w' : world) (r : DRESULT) :
  cache_inv (cache w) -> op_key o = Some (p, sec) ->
  exec o w = Some (r, w') ->
  exists wb rd,
    io_log w' = io_log w ++ wb ++ rd /\
    (wb = [] \/
     exists e r1, s_lru_tail (cache w) = Some e /\ needs_write_back (cache w) e = true /\
                  wb = [IoWrite (pdrv (entry (cache w) e)) (sector (entry (cache w) e))
                                (data (entry (cache w) e)) r1]) /\
    (rd = [] \/ (is_write_op o = false /\ exists r2, rd = [IoRead p sec r2])).
Proof.
  intros (F & L & B & R) Hk Hex.
  assert (forall f w1 F1 L1,
            obtained w F L f w1 F1 L1 ->
            exists wb, io_log w1 = io_log w ++ wb /\
              (wb = [] \/
               exists e r1, s_lru_tail (cache w) = Some e /\
                            needs_write_back (cache w) e = true /\
                            wb = [IoWrite (pdrv (entry (cache w) e))
                                          (sector (entry (cache w) e))
                                          (data (entry (cache w) e)) r1])) as Hobt.
  { intros f w1 F1 L1 [(_ & _ & _ & _ & Hl)|(_ & _ & HL & _ & Hwb)].
    - exists []. rewrite Hl, app_nil_r. auto.
    - fold (needs_write_back (cache w) f) in Hwb.
      destruct (needs_write_back (cache w) f) eqn:Hn.
      + destruct Hwb as [_ Hl]. eexists. split; [exact Hl|]. right.
        exists f, RES_OK. split; [|auto].
        rewrite (@rep_tail _ _ _ _ R), HL, rev_app_distr. reflexivity.
      + destruct Hwb as [_ Hl]. exists []. rewrite Hl, app_nil_r. auto. }
  destruct (@access_cases o p sec w F L B R Hk) as [H|[H|[H|H]]].
  - destruct H as (e & w0 & _ & He & _ & _ & _ & _ & _ & _ & _ & Hlog & _).
    assert (w0 = w') as -> by congruence.
    exists [], []. rewrite Hlog, !app_nil_r. auto.
  - destruct H as (f & w1 & w0 & F1 & L1 & B' & _ & _ & Hob & _ & _ & He & _ & _ & _ &
                   _ & _ & _ & _ & _ & _ & _ & Hio).
    assert (w0 = w') as -> by congruence.
    destruct (Hobt _ _ _ _ Hob) as (wb & Hl1 & Hwb).
    destruct (is_write_op o) eqn:Ew.
    + destruct Hio as [_ Hl]. exists wb, []. rewrite Hl, Hl1, app_nil_r. auto.
    + destruct Hio as (buf & _ & Hl). exists wb, [IoRead p sec RES_OK].
      rewrite Hl, Hl1, <- app_assoc. split; [reflexivity|]. split; [exact Hwb|].
      right. split; [reflexivity|]. now eexists.
  - destruct H as (w1 & _ & _ & Hn & He & _).
    assert (w1 = w') as -> by congruence.
    destruct Hn as (_ & _ & _ & _ & _ & _ & _ & _ & [(_ & _ & _ & Hl)|(e & Ht & Hv & Hd & _ & Hl)]).
    + exists [], []. rewrite Hl, !app_nil_r. auto.
    + eexists _, []. rewrite Hl, app_nil_r. split; [reflexivity|]. split; [|auto].
      right. exists e, (s_evict_error (cache w')). split; [exact Ht|].
      split; [unfold needs_write_back; now rewrite Hv, Hd|reflexivity].
  - destruct H as (f & w1 & w0 & F1 & L1 & B1 & result & buf &
                   _ & _ & Hob & _ & _ & Hwop & _ & _ & He & _ & Hl & _).
    assert (w0 = w') as -> by congruence.
    destruct (Hobt _ _ _ _ Hob) as (wb & Hl1 & Hwb).
    exists wb, [IoRead p sec result]. rewrite Hl, Hl1, <- app_assoc.
    split; [reflexivity|]. split; [exact Hwb|]. right. split; [exact Hwop|]. now eexists.
Qed.

(** X14: the device calls of one read or write.  A call makes at most
    two: first, at most one write, and only of the block of the slot at
    the tail of the recency list, which was valid and dirty; then, for a
    read only, at most one read, of the sector asked for.  A write never
    reads the device. *)
Theorem X14_device_calls_of_an_access (o : op) (p sec : Z) (w w' : world) (r : DRESULT) :
  cache_inv (cache w) -> op_key o = Some (p, sec) ->
  exec o w = Some (r, w') ->
  exists wb rd,
    io_log w' = io_log w ++ wb ++ rd /\
    (wb = [] \/
     exists e r1, s_lru_tail (cache w) = Some e /\ needs_write_back (cache w) e = true /\
                  wb = [IoWrite (pdrv (entry (cache w) e)) (sector (entry (cache w) e))
                                (data (entry (cache w) e)) r1]) /\
    (rd = [] \/ (is_write_op o = false /\ exists r2, rd = [IoRead p sec r2])).
Proof. apply access_device_calls. Qed.

(** X15: a drive number that diskio.c knows no driver for.  Both
    [disk_read_no_cache] and [disk_write_no_cache] return [RES_PARERR]
    and call no driver; so once a block of such a drive is the first
    valid dirty slot of the pool, every flush that does not invalidate
    returns [RES_PARERR] and leaves the cache and the device as they
    were: it never gets to the slots behind it. *)
Theorem X15_unsupported_drive (p : Z) :
  unsupported_drive p ->
  (forall d buff sec, disk_read_no_cache d p buff sec = (RES_PARERR, buff, d)) /\
  (forall d buff sec, disk_write_no_cache d p buff sec = (RES_PARERR, d)) /\
  (forall w i fa,
      s_dirty_blocks (cache w) = true ->
      i < CACHE_SIZE -> needs_write_back (cache w) i = true ->
      (forall j, j < i -> needs_write_back (cache w) j = false) ->
      pdrv (entry (cache w) i) = p ->
      block_cache_flush fa false w =
      (RES_PARERR,
       mkWorld (cache w) (dev w)
               (io_log w ++ [IoWrite p (sector (entry (cache w) i))
                                     (data (entry (cache w) i)) RES_PARERR]))).
Proof.
  intros [H1 H2].
  assert (forall d buff sec, disk_write_no_cache d p buff sec = (RES_PARERR, d)) as Hw
      by (intros d buff sec; unfold disk_write_no_cache; now rewrite H1, H2).
  split; [|split; [exact Hw|]].
  - intros d buff sec. unfold disk_read_no_cache. now rewrite H1, H2.
  - intros w i fa Hf Hi Hd Hfirst Hp.
    unfold block_cache_flush. rewrite Hf.
    rewrite (@flush_first_dirty fa w i Hi Hd Hfirst).
    unfold write_back. rewrite Hp, Hw. reflexivity.
Qed.

(** X16: writes are absorbed by the cache.  While the key is cached or
    the free list is not empty, [block_cache_write_block] returns
    [RES_OK] without any device call, whatever the drive number; the
    key is cached afterwards and the global dirty flag is set. *)
Theorem X16_write_is_absorbed (p sec : Z) (in_data : block) (w : world) :
  cache_inv (cache w) ->
  s_free_head (cache w) <> None \/ (exists e, hash_lookup (cache w) p sec = Some (Some e)) ->
  exists e w',
    block_cache_write_block p sec in_data w = Some (RES_OK, w') /\
    dev w' = dev w /\ io_log w' = io_log w /\
    hash_lookup (cache w') p sec = Some (Some e) /\
    needs_write_back (cache w') e = true /\
    s_dirty_blocks (cache w') = true.
Proof.
  intros (F & L & B & R) Hroom.
  destruct (@access_cases (OpWrite p sec in_data) p sec w F L B R eq_refl)
    as [H|[H|[H|H]]].
  - destruct H as (e & w' & Hl & He & R' & HeL & Hlt & Hs & Hp & Hv & Hdev & Hlog &
                   KK & FK & Hv' & Hd' & Hdb).
    exists e, w'. split; [exact He|]. split; [exact Hdev|]. split; [exact Hlog|].
    split; [|split; [unfold needs_write_back; now rewrite Hv', Hd'|exact Hdb]].
    pose proof (@rep_lookup_cached _ _ _ _ e R' Hlt Hv') as H.
    destruct (KK e) as [Ks Kp]. rewrite Ks, Kp, Hs, Hp in H. exact H.
  - destruct H as (f & w1 & w' & F1 & L1 & B' & Hl & _ & Hob & _ & _ & He & R' &
                   Hlt & _ & _ & _ & Hs & Hp & Hv' & Hd' & Hdb & Hio).
    cbn [is_write_op] in Hio, Hd', Hdb. destruct Hio as [Hdev Hlog].
    destruct Hob as [(_ & _ & _ & Hd1 & Hl1)|(HF & _)].
    + exists f, w'. split; [exact He|]. split; [congruence|]. split; [congruence|].
      split; [|split; [unfold needs_write_back; now rewrite Hv', Hd'|exact Hdb]].
      pose proof (@rep_lookup_cached _ _ _ _ f R' Hlt Hv') as H.
      now rewrite Hs, Hp in H.
    + exfalso. destruct Hroom as [Hfree|(e & He')]; [|congruence].
      apply Hfree. subst F. apply (rep_free R).
  - exfalso. destruct H as (w1 & Hl & _ & (HF & _) & _).
    destruct Hroom as [Hfree|(e & He')]; [|congruence].
    apply Hfree. subst F. apply (rep_free R).
  - destruct H as (f & w1 & w' & F1 & L1 & B1 & result & buf & _ & _ & _ & _ & _ & Hw & _).
    discriminate Hw.
Qed.

(** X22: [block_cache_flush] looks at the pool only when
    [s_dirty_blocks] is set.  With the flag clear it returns [RES_OK] and
    changes nothing, whatever its arguments.  With the flag set and a
    device that accepts the write of every slot to write back,
    [block_cache_flush (true, true)] returns [RES_OK], leaves every slot
    of the pool invalid and clean, has issued exactly one device write
    for each slot that was valid and dirty, in pool order, and every
    lookup that follows is a miss. *)
Theorem X22_flagged_flush_invalidates_everything (w : world) :
  cache_inv (cache w) ->
  (s_dirty_blocks (cache w) = false ->
   forall fa ia, block_cache_flush fa ia w = (RES_OK, w)) /\
  (s_dirty_blocks (cache w) = true ->
   (forall i d, i < CACHE_SIZE -> needs_write_back (cache w) i = true ->
                is_ok (fst (disk_write_no_cache d (pdrv (entry (cache w) i))
                                                (data (entry (cache w) i))
                                                (sector (entry (cache w) i)))) = true) ->
   exists w',
     block_cache_flush true true w = (RES_OK, w') /\
     (forall i, i < CACHE_SIZE ->
                valid (entry (cache w') i) = false /\ dirty (entry (cache w') i) = false) /\
     io_log w' = io_log w ++ map (write_event (cache w))
                                 (filter (needs_write_back (cache w)) (seq 0 CACHE_SIZE)) /\
     forall p sec, hash_lookup (cache w') p sec = Some None).
Proof.
  intros (F & L & B & R). split.
  - intros Hf fa ia. unfold block_cache_flush. now rewrite Hf.
  - intros Hf Hdev.
    pose proof (@rep_flush true true w F L B R) as R'.
    destruct (@flush_all_log true (seq 0 CACHE_SIZE) (seq_NoDup _ _) w) as [H1 H2].
    { intros i d Hi. apply Hdev. apply in_seq in Hi. lia. }
    pose proof (@flush_loop_invalidated (seq 0 CACHE_SIZE) true w H1) as Hinv.
    unfold block_cache_flush in *. rewrite Hf in *.
    destruct (flush_loop (seq 0 CACHE_SIZE) true true w) as [[r|] w1];
      [discriminate H1|].
    cbn [fst snd] in *.
    assert (forall i, i < CACHE_SIZE ->
                      valid (entry (cache (with_cache (set_dirty_blocks false) w1)) i)
                      = false) as Hv.
    { intros i Hi. apply (Hinv i). apply in_seq. lia. }
    exists (with_cache (set_dirty_blocks false) w1).
    split; [reflexivity|]. split; [|split; [exact H2|]].
    + intros i Hi. split; [now apply Hv|].
      destruct (dirty (entry (cache (with_cache (set_dirty_blocks false) w1)) i)) eqn:E;
        [|reflexivity].
      apply (rep_dirty R') in E. rewrite Hv in E by exact Hi. discriminate E.
    + intros p sec. rewrite (@rep_lookup _ _ _ _ p sec R'). f_equal.
      apply find_all_false. intros i Hi. unfold key_match.
      rewrite Hv; [reflexivity|].
      rewrite <- (rep_len R').
      apply (@chain_bound _ _ _ _ (rep_bucket R' (hash_key_lt p sec)) Hi).
Qed.


(** * Properties of the glue layer (diskio.c) *)
Section GlueProperties.

(** The driver entry points of the glue layer, as in its definitions. *)
Variable sd_disk_read_n : Dev -> block -> Z -> Z -> DRESULT * block * Dev.
Variable sd_disk_write_n : Dev -> block -> Z -> Z -> DRESULT * Dev.
Variable usb_disk_read_n : Dev -> block -> Z -> Z -> DRESULT * block * Dev.
Variable usb_disk_write_n : Dev -> block -> Z -> Z -> DRESULT * Dev.
Variable sd_disk_initialize : Dev -> Z * Dev.
Variable usb_disk_initialize : Dev -> Z * Dev.
Variable sd_disk_ioctl : Dev -> Z -> block -> DRESULT * block * Dev.
Variable usb_disk_ioctl : Dev -> Z -> block -> DRESULT * block * Dev.
Variable STA_NOINIT : Z.
Variable flush_invalidate_all : bool.

#[local] Abbreviation disk_read_no_cache_n :=
  (disk_read_no_cache_n sd_disk_read_n usb_disk_read_n).
#[local] Abbreviation disk_write_no_cache_n :=
  (disk_write_no_cache_n sd_disk_write_n usb_disk_write_n).
#[local] Abbreviation disk_task := (disk_task flush_invalidate_all).
#[local] Abbreviation disk_read :=
  (disk_read sd_disk_read_n usb_disk_read_n flush_invalidate_all).
#[local] Abbreviation disk_write :=
  (disk_write sd_disk_write_n usb_disk_write_n flush_invalidate_all).
#[local] Abbreviation disk_initialize :=
  (disk_initialize sd_disk_initialize usb_disk_initialize STA_NOINIT flush_invalidate_all).
#[local] Abbreviation disk_ioctl :=
  (disk_ioctl sd_disk_ioctl usb_disk_ioctl flush_invalidate_all).
#[local] Abbreviation disk_step :=
  (disk_step sd_disk_read_n sd_disk_write_n usb_disk_read_n usb_disk_write_n
             sd_disk_initialize usb_disk_initialize sd_disk_ioctl usb_disk_ioctl
             STA_NOINIT flush_invalidate_all).
#[local] Abbreviation disk_run :=
  (disk_run sd_disk_read_n sd_disk_write_n usb_disk_read_n usb_disk_write_n
            sd_disk_initialize usb_disk_initialize sd_disk_ioctl usb_disk_ioctl
            STA_NOINIT flush_invalidate_all).

(** Only [block_cache_init] puts slots on the free list. *)
Lemma exec_free_head (o : op) (w w' : world) (r : DRESULT) :
  cache_inv (cache w) -> is_init o = false -> exec o w = Some (r, w') ->
  s_free_head (cache w) = None -> s_free_head (cache w') = None.
Proof.
  intros (F & L & B & R) Hni Hex Hf.
  assert (F = []) as ->.
  { pose proof (rep_free R) as Hc. rewrite Hf in Hc. destruct F; [reflexivity|].
    cbn [chain] in Hc. destruct Hc as [Hc _]. discriminate Hc. }
  assert (forall L' B', cache_rep (cache w') [] L' B' -> s_free_head (cache w') = None) as Hnil
      by (intros L' B' R'; exact (rep_free R')).
  destruct o as [|p sec out|p sec d|fa ia]; [discriminate Hni| | |].
  - destruct (@access_cases (OpRead p sec out) p sec w [] L B R eq_refl) as [H|[H|[H|H]]].
    + destruct H as (e & w0 & _ & He & R' & _). assert (w0 = w') as -> by congruence. eauto.
    + destruct H as (f & w1 & w0 & F1 & L1 & B' & _ & _ & Hob & _ & _ & He & R' & _).
      assert (w0 = w') as -> by congruence.
      destruct Hob as [(E & _)|(_ & -> & _)]; [discriminate E|eauto].
    + destruct H as (w1 & _ & _ & _ & He & R'). assert (w1 = w') as -> by congruence. eauto.
    + destruct H as (f & w1 & w0 & F1 & L1 & B1 & result & buf & _ & _ & Hob & _ & _ & _ &
                     _ & _ & He & _ & _ & R' & _).
      assert (w0 = w') as -> by congruence.
      destruct Hob as [(E & _)|(_ & -> & _)]; [discriminate E|eauto].
  - destruct (@access_cases (OpWrite p sec d) p sec w [] L B R eq_refl) as [H|[H|[H|H]]].
    + destruct H as (e & w0 & _ & He & R' & _). assert (w0 = w') as -> by congruence. eauto.
    + destruct H as (f & w1 & w0 & F1 & L1 & B' & _ & _ & Hob & _ & _ & He & R' & _).
      assert (w0 = w') as -> by congruence.
      destruct Hob as [(E & _)|(_ & -> & _)]; [discriminate E|eauto].
    + destruct H as (w1 & _ & _ & _ & He & R'). assert (w1 = w') as -> by congruence. eauto.
    + destruct H as (f & w1 & w0 & F1 & L1 & B1 & result & buf & _ & _ & _ & _ & _ & Hw & _).
      discriminate Hw.
  - cbn [exec] in Hex. injection Hex as Hex.
    pose proof (@rep_flush fa ia w [] L B R) as R'. rewrite Hex in R'. eauto.
Qed.

Lemma exec_world_ok (o : op) (w : world) :
  world_ok w -> is_init o = false ->
  exists r w', exec o w = Some (r, w') /\ world_ok w' /\
               (s_free_head (cache w) = None -> s_free_head (cache w') = None).
Proof.
  intros [Hi Hf] Hni.
  destruct (@exec_inv o w Hi Hni) as (r & w' & He & Hi').
  exists r, w'. split; [exact He|]. split; [split; [exact Hi'|]|].
  - exact (@exec_flag_inv o w w' r Hf He).
  - exact (@exec_free_head o w w' r Hi Hni He).
Qed.

Lemma read_world_ok (p sec : Z) (out : option block) (w : world) :
  world_ok w ->
  exists r b w', block_cache_read_block p sec out w = Some (r, b, w') /\ world_ok w' /\
                 (s_free_head (cache w) = None -> s_free_head (cache w') = None).
Proof.
  intros H. destruct (@exec_world_ok (OpRead p sec out) w H eq_refl) as (r & w' & He & Hw).
  cbn [exec] in He.
  destruct (block_cache_read_block p sec out w) as [[[r0 b] w0]|]; [|discriminate He].
  injection He as -> ->. now exists r, b, w'.
Qed.

Lemma write_world_ok (p sec : Z) (d : block) (w : world) :
  world_ok w ->
  exists r w', block_cache_write_block p sec d w = Some (r, w') /\ world_ok w' /\
               (s_free_head (cache w) = None -> s_free_head (cache w') = None).
Proof. intros H. exact (@exec_world_ok (OpWrite p sec d) w H eq_refl). Qed.

Lemma flush_world_ok (fa ia : bool) (w : world) :
  world_ok w ->
  world_ok (snd (block_cache_flush fa ia w)) /\
  (s_free_head (cache w) = None ->
   s_free_head (cache (snd (block_cache_flush fa ia w))) = None).
Proof.
  intros H. destruct (@exec_world_ok (OpFlush fa ia) w H eq_refl) as (r & w' & He & Hw).
  cbn [exec] in He. injection He as He. rewrite He. exact Hw.
Qed.

(** A driver call changes the device only. *)
Lemma world_ok_device (w : world) (d : Dev) (log : list io_event) :
  world_ok w -> world_ok (mkWorld (cache w) d log).
Proof. intros H. exact H. Qed.

Lemma disk_step_ok (c : disk_call) (g : disk_state) :
  disk_ok g -> exists g', disk_step c g = Some g' /\ disk_ok g'.
Proof.
  intros [Hw Hf]. destruct c as [| |pdrv buff sector count|pdrv buff sector count|pdrv
                                  |pdrv cmd buff]; cbn [disk_step].
  - (* disk_init *)
    eexists. split; [reflexivity|]. unfold disk_init.
    destruct (block_cache_initalized g) eqn:Ei; [split; [exact Hw|]; now rewrite Ei|].
    split; [|cbn [block_cache_initalized]; discriminate].
    cbn [bc]. split.
    + apply boot_init_inv. now apply Hf.
    + unfold with_cache; cbn [cache]. apply init_flag_inv.
  - (* disk_task *)
    unfold disk_task. destruct (read_ahead g); cbn [andb].
    + destruct (@read_world_ok (last_pdrv g) (lba_wrap (last_sector g + 1)) None (bc g) Hw)
        as (r & b & w' & -> & Hw' & Hf').
      eexists. split; [reflexivity|]. split; [exact Hw'|].
      cbn [block_cache_initalized bc]. intros Hi. apply Hf', Hf, Hi.
    + destruct (@flush_world_ok false flush_invalidate_all (bc g) Hw) as [Hw' Hf'].
      eexists. split; [reflexivity|]. split; [exact Hw'|].
      cbn [block_cache_initalized set_bc bc]. intros Hi. apply Hf', Hf, Hi.
  - (* disk_read *)
    unfold disk_read. destruct (count =? 1)%Z.
    + destruct (@read_world_ok pdrv sector (Some buff) (bc g) Hw)
        as (r & b & w' & -> & Hw' & Hf').
      destruct (is_ok r); eexists; (split; [reflexivity|]); (split; [exact Hw'|]);
        cbn [block_cache_initalized set_bc bc]; intros Hi; apply Hf', Hf, Hi.
    + destruct (@flush_world_ok true flush_invalidate_all (bc g) Hw) as [Hw' Hf'].
      destruct (disk_read_no_cache_n _ pdrv buff sector count) as [[r b] d'].
      destruct (is_ok r); eexists; (split; [reflexivity|]); (split; [exact Hw'|]);
        cbn [block_cache_initalized set_bc bc cache]; intros Hi; apply Hf', Hf, Hi.
  - (* disk_write *)
    unfold disk_write. destruct (count =? 1)%Z.
    + destruct (@write_world_ok pdrv sector buff (bc g) Hw) as (r & w' & -> & Hw' & Hf').
      eexists. split; [reflexivity|]. split; [exact Hw'|].
      cbn [block_cache_initalized set_bc bc]. intros Hi. apply Hf', Hf, Hi.
    + destruct (@flush_world_ok true flush_invalidate_all (bc g) Hw) as [Hw' Hf'].
      destruct (disk_write_no_cache_n _ pdrv buff sector count) as [r d'].
      eexists. split; [reflexivity|]. split; [exact Hw'|].
      cbn [block_cache_initalized set_bc bc cache]. intros Hi. apply Hf', Hf, Hi.
  - (* disk_initialize *)
    eexists. split; [reflexivity|]. unfold disk_initialize.
    destruct (@flush_world_ok true flush_invalidate_all (bc g) Hw) as [Hw' Hf'].
    destruct (if (pdrv =? DEV_SD)%Z then _ else _) as [st d'].
    cbn [snd]. split; [exact Hw'|].
    cbn [block_cache_initalized set_bc bc cache]. intros Hi. apply Hf', Hf, Hi.
  - (* disk_ioctl *)
    eexists. split; [reflexivity|]. unfold disk_ioctl.
    destruct (@flush_world_ok true flush_invalidate_all (bc g) Hw) as [Hw' Hf'].
    destruct (if (pdrv =? DEV_SD)%Z then _ else _) as [[r b] d'].
    cbn [snd]. split; [exact Hw'|].
    cbn [block_cache_initalized set_bc bc cache]. intros Hi. apply Hf', Hf, Hi.
Qed.

Lemma disk_run_ok (cs : list disk_call) :
  forall g, disk_ok g -> exists g', disk_run cs g = Some g' /\ disk_ok g'.
Proof.
  induction cs as [|c cs IH]; intros g Hg; [now exists g|].
  destruct (@disk_step_ok c g Hg) as (g1 & E & Hg1).
  cbn [disk_run]. rewrite E. now apply IH.
Qed.

Lemma disk_boot_ok (d : Dev) : disk_ok (disk_boot d).
Proof.
  split; [split|reflexivity].
  - exists [], [], (fun _ => []). exact boot_rep.
  - intros H. discriminate H.
Qed.

(** X17: through the entry points of diskio.c the cache cannot be
    corrupted.  From the start-up state, every sequence of calls of
    [disk_init], [disk_task], [disk_read], [disk_write],
    [disk_initialize] and [disk_ioctl], in any order, with any arguments
    and over any drivers, returns (no chain walk runs forever) and leaves
    the cache with its structural invariant: at most one valid slot per
    key, and no valid dirty slot while [s_dirty_blocks] is clear.  The
    guard of [disk_init] is what keeps [block_cache_init] from running
    a second time. *)
Theorem X17_diskio_keeps_the_cache_consistent (d : Dev) (cs : list disk_call) :
  exists g,
    disk_run cs (disk_boot d) = Some g /\
    cache_inv (cache (bc g)) /\ unique_keys (cache (bc g)) /\ flag_inv (cache (bc g)).
Proof.
  destruct (@disk_run_ok cs (disk_boot d) (disk_boot_ok d)) as (g & E & [[Hi Hf] _]).
  exists g. split; [exact E|]. split; [exact Hi|]. split; [|exact Hf].
  destruct Hi as (F & L & B & R). exact (rep_uniq R).
Qed.

Lemma disk_read_one (pdrv sector : Z) (buff : block) (g : disk_state) :
  disk_read pdrv buff sector 1 g =
  match block_cache_read_block pdrv sector (Some buff) (bc g) with
  | None => None
  | Some (result, out, w') =>
      let b := match out with Some b => b | None => buff end in
      if is_ok result
      then Some (result, b, mkDisk w' (block_cache_initalized g) true pdrv sector)
      else Some (result, b, set_bc w' g)
  end.
Proof.
  unfold disk_read. rewrite Z.eqb_refl.
  destruct (block_cache_read_block pdrv sector (Some buff) (bc g)) as [[[r out] w']|];
    reflexivity.
Qed.

(** X18: read-ahead.  After a single-sector [disk_read] that returned
    [RES_OK], [disk_task] reads the next sector (the sector number wraps
    as [LBA_t] does) into the cache with a NULL buffer and disarms the
    read-ahead.  When that read succeeded, the [disk_read] of the next
    sector is served from the cache: it returns [RES_OK] with the cached
    payload and calls no driver. *)
Theorem X18_read_ahead_serves_the_next_sector (pdrv sector : Z) (buff buff2 b : block)
        (b0 : option block) (g g1 : disk_state) (w0 : world) :
  cache_inv (cache (bc g)) ->
  disk_read pdrv buff sector 1 g = Some (RES_OK, b, g1) ->
  block_cache_read_block pdrv (lba_wrap (sector + 1)) None (bc g1) = Some (RES_OK, b0, w0) ->
  exists e g3,
    disk_task g1 = Some (mkDisk w0 (block_cache_initalized g) false pdrv sector) /\
    hash_lookup (cache w0) pdrv (lba_wrap (sector + 1)) = Some (Some e) /\
    disk_read pdrv buff2 (lba_wrap (sector + 1)) 1
              (mkDisk w0 (block_cache_initalized g) false pdrv sector)
      = Some (RES_OK, memcpy buff2 (data (entry (cache w0) e)) BLOCK_SIZE, g3) /\
    dev (bc g3) = dev w0 /\ io_log (bc g3) = io_log w0.
Proof.
  intros (F & L & B & R) H1 H2.
  rewrite disk_read_one in H1.
  destruct (block_cache_read_block pdrv sector (Some buff) (bc g)) as [[[r out] w']|] eqn:Hr;
    [|discriminate H1].
  cbn zeta in H1. destruct (is_ok r) eqn:Hok;
    [|injection H1 as -> _ _; discriminate Hok].
  injection H1 as -> _ <-. cbn [bc] in H2.
  assert (exec (OpRead pdrv sector (Some buff)) (bc g) = Some (RES_OK, w')) as Hex
      by (cbn [exec]; now rewrite Hr).
  destruct (@access_ok_cached (OpRead pdrv sector (Some buff)) pdrv sector (bc g) w' F L B
              R eq_refl Hex)
    as (F' & L' & B' & _ & R' & _ & _).
  assert (exec (OpRead pdrv (lba_wrap (sector + 1)) None) w' = Some (RES_OK, w0)) as Hex2
      by (cbn [exec]; now rewrite H2).
  destruct (@access_ok_cached (OpRead pdrv (lba_wrap (sector + 1)) None) pdrv
              (lba_wrap (sector + 1)) w' w0 F' L' B' R' eq_refl Hex2)
    as (F2 & L2 & B2 & e & R2 & _ & Hl2).
  destruct (@read_hit_output pdrv (lba_wrap (sector + 1)) (Some buff2) w0 e Hl2)
    as (w3 & Hr3 & Hd3 & Hlog3 & _).
  exists e. eexists. split; [|split; [exact Hl2|split; [|split]]].
  - unfold disk_task. cbn [read_ahead andb last_pdrv last_sector bc block_cache_initalized].
    rewrite H2. reflexivity.
  - rewrite disk_read_one. cbn [bc]. rewrite Hr3. cbn [is_ok copy_out]. reflexivity.
  - cbn [bc]. exact Hd3.
  - cbn [bc]. exact Hlog3.
Qed.

(** The incremental flush makes at most one device call. *)
Lemma flush_incremental_log (idx : list nat) (ia : bool) :
  forall w, exists evs, io_log (snd (flush_loop idx false ia w)) = io_log w ++ evs /\
                        length evs <= 1.
Proof.
  induction idx as [|j idx IH]; intros w.
  - exists []. cbn [flush_loop snd length]. rewrite app_nil_r. auto.
  - cbn [flush_loop].
    destruct (valid (entry (cache w) j) && dirty (entry (cache w) j)).
    + destruct (write_back j w) as [result w1] eqn:Hw.
      destruct (@write_back_cache _ _ _ _ Hw) as (_ & _ & Hl).
      destruct (is_ok result); cbn [snd io_log with_cache]; rewrite Hl;
        eexists; (split; [reflexivity|]); cbn [length]; lia.
    + destruct (invalidate_fields ia j w) as (_ & L4 & _).
      match goal with |- context [flush_loop idx false ia ?x] =>
        destruct (IH x) as (evs & -> & Hlen) end.
      cbn zeta in L4. rewrite L4. now exists evs.
Qed.

(** X19: [disk_task] does a bounded amount of work.  From any state
    that satisfies the invariant it returns, with the read-ahead
    disarmed, after at most two device calls: with a read-ahead pending,
    at most one write-back and one read; otherwise the at most one write
    of the incremental flush. *)
Theorem X19_disk_task_does_bounded_work (g : disk_state) :
  cache_inv (cache (bc g)) ->
  exists g' evs,
    disk_task g = Some g' /\
    io_log (bc g') = io_log (bc g) ++ evs /\
    length evs <= 2 /\
    (read_ahead g = false -> length evs <= 1) /\
    read_ahead g' = false /\
    cache_inv (cache (bc g')).
Proof.
  intros Hi. unfold disk_task. destruct (read_ahead g) eqn:Era; cbn [andb].
  - destruct (@access_inv (OpRead (last_pdrv g) (lba_wrap (last_sector g + 1)) None)
                          (last_pdrv g) (lba_wrap (last_sector g + 1)) (bc g) Hi eq_refl)
      as (r & w' & He & Hi').
    destruct (@access_device_calls (OpRead (last_pdrv g) (lba_wrap (last_sector g + 1)) None)
              (last_pdrv g) (lba_wrap (last_sector g + 1)) (bc g) w' r Hi eq_refl He)
      as (wb & rd & Hl & Hwb & Hrd).
    cbn [exec] in He.
    destruct (block_cache_read_block (last_pdrv g) (lba_wrap (last_sector g + 1)) None (bc g))
      as [[[r0 b] w0]|]; [|discriminate He].
    injection He as -> ->.
    eexists. exists (wb ++ rd). split; [reflexivity|]. cbn [bc read_ahead].
    split; [exact Hl|]. split; [|split; [discriminate|split; [reflexivity|exact Hi']]].
    rewrite length_app.
    assert (length wb <= 1) by (destruct Hwb as [->|(? & ? & _ & _ & ->)]; cbn; lia).
    assert (length rd <= 1) by (destruct Hrd as [->|(_ & ? & ->)]; cbn; lia).
    lia.
  - eexists.
    assert (exists evs,
               io_log (snd (block_cache_flush false flush_invalidate_all (bc g)))
               = io_log (bc g) ++ evs /\ length evs <= 1) as (evs & Hl & Hlen).
    { unfold block_cache_flush. destruct (s_dirty_blocks (cache (bc g))).
      - destruct (flush_incremental_log (seq 0 CACHE_SIZE) flush_invalidate_all (bc g))
          as (evs & Hl & Hlen).
        destruct (flush_loop (seq 0 CACHE_SIZE) false flush_invalidate_all (bc g))
          as [[r|] w1]; cbn [snd] in *; now exists evs.
      - exists []. cbn [snd length]. rewrite app_nil_r. auto. }
    exists evs. split; [reflexivity|]. cbn [set_bc bc read_ahead].
    split; [exact Hl|]. split; [lia|]. split; [auto|]. split; [exact Era|].
    destruct Hi as (F & L & B & R). exists F, L, B. now apply rep_flush.
Qed.

(** X20: transfers of more than one sector bypass the cache.  With no
    dirty block in the cache ([s_dirty_blocks] clear), a [disk_write]
    with a count other than one goes straight to the driver and leaves
    the cache exactly as it was, whatever [invalidate_all] the call of
    [block_cache_flush] receives; so a sector that was cached before the
    call is afterwards still read from the cache, with the payload the
    cache held before the call and without a driver call. *)
Theorem X20_multi_sector_write_bypasses_the_cache (pdrv sector count : Z) (buff : block)
        (g : disk_state) (r : DRESULT) (d' : Dev) :
  (count =? 1)%Z = false ->
  s_dirty_blocks (cache (bc g)) = false ->
  disk_write_no_cache_n (dev (bc g)) pdrv buff sector count = (r, d') ->
  disk_write pdrv buff sector count g
    = Some (r, set_bc (mkWorld (cache (bc g)) d' (io_log (bc g))) g) /\
  forall p sec e out,
    hash_lookup (cache (bc g)) p sec = Some (Some e) ->
    exists g2,
      disk_read p out sec 1 (set_bc (mkWorld (cache (bc g)) d' (io_log (bc g))) g)
        = Some (RES_OK, memcpy out (data (entry (cache (bc g)) e)) BLOCK_SIZE, g2) /\
      dev (bc g2) = d' /\ io_log (bc g2) = io_log (bc g).
Proof.
  intros Hc Hf Hw. split.
  - unfold disk_write. rewrite Hc. unfold block_cache_flush. rewrite Hf.
    cbn [snd]. rewrite Hw. reflexivity.
  - intros p sec e out Hl.
    destruct (@read_hit_output p sec (Some out)
                (mkWorld (cache (bc g)) d' (io_log (bc g))) e Hl)
      as (w3 & Hr3 & Hd3 & Hlog3 & _).
    rewrite disk_read_one. cbn [set_bc bc]. rewrite Hr3. cbn [is_ok copy_out cache].
    eexists. split; [reflexivity|]. cbn [bc]. auto.
Qed.

(** A full flush over a device that accepts every write. *)
Lemma full_flush_ok (ia : bool) (w : world) :
  cache_inv (cache w) -> flag_inv (cache w) ->
  (forall i d, i < CACHE_SIZE -> needs_write_back (cache w) i = true ->
               is_ok (fst (disk_write_no_cache d (pdrv (entry (cache w) i))
                                               (data (entry (cache w) i))
                                               (sector (entry (cache w) i)))) = true) ->
  exists w1,
    block_cache_flush true ia w = (RES_OK, w1) /\
    io_log w1 = io_log w ++ map (write_event (cache w))
                                (filter (needs_write_back (cache w)) (seq 0 CACHE_SIZE)) /\
    (forall i, dirty (entry (cache w1) i) = false) /\
    s_dirty_blocks (cache w1) = false.
Proof.
  intros (F & L & B & R) Hfi Hdev.
  pose proof (@rep_flush true ia w F L B R) as R'.
  assert (forall w1, cache_rep (cache w1) F L B ->
            (forall j, j < CACHE_SIZE -> needs_write_back (cache w1) j = false) ->
            forall i, dirty (entry (cache w1) i) = false) as Hclean.
  { intros w1 R1 Hn i. destruct (dirty (entry (cache w1) i)) eqn:Ed; [|reflexivity].
    exfalso. pose proof (rep_dirty R1 _ Ed) as Hv.
    assert (i < CACHE_SIZE) as Hi by (rewrite <- (rep_len R1); now apply valid_in_range).
    pose proof (Hn i Hi) as Hc. unfold needs_write_back in Hc. rewrite Hv, Ed in Hc.
    discriminate Hc. }
  unfold block_cache_flush in *. destruct (s_dirty_blocks (cache w)) eqn:Hf.
  - destruct (@flush_all_log ia (seq 0 CACHE_SIZE) (seq_NoDup _ _) w) as [Hn Hl].
    { intros i d Hi. apply Hdev. apply in_seq in Hi. lia. }
    pose proof (@flush_loop_done (seq 0 CACHE_SIZE) true ia w Hn) as Hd.
    destruct (flush_loop (seq 0 CACHE_SIZE) true ia w) as [[r|] w1];
      [discriminate Hn|].
    cbn [snd fst] in *. eexists. split; [reflexivity|].
    unfold with_cache; cbn [io_log cache s_dirty_blocks].
    split; [exact Hl|]. split; [|reflexivity].
    apply (Hclean (mkWorld (set_dirty_blocks false (cache w1)) (dev w1) (io_log w1))).
    + exact R'.
    + intros j Hj. cbn [cache]. unfold needs_write_back.
      change (entry (set_dirty_blocks false (cache w1)) j) with (entry (cache w1) j).
      apply Hd. apply in_seq. lia.
  - exists w. split; [reflexivity|]. split.
    + rewrite filter_all_false; [cbn [map]; now rewrite app_nil_r|].
      intros j Hj. apply in_seq in Hj. apply (Hfi Hf). lia.
    + split; [|exact Hf]. apply (Hclean w R). exact (Hfi Hf).
Qed.

(** X21: [disk_ioctl] and [disk_initialize] write the cache back before
    they call the driver.  Over a device that accepts the write of
    every dirty block, the flush they start with issues exactly one
    write per valid dirty slot and leaves no slot dirty, and the driver
    is called on the device as those writes left it; the cache goes on
    as the flush left it. *)
Theorem X21_ioctl_writes_the_cache_back_first (drive cmd : Z) (buff : block)
        (g : disk_state) :
  cache_inv (cache (bc g)) -> flag_inv (cache (bc g)) ->
  (forall i d, i < CACHE_SIZE -> needs_write_back (cache (bc g)) i = true ->
               is_ok (fst (disk_write_no_cache d (pdrv (entry (cache (bc g)) i))
                                               (data (entry (cache (bc g)) i))
                                               (sector (entry (cache (bc g)) i)))) = true) ->
  exists w1,
    block_cache_flush true flush_invalidate_all (bc g) = (RES_OK, w1) /\
    io_log w1 = io_log (bc g)
                ++ map (write_event (cache (bc g)))
                       (filter (needs_write_back (cache (bc g))) (seq 0 CACHE_SIZE)) /\
    (forall i, dirty (entry (cache w1) i) = false) /\
    disk_ioctl drive cmd buff g =
      (let '(result, b, d') :=
         if (drive =? DEV_SD)%Z then sd_disk_ioctl (dev w1) cmd buff
         else if MEDIUM_USB && (drive =? DEV_USB)%Z then usb_disk_ioctl (dev w1) cmd buff
         else (RES_PARERR, buff, dev w1) in
       (result, b, set_bc (mkWorld (cache w1) d' (io_log w1)) g)) /\
    disk_initialize drive g =
      (let '(status, d') :=
         if (drive =? DEV_SD)%Z then sd_disk_initialize (dev w1)
         else if MEDIUM_USB && (drive =? DEV_USB)%Z then usb_disk_initialize (dev w1)
         else (STA_NOINIT, dev w1) in
       (status, set_bc (mkWorld (cache w1) d' (io_log w1)) g)).
Proof.
  intros Hi Hfi Hdev.
  destruct (@full_flush_ok flush_invalidate_all (bc g) Hi Hfi Hdev)
    as (w1 & Hfl & Hlog & Hclean & _).
  exists w1. split; [exact Hfl|]. split; [exact Hlog|]. split; [exact Hclean|].
  unfold disk_ioctl, disk_initialize. rewrite Hfl. cbn [snd]. split; reflexivity.
Qed.

End GlueProperties.

End Cache.


(** * The claims on concrete runs

    The runs below use a 32-bit [LBA_t], no USB medium, and the stand-in
    drivers. *)

Abbreviation good_drive := (@exec false unit good_read good_write good_read good_write false)
  (only parsing).
Abbreviation run_good := (@run false unit good_read good_write good_read good_write false)
  (only parsing).
Abbreviation run_bad_write := (@run false unit good_read bad_write good_read bad_write false)
  (only parsing).
Abbreviation start := (@mkWorld unit boot_state tt []) (only parsing).

Lemma C1_unique_slot_per_key_witness :
  no_init [OpWrite 0 5 (pattern x01); OpRead 0 6 None; OpFlush true true] = true /\
  exists w,
    run_good [OpInit; OpWrite 0 5 (pattern x01); OpRead 0 6 None; OpFlush true true]
             start = Some w /\
    unique_keys (cache w).
Proof.
  split; [reflexivity|].
  apply (@C1_unique_slot_per_key false unit good_read good_write good_read good_write
           false tt [] [OpWrite 0 5 (pattern x01); OpRead 0 6 None; OpFlush true true]).
  reflexivity.
Defined.

(** The calls behind the counterexample to C1: a second
    [block_cache_init] after two writes, 128 writes that fill the pool
    (the first three keys share bucket 0), and two further writes. *)
Abbreviation reinit_calls :=
  ([OpInit; OpWrite 0 0 (pattern x01); OpWrite 0 1 (pattern x01); OpInit]
     ++ map (fun k => OpWrite 0 k (pattern x02))
            ([0; 27; 394]%Z ++ map Z.of_nat (seq 1000 125))
     ++ [OpWrite 0 2000 (pattern x03); OpWrite 0 0 (pattern x04)]).

(** C1 as stated fails when [block_cache_init] is called again: it does
    not reset [s_free_head], the free list becomes cyclic and hands out
    slots that are still in use.  After the calls above the slots 126 and
    127 are both valid for the key (drive 0, sector 0). *)
Lemma C1_counterexample :
  exists w, run_good reinit_calls start = Some w /\ ~ unique_keys (cache w).
Proof.
  eexists. split; [vm_compute; reflexivity|].
  intros H.
  assert (126 < CACHE_SIZE) as H1 by (rewrite CACHE_SIZE_eq; lia).
  assert (127 < CACHE_SIZE) as H2 by (rewrite CACHE_SIZE_eq; lia).
  specialize (H 126 127 H1 H2 eq_refl eq_refl eq_refl eq_refl).
  discriminate H.
Qed.

(** The pool filled by 128 writes of distinct sectors of drive 0, over a
    device that refuses every write. *)
Abbreviation full_dirty_pool :=
  (match run_bad_write
           (OpInit :: map (fun k => OpWrite 0 (Z.of_nat k) (pattern x02)) (seq 0 128))
           start with
   | Some w => w
   | None => start
   end).

Lemma C2_failed_write_back_keeps_slot_witness :
  let o := OpWrite 0 1000 (pattern x05) in
  let w := full_dirty_pool in
  op_key o = Some (0, 1000)%Z /\
  hash_lookup false (cache w) 0 1000 = Some None /\
  s_free_head (cache w) = None /\
  s_lru_tail (cache w) = Some 127 /\
  valid (entry (cache w) 127) = true /\
  dirty (entry (cache w) 127) = true /\
  disk_write_no_cache bad_write bad_write false (dev w) (pdrv (entry (cache w) 127))
                      (data (entry (cache w) 127)) (sector (entry (cache w) 127))
    = (RES_ERROR, tt) /\
  RES_ERROR <> RES_OK /\
  exists w',
    exec false good_read bad_write good_read bad_write false o w = Some (RES_ERROR, w') /\
    s_cache (cache w') = s_cache (cache w) /\
    s_hash_table (cache w') = s_hash_table (cache w) /\
    s_lru_head (cache w') = s_lru_head (cache w) /\
    s_lru_tail (cache w') = s_lru_tail (cache w) /\
    s_free_head (cache w') = s_free_head (cache w) /\
    valid (entry (cache w') 127) = true /\ dirty (entry (cache w') 127) = true /\
    sector (entry (cache w') 127) = sector (entry (cache w) 127) /\
    pdrv (entry (cache w') 127) = pdrv (entry (cache w) 127).
Proof.
  intros o w.
  assert (op_key o = Some (0, 1000)%Z) as H1 by reflexivity.
  assert (hash_lookup false (cache w) 0 1000 = Some None) as H2
      by (vm_compute; reflexivity).
  assert (s_free_head (cache w) = None) as H3 by (vm_compute; reflexivity).
  assert (s_lru_tail (cache w) = Some 127) as H4 by (vm_compute; reflexivity).
  assert (valid (entry (cache w) 127) = true) as H5 by (vm_compute; reflexivity).
  assert (dirty (entry (cache w) 127) = true) as H6 by (vm_compute; reflexivity).
  assert (disk_write_no_cache bad_write bad_write false (dev w)
            (pdrv (entry (cache w) 127)) (data (entry (cache w) 127))
            (sector (entry (cache w) 127)) = (RES_ERROR, tt)) as H7
      by (vm_compute; reflexivity).
  assert (RES_ERROR <> RES_OK) as H8 by discriminate.
  repeat (split; [assumption|]).
  exact (@C2_failed_write_back_keeps_slot false unit good_read bad_write good_read
           bad_write false o 0%Z 1000%Z w 127 RES_ERROR tt H1 H2 H3 H4 H5 H6 H7 H8).
Defined.

(** C9 as stated fails: on the freshly initialised pool, slot 0 is on
    the free list and the chain of the bucket of its key is empty, yet
    [hash_remove] returns normally and leaves the state as it was. *)
Lemma C9_counterexample :
  let s := block_cache_init boot_state in
  chain (s_cache s) (nth (hkey false s 0) (s_hash_table s) None) [] /\
  hash_remove false 0 s = Some s.
Proof.
  split; vm_compute; reflexivity.
Qed.

Lemma C9_hash_remove_absent_is_silent_witness :
  let s := block_cache_init boot_state in
  length (s_cache s) = CACHE_SIZE /\
  chain (s_cache s) (nth (hkey false s 0) (s_hash_table s) None) [] /\
  ~ In 0 [] /\
  hash_remove false 0 s = Some s.
Proof.
  intros s.
  assert (length (s_cache s) = CACHE_SIZE) as H1 by (vm_compute; reflexivity).
  assert (chain (s_cache s) (nth (hkey false s 0) (s_hash_table s) None) []) as H2
      by (vm_compute; reflexivity).
  assert (~ In 0 []) as H3 by (simpl; tauto).
  repeat (split; [assumption|]).
  exact (@C9_hash_remove_absent_is_silent false s 0 [] H1 H2 H3).
Defined.

(** The pool after a write and a full flush: [s_dirty_blocks] is clear. *)
Abbreviation flushed_pool :=
  (match run_good [OpInit; OpWrite 0 5 (pattern x01); OpFlush true false] start with
   | Some w => w
   | None => start
   end) (only parsing).

Lemma C10_dirty_flag_invariant_witness :
  let o := OpWrite 0 9 (pattern x03) in
  let w := flushed_pool in
  flag_inv (cache w) /\
  (forall r w', good_drive o w = Some (r, w') -> flag_inv (cache w')) /\
  (cache_inv false (cache w) \/ is_init o = true ->
   exists r w', good_drive o w = Some (r, w')) /\
  (s_dirty_blocks (cache w) = false ->
   forall fa ia,
     block_cache_flush good_write good_write false fa ia w = (RES_OK, w) /\
     forall i, i < CACHE_SIZE -> needs_write_back (cache w) i = false).
Proof.
  intros o w.
  assert (flag_inv (cache w)) as H1.
  { intros _ i Hi.
    pose proof (@forall_below (fun i => negb (needs_write_back (cache w) i))
                  CACHE_SIZE ltac:(vm_compute; reflexivity) i Hi) as H.
    cbv beta in H. apply negb_true_iff in H. exact H. }
  split; [exact H1|].
  exact (@C10_dirty_flag_invariant false unit good_read good_write good_read good_write
           false o w H1).
Defined.

(** C3 fails on the code: the pool is freshly initialised and the device
    read fails.  Before the call slot 127 heads the free list; the call
    returns the device error, and afterwards slot 127 is neither on the
    free list nor on the recency list nor valid: it is lost to the
    cache. *)
Lemma C3_failed_read_loses_the_slot :
  let w1 := @with_cache unit block_cache_init start in
  chain_walk LOOP_FUEL (s_cache (cache w1)) (s_free_head (cache w1))
    = Some (rev (seq 0 128)) /\
  exists w2,
    block_cache_read_block false bad_read good_write bad_read good_write false
                           0 7 (Some (pattern x00)) w1
      = Some (RES_ERROR, Some (pattern x00), w2) /\
    chain_walk LOOP_FUEL (s_cache (cache w2)) (s_free_head (cache w2))
      = Some (rev (seq 0 127)) /\
    s_lru_head (cache w2) = None /\ s_lru_tail (cache w2) = None /\
    valid (entry (cache w2) 127) = false.
Proof.
  split; [vm_compute; reflexivity|].
  eexists. split; [vm_compute; reflexivity|].
  repeat split; vm_compute; reflexivity.
Qed.

(** C4 as stated fails: after [block_cache_init] and one write the
    invariant of the specification holds; [block_cache_flush (true, true)]
    then clears the valid bit of slot 127 and leaves it at the head of
    the recency list, neither free nor cached. *)
Lemma C4_counterexample :
  exists w1 w2,
    run_good [OpInit; OpWrite 0 0 (pattern x01)] start = Some w1 /\
    spec_pool_inv false (cache w1) /\
    good_drive (OpFlush true true) w1 = Some (RES_OK, w2) /\
    ~ spec_pool_inv false (cache w2).
Proof.
  destruct (@write_spec_pool_inv false unit good_read good_write good_read good_write
              false 0%Z 0%Z (pattern x01) (with_cache block_cache_init start)
              (init_spec_pool_inv false boot_state eq_refl)) as (r & w1 & He & Hs).
  exists w1.
  assert (run_good [OpInit; OpWrite 0 0 (pattern x01)] start = Some w1) as Hrun.
  { rewrite run_cons.
    change (good_drive OpInit start)
      with (Some (RES_OK, @with_cache unit block_cache_init start)).
    cbv beta iota. rewrite run_cons, He. reflexivity. }
  vm_compute in He. inversion He; subst r w1. clear He.
  eexists. split; [exact Hrun|]. split; [exact Hs|].
  split; [vm_compute; reflexivity|].
  intros H. apply spec_pool_inv_elim in H.
  destruct H as (F & L & B & R & _ & Ha).
  destruct (rep_lru R) as (_ & _ & Hh & _).
  vm_compute in Hh. symmetry in Hh. apply hd_error_in in Hh.
  specialize (Ha 127 Hh). vm_compute in Ha. discriminate Ha.
Qed.

Lemma C4_pool_invariant_witness :
  let o := OpRead 0 5 None in
  let w := @with_cache unit block_cache_init start in
  (if is_init o then s_free_head (cache w) = None else pool_inv false (cache w)) /\
  exists r w',
    good_drive o w = Some (r, w') /\
    (pool_inv false (cache w') \/
     exists p sec out wb,
       o = OpRead p sec out /\ is_ok r = false /\
       io_log w' = io_log w ++ wb ++ [IoRead p sec r]) /\
    (forall evs,
        io_log w' = io_log w ++ evs ->
        (forall p sec r', In (IoRead p sec r') evs -> r' = RES_OK) ->
        pool_inv false (cache w')).
Proof.
  intros o w.
  assert (if is_init o then s_free_head (cache w) = None
          else pool_inv false (cache w)) as H1.
  { cbn [is_init o]. unfold w, with_cache; cbn [cache].
    pose proof (@init_rep false boot_state eq_refl) as R.
    eexists _, _, _. split; [exact R|].
    apply (proj1 (@covered_slots false _ _ _ _ R)), init_covered. }
  split; [exact H1|].
  exact (@C4_pool_invariant false unit good_read good_write good_read good_write false
           o w H1).
Defined.

(** C5, the failing input: after [block_cache_init], a read of sector 5
    and [block_cache_flush (true, false)], slot 127 caches sector 5,
    nothing is dirty and [s_dirty_blocks] is clear.
    [block_cache_flush (true, true)] then returns [RES_OK] before it
    looks at any slot: the state is as it was, slot 127 stays valid and
    the lookup of sector 5 still hits.  After the same calls with a
    write in place of the read, [s_dirty_blocks] is set, and the same
    flush takes the path that scans the pool and invalidates the slot. *)
Lemma C5_clean_flush_skips_invalidation :
  (exists w,
      run_good [OpInit; OpRead 0 5 None; OpFlush true false] start = Some w /\
      s_dirty_blocks (cache w) = false /\
      hash_lookup false (cache w) 0 5 = Some (Some 127) /\
      block_cache_flush good_write good_write false true true w = (RES_OK, w) /\
      valid (entry (cache w) 127) = true) /\
  (exists v v',
      run_good [OpInit; OpWrite 0 5 (pattern x01); OpFlush true false] start = Some v /\
      s_dirty_blocks (cache v) = false /\
      hash_lookup false (cache v) 0 5 = Some (Some 127) /\
      block_cache_flush good_write good_write false true true v = (RES_OK, v') /\
      valid (entry (cache v') 127) = true) /\
  (exists u u',
      run_good [OpInit; OpWrite 0 5 (pattern x01)] start = Some u /\
      s_dirty_blocks (cache u) = true /\
      hash_lookup false (cache u) 0 5 = Some (Some 127) /\
      block_cache_flush good_write good_write false true true u = (RES_OK, u') /\
      valid (entry (cache u') 127) = false /\
      hash_lookup false (cache u') 0 5 = Some None).
Proof.
  split; [|split].
  - eexists. split; [vm_compute; reflexivity|].
    repeat split; vm_compute; reflexivity.
  - eexists. eexists. split; [vm_compute; reflexivity|].
    split; [vm_compute; reflexivity|]. split; [vm_compute; reflexivity|].
    split; vm_compute; reflexivity.
  - eexists. eexists. split; [vm_compute; reflexivity|].
    split; [vm_compute; reflexivity|]. split; [vm_compute; reflexivity|].
    split; [vm_compute; reflexivity|].
    split; vm_compute; reflexivity.
Qed.

(** The pool after initialisation and one write: slot 127 is dirty. *)
Abbreviation one_dirty_slot :=
  (match run_good [OpInit; OpWrite 0 5 (pattern x01)] start with
   | Some w => w
   | None => start
   end).

Lemma C7_incremental_flush_witness :
  let w := one_dirty_slot in
  flag_inv (cache w) /\
  127 < CACHE_SIZE /\
  needs_write_back (cache w) 127 = true /\
  (forall j, j < CACHE_SIZE -> j <> 127 -> needs_write_back (cache w) j = false) /\
  disk_write_no_cache good_write good_write false (dev w) (pdrv (entry (cache w) 127))
                      (data (entry (cache w) 127)) (sector (entry (cache w) 127))
    = (RES_OK, tt) /\
  exists w1 w2,
    block_cache_flush good_write good_write false false false w = (RES_OK, w1) /\
    io_log w1 = io_log w ++ [write_event (cache w) 127] /\
    dev w1 = tt /\
    dirty (entry (cache w1) 127) = false /\
    block_cache_flush good_write good_write false false false w1 = (RES_OK, w2) /\
    io_log w2 = io_log w1 /\ dev w2 = dev w1.
Proof.
  intros w.
  assert (flag_inv (cache w)) as H1 by (intros H; vm_compute in H; discriminate H).
  assert (127 < CACHE_SIZE) as H2 by (rewrite CACHE_SIZE_eq; lia).
  assert (needs_write_back (cache w) 127 = true) as H3 by (vm_compute; reflexivity).
  assert (forall j, j < CACHE_SIZE -> j <> 127 -> needs_write_back (cache w) j = false)
    as H4.
  { intros j Hj Hne.
    pose proof (@forall_below
                  (fun j => Nat.eqb j 127 || negb (needs_write_back (cache w) j))
                  CACHE_SIZE ltac:(vm_compute; reflexivity) j Hj) as H.
    cbv beta in H. apply Nat.eqb_neq in Hne. rewrite Hne, orb_false_l in H.
    apply negb_true_iff in H. exact H. }
  assert (disk_write_no_cache good_write good_write false (dev w)
            (pdrv (entry (cache w) 127)) (data (entry (cache w) 127))
            (sector (entry (cache w) 127)) = (RES_OK, tt)) as H5
      by (vm_compute; reflexivity).
  split; [exact H1|]. split; [exact H2|]. split; [exact H3|]. split; [exact H4|].
  split; [exact H5|].
  exact (@C7_incremental_flush unit good_read good_write good_read good_write false w 127 tt H1 H2 H3 H4 H5).
Defined.

(** The pool filled by 128 writes, of the sectors 0 to 127 of drive 0,
    and then a read of sector 0: sector 1 is now the key touched least
    recently, and a read of sector 1000 evicts it. *)
Abbreviation fill_calls :=
  (map (fun k => OpWrite 0 (Z.of_nat k) (pattern x02)) (seq 0 128) ++ [OpRead 0 0 None])
  (only parsing).
Abbreviation run_ok_good :=
  (@run_ok false unit good_read good_write good_read good_write false) (only parsing).
Abbreviation full_pool :=
  (match run_ok_good (OpInit :: fill_calls) start with
   | Some w => w
   | None => start
   end) (only parsing).

Lemma C8_lru_eviction_witness :
  let o := OpRead 0 1000 None in
  let w := full_pool in
  s_free_head (cache start) = None /\
  forallb keeps_slots fill_calls = true /\
  run_ok_good (OpInit :: fill_calls) start = Some w /\
  length (recency fill_calls) = CACHE_SIZE /\
  op_key o = Some (0, 1000)%Z /\
  ~ In (0, 1000)%Z (recency fill_calls) /\
  exists e r w',
    s_lru_tail (cache w) = Some e /\
    slot_key (cache w) e = last (recency fill_calls) (0, 0)%Z /\
    hash_lookup false (cache w) (pdrv (entry (cache w) e)) (sector (entry (cache w) e))
      = Some (Some e) /\
    good_drive o w = Some (r, w') /\
    ((needs_write_back (cache w) e = true ->
      is_ok (fst (disk_write_no_cache good_write good_write false (dev w)
                    (pdrv (entry (cache w) e)) (data (entry (cache w) e))
                    (sector (entry (cache w) e)))) = true) ->
     io_log w' =
       io_log w
       ++ (if needs_write_back (cache w) e then [write_event (cache w) e] else [])
       ++ (if is_write_op o then [] else [IoRead 0 1000 r]) /\
     hash_lookup false (cache w') (pdrv (entry (cache w) e)) (sector (entry (cache w) e))
       = Some None /\
     (forall k, In k (recency fill_calls) -> k <> slot_key (cache w) e ->
                exists j, hash_lookup false (cache w') (fst k) (snd k) = Some (Some j)) /\
     (is_write_op o = true -> r = RES_OK) /\
     (r = RES_OK -> hash_lookup false (cache w') 0 1000 = Some (Some e))).
Proof.
  intros o w.
  assert (s_free_head (cache start) = None) as H1 by reflexivity.
  assert (forallb keeps_slots fill_calls = true) as H2 by (vm_compute; reflexivity).
  assert (run_ok_good (OpInit :: fill_calls) start = Some w) as H3
      by (vm_compute; reflexivity).
  assert (length (recency fill_calls) = CACHE_SIZE) as H4 by (vm_compute; reflexivity).
  assert (op_key o = Some (0, 1000)%Z) as H5 by reflexivity.
  assert (~ In (0, 1000)%Z (recency fill_calls)) as H6
      by (apply not_in_key; vm_compute; reflexivity).
  repeat (split; [assumption|]).
  exact (@C8_lru_eviction false unit good_read good_write good_read good_write false
           fill_calls o 0%Z 1000%Z start w H1 H2 H3 H4 H5 H6).
Defined.

(** The same call, evaluated: the victim is slot 126, which holds
    sector 1 and is dirty; the call writes it back, then reads sector
    1000 into the slot, and sector 1 is missed afterwards while sector 0,
    written first but read again since, is still held. *)
Example lru_eviction_evaluated :
  let w := full_pool in
  s_lru_tail (cache w) = Some 126 /\
  slot_key (cache w) 126 = (0, 1)%Z /\
  needs_write_back (cache w) 126 = true /\
  exists w',
    good_drive (OpRead 0 1000 None) w = Some (RES_OK, w') /\
    io_log w' = io_log w ++ [IoWrite 0 1 (pattern x02) RES_OK; IoRead 0 1000 RES_OK] /\
    hash_lookup false (cache w') 0 1 = Some None /\
    hash_lookup false (cache w') 0 1000 = Some (Some 126) /\
    hash_lookup false (cache w') 0 0 = Some (Some 127).
Proof.
  intros w.
  split; [vm_compute; reflexivity|]. split; [vm_compute; reflexivity|].
  split; [vm_compute; reflexivity|].
  eexists. split; [vm_compute; reflexivity|].
  split; [vm_compute; reflexivity|]. split; [vm_compute; reflexivity|].
  split; vm_compute; reflexivity.
Qed.

Lemma full_pool_inv : cache_inv false (cache full_pool).
Proof.
  destruct (@history_keys false unit good_read good_write good_read good_write false
              fill_calls start full_pool eq_refl ltac:(vm_compute; reflexivity)
              ltac:(vm_compute; reflexivity)) as (F & L & B & R & _).
  exists F, L, B. exact R.
Qed.

(** C8 as stated fails.  The pool is filled by 128 writes of distinct
    sectors over a device that refuses every write; all of them return
    [RES_OK], sector 0 is the key touched least recently and its slot,
    127, is dirty.  The write of one further sector then returns the
    error of the refused write-back: nothing is evicted, the new sector
    is not cached, and the read of sector 0 that follows is a hit that
    returns the payload without a device call. *)
Lemma C8_counterexample :
  let accs := map (fun k => OpWrite 0 (Z.of_nat k) (pattern x02)) (seq 0 128) in
  let w := full_dirty_pool in
  forallb keeps_slots accs = true /\
  @run_ok false unit good_read bad_write good_read bad_write false (OpInit :: accs) start
    = Some w /\
  length (recency accs) = CACHE_SIZE /\
  ~ In (0, 1000)%Z (recency accs) /\
  last (recency accs) (0, 0)%Z = (0, 0)%Z /\
  s_lru_tail (cache w) = Some 127 /\
  slot_key (cache w) 127 = (0, 0)%Z /\
  needs_write_back (cache w) 127 = true /\
  exists w' w2,
    exec false good_read bad_write good_read bad_write false
         (OpWrite 0 1000 (pattern x05)) w = Some (RES_ERROR, w') /\
    io_log w' = io_log w ++ [IoWrite 0 0 (pattern x02) RES_ERROR] /\
    hash_lookup false (cache w') 0 1000 = Some None /\
    hash_lookup false (cache w') 0 0 = Some (Some 127) /\
    block_cache_read_block false good_read bad_write good_read bad_write false
                           0 0 (Some (pattern x00)) w'
      = Some (RES_OK, Some (pattern x02), w2) /\
    io_log w2 = io_log w'.
Proof.
  intros accs w.
  split; [vm_compute; reflexivity|]. split; [vm_compute; reflexivity|].
  split; [vm_compute; reflexivity|].
  split; [apply not_in_key; vm_compute; reflexivity|].
  split; [vm_compute; reflexivity|]. split; [vm_compute; reflexivity|].
  split; [vm_compute; reflexivity|]. split; [vm_compute; reflexivity|].
  eexists. eexists. split; [vm_compute; reflexivity|].
  split; [vm_compute; reflexivity|]. split; [vm_compute; reflexivity|].
  split; [vm_compute; reflexivity|]. split; [vm_compute; reflexivity|].
  vm_compute; reflexivity.
Qed.

(** C6 as stated fails: on the same pool, over the device that refuses
    every write, the write of a new sector needs the slot of sector 0,
    whose write-back is refused; the write returns [RES_ERROR], and the
    read of the sector that follows, which needs a slot as well, returns
    [RES_ERROR] too and leaves the caller's buffer as it was. *)
Lemma C6_counterexample :
  let w := full_dirty_pool in
  length (pattern x05) = BLOCK_SIZE /\ length (pattern x00) = BLOCK_SIZE /\
  exists w1 w2,
    block_cache_write_block false bad_write bad_write false 0 1000 (pattern x05) w
      = Some (RES_ERROR, w1) /\
    block_cache_read_block false good_read bad_write good_read bad_write false
                           0 1000 (Some (pattern x00)) w1
      = Some (RES_ERROR, Some (pattern x00), w2).
Proof.
  intros w.
  split; [vm_compute; reflexivity|]. split; [vm_compute; reflexivity|].
  eexists. eexists. split; [vm_compute; reflexivity|].
  vm_compute; reflexivity.
Qed.

Lemma C6_read_after_write_witness :
  let w := full_pool in
  cache_inv false (cache w) /\
  length (pattern x01) = BLOCK_SIZE /\ length (pattern x00) = BLOCK_SIZE /\
  exists r w1,
    block_cache_write_block false good_write good_write false 0 1000 (pattern x01) w
      = Some (r, w1) /\
    (r = RES_OK <->
     ((exists e, hash_lookup false (cache w) 0 1000 = Some (Some e)) \/
      s_free_head (cache w) <> None \/
      (exists e, s_lru_tail (cache w) = Some e /\
                 (needs_write_back (cache w) e = true ->
                  is_ok (fst (disk_write_no_cache good_write good_write false (dev w)
                                (pdrv (entry (cache w) e)) (data (entry (cache w) e))
                                (sector (entry (cache w) e)))) = true)))) /\
    (r = RES_OK ->
     exists w2,
       block_cache_read_block false good_read good_write good_read good_write false
                              0 1000 (Some (pattern x00)) w1
         = Some (RES_OK, Some (pattern x01), w2) /\
       dev w2 = dev w1 /\ io_log w2 = io_log w1).
Proof.
  intros w.
  assert (length (pattern x01) = BLOCK_SIZE) as H2 by (vm_compute; reflexivity).
  assert (length (pattern x00) = BLOCK_SIZE) as H3 by (vm_compute; reflexivity).
  split; [exact full_pool_inv|]. split; [exact H2|]. split; [exact H3|].
  exact (@C6_read_after_write false unit good_read good_write good_read good_write false
           0%Z 1000%Z (pattern x01) (pattern x00) w full_pool_inv H2 H3).
Defined.

(** * The further properties on concrete runs *)

(** The pool right after [block_cache_init]. *)
Abbreviation fresh_pool := (block_cache_init boot_state) (only parsing).
Abbreviation fresh := (@with_cache unit block_cache_init start) (only parsing).

Lemma fresh_lru : lru_rep fresh_pool [].
Proof. exact (rep_lru (init_rep false boot_state eq_refl)). Qed.

Lemma fresh_length : length (s_cache fresh_pool) = CACHE_SIZE.
Proof. exact (rep_len (init_rep false boot_state eq_refl)). Qed.

Lemma X1_lru_touch_moves_to_front_witness :
  let s := lru_insert_front 1 (lru_insert_front 0 fresh_pool) in
  lru_rep s [1; 0] /\ In 0 [1; 0] /\
  lru_rep (lru_touch 0 s) (0 :: del 0 [1; 0]) /\ same_core s (lru_touch 0 s).
Proof.
  intros s.
  assert (lru_rep (lru_insert_front 0 fresh_pool) [0]) as H0.
  { apply lru_insert_front_rep; [exact fresh_lru|intros []|].
    rewrite fresh_length. vm_compute. lia. }
  assert (lru_rep s [1; 0]) as H1.
  { apply lru_insert_front_rep; [exact H0|intros [H|[]]; discriminate H|].
    vm_compute. lia. }
  assert (In 0 [1; 0]) as H2 by (right; now left).
  split; [exact H1|]. split; [exact H2|].
  exact (@X1_lru_touch_moves_to_front s [1; 0] 0 H1 H2).
Defined.

Lemma X2_lru_insert_then_remove_witness :
  lru_rep fresh_pool [] /\ ~ In 5 [] /\ 5 < length (s_cache fresh_pool) /\
  lru_rep (lru_insert_front 5 fresh_pool) [5] /\
  lru_rep (lru_remove 5 (lru_insert_front 5 fresh_pool)) [] /\
  same_core fresh_pool (lru_remove 5 (lru_insert_front 5 fresh_pool)).
Proof.
  assert (~ In 5 []) as H2 by (intros []).
  assert (5 < length (s_cache fresh_pool)) as H3 by (vm_compute; lia).
  split; [exact fresh_lru|]. split; [exact H2|]. split; [exact H3|].
  exact (@X2_lru_insert_then_remove fresh_pool [] 5 fresh_lru H2 H3).
Defined.

Lemma X3_free_list_is_lifo_witness :
  chain (s_cache boot_state) (s_free_head boot_state) [] /\
  3 < length (s_cache boot_state) /\ ~ In 3 [] /\
  chain (s_cache (free_insert 3 boot_state)) (s_free_head (free_insert 3 boot_state)) [3] /\
  valid (entry (free_insert 3 boot_state) 3) = false /\
  exists s',
    free_get (free_insert 3 boot_state) = (Some 3, s') /\
    s_free_head s' = s_free_head boot_state /\
    chain (s_cache s') (s_free_head s') [].
Proof.
  assert (chain (s_cache boot_state) (s_free_head boot_state) []) as H1 by reflexivity.
  assert (3 < length (s_cache boot_state)) as H2 by (vm_compute; lia).
  assert (~ In 3 []) as H3 by (intros []).
  split; [exact H1|]. split; [exact H2|]. split; [exact H3|].
  exact (@X3_free_list_is_lifo boot_state [] 3 H1 H2 H3).
Defined.

(** A write miss half way: slot 127 is off the free list and filled in,
    not yet in the hash index. *)
Abbreviation filled_slot :=
  (write_fill 127 0 5 (pattern x01) (snd (free_get fresh_pool))) (only parsing).

Lemma filled_slot_buckets (h : nat) :
  h < HASH_SIZE -> chain (s_cache filled_slot) (nth h (s_hash_table filled_slot) None) [].
Proof.
  intros Hh. cbn [chain].
  assert (s_hash_table filled_slot = repeat None HASH_SIZE) as -> by (vm_compute; reflexivity).
  now apply nth_repeat_lt.
Qed.

Lemma X4_hash_insert_then_lookup_witness :
  let s := filled_slot in
  length (s_cache s) = CACHE_SIZE /\ length (s_hash_table s) = HASH_SIZE /\
  (forall h, h < HASH_SIZE -> chain (s_cache s) (nth h (s_hash_table s) None) []) /\
  (forall h : nat, ~ In 127 (@nil nat)) /\
  127 < CACHE_SIZE /\ valid (entry s 127) = true /\
  hash_lookup false (hash_insert false 127 s) (pdrv (entry s 127)) (sector (entry s 127))
    = Some (Some 127) /\
  forall p sec, key_match (entry s 127) p sec = false ->
                hash_lookup false (hash_insert false 127 s) p sec = hash_lookup false s p sec.
Proof.
  intros s.
  assert (length (s_cache s) = CACHE_SIZE) as H1 by (vm_compute; reflexivity).
  assert (length (s_hash_table s) = HASH_SIZE) as H2 by (vm_compute; reflexivity).
  assert (forall h : nat, ~ In 127 (@nil nat)) as H4 by (intros _ []).
  assert (127 < CACHE_SIZE) as H5 by (vm_compute; lia).
  assert (valid (entry s 127) = true) as H6 by (vm_compute; reflexivity).
  split; [exact H1|]. split; [exact H2|]. split; [exact filled_slot_buckets|].
  split; [exact H4|]. split; [exact H5|]. split; [exact H6|].
  exact (@X4_hash_insert_then_lookup false s (fun _ => []) 127 H1 H2 filled_slot_buckets
           H4 H5 H6).
Defined.

Lemma X5_hash_insert_then_remove_witness :
  let s := filled_slot in
  length (s_cache s) = CACHE_SIZE /\ length (s_hash_table s) = HASH_SIZE /\
  chain (s_cache s) (nth (hkey false s 127) (s_hash_table s) None) [] /\
  ~ In 127 [] /\ 127 < CACHE_SIZE /\
  exists s',
    hash_remove false 127 (hash_insert false 127 s) = Some s' /\
    chain (s_cache s') (nth (hkey false s 127) (s_hash_table s') None) [] /\
    (forall h, nth h (s_hash_table s') None = nth h (s_hash_table s) None) /\
    (forall j, j <> 127 -> hash_next (entry s' j) = hash_next (entry s j)) /\
    hash_next (entry s' 127) = None /\
    same_but_hash s s'.
Proof.
  intros s.
  assert (length (s_cache s) = CACHE_SIZE) as H1 by (vm_compute; reflexivity).
  assert (length (s_hash_table s) = HASH_SIZE) as H2 by (vm_compute; reflexivity).
  assert (chain (s_cache s) (nth (hkey false s 127) (s_hash_table s) None) []) as H3
      by (vm_compute; reflexivity).
  assert (~ In 127 []) as H4 by (intros []).
  assert (127 < CACHE_SIZE) as H5 by (vm_compute; lia).
  split; [exact H1|]. split; [exact H2|]. split; [exact H3|].
  split; [exact H4|]. split; [exact H5|].
  exact (@X5_hash_insert_then_remove false s [] 127 H1 H2 H3 H4 H5).
Defined.

Lemma X6_init_empties_the_cache_witness :
  s_free_head boot_state = None /\
  (forall p sec, hash_lookup false fresh_pool p sec = Some None) /\
  (forall i, valid (entry fresh_pool i) = false /\ dirty (entry fresh_pool i) = false) /\
  chain_walk LOOP_FUEL (s_cache fresh_pool) (s_free_head fresh_pool)
    = Some (rev (seq 0 CACHE_SIZE)) /\
  s_lru_head fresh_pool = None /\ s_lru_tail fresh_pool = None /\
  s_dirty_blocks fresh_pool = s_dirty_blocks boot_state.
Proof.
  split; [reflexivity|].
  exact (@X6_init_empties_the_cache false boot_state eq_refl).
Defined.

Lemma X7_nothing_to_evict_witness :
  cache_rep false (cache start) [] [] (fun _ => []) /\
  op_key (OpWrite 0 5 (pattern x01)) = Some (0, 5)%Z /\
  good_drive (OpWrite 0 5 (pattern x01)) start
    = Some (RES_PARERR, with_cache (set_evict_error RES_PARERR) start).
Proof.
  assert (cache_rep false (cache start) [] [] (fun _ => [])) as H1 by exact (boot_rep false).
  assert (op_key (OpWrite 0 5 (pattern x01)) = Some (0, 5)%Z) as H2 by reflexivity.
  split; [exact H1|]. split; [exact H2|].
  exact (@X7_nothing_to_evict false unit good_read good_write good_read good_write false
           (OpWrite 0 5 (pattern x01)) 0%Z 5%Z start (fun _ => []) H1 H2).
Defined.

Abbreviation read_good :=
  (@block_cache_read_block false unit good_read good_write good_read good_write false)
  (only parsing).
Abbreviation write_good :=
  (@block_cache_write_block false unit good_write good_write false) (only parsing).
Abbreviation flush_good := (@block_cache_flush unit good_write good_write false)
  (only parsing).
Abbreviation flush_bad := (@block_cache_flush unit bad_write bad_write false)
  (only parsing).

(** The world after a call, for a call that returns. *)
Abbreviation after_read r :=
  (match r with Some (_, _, w) => w | None => start end) (only parsing).
Abbreviation after_write r :=
  (match r with Some (_, w) => w | None => start end) (only parsing).

Lemma fresh_inv : cache_inv false (cache fresh).
Proof. exact (@boot_init_inv false unit start eq_refl). Qed.

Lemma X8_read_again_is_served_from_cache_witness :
  let w1 := after_read (read_good 0 5 None fresh) in
  cache_inv false (cache fresh) /\
  read_good 0 5 None fresh = Some (RES_OK, None, w1) /\
  exists e w2,
    hash_lookup false (cache w1) 0 5 = Some (Some e) /\
    None = copy_out None (entry (cache w1) e) /\
    read_good 0 5 (Some (pattern x07)) w1
      = Some (RES_OK, copy_out (Some (pattern x07)) (entry (cache w1) e), w2) /\
    dev w2 = dev w1 /\ io_log w2 = io_log w1.
Proof.
  intros w1.
  assert (read_good 0 5 None fresh = Some (RES_OK, None, w1)) as H2
      by (vm_compute; reflexivity).
  split; [exact fresh_inv|]. split; [exact H2|].
  exact (@X8_read_again_is_served_from_cache false unit good_read good_write good_read
           good_write false 0%Z 5%Z None (Some (pattern x07)) None fresh w1 fresh_inv H2).
Defined.

Lemma X9_last_write_wins_witness :
  let w1 := after_write (write_good 0 5 (pattern x01) fresh) in
  cache_inv false (cache fresh) /\
  write_good 0 5 (pattern x01) fresh = Some (RES_OK, w1) /\
  length (pattern x02) = BLOCK_SIZE /\ length (pattern x00) = BLOCK_SIZE /\
  exists w2 w3,
    write_good 0 5 (pattern x02) w1 = Some (RES_OK, w2) /\
    dev w2 = dev w1 /\ io_log w2 = io_log w1 /\
    read_good 0 5 (Some (pattern x00)) w2 = Some (RES_OK, Some (pattern x02), w3) /\
    dev w3 = dev w1 /\ io_log w3 = io_log w1.
Proof.
  intros w1.
  assert (write_good 0 5 (pattern x01) fresh = Some (RES_OK, w1)) as H2
      by (vm_compute; reflexivity).
  assert (length (pattern x02) = BLOCK_SIZE) as H3 by (vm_compute; reflexivity).
  assert (length (pattern x00) = BLOCK_SIZE) as H4 by (vm_compute; reflexivity).
  split; [exact fresh_inv|]. split; [exact H2|]. split; [exact H3|]. split; [exact H4|].
  exact (@X9_last_write_wins false unit good_read good_write good_read good_write false
           0%Z 5%Z (pattern x01) (pattern x02) (pattern x00) fresh w1 fresh_inv H2 H3 H4).
Defined.

Lemma one_dirty_slot_inv : cache_inv false (cache one_dirty_slot).
Proof.
  destruct (@run_init_first false unit good_read good_write good_read good_write false
              [OpWrite 0 5 (pattern x01)] start eq_refl eq_refl) as (w' & E & Hi).
  rewrite E. exact Hi.
Qed.

(** On the full pool of 128 dirty slots, a read of a new sector evicts
    slot 126: its block is written back, and is in the log. *)
Lemma X10_dirty_blocks_are_not_lost_witness :
  let o := OpRead 0 1000 None in
  let w := full_pool in
  let w' := match good_drive o w with Some (_, w') => w' | None => start end in
  cache_inv false (cache w) /\ is_init o = false /\
  good_drive o w = Some (RES_OK, w') /\
  needs_write_back (cache w) 126 = true /\
  ((needs_write_back (cache w') 126 = true /\
    slot_key (cache w') 126 = slot_key (cache w) 126 /\
    (data (entry (cache w') 126) = data (entry (cache w) 126) \/
     (is_write_op o = true /\ op_key o = Some (slot_key (cache w) 126))))
   \/
   (exists pre post, io_log w' = io_log w ++ pre ++ write_event (cache w) 126 :: post)).
Proof.
  intros o w w'.
  assert (is_init o = false) as H2 by reflexivity.
  assert (good_drive o w = Some (RES_OK, w')) as H3 by (vm_compute; reflexivity).
  assert (needs_write_back (cache w) 126 = true) as H4 by (vm_compute; reflexivity).
  split; [exact full_pool_inv|]. split; [exact H2|]. split; [exact H3|]. split; [exact H4|].
  exact (@X10_dirty_blocks_are_not_lost false unit good_read good_write good_read good_write
           false o w w' RES_OK 126 full_pool_inv H2 H3 H4).
Defined.

(** One dirty slot over a device that refuses every write. *)
Abbreviation one_dirty_slot_bad :=
  (match run_bad_write [OpInit; OpWrite 0 5 (pattern x01)] start with
   | Some w => w
   | None => start
   end) (only parsing).

Lemma X11_failed_flush_keeps_the_block_dirty_witness :
  let w := one_dirty_slot_bad in
  let w' := snd (flush_bad true true w) in
  flush_bad true true w = (RES_ERROR, w') /\ RES_ERROR <> RES_OK /\
  s_dirty_blocks (cache w') = true /\
  exists i log0,
    i < CACHE_SIZE /\
    needs_write_back (cache w) i = true /\
    needs_write_back (cache w') i = true /\
    slot_key (cache w') i = slot_key (cache w) i /\
    data (entry (cache w') i) = data (entry (cache w) i) /\
    io_log w' = log0 ++ [IoWrite (pdrv (entry (cache w) i)) (sector (entry (cache w) i))
                                 (data (entry (cache w) i)) RES_ERROR].
Proof.
  intros w w'.
  assert (flush_bad true true w = (RES_ERROR, w')) as H1 by (vm_compute; reflexivity).
  assert (RES_ERROR <> RES_OK) as H2 by discriminate.
  split; [exact H1|]. split; [exact H2|].
  exact (@X11_failed_flush_keeps_the_block_dirty unit bad_write bad_write false true true
           w w' RES_ERROR H1 H2).
Defined.

Lemma one_dirty_slot_flag : flag_inv (cache one_dirty_slot).
Proof. intros H. vm_compute in H. discriminate H. Qed.

Lemma X12_full_flush_keeps_the_cache_warm_witness :
  let w := one_dirty_slot in
  let w' := snd (flush_good true false w) in
  cache_inv false (cache w) /\ flag_inv (cache w) /\
  flush_good true false w = (RES_OK, w') /\
  s_dirty_blocks (cache w') = false /\
  (forall i, dirty (entry (cache w') i) = false) /\
  (forall i, valid (entry (cache w') i) = valid (entry (cache w) i) /\
             slot_key (cache w') i = slot_key (cache w) i /\
             data (entry (cache w') i) = data (entry (cache w) i)) /\
  (forall p sec, hash_lookup false (cache w') p sec = hash_lookup false (cache w) p sec) /\
  io_log w' = io_log w ++ map (write_event (cache w))
                              (filter (needs_write_back (cache w)) (seq 0 CACHE_SIZE)).
Proof.
  intros w w'.
  assert (flush_good true false w = (RES_OK, w')) as H3 by (vm_compute; reflexivity).
  split; [exact one_dirty_slot_inv|]. split; [exact one_dirty_slot_flag|].
  split; [exact H3|].
  exact (@X12_full_flush_keeps_the_cache_warm false unit good_write good_write false
           w w' one_dirty_slot_inv one_dirty_slot_flag H3).
Defined.

Lemma X13_flush_starts_at_the_first_dirty_slot_witness :
  let w := one_dirty_slot in
  s_dirty_blocks (cache w) = true /\
  127 < CACHE_SIZE /\ needs_write_back (cache w) 127 = true /\
  (forall j, j < 127 -> needs_write_back (cache w) j = false) /\
  disk_write_no_cache good_write good_write false (dev w) (pdrv (entry (cache w) 127))
                      (data (entry (cache w) 127)) (sector (entry (cache w) 127))
    = (RES_OK, tt) /\
  (is_ok RES_OK = false ->
   forall fa,
     flush_good fa false w =
     (RES_OK, mkWorld (cache w) tt
                (io_log w ++ [IoWrite (pdrv (entry (cache w) 127))
                                      (sector (entry (cache w) 127))
                                      (data (entry (cache w) 127)) RES_OK]))) /\
  (is_ok RES_OK = true ->
   flush_good false false w =
   (RES_OK, mkWorld (upd_entry 127 (set_dirty false) (cache w)) tt
                    (io_log w ++ [write_event (cache w) 127])) /\
   s_dirty_blocks (upd_entry 127 (set_dirty false) (cache w)) = true).
Proof.
  intros w.
  assert (s_dirty_blocks (cache w) = true) as H1 by (vm_compute; reflexivity).
  assert (127 < CACHE_SIZE) as H2 by (vm_compute; lia).
  assert (needs_write_back (cache w) 127 = true) as H3 by (vm_compute; reflexivity).
  assert (forall j, j < 127 -> needs_write_back (cache w) j = false) as H4.
  { intros j Hj.
    pose proof (@forall_below (fun j => negb (needs_write_back (cache w) j)) 127
                  ltac:(vm_compute; reflexivity) j Hj) as H.
    cbv beta in H. apply negb_true_iff in H. exact H. }
  assert (disk_write_no_cache good_write good_write false (dev w)
            (pdrv (entry (cache w) 127)) (data (entry (cache w) 127))
            (sector (entry (cache w) 127)) = (RES_OK, tt)) as H5
      by (vm_compute; reflexivity).
  split; [exact H1|]. split; [exact H2|]. split; [exact H3|]. split; [exact H4|].
  split; [exact H5|].
  exact (@X13_flush_starts_at_the_first_dirty_slot unit good_write good_write false w
           127 RES_OK tt H1 H2 H3 H4 H5).
Defined.

Lemma X14_device_calls_of_an_access_witness :
  let o := OpRead 0 1000 None in
  let w := full_pool in
  let w' := match good_drive o w with Some (_, w') => w' | None => start end in
  cache_inv false (cache w) /\ op_key o = Some (0, 1000)%Z /\
  good_drive o w = Some (RES_OK, w') /\
  exists wb rd,
    io_log w' = io_log w ++ wb ++ rd /\
    (wb = [] \/
     exists e r1, s_lru_tail (cache w) = Some e /\ needs_write_back (cache w) e = true /\
                  wb = [IoWrite (pdrv (entry (cache w) e)) (sector (entry (cache w) e))
                                (data (entry (cache w) e)) r1]) /\
    (rd = [] \/ (is_write_op o = false /\ exists r2, rd = [IoRead 0 1000 r2])).
Proof.
  intros o w w'.
  assert (op_key o = Some (0, 1000)%Z) as H2 by reflexivity.
  assert (good_drive o w = Some (RES_OK, w')) as H3 by (vm_compute; reflexivity).
  split; [exact full_pool_inv|]. split; [exact H2|]. split; [exact H3|].
  exact (@X14_device_calls_of_an_access false unit good_read good_write good_read good_write
           false o 0%Z 1000%Z w w' RES_OK full_pool_inv H2 H3).
Defined.

Lemma X15_unsupported_drive_witness :
  unsupported_drive false 7 /\
  (forall d buff sec,
      disk_read_no_cache good_read good_read false d 7 buff sec = (RES_PARERR, buff, d)) /\
  (forall d buff sec,
      disk_write_no_cache good_write good_write false d 7 buff sec = (RES_PARERR, d)) /\
  (forall w i fa,
      s_dirty_blocks (cache w) = true ->
      i < CACHE_SIZE -> needs_write_back (cache w) i = true ->
      (forall j, j < i -> needs_write_back (cache w) j = false) ->
      pdrv (entry (cache w) i) = 7%Z ->
      flush_good fa false w =
      (RES_PARERR,
       mkWorld (cache w) (dev w)
               (io_log w ++ [IoWrite 7 (sector (entry (cache w) i))
                                     (data (entry (cache w) i)) RES_PARERR]))).
Proof.
  assert (unsupported_drive false 7) as H1 by (split; reflexivity).
  split; [exact H1|].
  exact (@X15_unsupported_drive unit good_read good_write good_read good_write false 7%Z H1).
Defined.

Lemma X16_write_is_absorbed_witness :
  cache_inv false (cache fresh) /\
  (s_free_head (cache fresh) <> None \/
   (exists e, hash_lookup false (cache fresh) 1 9 = Some (Some e))) /\
  exists e w',
    write_good 1 9 (pattern x03) fresh = Some (RES_OK, w') /\
    dev w' = dev fresh /\ io_log w' = io_log fresh /\
    hash_lookup false (cache w') 1 9 = Some (Some e) /\
    needs_write_back (cache w') e = true /\
    s_dirty_blocks (cache w') = true.
Proof.
  assert (s_free_head (cache fresh) <> None \/
          (exists e, hash_lookup false (cache fresh) 1 9 = Some (Some e))) as H2
      by (left; vm_compute; discriminate).
  split; [exact fresh_inv|]. split; [exact H2|].
  exact (@X16_write_is_absorbed false unit good_read good_write good_read good_write false
           1%Z 9%Z (pattern x03) fresh fresh_inv H2).
Defined.

(** The glue layer over the stand-in drivers, with [false] for the
    argument that diskio.c leaves out. *)
Abbreviation disk_read_good :=
  (@disk_read false unit good_read good_write good_read good_write false
              good_read_n good_read_n false) (only parsing).
Abbreviation disk_write_good :=
  (@disk_write false unit good_write good_write false good_write_n good_write_n false)
  (only parsing).
Abbreviation disk_task_good :=
  (@disk_task false unit good_read good_write good_read good_write false false)
  (only parsing).
Abbreviation disk_run_good :=
  (@disk_run false unit good_read good_write good_read good_write false
             good_read_n good_write_n good_read_n good_write_n
             good_initialize good_initialize good_ioctl good_ioctl 1 false)
  (only parsing).
Abbreviation disk_ready := (disk_init (disk_boot tt)) (only parsing).

Lemma disk_ready_inv : cache_inv false (cache (bc disk_ready)).
Proof. exact fresh_inv. Qed.

Lemma X18_read_ahead_serves_the_next_sector_witness :
  let g := disk_ready in
  let r1 := disk_read_good 0 (pattern x07) 5 1 g in
  let g1 := match r1 with Some (_, _, g1) => g1 | None => g end in
  let b := match r1 with Some (_, b, _) => b | None => [] end in
  let w0 := after_read (read_good 0 (lba_wrap false (5 + 1)) None (bc g1)) in
  cache_inv false (cache (bc g)) /\
  disk_read_good 0 (pattern x07) 5 1 g = Some (RES_OK, b, g1) /\
  read_good 0 (lba_wrap false (5 + 1)) None (bc g1) = Some (RES_OK, None, w0) /\
  exists e g3,
    disk_task_good g1 = Some (mkDisk w0 (block_cache_initalized g) false 0 5) /\
    hash_lookup false (cache w0) 0 (lba_wrap false (5 + 1)) = Some (Some e) /\
    disk_read_good 0 (pattern x08) (lba_wrap false (5 + 1)) 1
                   (mkDisk w0 (block_cache_initalized g) false 0 5)
      = Some (RES_OK, memcpy (pattern x08) (data (entry (cache w0) e)) BLOCK_SIZE, g3) /\
    dev (bc g3) = dev w0 /\ io_log (bc g3) = io_log w0.
Proof.
  intros g r1 g1 b w0.
  assert (disk_read_good 0 (pattern x07) 5 1 g = Some (RES_OK, b, g1)) as H2
      by (vm_compute; reflexivity).
  assert (read_good 0 (lba_wrap false (5 + 1)) None (bc g1) = Some (RES_OK, None, w0)) as H3
      by (vm_compute; reflexivity).
  split; [exact disk_ready_inv|]. split; [exact H2|]. split; [exact H3|].
  exact (@X18_read_ahead_serves_the_next_sector false unit good_read good_write good_read
           good_write false good_read_n good_read_n false 0%Z 5%Z (pattern x07) (pattern x08)
           b None g g1 w0 disk_ready_inv H2 H3).
Defined.

Lemma X19_disk_task_does_bounded_work_witness :
  let g := disk_ready in
  cache_inv false (cache (bc g)) /\
  exists g' evs,
    disk_task_good g = Some g' /\
    io_log (bc g') = io_log (bc g) ++ evs /\
    length evs <= 2 /\
    (read_ahead g = false -> length evs <= 1) /\
    read_ahead g' = false /\
    cache_inv false (cache (bc g')).
Proof.
  intros g. split; [exact disk_ready_inv|].
  exact (@X19_disk_task_does_bounded_work false unit good_read good_write good_read
           good_write false false g disk_ready_inv).
Defined.

(** After a read of sector 5, its read-ahead and an idle flush: sectors
    5 and 6 are cached and nothing is dirty. *)
Abbreviation disk_idle :=
  (match disk_run_good [CallInit; CallRead 0 (pattern x00) 5 1; CallTask; CallTask]
                       (disk_boot tt) with
   | Some g => g
   | None => disk_boot tt
   end) (only parsing).

Lemma X20_multi_sector_write_bypasses_the_cache_witness :
  let g := disk_idle in
  let buff := pattern x01 ++ pattern x02 in
  (2 =? 1)%Z = false /\
  s_dirty_blocks (cache (bc g)) = false /\
  disk_write_no_cache_n false good_write_n good_write_n (dev (bc g)) 0 buff 5 2
    = (RES_OK, tt) /\
  disk_write_good 0 buff 5 2 g
    = Some (RES_OK, set_bc (mkWorld (cache (bc g)) tt (io_log (bc g))) g) /\
  forall p sec e out,
    hash_lookup false (cache (bc g)) p sec = Some (Some e) ->
    exists g2,
      disk_read_good p out sec 1 (set_bc (mkWorld (cache (bc g)) tt (io_log (bc g))) g)
        = Some (RES_OK, memcpy out (data (entry (cache (bc g)) e)) BLOCK_SIZE, g2) /\
      dev (bc g2) = tt /\ io_log (bc g2) = io_log (bc g).
Proof.
  intros g buff.
  assert ((2 =? 1)%Z = false) as H1 by reflexivity.
  assert (s_dirty_blocks (cache (bc g)) = false) as H2 by (vm_compute; reflexivity).
  assert (disk_write_no_cache_n false good_write_n good_write_n (dev (bc g)) 0 buff 5 2
          = (RES_OK, tt)) as H3 by (vm_compute; reflexivity).
  split; [exact H1|]. split; [exact H2|]. split; [exact H3|].
  exact (@X20_multi_sector_write_bypasses_the_cache false unit good_read good_write
           good_read good_write false good_read_n good_write_n good_read_n good_write_n
           false 0%Z 5%Z 2%Z buff g RES_OK tt H1 H2 H3).
Defined.

(** The stale read that X20 allows, evaluated: sector 5 is cached with
    the zeros the stand-in driver left in the buffer; after a
    two-sector write at sector 5, the read of sector 5 still hands back
    the zeros. *)
Example stale_read_evaluated :
  match disk_write_good 0 (pattern x01 ++ pattern x02) 5 2 disk_idle with
  | Some (r1, g1) =>
      match disk_read_good 0 (pattern x09) 5 1 g1 with
      | Some (r2, b, _) => r1 = RES_OK /\ r2 = RES_OK /\ b = pattern x00
      | None => False
      end
  | None => False
  end.
Proof.
  vm_compute. repeat split.
Qed.

(** After [disk_init] and one single-sector write: one dirty block. *)
Abbreviation disk_one_dirty :=
  (match disk_run_good [CallInit; CallWrite 0 (pattern x01) 5 1] (disk_boot tt) with
   | Some g => g
   | None => disk_boot tt
   end) (only parsing).

Lemma X21_ioctl_writes_the_cache_back_first_witness :
  let g := disk_one_dirty in
  cache_inv false (cache (bc g)) /\ flag_inv (cache (bc g)) /\
  (forall i d, i < CACHE_SIZE -> needs_write_back (cache (bc g)) i = true ->
               is_ok (fst (disk_write_no_cache good_write good_write false d
                             (pdrv (entry (cache (bc g)) i))
                             (data (entry (cache (bc g)) i))
                             (sector (entry (cache (bc g)) i)))) = true) /\
  exists w1,
    flush_good true false (bc g) = (RES_OK, w1) /\
    io_log w1 = io_log (bc g)
                ++ map (write_event (cache (bc g)))
                       (filter (needs_write_back (cache (bc g))) (seq 0 CACHE_SIZE)) /\
    (forall i, dirty (entry (cache w1) i) = false) /\
    disk_ioctl good_write good_write false good_ioctl good_ioctl false 0 0 [] g =
      (let '(result, b, d') :=
         if (0 =? DEV_SD)%Z then good_ioctl (dev w1) 0 []
         else if false && (0 =? DEV_USB)%Z then good_ioctl (dev w1) 0 []
         else (RES_PARERR, [], dev w1) in
       (result, b, set_bc (mkWorld (cache w1) d' (io_log w1)) g)) /\
    disk_initialize good_write good_write false good_initialize good_initialize 1 false 0 g =
      (let '(status, d') :=
         if (0 =? DEV_SD)%Z then good_initialize (dev w1)
         else if false && (0 =? DEV_USB)%Z then good_initialize (dev w1)
         else (1%Z, dev w1) in
       (status, set_bc (mkWorld (cache w1) d' (io_log w1)) g)).
Proof.
  intros g.
  assert (cache_inv false (cache (bc g))) as H1.
  { destruct (@disk_run_ok false unit good_read good_write good_read good_write false
                good_read_n good_write_n good_read_n good_write_n
                good_initialize good_initialize good_ioctl good_ioctl 1%Z false
                [CallInit; CallWrite 0 (pattern x01) 5 1] (disk_boot tt)
                (disk_boot_ok false tt)) as (g' & E & ((Hi & _) & _)).
    unfold g. rewrite E. exact Hi. }
  assert (flag_inv (cache (bc g))) as H2 by (intros H; vm_compute in H; discriminate H).
  assert (forall i d, i < CACHE_SIZE -> needs_write_back (cache (bc g)) i = true ->
            is_ok (fst (disk_write_no_cache good_write good_write false d
                          (pdrv (entry (cache (bc g)) i))
                          (data (entry (cache (bc g)) i))
                          (sector (entry (cache (bc g)) i)))) = true) as H3.
  { intros i [] Hi Hn.
    pose proof (@forall_below
                  (fun i => implb (needs_write_back (cache (bc g)) i)
                     (is_ok (fst (disk_write_no_cache good_write good_write false tt
                                    (pdrv (entry (cache (bc g)) i))
                                    (data (entry (cache (bc g)) i))
                                    (sector (entry (cache (bc g)) i))))))
                  CACHE_SIZE ltac:(vm_compute; reflexivity) i Hi) as H.
    cbv beta in H. rewrite Hn, implb_true_l in H. exact H. }
  split; [exact H1|]. split; [exact H2|]. split; [exact H3|].
  exact (@X21_ioctl_writes_the_cache_back_first false unit good_write good_write false
           good_initialize good_initialize good_ioctl good_ioctl 1%Z false 0%Z 0%Z [] g
           H1 H2 H3).
Defined.

Lemma X22_flagged_flush_invalidates_everything_witness :
  let w := one_dirty_slot in
  cache_inv false (cache w) /\
  s_dirty_blocks (cache w) = true /\
  (forall i d, i < CACHE_SIZE -> needs_write_back (cache w) i = true ->
     is_ok (fst (disk_write_no_cache good_write good_write false d
                   (pdrv (entry (cache w) i)) (data (entry (cache w) i))
                   (sector (entry (cache w) i)))) = true) /\
  exists w',
    block_cache_flush good_write good_write false true true w = (RES_OK, w') /\
    (forall i, i < CACHE_SIZE ->
       valid (entry (cache w') i) = false /\ dirty (entry (cache w') i) = false) /\
    io_log w' = io_log w ++ map (write_event (cache w))
                                (filter (needs_write_back (cache w)) (seq 0 CACHE_SIZE)) /\
    forall p sec, hash_lookup false (cache w') p sec = Some None.
Proof.
  intros w.
  assert (cache_inv false (cache w)) as H1.
  { destruct (@run_init_first false unit good_read good_write good_read good_write false
                [OpWrite 0 5 (pattern x01)] start eq_refl eq_refl) as (w' & E & Hi).
    unfold w. rewrite E. exact Hi. }
  assert (s_dirty_blocks (cache w) = true) as H2 by (vm_compute; reflexivity).
  assert (forall i d, i < CACHE_SIZE -> needs_write_back (cache w) i = true ->
     is_ok (fst (disk_write_no_cache good_write good_write false d
                   (pdrv (entry (cache w) i)) (data (entry (cache w) i))
                   (sector (entry (cache w) i)))) = true) as H3.
  { intros i [] Hi Hn.
    pose proof (@forall_below
                  (fun i => implb (needs_write_back (cache w) i)
                     (is_ok (fst (disk_write_no_cache good_write good_write false tt
                                    (pdrv (entry (cache w) i)) (data (entry (cache w) i))
                                    (sector (entry (cache w) i))))))
                  CACHE_SIZE ltac:(vm_compute; reflexivity) i Hi) as H.
    cbv beta in H. rewrite Hn, implb_true_l in H. exact H. }
  split; [exact H1|]. split; [exact H2|]. split; [exact H3|].
  exact (proj2 (@X22_flagged_flush_invalidates_everything false unit good_write good_write false w H1)
               H2 H3).
Defined.
